(** * Ponder indexing engine: sync store, sync gateway and indexing scheduler

    A shallow embedding of the parts of the engine that the specification
    makes claims about:

    - [Checkpoint]: the checkpoint order used everywhere;
    - [Interval]: the interval algebra used by the interval bookkeeping;
    - [SyncStore]: [PostgresSyncStore] ([getLogEvents], [buildCheckpointCmprs],
      [getLogFilterIntervals], [getFactoryChildAddresses],
      [deleteRealtimeData]);
    - [SyncGateway]: the cross-chain checkpoint reducer;
    - [Indexing]: [IndexingService] ([handleReorg], [enqueueLogEventTasks],
      [executeLogEventTask], [loadIndexingFunctionTasks],
      [buildIndexingFunctionStates]).

    JavaScript numbers and bigints that hold block numbers, timestamps, chain
    ids and log indices are modelled as [Z], and [Number(...)] of a bigint
    as the rounding to the nearest double ([SyncStore.Number]); hex strings
    as [string]; SQL tables as lists of records in storage order; SQL
    predicates in the three-valued logic of SQL ([option bool], [None] being
    NULL). *)

From Stdlib Require Import ZArith Lia Bool.
From stdpp Require Import base decidable option list sorting strings gmap.

Local Open Scope Z_scope.

(** ** Checkpoints *)

Module Checkpoint.

(** [Checkpoint] of [@/utils/checkpoint.js]; [logIndex] is optional there. *)
Record Checkpoint : Type := mkCheckpoint {
  blockTimestamp : Z;
  chainId : Z;
  blockNumber : Z;
  logIndex : option Z;
}.

#[global] Instance Checkpoint_eq_dec : EqDecision Checkpoint.
Proof. solve_decision. Defined.

(** Modelled from the spec: [zeroCheckpoint] of [@/utils/checkpoint.js],
    which is not among the sources ("zeroCheckpoint has all zeros"). *)
Definition zeroCheckpoint : Checkpoint :=
  {| blockTimestamp := 0; chainId := 0; blockNumber := 0; logIndex := Some 0 |}.

(** Modelled from the spec: [maxCheckpoint] of [@/utils/checkpoint.js]
    ("maxCheckpoint saturates all fields", three [u64] and a [u32]). *)
Definition maxCheckpoint : Checkpoint :=
  {| blockTimestamp := 2 ^ 64 - 1; chainId := 2 ^ 64 - 1; blockNumber := 2 ^ 64 - 1;
     logIndex := Some (2 ^ 32 - 1) |}.

(** Modelled from the spec: [isCheckpointGreaterThan] of
    [@/utils/checkpoint.js], which is not among the sources.  "Total order is
    lexicographic in that field order; a missing logIndex represents
    end-of-block": a checkpoint without a log index lies after every log
    of its block. *)
Definition isCheckpointGreaterThan (a b : Checkpoint) : bool :=
  if negb (blockTimestamp a =? blockTimestamp b) then blockTimestamp a >? blockTimestamp b
  else if negb (chainId a =? chainId b) then chainId a >? chainId b
  else if negb (blockNumber a =? blockNumber b) then blockNumber a >? blockNumber b
  else match logIndex a, logIndex b with
       | Some x, Some y => x >? y
       | None, Some _ => true
       | Some _, None => false
       | None, None => false
       end.

(** Modelled from the spec: [isCheckpointEqual] of [@/utils/checkpoint.js]. *)
Definition isCheckpointEqual (a b : Checkpoint) : bool :=
  (blockTimestamp a =? blockTimestamp b) && (chainId a =? chainId b)
  && (blockNumber a =? blockNumber b)
  && match logIndex a, logIndex b with
     | Some x, Some y => x =? y
     | None, None => true
     | _, _ => false
     end.

(** Modelled from the spec: [isCheckpointGreaterThanOrEqualTo] of
    [@/utils/checkpoint.js]. *)
Definition isCheckpointGreaterThanOrEqualTo (a b : Checkpoint) : bool :=
  isCheckpointGreaterThan a b || isCheckpointEqual a b.

(** Modelled from the spec: [checkpointMax] and [checkpointMin] of
    [@/utils/checkpoint.js] ("Total order ... with min/max/compare").  They
    are variadic in the source; the binary step is given here and the
    variadic forms fold it over a non-empty argument list. *)
Definition max2 (a b : Checkpoint) : Checkpoint :=
  if isCheckpointGreaterThan b a then b else a.
Definition min2 (a b : Checkpoint) : Checkpoint :=
  if isCheckpointGreaterThan a b then b else a.

Definition checkpointMax (c : Checkpoint) (cs : list Checkpoint) : Checkpoint :=
  foldl max2 c cs.
Definition checkpointMin (c : Checkpoint) (cs : list Checkpoint) : Checkpoint :=
  foldl min2 c cs.

(** The order as propositions. *)
Definition lt (a b : Checkpoint) : Prop := isCheckpointGreaterThan b a = true.
Definition le (a b : Checkpoint) : Prop := isCheckpointGreaterThan a b = false.

#[global] Instance lt_dec a b : Decision (lt a b).
Proof. unfold lt. apply _. Defined.
#[global] Instance le_dec a b : Decision (le a b).
Proof. unfold le. apply _. Defined.

(** The order read off the five integers that decide it: the three block
    fields, whether the log index is missing, and the log index. *)
Definition idxMissing (c : Checkpoint) : Z :=
  match logIndex c with None => 1 | Some _ => 0 end.
Definition idxValue (c : Checkpoint) : Z :=
  match logIndex c with None => 0 | Some x => x end.

Definition lexLt (a b : Checkpoint) : Prop :=
  blockTimestamp a < blockTimestamp b ∨
  (blockTimestamp a = blockTimestamp b ∧
   (chainId a < chainId b ∨
    (chainId a = chainId b ∧
     (blockNumber a < blockNumber b ∨
      (blockNumber a = blockNumber b ∧
       (idxMissing a < idxMissing b ∨
        (idxMissing a = idxMissing b ∧ idxValue a < idxValue b))))))).

Lemma idxMissing_range c : 0 <= idxMissing c <= 1.
Proof. unfold idxMissing. destruct (logIndex c); lia. Qed.

Lemma isCheckpointGreaterThan_lex a b :
  isCheckpointGreaterThan a b = true ↔ lexLt b a.
Proof.
  unfold isCheckpointGreaterThan, lexLt, idxMissing, idxValue.
  destruct (Z.eqb_spec (blockTimestamp a) (blockTimestamp b)); simpl;
    [|rewrite Z.gtb_ltb, Z.ltb_lt; lia].
  destruct (Z.eqb_spec (chainId a) (chainId b)); simpl;
    [|rewrite Z.gtb_ltb, Z.ltb_lt; lia].
  destruct (Z.eqb_spec (blockNumber a) (blockNumber b)); simpl;
    [|rewrite Z.gtb_ltb, Z.ltb_lt; lia].
  destruct (logIndex a), (logIndex b); rewrite ?Z.gtb_ltb, ?Z.ltb_lt; try lia;
    split; (lia || congruence || discriminate).
Qed.

Lemma isCheckpointGreaterThan_lex_false a b :
  isCheckpointGreaterThan a b = false ↔ ¬ lexLt b a.
Proof. rewrite <- isCheckpointGreaterThan_lex. by destruct (isCheckpointGreaterThan a b). Qed.

Lemma lex_eq a b :
  blockTimestamp a = blockTimestamp b → chainId a = chainId b →
  blockNumber a = blockNumber b → idxMissing a = idxMissing b →
  idxValue a = idxValue b → a = b.
Proof.
  destruct a as [? ? ? [?|]], b as [? ? ? [?|]]; unfold idxMissing, idxValue; simpl;
    intros; subst; (done || lia).
Qed.

Ltac solve_cmp :=
  unfold lt, le in *;
  rewrite ?isCheckpointGreaterThan_lex, ?isCheckpointGreaterThan_lex_false in *;
  unfold lexLt in *;
  repeat match goal with
    | c : Checkpoint |- _ =>
        lazymatch goal with
        | H : 0 <= idxMissing c <= 1 |- _ => fail
        | _ => pose proof (idxMissing_range c)
        end
    end;
  lia.

Lemma lt_irrefl a : ¬ lt a a.
Proof. solve_cmp. Qed.

Lemma lt_trans a b c : lt a b → lt b c → lt a c.
Proof. solve_cmp. Qed.

Lemma lt_asym a b : lt a b → ¬ lt b a.
Proof. solve_cmp. Qed.

Lemma lt_le a b : lt a b → le a b.
Proof. solve_cmp. Qed.

Lemma le_refl a : le a a.
Proof. solve_cmp. Qed.

Lemma le_trans a b c : le a b → le b c → le a c.
Proof. solve_cmp. Qed.

Lemma le_lt_trans a b c : le a b → lt b c → lt a c.
Proof. solve_cmp. Qed.

Lemma lt_le_trans a b c : lt a b → le b c → lt a c.
Proof. solve_cmp. Qed.

(** Block-level granularity: the order of the three block fields alone. *)
Definition blockLt (a b : Checkpoint) : Prop :=
  blockTimestamp a < blockTimestamp b ∨
  (blockTimestamp a = blockTimestamp b ∧
   (chainId a < chainId b ∨
    (chainId a = chainId b ∧ blockNumber a < blockNumber b))).

(** A checkpoint without log index is the end of its block: as a lower
    bound it excludes, and as an upper bound it includes, every log of the
    block. *)
Lemma lt_blockLt a b : logIndex a = None → lt a b → blockLt a b.
Proof.
  unfold lt, blockLt. rewrite isCheckpointGreaterThan_lex.
  unfold lexLt, idxMissing, idxValue. intros ->. destruct (logIndex b); lia.
Qed.

Lemma le_not_blockLt a b : le b a → ¬ blockLt a b.
Proof.
  unfold le, blockLt. rewrite isCheckpointGreaterThan_lex_false. unfold lexLt. lia.
Qed.

Lemma blockLt_lt a b : blockLt a b → lt a b.
Proof. unfold lt, blockLt. rewrite isCheckpointGreaterThan_lex. unfold lexLt. lia. Qed.

Lemma not_blockLt_le a b : logIndex a = None → ¬ blockLt a b → le b a.
Proof.
  unfold le, blockLt. rewrite isCheckpointGreaterThan_lex_false. unfold lexLt, idxMissing, idxValue.
  intros ->. destruct (logIndex b); lia.
Qed.

Lemma le_total a b : le a b ∨ le b a.
Proof.
  unfold le. destruct (isCheckpointGreaterThan a b) eqn:E; [right|by left].
  apply (lt_le b a). exact E.
Qed.

Lemma le_antisym a b : le a b → le b a → a = b.
Proof. intros H1 H2. apply lex_eq; solve_cmp. Qed.

Lemma not_lt_le a b : ¬ lt a b ↔ le b a.
Proof. unfold lt, le. destruct (isCheckpointGreaterThan b a); naive_solver. Qed.

Lemma not_le_lt a b : ¬ le a b ↔ lt b a.
Proof. unfold lt, le. destruct (isCheckpointGreaterThan a b); naive_solver. Qed.

Lemma le_lt_or_eq a b : le a b ↔ lt a b ∨ a = b.
Proof.
  split.
  - intros H. destruct (decide (lt a b)) as [|Hn]; [by left|right].
    apply le_antisym; [done|]. by apply not_lt_le.
  - intros [H| ->]; [by apply lt_le|apply le_refl].
Qed.

Lemma isCheckpointEqual_eq a b : isCheckpointEqual a b = true ↔ a = b.
Proof.
  split; [|intros ->; destruct b as [? ? ? [?|]]; unfold isCheckpointEqual; simpl;
              rewrite ?Z.eqb_refl; done].
  destruct a as [? ? ? [?|]], b as [? ? ? [?|]]; unfold isCheckpointEqual; simpl;
    rewrite ?andb_true_iff, ?Z.eqb_eq; intros [[[? ?] ?] ?]; subst; done.
Qed.

Lemma isCheckpointGreaterThanOrEqualTo_le a b :
  isCheckpointGreaterThanOrEqualTo a b = true ↔ le b a.
Proof.
  unfold isCheckpointGreaterThanOrEqualTo.
  rewrite orb_true_iff, isCheckpointEqual_eq, le_lt_or_eq. unfold lt.
  split; (intros [H|H]; [by left|by right]).
Qed.

Lemma max2_le_l a b : le a (max2 a b).
Proof.
  unfold max2. destruct (isCheckpointGreaterThan b a) eqn:E; [by apply lt_le|apply le_refl].
Qed.
Lemma max2_le_r a b : le b (max2 a b).
Proof. unfold max2. destruct (isCheckpointGreaterThan b a) eqn:E; [apply le_refl|done]. Qed.
Lemma max2_lub a b c : le a c → le b c → le (max2 a b) c.
Proof. unfold max2. by destruct (isCheckpointGreaterThan b a). Qed.
Lemma min2_le_l a b : le (min2 a b) a.
Proof.
  unfold min2. destruct (isCheckpointGreaterThan a b) eqn:E; [by apply lt_le|apply le_refl].
Qed.
Lemma min2_le_r a b : le (min2 a b) b.
Proof. unfold min2. destruct (isCheckpointGreaterThan a b) eqn:E; [apply le_refl|done]. Qed.
Lemma min2_glb a b c : le c a → le c b → le c (min2 a b).
Proof. unfold min2. by destruct (isCheckpointGreaterThan a b). Qed.
Lemma min2_mono a b a' b' : le a a' → le b b' → le (min2 a b) (min2 a' b').
Proof.
  intros Ha Hb. apply min2_glb.
  - eapply le_trans; [apply min2_le_l|done].
  - eapply le_trans; [apply min2_le_r|done].
Qed.

Lemma checkpointMin_le_head c cs : le (checkpointMin c cs) c.
Proof.
  unfold checkpointMin. revert c. induction cs as [|d cs IH]; intros c; simpl.
  - apply le_refl.
  - eapply le_trans; [apply IH|apply min2_le_l].
Qed.

Lemma checkpointMin_le_elem c cs d : d ∈ cs → le (checkpointMin c cs) d.
Proof.
  unfold checkpointMin. revert c. induction cs as [|x cs IH]; intros c Hd; simpl.
  - by apply elem_of_nil in Hd.
  - apply elem_of_cons in Hd as [->|Hd]; [|by apply IH].
    eapply le_trans; [apply (checkpointMin_le_head (min2 c x) cs)|apply min2_le_r].
Qed.

Lemma checkpointMin_glb c cs x :
  le x c → (∀ d, d ∈ cs → le x d) → le x (checkpointMin c cs).
Proof.
  unfold checkpointMin. revert c. induction cs as [|d cs IH]; intros c Hc Hcs; simpl.
  - done.
  - apply IH.
    + apply min2_glb; [done|]. apply Hcs. by left.
    + intros e He. apply Hcs. by right.
Qed.

Lemma checkpointMin_elem c cs : checkpointMin c cs ∈ c :: cs.
Proof.
  unfold checkpointMin. revert c. induction cs as [|d cs IH]; intros c; simpl.
  - by left.
  - specialize (IH (min2 c d)). apply elem_of_cons in IH as [->|IH].
    + unfold min2. destruct (isCheckpointGreaterThan c d); [right|]; by left.
    + right. by right.
Qed.

End Checkpoint.

(** ** Sorted lists *)

Section SortedFacts.
Context {A B : Type}.

Lemma HdRel_take (R : relation A) x l n : HdRel R x l → HdRel R x (take n l).
Proof. destruct 1, n; simpl; by constructor. Qed.

Lemma Sorted_take (R : relation A) l n : Sorted R l → Sorted R (take n l).
Proof.
  intros H. revert n. induction H as [|x l Hl IH Hx]; intros [|n]; simpl;
    try constructor; [apply IH|by apply HdRel_take].
Qed.

Lemma Sorted_fmap_on (P : A → Prop) (R : relation A) (R' : relation B) (f : A → B) l :
  (∀ x y, P x → P y → R x y → R' (f x) (f y)) →
  Forall P l → Sorted R l → Sorted R' (f <$> l).
Proof.
  intros Hf HP H. induction H as [|x l Hl IH Hx]; simpl; [constructor|].
  apply Forall_cons in HP as [Px HP]. constructor; [by apply IH|].
  destruct Hx as [|y l' Hxy]; simpl; constructor.
  apply Forall_cons in HP as [Py _]. by apply Hf.
Qed.

Lemma Sorted_weaken_NoDup (R R' : relation A) l :
  (∀ x y, R x y → x ≠ y → R' x y) → Sorted R l → NoDup l → Sorted R' l.
Proof.
  intros HR H. induction H as [|x l Hl IH Hx]; intros Hnd; [constructor|].
  apply NoDup_cons in Hnd as [Hx' Hnd]. constructor; [by apply IH|].
  destruct Hx as [|y l' Hxy]; constructor.
  apply HR; [done|]. intros ->. apply Hx'. by left.
Qed.
End SortedFacts.

(** ** Interval algebra *)

Module Interval.

(** A closed interval [[startBlock, endBlock]] of block numbers. *)
Definition Interval : Type := Z * Z.

Definition startLe (a b : Interval) : Prop := a.1 <= b.1.

#[global] Instance startLe_dec : RelDecision startLe.
Proof. intros a b. unfold startLe. apply _. Defined.
#[global] Instance startLe_total : Total startLe.
Proof. intros a b. unfold startLe. lia. Qed.
#[global] Instance startLe_trans : Transitive startLe.
Proof. intros a b c. unfold startLe. lia. Qed.





(** The blocks an interval list covers. *)
Definition covers (l : list Interval) (n : Z) : Prop :=
  ∃ i, i ∈ l ∧ i.1 <= n <= i.2.

Definition wf (i : Interval) : Prop := i.1 <= i.2.

#[global] Instance wf_dec i : Decision (wf i).
Proof. unfold wf. apply _. Defined.





Lemma covers_app l1 l2 n : covers (l1 ++ l2) n ↔ covers l1 n ∨ covers l2 n.
Proof.
  unfold covers. split.
  - intros (j & Hj & Hn). apply elem_of_app in Hj as [Hj|Hj]; eauto.
  - intros [(j & Hj & Hn)|(j & Hj & Hn)]; exists j; rewrite elem_of_app; auto.
Qed.














End Interval.

(** ** Sync store: event pages *)

Module SyncStore.
Import Checkpoint.

(** Hex strings of the source ([Hex] of viem). *)
Abbreviation Hex := string (only parsing).

(** Rows of the [blocks], [transactions] and [logs] tables, with the columns
    the queries below read. *)
Record BlockRow : Type := mkBlockRow {
  block_hash : Hex;
  block_chainId : Z;
  block_number : Z;
  block_timestamp : Z;
}.

Record TransactionRow : Type := mkTransactionRow {
  tx_hash : Hex;
  tx_chainId : Z;
  tx_blockNumber : Z;
  tx_from : Hex;
  tx_to : option Hex;
  tx_type : Hex;
  tx_accessList : option string;
}.

Record LogRow : Type := mkLogRow {
  log_id : string;
  log_chainId : Z;
  log_blockHash : Hex;
  log_blockNumber : Z;
  log_logIndex : Z;
  log_transactionHash : Hex;
  log_address : Hex;
  log_topic0 : option Hex;
  log_topic1 : option Hex;
  log_topic2 : option Hex;
  log_topic3 : option Hex;
  log_data : Hex;
}.

#[global] Instance BlockRow_eq_dec : EqDecision BlockRow.
Proof. solve_decision. Defined.
#[global] Instance TransactionRow_eq_dec : EqDecision TransactionRow.
Proof. solve_decision. Defined.
#[global] Instance LogRow_eq_dec : EqDecision LogRow.
Proof. solve_decision. Defined.

(** *** SQL expressions *)

(** A truth value of SQL: [None] is NULL. *)
Definition tri : Type := option bool.

Definition sqlAnd2 (a b : tri) : tri :=
  match a, b with
  | Some false, _ | _, Some false => Some false
  | Some true, Some true => Some true
  | _, _ => None
  end.

Definition sqlOr2 (a b : tri) : tri :=
  match a, b with
  | Some true, _ | _, Some true => Some true
  | Some false, Some false => Some false
  | _, _ => None
  end.

(** [eb.and([...])] and [eb.or([...])] of kysely. *)
Definition sqlAnd (es : list tri) : tri := foldr sqlAnd2 (Some true) es.
Definition sqlOr (es : list tri) : tri := foldr sqlOr2 (Some false) es.

Inductive CmpOp : Type := OpGt | OpGe | OpLt | OpLe.

Definition cmpZ (op : CmpOp) (x y : Z) : bool :=
  match op with
  | OpGt => y <? x
  | OpGe => y <=? x
  | OpLt => x <? y
  | OpLe => x <=? y
  end.

(** [eb(column, op, value)]: NULL when the column is NULL. *)
Definition sqlCmp (col : option Z) (op : CmpOp) (v : Z) : tri :=
  match col with
  | Some x => Some (cmpZ op x v)
  | None => None
  end.

(** A WHERE clause keeps the rows on which it is true. *)
Definition sqlHolds (t : tri) : bool :=
  match t with Some true => true | _ => false end.

(** [a.leftJoin(b, on)]: every row of [a] with each row of [b] that it joins
    with, or with NULLs when there is none. *)
Definition leftJoin {A B : Type} (on : A → B → bool) (xs : list A) (ys : list B)
  : list (A * option B) :=
  x ← xs;
  match filter (λ y, on x y = true) ys with
  | [] => [(x, None)]
  | ms => (λ y, (x, Some y)) <$> ms
  end.

(** A row of [logs LEFT JOIN blocks LEFT JOIN transactions]. *)
Record JoinedRow : Type := mkJoinedRow {
  jr_log : LogRow;
  jr_block : option BlockRow;
  jr_tx : option TransactionRow;
}.

Definition joinLogs (logs : list LogRow) (blocks : list BlockRow)
    (transactions : list TransactionRow) : list JoinedRow :=
  '(lb, t) ← leftJoin (λ (lb : LogRow * option BlockRow) (t : TransactionRow),
                         bool_decide (tx_hash t = log_transactionHash lb.1))
               (leftJoin (λ (l : LogRow) (b : BlockRow),
                            bool_decide (block_hash b = log_blockHash l)) logs blocks)
               transactions;
  [mkJoinedRow lb.1 lb.2 t].

(** The four columns the page is ordered by. *)
Definition col_timestamp (r : JoinedRow) : option Z := block_timestamp <$> jr_block r.
Definition col_chainId (r : JoinedRow) : option Z := Some (log_chainId (jr_log r)).
Definition col_number (r : JoinedRow) : option Z := block_number <$> jr_block r.
Definition col_logIndex (r : JoinedRow) : option Z := Some (log_logIndex (jr_log r)).

(** [buildCheckpointCmprs]. *)
Definition opStartsWithGt (op : CmpOp) : bool :=
  match op with OpGt | OpGe => true | _ => false end.
Definition opEndsWithEq (op : CmpOp) : bool :=
  match op with OpGe | OpLe => true | _ => false end.

Definition buildCheckpointCmprs (op : CmpOp) (checkpoint : Checkpoint) (r : JoinedRow) : tri :=
  let operand := if opStartsWithGt op then OpGt else OpLt in
  let operandOrEquals := if opStartsWithGt op then OpGe else OpLe in
  let isInclusive := opEndsWithEq op in
  match logIndex checkpoint with
  | None =>
      sqlAnd [
        sqlCmp (col_timestamp r) operandOrEquals (blockTimestamp checkpoint);
        sqlOr [
          sqlCmp (col_timestamp r) operand (blockTimestamp checkpoint);
          sqlAnd [
            sqlCmp (col_chainId r) operandOrEquals (chainId checkpoint);
            sqlOr [
              sqlCmp (col_chainId r) operand (chainId checkpoint);
              sqlCmp (col_number r) (if isInclusive then operandOrEquals else operand)
                (blockNumber checkpoint)
            ]
          ]
        ]
      ]
  | Some logIndex =>
      sqlAnd [
        sqlCmp (col_timestamp r) operandOrEquals (blockTimestamp checkpoint);
        sqlOr [
          sqlCmp (col_timestamp r) operand (blockTimestamp checkpoint);
          sqlAnd [
            sqlCmp (col_chainId r) operandOrEquals (chainId checkpoint);
            sqlOr [
              sqlCmp (col_chainId r) operand (chainId checkpoint);
              sqlAnd [
                sqlCmp (col_number r) operandOrEquals (blockNumber checkpoint);
                sqlOr [
                  sqlCmp (col_number r) operand (blockNumber checkpoint);
                  sqlCmp (col_logIndex r) (if isInclusive then operandOrEquals else operand)
                    logIndex
                ]
              ]
            ]
          ]
        ]
      ]
  end.

(** ORDER BY blocks.timestamp, logs.chainId, blocks.number, logs.logIndex,
    all ascending; Postgres puts NULL last in ascending order. *)
Definition nullsLastLt (a b : option Z) : Prop :=
  match a, b with
  | Some x, Some y => x < y
  | Some _, None => True
  | None, _ => False
  end.

#[global] Instance nullsLastLt_dec a b : Decision (nullsLastLt a b).
Proof. destruct a, b; simpl; apply _. Defined.

Definition orderByLe (r1 r2 : JoinedRow) : Prop :=
  ¬ (nullsLastLt (col_timestamp r2) (col_timestamp r1) ∨
     (col_timestamp r2 = col_timestamp r1 ∧
      (nullsLastLt (col_chainId r2) (col_chainId r1) ∨
       (col_chainId r2 = col_chainId r1 ∧
        (nullsLastLt (col_number r2) (col_number r1) ∨
         (col_number r2 = col_number r1 ∧
          nullsLastLt (col_logIndex r2) (col_logIndex r1))))))).

#[global] Instance orderByLe_dec : RelDecision orderByLe.
Proof. intros r1 r2. unfold orderByLe. apply _. Defined.

Definition orderBy (rows : list JoinedRow) : list JoinedRow :=
  merge_sort orderByLe rows.

(** [Number(value)] of a bigint: the nearest double, ties to the even
    mantissa.  Up to [2 ^ 53] in absolute value that is [value] itself;
    beyond, the bits below the 53 leading ones are rounded away.  Block
    numbers and timestamps are 256-bit quantities at most, far below
    [2 ^ 1024]; the overflow to [Infinity] from there on is not
    modelled. *)
Definition Number (value : Z) : Z :=
  let magnitude := Z.abs value in
  let dropped := Z.log2 magnitude - 52 in
  if dropped <=? 0 then value
  else
    let kept := Z.shiftr magnitude dropped in
    let rest := Z.land magnitude (Z.ones dropped) in
    let half := Z.shiftl 1 (dropped - 1) in
    let rounded :=
      if (half <? rest) || ((rest =? half) && Z.odd kept) then kept + 1 else kept in
    Z.sgn value * Z.shiftl rounded dropped.

(** A checkpoint built with [Number] from a block timestamp and a block
    number that are bigints, as [lastCheckpoint] and [lastCheckpointInPage]
    are here and the task checkpoint is in the indexing service. *)
Definition numberCheckpoint (c : Checkpoint) : Checkpoint :=
  {| blockTimestamp := Number (blockTimestamp c);
     chainId := chainId c;
     blockNumber := Number (blockNumber c);
     logIndex := logIndex c |}.

(** A value that [JSON.parse] returns; the store hands it on unread, and it
    is kept here as a text. *)
Definition JSONValue : Type := string.

(** The transaction of an event: the columns that decide how the object is
    built, and what [type] makes of it. *)
Inductive TransactionType : Type :=
  | Legacy
  | Eip2930 (accessList : JSONValue)
  | Eip1559
  | Deposit
  | OtherType (type : Hex).

Record Transaction : Type := mkTransaction {
  transaction_hash : Hex;
  transaction_from : Hex;
  transaction_to : option Hex;
  transaction_type : TransactionType;
}.

(** An event of a page.  Block number and timestamp are the bigints of the
    block row; the log index is the column, a number already, so
    [Number(row.log_logIndex)] changes nothing. *)
Record Event : Type := mkEvent {
  ev_chainId : Z;
  ev_log : LogRow;
  ev_logIndex : Z;
  ev_block_timestamp : Z;
  ev_block_number : Z;
  ev_transaction : Transaction;
}.

#[global] Instance TransactionType_eq_dec : EqDecision TransactionType.
Proof. solve_decision. Defined.
#[global] Instance Transaction_eq_dec : EqDecision Transaction.
Proof. solve_decision. Defined.
#[global] Instance Event_eq_dec : EqDecision Event.
Proof. solve_decision. Defined.

(** The value of a nullable column, [0] for NULL. *)
Definition number (x : option Z) : Z := default 0 x.

(** The checkpoint of an event by its own block fields, and of a joined row
    by its own columns. *)
Definition eventCheckpoint (e : Event) : Checkpoint :=
  {| blockTimestamp := ev_block_timestamp e;
     chainId := ev_chainId e;
     blockNumber := ev_block_number e;
     logIndex := Some (ev_logIndex e) |}.

Definition rowCheckpoint (r : JoinedRow) : Checkpoint :=
  {| blockTimestamp := number (col_timestamp r);
     chainId := log_chainId (jr_log r);
     blockNumber := number (col_number r);
     logIndex := Some (log_logIndex (jr_log r)) |}.

Record LogEventsResult : Type := mkLogEventsResult {
  events : list Event;
  hasNextPage : bool;
  lastCheckpointInPage : option Checkpoint;
  lastCheckpoint : option Checkpoint;
}.

Section GetLogEvents.
(** [JSON.parse] on a text: the value it stands for, [None] where
    [JSON.parse] throws. *)
Variable JSON_parse : string → option JSONValue.
(** The filter clause [eb.or([...logFilterCmprs, ...factoryCmprs])] of the
    request, as a predicate on joined rows. *)
Variable filterCmprs : JoinedRow → tri.

(** The object made of the [tx_] columns.  [JSON.parse(null)] parses the
    text [null]. *)
Definition rowToTransaction (t : TransactionRow) : option Transaction :=
  type ←
    (if decide (tx_type t = "0x0") then Some Legacy
     else if decide (tx_type t = "0x1") then
       Eip2930 <$> JSON_parse (default "null" (tx_accessList t))
     else if decide (tx_type t = "0x2") then Some Eip1559
     else if decide (tx_type t = "0x7e") then Some Deposit
     else Some (OtherType (tx_type t)));
  Some {| transaction_hash := tx_hash t;
          transaction_from := tx_from t;
          transaction_to := tx_to t;
          transaction_type := type |}.

(** The event made of a row of the page; [None] where the source throws:
    the block and transaction columns are NULL when the log's block or
    transaction is not stored, and [checksumAddress(row.block_miner)] and
    [checksumAddress(row.tx_from)] throw on NULL, as [JSON.parse] does on a
    text that is not JSON.  Addresses are kept as stored, not in their
    checksummed spelling. *)
Definition rowToEvent (row : JoinedRow) : option Event :=
  block ← jr_block row;
  t ← jr_tx row;
  transaction ← rowToTransaction t;
  Some {| ev_chainId := log_chainId (jr_log row);
          ev_log := jr_log row;
          ev_logIndex := log_logIndex (jr_log row);
          ev_block_timestamp := block_timestamp block;
          ev_block_number := block_number block;
          ev_transaction := transaction |}.

Definition requestedRows (logs : list LogRow) (blocks : list BlockRow)
    (transactions : list TransactionRow) (fromCheckpoint toCheckpoint : Checkpoint)
    : list JoinedRow :=
  filter (λ r, sqlHolds (buildCheckpointCmprs OpLe toCheckpoint r) = true)
    (filter (λ r, sqlHolds (buildCheckpointCmprs OpGt fromCheckpoint r) = true)
       (filter (λ r, sqlHolds (filterCmprs r) = true)
          (joinLogs logs blocks transactions))).

(** The page is [None] where the source throws: when one of the rows
    fetched, the row beyond the limit among them, makes no event; and with
    [limit = 0] and a matching row, where [events.pop()] leaves no
    [lastEventInPage] to read. *)
Definition getLogEvents (logs : list LogRow) (blocks : list BlockRow)
    (transactions : list TransactionRow)
    (fromCheckpoint toCheckpoint : Checkpoint) (limit : nat) : option LogEventsResult :=
  let matching := requestedRows logs blocks transactions fromCheckpoint toCheckpoint in
  let requestedLogs := take (limit + 1) (orderBy matching) in
  let lastCheckpointRows := take 1 (reverse (orderBy matching)) in
  events ← mapM rowToEvent requestedLogs;
  let lastCheckpoint := numberCheckpoint ∘ rowCheckpoint <$> head lastCheckpointRows in
  if decide (length events = (limit + 1)%nat) then
    let events := take (length events - 1) events in
    lastEventInPage ← last events;
    Some {| events := events;
            hasNextPage := true;
            lastCheckpointInPage := Some (numberCheckpoint (eventCheckpoint lastEventInPage));
            lastCheckpoint := lastCheckpoint |}
  else
    Some {| events := events;
            hasNextPage := false;
            lastCheckpointInPage := None;
            lastCheckpoint := lastCheckpoint |}.
End GetLogEvents.

(** *** [Number] is exact on small integers *)

Lemma Number_exact value : Z.abs value <= 2 ^ 53 → Number value = value.
Proof.
  intros Hsafe. unfold Number.
  destruct (Z.leb_spec (Z.log2 (Z.abs value) - 52) 0) as [|Hbig]; [done|].
  assert (2 ^ 53 <= Z.abs value) as Hlow.
  { destruct (Z.lt_ge_cases (Z.abs value) (2 ^ 53)) as [Hlt|]; [|done].
    destruct (Z.eq_dec (Z.abs value) 0) as [H0|H0]; [rewrite H0 in Hbig; simpl in Hbig; lia|].
    apply Z.log2_lt_pow2 in Hlt; lia. }
  assert (Z.abs value = 2 ^ 53) as Habs by lia.
  rewrite Habs. destruct (Z.abs_eq_or_opp value) as [Hv|Hv]; rewrite Hv in Habs.
  - rewrite Habs. reflexivity.
  - assert (value = - 2 ^ 53) as -> by lia. reflexivity.
Qed.

Lemma numberCheckpoint_exact c :
  Z.abs (blockTimestamp c) <= 2 ^ 53 → Z.abs (blockNumber c) <= 2 ^ 53 →
  numberCheckpoint c = c.
Proof.
  intros Ht Hn. unfold numberCheckpoint. rewrite !Number_exact by done. by destruct c.
Qed.

(** *** The events of a page are its rows *)

Lemma rowToTransaction_is_Some JSON_parse t :
  is_Some (rowToTransaction JSON_parse t) ↔
  (tx_type t = "0x1" → is_Some (JSON_parse (default "null" (tx_accessList t)))).
Proof.
  unfold rowToTransaction.
  destruct (decide (tx_type t = "0x0")) as [H0|H0].
  { split; [intros _ H1; congruence|by eexists]. }
  destruct (decide (tx_type t = "0x1")) as [H1|H1].
  { destruct (JSON_parse _) as [v|]; simpl.
    - split; [intros _ _|intros _]; by eexists.
    - split; [by intros [? ?]|]. intros H. by destruct (H H1). }
  repeat case_decide; simpl; (split; [done|by eexists]).
Qed.

Lemma rowToEvent_is_Some JSON_parse r :
  is_Some (rowToEvent JSON_parse r) ↔
  is_Some (jr_block r) ∧
  ∃ t, jr_tx r = Some t ∧
       (tx_type t = "0x1" → is_Some (JSON_parse (default "null" (tx_accessList t)))).
Proof.
  unfold rowToEvent. destruct (jr_block r) as [b|]; simpl.
  2: { split; [by intros [? ?]|by intros [[? ?] _]]. }
  destruct (jr_tx r) as [t|]; simpl.
  2: { split; [by intros [? ?]|by intros [_ (? & ? & _)]]. }
  split.
  - intros [e He]. destruct (rowToTransaction JSON_parse t) as [transaction|] eqn:Ht; [|done].
    split; [by eexists|]. exists t. split; [done|].
    apply rowToTransaction_is_Some. by rewrite Ht.
  - intros [_ (t' & [= <-] & Hparse)].
    apply rowToTransaction_is_Some in Hparse as [transaction ->]. by eexists.
Qed.

Lemma rowToEvent_Some JSON_parse r e :
  rowToEvent JSON_parse r = Some e →
  ev_log e = jr_log r ∧ eventCheckpoint e = rowCheckpoint r ∧ is_Some (jr_block r).
Proof.
  unfold rowToEvent, rowCheckpoint, col_timestamp, col_number.
  destruct (jr_block r) as [b|]; simpl; [|done].
  destruct (jr_tx r) as [t|]; simpl; [|done].
  destruct (rowToTransaction JSON_parse t); simpl; [|done].
  intros [= <-]. split_and!; [done..|by eexists].
Qed.

Lemma eventCheckpoint_rowToEvent JSON_parse r e :
  rowToEvent JSON_parse r = Some e → eventCheckpoint e = rowCheckpoint r.
Proof. by intros (_ & ? & _)%rowToEvent_Some. Qed.

Lemma Forall2_fmap_eq {A B C : Type} (f : A → C) (g : B → C) (l : list A) (k : list B) :
  Forall2 (λ x y, g y = f x) l k → g <$> k = f <$> l.
Proof. induction 1 as [|x y l k Hxy _ IH]; [done|]. by rewrite !fmap_cons, Hxy, IH. Qed.

Lemma mapM_rowToEvent JSON_parse rows evs :
  mapM (rowToEvent JSON_parse) rows = Some evs →
  ev_log <$> evs = jr_log <$> rows ∧ eventCheckpoint <$> evs = rowCheckpoint <$> rows.
Proof.
  intros Hevs%mapM_Some_1. split; apply Forall2_fmap_eq;
    (eapply Forall2_impl; [exact Hevs|]); intros r e Hre;
    by apply rowToEvent_Some in Hre as (? & ? & _).
Qed.

Lemma mapM_take_Some {A B : Type} (f : A → option B) (l : list A) (k : list B) (n : nat) :
  mapM f l = Some k → mapM f (take n l) = Some (take n k).
Proof. intros H%mapM_Some_1. by apply mapM_Some_2, Forall2_take. Qed.

Lemma mapM_elem_of_r {A B : Type} (f : A → option B) (l : list A) (k : list B) (y : B) :
  mapM f l = Some k → y ∈ k → ∃ x, x ∈ l ∧ f x = Some y.
Proof.
  intros H%mapM_Some_1 [i Hi]%list_elem_of_lookup.
  destruct (Forall2_lookup_r _ _ _ _ _ H Hi) as (x & Hx & Hxy).
  exists x. split; [by eapply list_elem_of_lookup_2|done].
Qed.

(** *** The checkpoint clauses are the checkpoint order *)

Ltac sql_cases :=
  repeat match goal with
    | |- context [?x <? ?y] => destruct (Z.ltb_spec x y); simpl
    | |- context [?x <=? ?y] => destruct (Z.leb_spec x y); simpl
    end.

Lemma buildCheckpointCmprs_gt c r :
  sqlHolds (buildCheckpointCmprs OpGt c r) = true ↔
  is_Some (jr_block r) ∧ isCheckpointGreaterThan (rowCheckpoint r) c = true.
Proof.
  rewrite isCheckpointGreaterThan_lex.
  unfold buildCheckpointCmprs, rowCheckpoint, lexLt, idxMissing, idxValue,
    col_timestamp, col_chainId, col_number, col_logIndex.
  destruct (jr_block r) as [b|]; simpl.
  - destruct (logIndex c) as [i|]; simpl; sql_cases;
      (split; [intros ?; split; [by eexists|lia || done]|intros [_ ?]; lia || done]).
  - destruct (logIndex c); simpl; sql_cases; (split; [done|intros [[? ?] _]; done]).
Qed.

Lemma buildCheckpointCmprs_le c r :
  sqlHolds (buildCheckpointCmprs OpLe c r) = true ↔
  is_Some (jr_block r) ∧ isCheckpointGreaterThan (rowCheckpoint r) c = false.
Proof.
  rewrite isCheckpointGreaterThan_lex_false.
  unfold buildCheckpointCmprs, rowCheckpoint, lexLt, idxMissing, idxValue,
    col_timestamp, col_chainId, col_number, col_logIndex.
  destruct (jr_block r) as [b|]; simpl.
  - destruct (logIndex c) as [i|]; simpl; sql_cases;
      (split; [intros ?; split; [by eexists|lia || done]|intros [_ ?]; lia || done]).
  - destruct (logIndex c); simpl; sql_cases; (split; [done|intros [[? ?] _]; done]).
Qed.

(** *** The page is ordered *)

Definition orderKey (r : JoinedRow) : option Z * Z * option Z * Z :=
  (col_timestamp r, log_chainId (jr_log r), col_number r, log_logIndex (jr_log r)).

Definition nullFlag (o : option Z) : Z := match o with None => 1 | Some _ => 0 end.

Lemma nullsLastLt_flag a b :
  nullsLastLt a b ↔
  nullFlag a < nullFlag b ∨ (nullFlag a = 0 ∧ nullFlag b = 0 ∧ number a < number b).
Proof. destruct a, b; simpl; lia. Qed.

Lemma option_eq_flag (a b : option Z) :
  a = b ↔ nullFlag a = nullFlag b ∧ number a = number b.
Proof.
  destruct a, b; simpl; split; intros H; try lia; try done; simplify_eq; try done.
  f_equal. lia.
Qed.

#[global] Instance orderByLe_total : Total orderByLe.
Proof.
  intros r1 r2. unfold orderByLe.
  rewrite !nullsLastLt_flag, !option_eq_flag. lia.
Qed.

Lemma orderByLe_rowCheckpoint r1 r2 :
  is_Some (jr_block r1) → is_Some (jr_block r2) →
  orderByLe r1 r2 → le (rowCheckpoint r1) (rowCheckpoint r2).
Proof.
  intros [b1 H1] [b2 H2]. unfold le, orderByLe.
  rewrite isCheckpointGreaterThan_lex_false, !nullsLastLt_flag, !option_eq_flag.
  unfold lexLt, rowCheckpoint, idxMissing, idxValue, col_timestamp, col_chainId,
    col_number, col_logIndex. rewrite H1, H2. simpl. lia.
Qed.

Lemma orderBy_elem_of rows r : r ∈ orderBy rows ↔ r ∈ rows.
Proof. unfold orderBy. by rewrite merge_sort_Permutation. Qed.

Lemma orderBy_Sorted rows : Sorted orderByLe (orderBy rows).
Proof. apply Sorted_merge_sort, _. Qed.

Section GetLogEventsFacts.
Variable JSON_parse : string → option JSONValue.
Variable filterCmprs : JoinedRow → tri.
Variables (logs : list LogRow) (blocks : list BlockRow)
  (transactions : list TransactionRow).
Variables (fromCheckpoint toCheckpoint : Checkpoint).

Let matching : list JoinedRow :=
  requestedRows filterCmprs logs blocks transactions fromCheckpoint toCheckpoint.

Lemma requestedRows_bounds r :
  r ∈ matching →
  is_Some (jr_block r) ∧ lt fromCheckpoint (rowCheckpoint r) ∧
  le (rowCheckpoint r) toCheckpoint.
Proof.
  unfold matching, requestedRows. rewrite !list_elem_of_filter.
  rewrite buildCheckpointCmprs_le, buildCheckpointCmprs_gt.
  intros [[? ?] [[? ?] _]]. done.
Qed.

(** The events of a page are made of a prefix of the ordered matching
    rows. *)
Lemma getLogEvents_events limit res :
  getLogEvents JSON_parse filterCmprs logs blocks transactions fromCheckpoint toCheckpoint
    limit = Some res →
  ∃ n, mapM (rowToEvent JSON_parse) (take n (orderBy matching)) = Some (events res).
Proof.
  unfold getLogEvents. fold matching.
  destruct (mapM _ _) as [evs|] eqn:Hevs; simpl; [|done]. case_decide as Hlen.
  - destruct (last _) as [e|]; simpl; [|done]. intros [= <-]; simpl.
    exists ((length evs - 1) `min` (limit + 1))%nat.
    rewrite <- take_take. by apply mapM_take_Some.
  - intros [= <-]; simpl. eauto.
Qed.

Lemma page_rows_matching n r : r ∈ take n (orderBy matching) → r ∈ matching.
Proof.
  intros H. apply orderBy_elem_of. eapply elem_of_sublist; [done|apply sublist_take].
Qed.

Lemma page_Sorted_le n :
  Sorted le (rowCheckpoint <$> take n (orderBy matching)).
Proof.
  apply (Sorted_fmap_on (λ r, is_Some (jr_block r)) orderByLe).
  - apply orderByLe_rowCheckpoint.
  - apply Forall_forall. intros r Hr.
    by apply page_rows_matching, requestedRows_bounds in Hr as [? _].
  - apply Sorted_take, orderBy_Sorted.
Qed.

Lemma page_NoDup n :
  NoDup (rowCheckpoint <$> matching) →
  NoDup (rowCheckpoint <$> take n (orderBy matching)).
Proof.
  intros Hnd. rewrite fmap_take.
  eapply sublist_NoDup; [|apply sublist_take].
  unfold orderBy. by rewrite merge_sort_Permutation.
Qed.
End GetLogEventsFacts.

(** What a page promises a caller that builds the checkpoint of an event
    with [Number], about the window [(from, to]]. *)
Definition pageWithin (fromCheckpoint toCheckpoint : Checkpoint) (res : LogEventsResult) : Prop :=
  StronglySorted le (numberCheckpoint ∘ eventCheckpoint <$> events res) ∧
  Forall (λ e, lt fromCheckpoint (numberCheckpoint (eventCheckpoint e)) ∧
               le (numberCheckpoint (eventCheckpoint e)) toCheckpoint)
    (events res) ∧
  (hasNextPage res = true →
   ∃ c, lastCheckpointInPage res = Some c ∧ lt fromCheckpoint c ∧ le c toCheckpoint ∧
        Forall (λ e, le (numberCheckpoint (eventCheckpoint e)) c) (events res)).

#[global] Instance le_Transitive : Transitive le.
Proof. intros a b c. apply le_trans. Qed.

Lemma StronglySorted_le_last (cs : list Checkpoint) c :
  StronglySorted le cs → last cs = Some c → Forall (λ x, le x c) cs.
Proof.
  intros Hs. induction Hs as [|x l Hl IH Hx]; [constructor|].
  intros Hlast. destruct l as [|y l].
  - injection Hlast as <-. repeat constructor. apply le_refl.
  - rewrite last_cons_cons in Hlast. constructor; [|by apply IH].
    apply (proj1 (Forall_forall _ _) Hx). by eapply last_Some_elem_of.
Qed.

(** *** The tables of the store *)

Record RpcRequestResultRow : Type := mkRpcRequestResultRow {
  rpc_request : string;
  rpc_blockNumber : Z;
  rpc_chainId : Z;
  rpc_result : string;
}.

(** A row of [logFilters]; a fragment built by [buildLogFilterFragments] has
    the same columns. *)
Record LogFilterRow : Type := mkLogFilterRow {
  lf_id : string;
  lf_chainId : Z;
  lf_address : option Hex;
  lf_topic0 : option Hex;
  lf_topic1 : option Hex;
  lf_topic2 : option Hex;
  lf_topic3 : option Hex;
}.

Record LogFilterIntervalRow : Type := mkLogFilterIntervalRow {
  lfi_logFilterId : string;
  lfi_startBlock : Z;
  lfi_endBlock : Z;
}.

(** [FactoryCriteria["childAddressLocation"]]: ["topic1"], ["topic2"],
    ["topic3"] or ["offsetN"]. *)
Inductive ChildAddressLocation : Type :=
  | LocTopic1 | LocTopic2 | LocTopic3
  | LocOffset (n : nat).

Record FactoryRow : Type := mkFactoryRow {
  fac_id : string;
  fac_chainId : Z;
  fac_address : Hex;
  fac_eventSelector : Hex;
  fac_childAddressLocation : ChildAddressLocation;
  fac_topic0 : option Hex;
  fac_topic1 : option Hex;
  fac_topic2 : option Hex;
  fac_topic3 : option Hex;
}.

Record FactoryLogFilterIntervalRow : Type := mkFactoryLogFilterIntervalRow {
  fli_factoryId : string;
  fli_startBlock : Z;
  fli_endBlock : Z;
}.

#[global] Instance RpcRequestResultRow_eq_dec : EqDecision RpcRequestResultRow.
Proof. solve_decision. Defined.
#[global] Instance LogFilterRow_eq_dec : EqDecision LogFilterRow.
Proof. solve_decision. Defined.
#[global] Instance LogFilterIntervalRow_eq_dec : EqDecision LogFilterIntervalRow.
Proof. solve_decision. Defined.
#[global] Instance ChildAddressLocation_eq_dec : EqDecision ChildAddressLocation.
Proof. solve_decision. Defined.
#[global] Instance FactoryRow_eq_dec : EqDecision FactoryRow.
Proof. solve_decision. Defined.
#[global] Instance FactoryLogFilterIntervalRow_eq_dec : EqDecision FactoryLogFilterIntervalRow.
Proof. solve_decision. Defined.

Record Store : Type := mkStore {
  blocks : list BlockRow;
  transactions : list TransactionRow;
  logs : list LogRow;
  rpcRequestResults : list RpcRequestResultRow;
  logFilters : list LogFilterRow;
  logFilterIntervals : list LogFilterIntervalRow;
  factories : list FactoryRow;
  factoryLogFilterIntervals : list FactoryLogFilterIntervalRow;
}.

(** *** [deleteRealtimeData] *)

(** [DELETE FROM t WHERE p] and [UPDATE t SET ... WHERE p]. *)
Definition deleteFrom {A : Type} (p : A → bool) (rows : list A) : list A :=
  filter (λ r, p r = false) rows.
Definition updateTable {A : Type} (set : A → A) (p : A → bool) (rows : list A) : list A :=
  (λ r, if p r then set r else r) <$> rows.

(** The scalar subqueries
    [SELECT logFilters.chainId FROM logFilters WHERE logFilters.id = :id LIMIT 1]
    and its twin on [factories]; NULL when no row has the id. *)
Definition logFilterChainId (logFilters : list LogFilterRow) (id : string) : option Z :=
  lf_chainId <$> head (filter (λ f, lf_id f = id) logFilters).
Definition factoryChainId (factories : list FactoryRow) (id : string) : option Z :=
  fac_chainId <$> head (filter (λ f, fac_id f = id) factories).

Definition deleteRealtimeData (chainId : Z) (fromBlock : Z) (db : Store) : Store :=
  let ofChain (sub : option Z) : bool := bool_decide (sub = Some chainId) in
  {| blocks :=
       deleteFrom (λ b, bool_decide (block_chainId b = chainId) && (fromBlock <? block_number b))
         (blocks db);
     transactions :=
       deleteFrom (λ t, bool_decide (tx_chainId t = chainId) && (fromBlock <? tx_blockNumber t))
         (transactions db);
     logs :=
       deleteFrom (λ l, bool_decide (log_chainId l = chainId) && (fromBlock <? log_blockNumber l))
         (logs db);
     rpcRequestResults :=
       deleteFrom (λ r, bool_decide (rpc_chainId r = chainId) && (fromBlock <? rpc_blockNumber r))
         (rpcRequestResults db);
     logFilters := logFilters db;
     logFilterIntervals :=
       updateTable
         (λ r, {| lfi_logFilterId := lfi_logFilterId r;
                  lfi_startBlock := lfi_startBlock r;
                  lfi_endBlock := fromBlock |})
         (λ r, ofChain (logFilterChainId (logFilters db) (lfi_logFilterId r))
               && (fromBlock <? lfi_endBlock r))
         (deleteFrom
            (λ r, ofChain (logFilterChainId (logFilters db) (lfi_logFilterId r))
                  && (fromBlock <? lfi_startBlock r))
            (logFilterIntervals db));
     factories := factories db;
     factoryLogFilterIntervals :=
       updateTable
         (λ r, {| fli_factoryId := fli_factoryId r;
                  fli_startBlock := fli_startBlock r;
                  fli_endBlock := fromBlock |})
         (λ r, ofChain (factoryChainId (factories db) (fli_factoryId r))
               && (fromBlock <? fli_endBlock r))
         (deleteFrom
            (λ r, ofChain (factoryChainId (factories db) (fli_factoryId r))
                  && (fromBlock <? fli_startBlock r))
            (factoryLogFilterIntervals db)) |}.

Lemma elem_of_deleteFrom {A : Type} (p : A → bool) rows r :
  r ∈ deleteFrom p rows ↔ p r = false ∧ r ∈ rows.
Proof. unfold deleteFrom. by rewrite list_elem_of_filter. Qed.

Lemma elem_of_updateTable {A : Type} (set : A → A) (p : A → bool) rows r' :
  r' ∈ updateTable set p rows ↔ ∃ r, r ∈ rows ∧ r' = if p r then set r else r.
Proof. unfold updateTable. rewrite list_elem_of_fmap. split; intros (r&?&?); eauto. Qed.

(** Rows outside the WHERE clause of a DELETE or UPDATE stay as they are, in
    storage order. *)
Lemma deleteFrom_frame {A : Type} (p q : A → bool) rows :
  (∀ r, q r = true → p r = false) →
  filter (λ r, q r = true) (deleteFrom p rows) = filter (λ r, q r = true) rows.
Proof.
  intros Hpq. unfold deleteFrom. induction rows as [|r rows IH]; [done|].
  rewrite !filter_cons. destruct (decide (q r = true)) as [Hq|Hq].
  - rewrite decide_True by auto. rewrite filter_cons, decide_True by done. by rewrite IH.
  - destruct (decide (p r = false)); [rewrite filter_cons, decide_False by done|]; apply IH.
Qed.

Lemma updateTable_frame {A : Type} (set : A → A) (p q : A → bool) rows :
  (∀ r, q r = true → p r = false) →
  (∀ r, p r = true → q (set r) = false) →
  filter (λ r, q r = true) (updateTable set p rows) = filter (λ r, q r = true) rows.
Proof.
  intros Hpq Hset. unfold updateTable. induction rows as [|r rows IH]; [done|].
  rewrite fmap_cons, !filter_cons. destruct (p r) eqn:Hp.
  - rewrite decide_False by (rewrite Hset by done; done).
    rewrite decide_False; [done|]. intros Hq. apply Hpq in Hq. congruence.
  - destruct (decide (q r = true)); by rewrite IH.
Qed.

(** *** [getFactoryChildAddresses] *)

(** SQL [substring(s from start for length)], positions counted from 1. *)
Definition sqlSubstring (s : string) (start length : nat) : string :=
  String.substring (start - 1) length s.

(** [buildFactoryChildAddressSelectExpression]: NULL when the topic column
    it reads is NULL. *)
Definition buildFactoryChildAddressSelectExpression
    (childAddressLocation : ChildAddressLocation) (l : LogRow) : option Hex :=
  match childAddressLocation with
  | LocOffset childAddressOffset =>
      let start := (2 + 12 * 2 + childAddressOffset * 2 + 1)%nat in
      let length := (20 * 2)%nat in
      Some (String.append "0x" (sqlSubstring (log_data l) start length))
  | loc =>
      let start := (2 + 12 * 2 + 1)%nat in
      let length := (20 * 2)%nat in
      let column := match loc with
                    | LocTopic1 => log_topic1 l
                    | LocTopic2 => log_topic2 l
                    | _ => log_topic3 l
                    end in
      (λ t, String.append "0x" (sqlSubstring t start length)) <$> column
  end.

(** [FactoryCriteria]. *)
Record FactoryCriteria : Type := mkFactoryCriteria {
  fc_address : Hex;
  fc_eventSelector : Hex;
  fc_childAddressLocation : ChildAddressLocation;
}.

Section GetFactoryChildAddresses.
Variable logsTable : list LogRow.
Variables (chainId : Z) (upToBlockNumber : Z) (factory : FactoryCriteria) (pageSize : nat).

(** The rows [baseQuery] ranges over, before the cursor clause and the
    LIMIT.  The query has no ORDER BY: rows come in storage order. *)
Definition baseQueryMatches (l : LogRow) : bool :=
  bool_decide (log_chainId l = chainId)
  && bool_decide (log_address l = fc_address factory)
  && bool_decide (log_topic0 l = Some (fc_eventSelector factory))
  && (log_blockNumber l <=? upToBlockNumber).

(** [if (cursor)]: [undefined] and [0n] are falsy. *)
Definition cursorTruthy (cursor : option Z) : bool :=
  match cursor with
  | Some c => negb (c =? 0)
  | None => false
  end.

Definition pageQuery (cursor : option Z) : list LogRow :=
  take pageSize
    (filter (λ l, (baseQueryMatches l
                   && (if cursorTruthy cursor
                       then default 0 cursor <? log_blockNumber l
                       else true)) = true)
       logsTable).

(** The batches the generator yields, in order; [None] when the loop has not
    ended within [fuel] queries. *)
Fixpoint getFactoryChildAddressesFrom (fuel : nat) (cursor : option Z)
    : option (list (list (option Hex))) :=
  match fuel with
  | O => None
  | S fuel' =>
      let batch := pageQuery cursor in
      let cursor' := match last batch with
                     | Some lastRow => Some (log_blockNumber lastRow)
                     | None => cursor
                     end in
      let yielded :=
        if decide (0 < length batch)%nat
        then [buildFactoryChildAddressSelectExpression (fc_childAddressLocation factory)
                <$> batch]
        else [] in
      if decide (length batch < pageSize)%nat then Some yielded
      else rest ← getFactoryChildAddressesFrom fuel' cursor'; Some (yielded ++ rest)
  end.

Definition getFactoryChildAddresses (fuel : nat) : option (list (list (option Hex))) :=
  getFactoryChildAddressesFrom fuel None.

(** Every child address the factory has announced up to [upToBlockNumber]. *)
Definition matchingChildAddresses : list (option Hex) :=
  buildFactoryChildAddressSelectExpression (fc_childAddressLocation factory)
    <$> filter (λ l, baseQueryMatches l = true) logsTable.
End GetFactoryChildAddresses.

(** *** [getLogFilterIntervals] *)

Import Interval.


Definition rowInterval (i : LogFilterIntervalRow) : Interval :=
  (lfi_startBlock i, lfi_endBlock i).


(** One conjunct of the join condition:
    [column IS NULL OR fragmentColumn = column]. *)
Definition sqlIsNull {A : Type} (col : option A) : tri := Some (bool_decide (col = None)).
Definition sqlEq `{EqDecision A} (a b : option A) : tri :=
  match a, b with
  | Some x, Some y => Some (bool_decide (x = y))
  | _, _ => None
  end.

Definition fragmentJoinOn (lf : option LogFilterRow) (fragment : LogFilterRow) : tri :=
  sqlAnd [
    sqlOr [sqlIsNull (lf ≫= lf_address); sqlEq (lf_address fragment) (lf ≫= lf_address)];
    sqlOr [sqlIsNull (lf ≫= lf_topic0); sqlEq (lf_topic0 fragment) (lf ≫= lf_topic0)];
    sqlOr [sqlIsNull (lf ≫= lf_topic1); sqlEq (lf_topic1 fragment) (lf ≫= lf_topic1)];
    sqlOr [sqlIsNull (lf ≫= lf_topic2); sqlEq (lf_topic2 fragment) (lf ≫= lf_topic2)];
    sqlOr [sqlIsNull (lf ≫= lf_topic3); sqlEq (lf_topic3 fragment) (lf ≫= lf_topic3)]
  ].




(** A stored log filter is at least as general as a fragment when each of
    its address and topics is NULL or equal to the fragment's. *)
Definition generalises (lf fragment : LogFilterRow) : Prop :=
  sqlHolds (fragmentJoinOn (Some lf) fragment) = true.

#[global] Instance generalises_dec lf f : Decision (generalises lf f).
Proof. unfold generalises. apply _. Defined.

(** The stored intervals that count for a fragment: those of every log
    filter of the chain that is at least as general. *)
Definition coveringIntervals (chainId : Z) (fragment : LogFilterRow) (db : Store)
    : list Interval :=
  i ← logFilterIntervals db;
  lf ← filter (λ lf, lf_id lf = lfi_logFilterId i ∧ lf_chainId lf = chainId
                     ∧ generalises lf fragment) (logFilters db);
  [rowInterval i].


(** What the schema and the fragment builder guarantee: fragment ids are
    fingerprints (equal ids, equal fragments, among the requested fragments
    and the stored log filters), every interval row references a stored log
    filter, and stored intervals are not empty. *)
Definition fingerprinted (fragments : list LogFilterRow) (db : Store) : Prop :=
  Forall (λ f, Forall (λ g, lf_id f = lf_id g → f = g) (fragments ++ logFilters db)) fragments.
Definition referencesLogFilters (db : Store) : Prop :=
  Forall (λ i, Exists (λ lf, lf_id lf = lfi_logFilterId i) (logFilters db))
    (logFilterIntervals db).
Definition intervalsWellFormed (db : Store) : Prop :=
  Forall (λ i, wf (rowInterval i)) (logFilterIntervals db).

#[global] Instance fingerprinted_dec fragments db : Decision (fingerprinted fragments db).
Proof. unfold fingerprinted. apply _. Defined.
#[global] Instance referencesLogFilters_dec db : Decision (referencesLogFilters db).
Proof. unfold referencesLogFilters. apply _. Defined.
#[global] Instance intervalsWellFormed_dec db : Decision (intervalsWellFormed db).
Proof. unfold intervalsWellFormed. apply _. Defined.

Lemma elem_of_leftJoin_Some {A B : Type} (on : A → B → bool) xs ys x y :
  (x, Some y) ∈ leftJoin on xs ys ↔ x ∈ xs ∧ y ∈ ys ∧ on x y = true.
Proof.
  unfold leftJoin. rewrite list_elem_of_bind. split.
  - intros (x' & Hin & Hx'). destruct (filter _ ys) as [|m ms] eqn:Hf.
    + apply list_elem_of_singleton in Hin. congruence.
    + rewrite <- Hf in Hin. apply list_elem_of_fmap in Hin as (y' & [= -> ->] & Hy').
      apply list_elem_of_filter in Hy' as [? ?]. done.
  - intros (Hx & Hy & Hon). exists x. split; [|done].
    assert (y ∈ filter (λ y, on x y = true) ys) as Hyf by (by apply list_elem_of_filter).
    destruct (filter _ ys) as [|m ms]; [by apply elem_of_nil in Hyf|].
    apply list_elem_of_fmap. eauto.
Qed.




Section Compaction.
Variable f : LogFilterRow.
Variable db : Store.
Hypothesis f_fingerprint : ∀ g, g ∈ logFilters db → lf_id f = lf_id g → f = g.
Hypothesis db_references : referencesLogFilters db.
Hypothesis db_wf : intervalsWellFormed db.







End Compaction.














End SyncStore.

(** ** Sync gateway *)

Module SyncGateway.
Import Checkpoint.

(** Modelled from the spec: the per-chain state of the sync gateway
    ([@/sync-gateway/service.js] is not among the sources, only its tests
    are).  "For each chain id: historicalCheckpoint, realtimeCheckpoint,
    finalityCheckpoint, and isHistoricalComplete: bool.  All default to
    zeroCheckpoint." *)
Record ChainCheckpoints : Type := mkChainCheckpoints {
  historicalCheckpoint : Checkpoint;
  realtimeCheckpoint : Checkpoint;
  chainFinalityCheckpoint : Checkpoint;
  isHistoricalComplete : bool;
}.

Definition defaultChain : ChainCheckpoints :=
  {| historicalCheckpoint := zeroCheckpoint;
     realtimeCheckpoint := zeroCheckpoint;
     chainFinalityCheckpoint := zeroCheckpoint;
     isHistoricalComplete := false |}.

Inductive GatewayEvent : Type :=
  | NewCheckpoint (c : Checkpoint)
  | NewFinalityCheckpoint (c : Checkpoint)
  | Reorg (c : Checkpoint).

#[global] Instance GatewayEvent_eq_dec : EqDecision GatewayEvent.
Proof. solve_decision. Defined.

(** Modelled from the spec: the gateway, with the events it has emitted so
    far, oldest first. *)
Record Gateway : Type := mkGateway {
  networks : list Z;
  chainCheckpoints : gmap Z ChainCheckpoints;
  checkpoint : Checkpoint;
  finalityCheckpoint : Checkpoint;
  emitted : list GatewayEvent;
}.

Definition create (networks : list Z) : Gateway :=
  {| networks := networks;
     chainCheckpoints := ∅;
     checkpoint := zeroCheckpoint;
     finalityCheckpoint := zeroCheckpoint;
     emitted := [] |}.

Definition chainOf (g : Gateway) (id : Z) : ChainCheckpoints :=
  default defaultChain (chainCheckpoints g !! id).

Definition setChain (g : Gateway) (id : Z) (c : ChainCheckpoints) : Gateway :=
  {| networks := networks g;
     chainCheckpoints := <[id := c]> (chainCheckpoints g);
     checkpoint := checkpoint g;
     finalityCheckpoint := finalityCheckpoint g;
     emitted := emitted g |}.

(** Modelled from the spec: the reducer.
    [perChainBest[i] = isHistoricalComplete[i] ? max(historical[i], realtime[i]) : historical[i]],
    [global.checkpoint = min over all chains of perChainBest[i]],
    [global.finalityCheckpoint = min over all chains of finalityCheckpoint[i]]. *)
Definition perChainBest (c : ChainCheckpoints) : Checkpoint :=
  if isHistoricalComplete c
  then max2 (historicalCheckpoint c) (realtimeCheckpoint c)
  else historicalCheckpoint c.

Definition minOver (cs : list Checkpoint) : option Checkpoint :=
  match cs with
  | [] => None
  | c :: cs => Some (checkpointMin c cs)
  end.

Definition reducedCheckpoint (g : Gateway) : option Checkpoint :=
  minOver ((λ id, perChainBest (chainOf g id)) <$> networks g).

Definition reducedFinalityCheckpoint (g : Gateway) : option Checkpoint :=
  minOver ((λ id, chainFinalityCheckpoint (chainOf g id)) <$> networks g).

(** Modelled from the spec: "compute the new value; emit only if strictly
    greater than the previous emitted value". *)
Definition recalculateCheckpoint (g : Gateway) : Gateway :=
  match reducedCheckpoint g with
  | Some newCheckpoint =>
      if isCheckpointGreaterThan newCheckpoint (checkpoint g)
      then {| networks := networks g;
              chainCheckpoints := chainCheckpoints g;
              checkpoint := newCheckpoint;
              finalityCheckpoint := finalityCheckpoint g;
              emitted := emitted g ++ [NewCheckpoint newCheckpoint] |}
      else g
  | None => g
  end.

Definition recalculateFinalityCheckpoint (g : Gateway) : Gateway :=
  match reducedFinalityCheckpoint g with
  | Some newCheckpoint =>
      if isCheckpointGreaterThan newCheckpoint (finalityCheckpoint g)
      then {| networks := networks g;
              chainCheckpoints := chainCheckpoints g;
              checkpoint := checkpoint g;
              finalityCheckpoint := newCheckpoint;
              emitted := emitted g ++ [NewFinalityCheckpoint newCheckpoint] |}
      else g
  | None => g
  end.

(** Modelled from the spec: "[handleNewHistoricalCheckpoint(c)]: if
    [c > historicalCheckpoint[c.chainId]], set it; then recompute global
    checkpoint and emit newCheckpoint iff it strictly advanced." *)
Definition handleNewHistoricalCheckpoint (c : Checkpoint) (g : Gateway) : Gateway :=
  let chain := chainOf g (chainId c) in
  recalculateCheckpoint
    (if isCheckpointGreaterThan c (historicalCheckpoint chain)
     then setChain g (chainId c)
            {| historicalCheckpoint := c;
               realtimeCheckpoint := realtimeCheckpoint chain;
               chainFinalityCheckpoint := chainFinalityCheckpoint chain;
               isHistoricalComplete := isHistoricalComplete chain |}
     else g).

(** Modelled from the spec: "[handleHistoricalSyncComplete({chainId})]: mark
    that chain complete; recompute and emit if advanced." *)
Definition handleHistoricalSyncComplete (id : Z) (g : Gateway) : Gateway :=
  let chain := chainOf g id in
  recalculateCheckpoint
    (setChain g id
       {| historicalCheckpoint := historicalCheckpoint chain;
          realtimeCheckpoint := realtimeCheckpoint chain;
          chainFinalityCheckpoint := chainFinalityCheckpoint chain;
          isHistoricalComplete := true |}).

(** Modelled from the spec: "[handleNewRealtimeCheckpoint(c)]: same as
    historical, but into the realtime slot." *)
Definition handleNewRealtimeCheckpoint (c : Checkpoint) (g : Gateway) : Gateway :=
  let chain := chainOf g (chainId c) in
  recalculateCheckpoint
    (if isCheckpointGreaterThan c (realtimeCheckpoint chain)
     then setChain g (chainId c)
            {| historicalCheckpoint := historicalCheckpoint chain;
               realtimeCheckpoint := c;
               chainFinalityCheckpoint := chainFinalityCheckpoint chain;
               isHistoricalComplete := isHistoricalComplete chain |}
     else g).

(** Modelled from the spec: "[handleNewFinalityCheckpoint(c)]: update
    [finalityCheckpoint[c.chainId]] if strictly greater, recompute global
    finalityCheckpoint and emit newFinalityCheckpoint iff it advanced." *)
Definition handleNewFinalityCheckpoint (c : Checkpoint) (g : Gateway) : Gateway :=
  let chain := chainOf g (chainId c) in
  recalculateFinalityCheckpoint
    (if isCheckpointGreaterThan c (chainFinalityCheckpoint chain)
     then setChain g (chainId c)
            {| historicalCheckpoint := historicalCheckpoint chain;
               realtimeCheckpoint := realtimeCheckpoint chain;
               chainFinalityCheckpoint := c;
               isHistoricalComplete := isHistoricalComplete chain |}
     else g).

(** Modelled from the spec: "[handleReorg(safeCheckpoint)]: emit
    [reorg(safeCheckpoint)]." *)
Definition handleReorg (safeCheckpoint : Checkpoint) (g : Gateway) : Gateway :=
  {| networks := networks g;
     chainCheckpoints := chainCheckpoints g;
     checkpoint := checkpoint g;
     finalityCheckpoint := finalityCheckpoint g;
     emitted := emitted g ++ [Reorg safeCheckpoint] |}.

(** Modelled from the spec: "[resetCheckpoints({chainId})]: clear all
    per-chain state for [chainId], set global checkpoint and
    finalityCheckpoint to zeroCheckpoint, clear isHistoricalSyncComplete." *)
Definition resetCheckpoints (id : Z) (g : Gateway) : Gateway :=
  {| networks := networks g;
     chainCheckpoints := <[id := defaultChain]> (chainCheckpoints g);
     checkpoint := zeroCheckpoint;
     finalityCheckpoint := zeroCheckpoint;
     emitted := emitted g |}.

(** The getter the tests read: every chain has finished its historical
    sync. *)
Definition isHistoricalSyncComplete (g : Gateway) : bool :=
  forallb (λ id, isHistoricalComplete (chainOf g id)) (networks g).

(** The inputs of the gateway, and a run over a sequence of them. *)
Inductive Input : Type :=
  | InHistoricalCheckpoint (c : Checkpoint)
  | InHistoricalSyncComplete (chainId : Z)
  | InRealtimeCheckpoint (c : Checkpoint)
  | InFinalityCheckpoint (c : Checkpoint)
  | InReorg (safeCheckpoint : Checkpoint)
  | InResetCheckpoints (chainId : Z).

Definition step (g : Gateway) (i : Input) : Gateway :=
  match i with
  | InHistoricalCheckpoint c => handleNewHistoricalCheckpoint c g
  | InHistoricalSyncComplete id => handleHistoricalSyncComplete id g
  | InRealtimeCheckpoint c => handleNewRealtimeCheckpoint c g
  | InFinalityCheckpoint c => handleNewFinalityCheckpoint c g
  | InReorg c => handleReorg c g
  | InResetCheckpoints id => resetCheckpoints id g
  end.

Definition run (g : Gateway) (inputs : list Input) : Gateway := foldl step g inputs.

Definition inputChain (i : Input) : option Z :=
  match i with
  | InHistoricalCheckpoint c | InRealtimeCheckpoint c | InFinalityCheckpoint c =>
      Some (chainId c)
  | InHistoricalSyncComplete id | InResetCheckpoints id => Some id
  | InReorg _ => None
  end.

(** An input names a chain the gateway was created with. *)
Definition knownChain (nets : list Z) (i : Input) : Prop :=
  match inputChain i with Some id => id ∈ nets | None => True end.

Definition isReset (i : Input) : Prop :=
  match i with InResetCheckpoints _ => True | _ => False end.

#[global] Instance knownChain_dec nets i : Decision (knownChain nets i).
Proof. unfold knownChain. destruct (inputChain i); apply _. Defined.
#[global] Instance isReset_dec i : Decision (isReset i).
Proof. destruct i; simpl; apply _. Defined.

(** The values of the [newCheckpoint] events among a list of events. *)
Definition newCheckpoints (es : list GatewayEvent) : list Checkpoint :=
  e ← es; match e with NewCheckpoint c => [c] | _ => [] end.

(** *** The scenarios of the gateway's test file *)

Definition createCheckpoint (chain timestamp : Z) : Checkpoint :=
  {| blockTimestamp := timestamp; chainId := chain; blockNumber := 0; logIndex := Some 0 |}.

Definition mainnet : Z := 1.
Definition optimism : Z := 10.

Example test_historical_emits_new_checkpoint :
  emitted (run (create [mainnet; optimism])
             [InHistoricalCheckpoint (createCheckpoint mainnet 10);
              InHistoricalCheckpoint (createCheckpoint optimism 12)])
  = [NewCheckpoint (createCheckpoint mainnet 10)].
Proof. vm_compute. reflexivity. Qed.

Example test_historical_does_not_emit_if_not_best :
  emitted (run (create [mainnet; optimism])
             [InHistoricalCheckpoint (createCheckpoint mainnet 10);
              InHistoricalCheckpoint (createCheckpoint optimism 5);
              InHistoricalCheckpoint (createCheckpoint mainnet 15)])
  = [NewCheckpoint (createCheckpoint optimism 5)].
Proof. vm_compute. reflexivity. Qed.

Example test_historical_sync_complete :
  let g := run (create [mainnet; optimism])
             [InRealtimeCheckpoint (createCheckpoint mainnet 10);
              InRealtimeCheckpoint (createCheckpoint optimism 5);
              InHistoricalCheckpoint (createCheckpoint mainnet 10);
              InHistoricalSyncComplete mainnet;
              InHistoricalCheckpoint (createCheckpoint optimism 5);
              InHistoricalSyncComplete optimism] in
  emitted g = [NewCheckpoint (createCheckpoint optimism 5)]
  ∧ isHistoricalSyncComplete g = true.
Proof. vm_compute. split; reflexivity. Qed.

Example test_historical_emits_when_other_chain_completed :
  emitted (run (create [mainnet; optimism])
             [InHistoricalCheckpoint (createCheckpoint mainnet 10);
              InHistoricalSyncComplete mainnet;
              InRealtimeCheckpoint
                {| blockTimestamp := blockTimestamp maxCheckpoint; chainId := mainnet;
                   blockNumber := blockNumber maxCheckpoint;
                   logIndex := logIndex maxCheckpoint |};
              InHistoricalCheckpoint (createCheckpoint optimism 12)])
  = [NewCheckpoint (createCheckpoint optimism 12)].
Proof. vm_compute. reflexivity. Qed.

Example test_realtime_does_not_emit_if_historical_incomplete :
  emitted (run (create [mainnet; optimism])
             [InHistoricalCheckpoint (createCheckpoint optimism 12);
              InHistoricalCheckpoint (createCheckpoint mainnet 10);
              InRealtimeCheckpoint (createCheckpoint mainnet 25)])
  = [NewCheckpoint (createCheckpoint mainnet 10)].
Proof. vm_compute. reflexivity. Qed.

Example test_realtime_emits_if_historical_complete :
  let g := run (create [mainnet; optimism])
             [InRealtimeCheckpoint (createCheckpoint mainnet 20);
              InRealtimeCheckpoint (createCheckpoint optimism 22);
              InHistoricalCheckpoint (createCheckpoint optimism 12);
              InHistoricalCheckpoint (createCheckpoint mainnet 10);
              InHistoricalSyncComplete optimism;
              InHistoricalSyncComplete mainnet;
              InRealtimeCheckpoint (createCheckpoint optimism 27);
              InRealtimeCheckpoint (createCheckpoint mainnet 25)] in
  emitted g = [NewCheckpoint (createCheckpoint mainnet 10);
               NewCheckpoint (createCheckpoint mainnet 20);
               NewCheckpoint (createCheckpoint mainnet 25)]
  ∧ isHistoricalSyncComplete g = true.
Proof. vm_compute. split; reflexivity. Qed.

Example test_finality_emits :
  emitted (run (create [mainnet; optimism])
             [InFinalityCheckpoint (createCheckpoint optimism 12);
              InFinalityCheckpoint (createCheckpoint mainnet 15);
              InFinalityCheckpoint (createCheckpoint optimism 16)])
  = [NewFinalityCheckpoint (createCheckpoint optimism 12);
     NewFinalityCheckpoint (createCheckpoint mainnet 15)].
Proof. vm_compute. reflexivity. Qed.

Example test_resetCheckpoints :
  let g := run (create [mainnet; optimism])
             [InRealtimeCheckpoint (createCheckpoint mainnet 3);
              InHistoricalCheckpoint (createCheckpoint mainnet 2);
              InHistoricalSyncComplete mainnet;
              InRealtimeCheckpoint (createCheckpoint optimism 5);
              InHistoricalCheckpoint (createCheckpoint optimism 4);
              InHistoricalSyncComplete optimism] in
  checkpoint g = createCheckpoint mainnet 3
  ∧ isHistoricalSyncComplete g = true
  ∧ checkpoint (resetCheckpoints mainnet g) = zeroCheckpoint
  ∧ finalityCheckpoint (resetCheckpoints mainnet g) = zeroCheckpoint
  ∧ isHistoricalSyncComplete (resetCheckpoints mainnet g) = false.
Proof. vm_compute. repeat split; reflexivity. Qed.

(** *** The reducer is monotone *)

Lemma minOver_Some_iff cs m :
  minOver cs = Some m ↔ m ∈ cs ∧ ∀ c, c ∈ cs → le m c.
Proof.
  destruct cs as [|c cs]; simpl.
  - split; [done|]. intros [H _]. by apply elem_of_nil in H.
  - split.
    + intros [= <-]. split; [apply checkpointMin_elem|].
      intros d [->|Hd]%elem_of_cons; [apply checkpointMin_le_head|by apply checkpointMin_le_elem].
    + intros [Hm Hle]. f_equal. apply le_antisym.
      * apply elem_of_cons in Hm as [->|Hm];
          [apply checkpointMin_le_head|by apply checkpointMin_le_elem].
      * apply Hle, checkpointMin_elem.
Qed.

Lemma minOver_is_Some cs : cs ≠ [] → is_Some (minOver cs).
Proof. destruct cs; [done|]. by eexists. Qed.

Lemma minOver_fmap_mono {A : Type} (f f' : A → Checkpoint) (l : list A) m m' :
  (∀ x, x ∈ l → le (f x) (f' x)) →
  minOver (f <$> l) = Some m → minOver (f' <$> l) = Some m' → le m m'.
Proof.
  intros Hff' [_ Hm]%minOver_Some_iff [Hm' _]%minOver_Some_iff.
  apply list_elem_of_fmap in Hm' as (x & -> & Hx).
  eapply le_trans; [|by apply Hff'].
  apply Hm, list_elem_of_fmap. eauto.
Qed.

Lemma chainOf_setChain g id c id' :
  chainOf (setChain g id c) id' = if decide (id = id') then c else chainOf g id'.
Proof.
  unfold chainOf, setChain. simpl. case_decide as Hid.
  - subst. by rewrite lookup_insert_eq.
  - by rewrite lookup_insert_ne.
Qed.

Lemma chainOf_resetCheckpoints g id id' :
  chainOf (resetCheckpoints id g) id' = if decide (id = id') then defaultChain else chainOf g id'.
Proof.
  unfold chainOf, resetCheckpoints. simpl. case_decide as Hid.
  - subst. by rewrite lookup_insert_eq.
  - by rewrite lookup_insert_ne.
Qed.

(** Every per-chain checkpoint is at or after [zeroCheckpoint], and the
    global checkpoint is the reduced one. *)
Definition nonneg (g : Gateway) : Prop :=
  ∀ id, le zeroCheckpoint (historicalCheckpoint (chainOf g id)) ∧
        le zeroCheckpoint (realtimeCheckpoint (chainOf g id)).

Definition reduced (g : Gateway) : Prop :=
  nonneg g ∧ reducedCheckpoint g = Some (checkpoint g).

Lemma perChainBest_nonneg c :
  le zeroCheckpoint (historicalCheckpoint c) → le zeroCheckpoint (perChainBest c).
Proof.
  intros H. unfold perChainBest. destruct (isHistoricalComplete c); [|done].
  eapply le_trans; [done|apply max2_le_l].
Qed.

Lemma create_reduced nets : nets ≠ [] → reduced (create nets).
Proof.
  intros Hne. split.
  - intros id. unfold chainOf. simpl. rewrite lookup_empty. simpl. split; apply le_refl.
  - apply minOver_Some_iff. simpl. split.
    + destruct nets as [|id nets]; [done|]. left.
    + intros c (id & -> & _)%list_elem_of_fmap. unfold chainOf. simpl.
      rewrite lookup_empty. apply le_refl.
Qed.

Lemma recalculateCheckpoint_chainOf g id :
  chainOf (recalculateCheckpoint g) id = chainOf g id.
Proof.
  unfold recalculateCheckpoint. destruct (reducedCheckpoint g); [|done].
  by destruct (isCheckpointGreaterThan _ _).
Qed.

Lemma recalculateCheckpoint_networks g : networks (recalculateCheckpoint g) = networks g.
Proof.
  unfold recalculateCheckpoint. destruct (reducedCheckpoint g); [|done].
  by destruct (isCheckpointGreaterThan _ _).
Qed.

Lemma reducedCheckpoint_ext g g' :
  networks g = networks g' → (∀ id, perChainBest (chainOf g id) = perChainBest (chainOf g' id)) →
  reducedCheckpoint g = reducedCheckpoint g'.
Proof.
  intros Hn Hc. unfold reducedCheckpoint. rewrite Hn. f_equal.
  apply list_fmap_ext. intros _ id _. apply Hc.
Qed.

(** Recomputing after the chains have moved forward. *)
Lemma recalculateCheckpoint_reduced g g1 :
  reduced g → networks g1 = networks g → checkpoint g1 = checkpoint g → nonneg g1 →
  (∀ id, le (perChainBest (chainOf g id)) (perChainBest (chainOf g1 id))) →
  reduced (recalculateCheckpoint g1) ∧
  le (checkpoint g) (checkpoint (recalculateCheckpoint g1)) ∧
  emitted (recalculateCheckpoint g1) =
    emitted g1 ++
    (if isCheckpointGreaterThan (checkpoint (recalculateCheckpoint g1)) (checkpoint g)
     then [NewCheckpoint (checkpoint (recalculateCheckpoint g1))] else []).
Proof.
  intros [Hnn Hred] Hnets Hcp Hnn1 Hmono.
  assert (is_Some (reducedCheckpoint g1)) as [new Hnew].
  { unfold reducedCheckpoint in *. rewrite Hnets. destruct (networks g); [done|]. by eexists. }
  assert (le (checkpoint g) new) as Hle.
  { unfold reducedCheckpoint in *. rewrite Hnets in Hnew.
    eapply (minOver_fmap_mono _ _ _ _ _ (λ id _, Hmono id)); eassumption. }
  assert (reducedCheckpoint (recalculateCheckpoint g1) = Some new) as Hnew'.
  { rewrite <- Hnew. apply reducedCheckpoint_ext; [apply recalculateCheckpoint_networks|].
    intros id. by rewrite recalculateCheckpoint_chainOf. }
  assert (nonneg (recalculateCheckpoint g1)) as Hnn'.
  { intros id. rewrite recalculateCheckpoint_chainOf. apply Hnn1. }
  unfold reduced. rewrite Hnew'. clear Hnew'.
  unfold recalculateCheckpoint in *. rewrite Hnew, Hcp in *.
  destruct (isCheckpointGreaterThan new (checkpoint g)) eqn:Hgt; simpl in *.
  - rewrite Hgt. split; [by split|by split].
  - rewrite Hcp. assert (new = checkpoint g) as -> by (by apply le_antisym).
    rewrite Hgt, app_nil_r. split; [by split|]. split; [apply le_refl|done].
Qed.

Lemma max2_mono a b a' b' : le a a' → le b b' → le (max2 a b) (max2 a' b').
Proof.
  intros Ha Hb. apply max2_lub.
  - eapply le_trans; [done|apply max2_le_l].
  - eapply le_trans; [done|apply max2_le_r].
Qed.

Lemma perChainBest_mono c c' :
  le (historicalCheckpoint c) (historicalCheckpoint c') →
  le (realtimeCheckpoint c) (realtimeCheckpoint c') →
  (isHistoricalComplete c = true → isHistoricalComplete c' = true) →
  le (perChainBest c) (perChainBest c').
Proof.
  intros Hh Hr Hc. unfold perChainBest.
  destruct (isHistoricalComplete c), (isHistoricalComplete c'); try done.
  - by apply max2_mono.
  - by specialize (Hc eq_refl).
  - eapply le_trans; [done|apply max2_le_l].
Qed.

(** One chain moves forward, then the global checkpoint is recomputed. *)
Lemma setChain_recalculate_reduced g id c' :
  reduced g →
  le (historicalCheckpoint (chainOf g id)) (historicalCheckpoint c') →
  le (realtimeCheckpoint (chainOf g id)) (realtimeCheckpoint c') →
  (isHistoricalComplete (chainOf g id) = true → isHistoricalComplete c' = true) →
  let g' := recalculateCheckpoint (setChain g id c') in
  reduced g' ∧ le (checkpoint g) (checkpoint g') ∧
  emitted g' = emitted g ++
    (if isCheckpointGreaterThan (checkpoint g') (checkpoint g)
     then [NewCheckpoint (checkpoint g')] else []).
Proof.
  intros Hred Hh Hr Hc. pose proof Hred as [Hnn _].
  apply (recalculateCheckpoint_reduced g (setChain g id c')); try done.
  - intros id'. rewrite chainOf_setChain. case_decide; [subst|apply Hnn].
    destruct (Hnn id') as [H1 H2].
    split; [exact (le_trans _ _ _ H1 Hh)|exact (le_trans _ _ _ H2 Hr)].
  - intros id'. rewrite chainOf_setChain. case_decide; [subst|apply le_refl].
    by apply perChainBest_mono.
Qed.

Lemma recalculate_reduced g :
  reduced g →
  let g' := recalculateCheckpoint g in
  reduced g' ∧ le (checkpoint g) (checkpoint g') ∧
  emitted g' = emitted g ++
    (if isCheckpointGreaterThan (checkpoint g') (checkpoint g)
     then [NewCheckpoint (checkpoint g')] else []).
Proof.
  intros Hred. pose proof Hred as [Hnn _].
  apply (recalculateCheckpoint_reduced g g); try done. intros id. apply le_refl.
Qed.

Lemma recalculateFinalityCheckpoint_facts g :
  let g' := recalculateFinalityCheckpoint g in
  networks g' = networks g ∧ chainCheckpoints g' = chainCheckpoints g ∧
  checkpoint g' = checkpoint g ∧
  ∃ es, emitted g' = emitted g ++ es ∧ newCheckpoints es = [].
Proof.
  unfold recalculateFinalityCheckpoint. destruct (reducedFinalityCheckpoint g) as [new|].
  - destruct (isCheckpointGreaterThan new _); simpl; repeat split; try done.
    + by eexists [_].
    + exists []. by rewrite app_nil_r.
  - simpl. repeat split; try done. exists []. by rewrite app_nil_r.
Qed.

Lemma gt_irrefl c : isCheckpointGreaterThan c c = false.
Proof. apply le_refl. Qed.

(** What one input that is not a reset does. *)
Definition advances (g g' : Gateway) : Prop :=
  reduced g' ∧ networks g' = networks g ∧
  le (checkpoint g) (checkpoint g') ∧
  ∃ es, emitted g' = emitted g ++ es ∧
        newCheckpoints es =
          if isCheckpointGreaterThan (checkpoint g') (checkpoint g)
          then [checkpoint g'] else [].

Lemma advances_setChain g id c' :
  reduced g →
  le (historicalCheckpoint (chainOf g id)) (historicalCheckpoint c') →
  le (realtimeCheckpoint (chainOf g id)) (realtimeCheckpoint c') →
  (isHistoricalComplete (chainOf g id) = true → isHistoricalComplete c' = true) →
  advances g (recalculateCheckpoint (setChain g id c')).
Proof.
  intros Hred Hh Hr Hc.
  destruct (setChain_recalculate_reduced g id c' Hred Hh Hr Hc) as (? & ? & Hem).
  split_and!; [done|by rewrite recalculateCheckpoint_networks|done|].
  eexists. split; [exact Hem|]. by destruct (isCheckpointGreaterThan _ _).
Qed.

Lemma advances_recalculate g : reduced g → advances g (recalculateCheckpoint g).
Proof.
  intros Hred. destruct (recalculate_reduced g Hred) as (? & ? & Hem).
  split_and!; [done|by rewrite recalculateCheckpoint_networks|done|].
  eexists. split; [exact Hem|]. by destruct (isCheckpointGreaterThan _ _).
Qed.

Lemma step_reduced g i : reduced g → ¬ isReset i → advances g (step g i).
Proof.
  intros Hred Hnr. pose proof Hred as [Hnn Hmin].
  destruct i as [c|id|c|c|c|id]; simpl in *; try done.
  - unfold handleNewHistoricalCheckpoint.
    destruct (isCheckpointGreaterThan c _) eqn:Hgt; [|by apply advances_recalculate].
    apply advances_setChain; simpl; [done|by apply lt_le|apply le_refl|done].
  - unfold handleHistoricalSyncComplete.
    apply advances_setChain; simpl; [done|apply le_refl|apply le_refl|done].
  - unfold handleNewRealtimeCheckpoint.
    destruct (isCheckpointGreaterThan c _) eqn:Hgt; [|by apply advances_recalculate].
    apply advances_setChain; simpl; [done|apply le_refl|by apply lt_le|done].
  - unfold handleNewFinalityCheckpoint.
    set (g1 := if isCheckpointGreaterThan c _ then _ else g).
    assert (networks g1 = networks g ∧ checkpoint g1 = checkpoint g ∧
            emitted g1 = emitted g ∧
            ∀ id, historicalCheckpoint (chainOf g1 id) = historicalCheckpoint (chainOf g id) ∧
                  realtimeCheckpoint (chainOf g1 id) = realtimeCheckpoint (chainOf g id) ∧
                  isHistoricalComplete (chainOf g1 id) = isHistoricalComplete (chainOf g id))
      as (Hn1 & Hc1 & He1 & Hch1).
    { unfold g1. destruct (isCheckpointGreaterThan c _); [|done].
      split_and!; try done. intros id. rewrite chainOf_setChain.
      case_decide; [by subst|done]. }
    destruct (recalculateFinalityCheckpoint_facts g1) as (Hn & Hcc & Hcp & es & Hem & Hes).
    assert (∀ id, perChainBest (chainOf (recalculateFinalityCheckpoint g1) id)
                  = perChainBest (chainOf g id)) as Hbest.
    { intros id. unfold chainOf at 1. rewrite Hcc. fold (chainOf g1 id).
      unfold perChainBest. destruct (Hch1 id) as (-> & -> & ->). done. }
    split_and!.
    + split.
      * intros id. unfold chainOf. rewrite Hcc. fold (chainOf g1 id).
        destruct (Hch1 id) as (-> & -> & _). apply Hnn.
      * rewrite Hcp, Hc1, <- Hmin. apply reducedCheckpoint_ext; [congruence|done].
    + congruence.
    + rewrite Hcp, Hc1. apply le_refl.
    + exists es. rewrite Hem, He1, Hcp, Hc1, gt_irrefl. done.
  - split_and!; try done; [apply le_refl|].
    eexists [_]. rewrite gt_irrefl. done.
Qed.

Lemma resetCheckpoints_reduced g id :
  reduced g → id ∈ networks g → reduced (resetCheckpoints id g).
Proof.
  intros [Hnn Hmin] Hid. split.
  - intros id'. rewrite chainOf_resetCheckpoints. case_decide; [|apply Hnn].
    simpl. split; apply le_refl.
  - apply minOver_Some_iff. simpl. split.
    + apply list_elem_of_fmap. exists id. split; [|done].
      rewrite chainOf_resetCheckpoints, decide_True by done. done.
    + intros c (id' & -> & _)%list_elem_of_fmap. rewrite chainOf_resetCheckpoints.
      case_decide; [apply le_refl|]. apply perChainBest_nonneg, Hnn.
Qed.

Lemma recalculateFinalityCheckpoint_networks g :
  networks (recalculateFinalityCheckpoint g) = networks g.
Proof. by destruct (recalculateFinalityCheckpoint_facts g) as (? & _). Qed.

Lemma step_networks g i : networks (step g i) = networks g.
Proof.
  destruct i; simpl; try done;
    unfold handleNewHistoricalCheckpoint, handleHistoricalSyncComplete,
      handleNewRealtimeCheckpoint, handleNewFinalityCheckpoint;
    rewrite ?recalculateCheckpoint_networks, ?recalculateFinalityCheckpoint_networks;
    try done; by destruct (isCheckpointGreaterThan _ _).
Qed.

Lemma run_networks g inputs : networks (run g inputs) = networks g.
Proof.
  revert g. induction inputs as [|i inputs IH]; intros g; [done|].
  simpl. by rewrite IH, step_networks.
Qed.

Lemma step_known_reduced g i :
  reduced g → knownChain (networks g) i → reduced (step g i).
Proof.
  intros Hred Hk. destruct (decide (isReset i)) as [Hr|Hr].
  - destruct i; try done. simpl. by apply resetCheckpoints_reduced.
  - by apply step_reduced.
Qed.

Lemma run_reduced g inputs :
  reduced g → Forall (knownChain (networks g)) inputs → reduced (run g inputs).
Proof.
  revert g. induction inputs as [|i inputs IH]; intros g Hred Hk; [done|].
  apply Forall_cons in Hk as [Hi Hk]. simpl. apply IH.
  - by apply step_known_reduced.
  - by rewrite step_networks.
Qed.

(** The events emitted while running [inputs] from [g]. *)
Definition runEvents (g : Gateway) (inputs : list Input) : list GatewayEvent :=
  drop (length (emitted g)) (emitted (run g inputs)).

Lemma newCheckpoints_app es es' :
  newCheckpoints (es ++ es') = newCheckpoints es ++ newCheckpoints es'.
Proof. unfold newCheckpoints. by rewrite bind_app. Qed.

(** Without a reset in between, the values emitted after [g] rise strictly
    from the global checkpoint of [g], and the last of them is the global
    checkpoint reached. *)
Lemma run_no_reset g inputs :
  reduced g → Forall (λ i, ¬ isReset i) inputs →
  ∃ es, emitted (run g inputs) = emitted g ++ es ∧
        Sorted lt (checkpoint g :: newCheckpoints es) ∧
        last (checkpoint g :: newCheckpoints es) = Some (checkpoint (run g inputs)).
Proof.
  revert g. induction inputs as [|i inputs IH]; intros g Hred Hnr.
  - exists []. rewrite app_nil_r. simpl. repeat split; try done. repeat constructor.
  - apply Forall_cons in Hnr as [Hi Hnr].
    destruct (step_reduced g i Hred Hi) as (Hred' & _ & Hle & es1 & Hem1 & Hes1).
    destruct (IH (step g i) Hred' Hnr) as (es2 & Hem2 & Hsorted & Hlast).
    exists (es1 ++ es2). simpl. rewrite Hem2, Hem1, <- (assoc_L (++)).
    split; [done|]. rewrite newCheckpoints_app, Hes1.
    destruct (isCheckpointGreaterThan (checkpoint (step g i)) (checkpoint g)) eqn:Hgt; simpl.
    + split; [|done]. constructor; [done|]. by constructor.
    + assert (checkpoint (step g i) = checkpoint g) as Heq by (by apply le_antisym).
      rewrite Heq in Hsorted, Hlast. by split.
Qed.

End SyncGateway.


(** ** Indexing service *)

Module Indexing.
Import Checkpoint.

(** Decoded event arguments; the scheduler never looks inside. *)
Definition Args : Type := string.

(** [LogEventTask["data"]]. *)
Record LogEventTask : Type := mkLogEventTask {
  task_networkName : string;
  task_contractName : string;
  task_eventName : string;
  task_args : Args;
  task_event : SyncStore.Event;
  task_checkpoint : Checkpoint;
  task_eventsProcessed : option Z;
}.

#[global] Instance LogEventTask_eq_dec : EqDecision LogEventTask.
Proof. solve_decision. Defined.

(** An entry of [indexingFunctionStates].  The sources, the ABI event and
    the event selector of the entry only select the rows a load asks the
    store for; they are part of the [getEvents] oracle below. *)
Record IndexingFunctionState : Type := mkIndexingFunctionState {
  contractName : string;
  eventName : string;
  parents : list string;
  isSelfDependent : bool;
  tasksProcessedToCheckpoint : Checkpoint;
  tasksLoadedFromCheckpoint : Checkpoint;
  tasksLoadedToCheckpoint : Checkpoint;
  loadedTasks : list LogEventTask;
  firstEventCheckpoint : option Checkpoint;
  lastEventCheckpoint : option Checkpoint;
  eventCount : Z;
}.

#[global] Instance IndexingFunctionState_eq_dec : EqDecision IndexingFunctionState.
Proof. solve_decision. Defined.

(** What the service does to its collaborators (indexing store, worker
    queue, metrics, event emitter) and to user code, in order.  Logger
    calls and the duration and seconds gauges are left out. *)
Inductive Effect : Type :=
  | CallIndexingFunction (task : LogEventTask)
  | IndexingStoreRevert (checkpoint : Checkpoint)
  | QueueAddTask (task : LogEventTask)
  | QueuePause
  | QueueClear
  | MetricHasError (value : Z)
  | MetricCompletedTimestamp (value : Z)
  | MetricFunctionErrorTotal
  | MetricCompletedEvents
  | EmitError
  | EmitEventsProcessed (toCheckpoint : Checkpoint).

#[global] Instance Effect_eq_dec : EqDecision Effect.
Proof. solve_decision. Defined.

(** The JavaScript object [indexingFunctionStates]: keys in insertion order,
    each key once. *)
Definition States : Type := list (string * IndexingFunctionState).

Fixpoint lookupState (key : string) (states : States) : option IndexingFunctionState :=
  match states with
  | [] => None
  | (k, st) :: states' => if decide (k = key) then Some st else lookupState key states'
  end.

Fixpoint setState (key : string) (st : IndexingFunctionState) (states : States) : States :=
  match states with
  | [] => []
  | (k, st') :: states' =>
      if decide (k = key) then (k, st) :: states' else (k, st') :: setState key st states'
  end.

Record Service : Type := mkService {
  isPaused : bool;
  indexingFunctionStates : States;
  effects : list Effect;
}.

Definition perform (es : list Effect) (s : Service) : Service :=
  {| isPaused := isPaused s;
     indexingFunctionStates := indexingFunctionStates s;
     effects := effects s ++ es |}.

Definition withStates (states : States) (s : Service) : Service :=
  {| isPaused := isPaused s; indexingFunctionStates := states; effects := effects s |}.

Definition withPaused (b : bool) (s : Service) : Service :=
  {| isPaused := b; indexingFunctionStates := indexingFunctionStates s; effects := effects s |}.

(** *** [buildIndexingFunctionStates]: the entry made for one key *)

(** A row of [database.functionMetadata], without its id and name. *)
Record FunctionMetadata : Type := mkFunctionMetadata {
  fm_fromCheckpoint : option Checkpoint;
  fm_toCheckpoint : Checkpoint;
  fm_eventCount : Z;
}.

Definition buildIndexingFunctionState (contractName eventName : string)
    (parents : list string) (isSelfDependent : bool) (checkpoint : option FunctionMetadata)
    : IndexingFunctionState :=
  {| contractName := contractName;
     eventName := eventName;
     parents := parents;
     isSelfDependent := isSelfDependent;
     tasksProcessedToCheckpoint := default zeroCheckpoint (fm_toCheckpoint <$> checkpoint);
     tasksLoadedFromCheckpoint := default zeroCheckpoint (fm_toCheckpoint <$> checkpoint);
     tasksLoadedToCheckpoint := default zeroCheckpoint (fm_toCheckpoint <$> checkpoint);
     loadedTasks := [];
     firstEventCheckpoint := checkpoint ≫= fm_fromCheckpoint;
     lastEventCheckpoint := None;
     eventCount := default 0 (fm_eventCount <$> checkpoint) |}.

(** *** [handleReorg] *)

Definition clampState (safeCheckpoint : Checkpoint) (state : IndexingFunctionState)
    : IndexingFunctionState :=
  {| contractName := contractName state;
     eventName := eventName state;
     parents := parents state;
     isSelfDependent := isSelfDependent state;
     tasksProcessedToCheckpoint :=
       if isCheckpointGreaterThan (tasksProcessedToCheckpoint state) safeCheckpoint
       then safeCheckpoint else tasksProcessedToCheckpoint state;
     tasksLoadedFromCheckpoint :=
       if isCheckpointGreaterThan (tasksLoadedFromCheckpoint state) safeCheckpoint
       then safeCheckpoint else tasksLoadedFromCheckpoint state;
     tasksLoadedToCheckpoint :=
       if isCheckpointGreaterThan (tasksLoadedToCheckpoint state) safeCheckpoint
       then safeCheckpoint else tasksLoadedToCheckpoint state;
     loadedTasks := loadedTasks state;
     firstEventCheckpoint := firstEventCheckpoint state;
     lastEventCheckpoint := lastEventCheckpoint state;
     eventCount := eventCount state |}.

Definition handleReorg (safeCheckpoint : Checkpoint) (s : Service) : Service :=
  let hasProcessedInvalidEvents :=
    existsb (λ kst : string * IndexingFunctionState,
               isCheckpointGreaterThan (tasksProcessedToCheckpoint kst.2) safeCheckpoint)
      (indexingFunctionStates s) in
  if negb hasProcessedInvalidEvents then s
  else
    withStates (prod_map id (clampState safeCheckpoint) <$> indexingFunctionStates s)
      (perform [IndexingStoreRevert safeCheckpoint;
                MetricCompletedTimestamp (blockTimestamp safeCheckpoint)] s).

(** *** [enqueueLogEventTasks] *)

Definition withLoadedTasks (tasks : list LogEventTask) (state : IndexingFunctionState)
    : IndexingFunctionState :=
  {| contractName := contractName state;
     eventName := eventName state;
     parents := parents state;
     isSelfDependent := isSelfDependent state;
     tasksProcessedToCheckpoint := tasksProcessedToCheckpoint state;
     tasksLoadedFromCheckpoint := tasksLoadedFromCheckpoint state;
     tasksLoadedToCheckpoint := tasksLoadedToCheckpoint state;
     loadedTasks := tasks;
     firstEventCheckpoint := firstEventCheckpoint state;
     lastEventCheckpoint := lastEventCheckpoint state;
     eventCount := eventCount state |}.

(** [checkpointMin(...checkpoints)] on an array: the reduce throws on the
    empty one. *)
Definition checkpointMinOf (cs : list Checkpoint) : option Checkpoint :=
  match cs with
  | [] => None
  | c :: cs => Some (checkpointMin c cs)
  end.

(** The body of the loop for one entry: the tasks it hands to the queue, in
    order, and the tasks it leaves buffered.  [None] where the source
    throws (a parent key with no entry). *)
Definition dispatch (states : States) (state : IndexingFunctionState)
    : option (list LogEventTask * list LogEventTask) :=
  let tasks := loadedTasks state in
  match tasks with
  | [] => Some ([], tasks)
  | task0 :: rest =>
      if bool_decide (parents state = []) && isSelfDependent state
         && isCheckpointGreaterThanOrEqualTo (tasksLoadedFromCheckpoint state)
              (task_checkpoint task0)
      then (* Case 1 *) Some ([task0], rest)
      else if bool_decide (parents state = []) && negb (isSelfDependent state)
      then (* Case 2 *) Some (tasks, [])
      else if bool_decide (parents state ≠ [])
      then
        parentLoadedFromCheckpoints ←
          mapM (λ p, tasksLoadedFromCheckpoint <$> lookupState p states) (parents state);
        if isSelfDependent state
           && match checkpointMinOf
                      (parentLoadedFromCheckpoints ++ [tasksLoadedFromCheckpoint state]) with
              | Some m => isCheckpointGreaterThanOrEqualTo m (task_checkpoint task0)
              | None => false
              end
        then (* Case 3 *) Some ([task0], rest)
        else if negb (isSelfDependent state)
        then (* Case 4 *)
          minParentCheckpoint ← checkpointMinOf parentLoadedFromCheckpoints;
          match list_find (λ task, isCheckpointGreaterThan (task_checkpoint task)
                                     minParentCheckpoint = true) tasks with
          | None => Some (tasks, [])
          | Some (maxCheckpointIndex, _) =>
              Some (take maxCheckpointIndex tasks, drop maxCheckpointIndex tasks)
          end
        else Some ([], tasks)
      else Some ([], tasks)
  end.

Definition enqueueKey (key : string) (s : Service) : option Service :=
  match lookupState key (indexingFunctionStates s) with
  | None => Some s
  | Some state =>
      '(tasksToEnqueue, buffered) ← dispatch (indexingFunctionStates s) state;
      Some (withStates (setState key (withLoadedTasks buffered state) (indexingFunctionStates s))
              (perform (QueueAddTask <$> tasksToEnqueue) s))
  end.

Fixpoint enqueueKeys (keys : list string) (s : Service) : option Service :=
  match keys with
  | [] => Some s
  | key :: keys' => s' ← enqueueKey key s; enqueueKeys keys' s'
  end.

Definition enqueueLogEventTasks (s : Service) : option Service :=
  if isPaused s then Some s
  else enqueueKeys (fst <$> indexingFunctionStates s) s.

(** *** Loading and executing tasks *)

Definition MAX_BATCH_SIZE : Z := 10000.

(** [getStateCheckpoint]: "the most generous checkpoint possible for an
    indexing function". *)
Definition getStateCheckpoint (state : IndexingFunctionState) : Checkpoint :=
  match loadedTasks state with
  | [] => tasksLoadedToCheckpoint state
  | _ => tasksProcessedToCheckpoint state
  end.

(** [emitCheckpoint]; it is only called while an entry exists. *)
Definition emitCheckpoint (s : Service) : Service :=
  match checkpointMinOf (getStateCheckpoint ∘ snd <$> indexingFunctionStates s) with
  | Some checkpoint =>
      perform [EmitEventsProcessed checkpoint;
               MetricCompletedTimestamp (blockTimestamp checkpoint)] s
  | None => s
  end.

(** A value thrown inside the [try], by what the [catch] block does with
    it.  User code can throw any value, and the block takes it for an
    [Error] ([error_ as Error & { meta?: string }]). *)
Record Thrown : Type := mkThrown {
  (** [error_ instanceof NonRetryableError] *)
  instanceofNonRetryableError : bool;
  (** whether the warning text [`${error.name}: ${error.message}`] can be
      built: on [undefined] and [null] reading a property throws a
      TypeError *)
  readsNameAndMessage : bool;
  (** whether [addUserStackTrace(error, ...)] returns and [error.meta] can
      be read and set: not on [undefined] and [null], nor, the module being
      in strict mode, on a primitive such as a string *)
  takesMeta : bool;
}.

#[global] Instance Thrown_eq_dec : EqDecision Thrown.
Proof. solve_decision. Defined.

(** An [Error] object, retryable or not; [undefined] or [null]; a primitive
    such as a string. *)
Definition thrownError (nonRetryable : bool) : Thrown := mkThrown nonRetryable true true.

(** What one call of the user's indexing function does. *)
Inductive Outcome : Type :=
  | Returned
  | Threw (error : Thrown).

Section Tasks.
(** The user's indexing function: what attempt [i] on a task does. *)
Variable indexingFunction : LogEventTask → nat → Outcome.
(** [syncGatewayService.checkpoint] at the time of a load. *)
Variable gatewayCheckpoint : Checkpoint.
(** [syncGatewayService.getEvents] for the sources of a key;
    [None] when it throws. *)
Variable getEvents : string → Checkpoint → Checkpoint → Z → option SyncStore.LogEventsResult.
(** [decodeEventLog] with the ABI event of a key; [None] when it throws. *)
Variable decodeEventLog : string → SyncStore.Event → option Args.

(** [isIndexingFunctionFullLoaded]. *)
Definition isIndexingFunctionFullLoaded (state : IndexingFunctionState) : bool :=
  match lastEventCheckpoint state with
  | None => false
  | Some lastEvent =>
      isCheckpointGreaterThanOrEqualTo (tasksLoadedToCheckpoint state) lastEvent
      && isCheckpointGreaterThanOrEqualTo (tasksLoadedToCheckpoint state) gatewayCheckpoint
  end.

(** [calculateTaskBatchSize]; [unfinishedCount] is positive when [key] has
    an entry, and [Math.floor] of the quotient is then [Z.div]. *)
Definition calculateTaskBatchSize (key : string) (states : States) : Z :=
  let '(totalBatchSize, unfinishedCount) :=
    foldl (λ '(totalBatchSize, unfinishedCount) '(indexingFunctionKey, state),
             if decide (key = indexingFunctionKey) then (totalBatchSize, unfinishedCount)
             else if isIndexingFunctionFullLoaded state
                  then (totalBatchSize - Z.of_nat (length (loadedTasks state)),
                        unfinishedCount - 1)
                  else (totalBatchSize, unfinishedCount))
      (MAX_BATCH_SIZE, Z.of_nat (length states)) states in
  totalBatchSize `div` unfinishedCount.

(** [getLoadKeys]; [length < batchSize / 3] is compared without dividing. *)
Definition getLoadKeys (states : States) : list string :=
  match list_find (λ kst : string * IndexingFunctionState,
                     loadedTasks kst.2 = [] ∧ isIndexingFunctionFullLoaded kst.2 = false)
          states with
  | None => []
  | Some (_, (emptyKey, _)) =>
      let batchSize := calculateTaskBatchSize emptyKey states in
      (filter (λ kst : string * IndexingFunctionState,
                 lastEventCheckpoint kst.2 = None ∨
                 (isIndexingFunctionFullLoaded kst.2 = false ∧
                  3 * Z.of_nat (length (loadedTasks kst.2)) < batchSize))
         states).*1
  end.

(** The part of [loadIndexingFunctionTasks] after the page has come back. *)
Definition applyLoadResult (key : string) (state : IndexingFunctionState)
    (toCheckpoint : Checkpoint) (result : SyncStore.LogEventsResult) (s : Service) : Service :=
  let previousLength := length (loadedTasks state) in
  let pushed :=
    omap (λ event,
            args ← decodeEventLog key event;
            Some {| task_networkName := "mainnet";
                    task_contractName := contractName state;
                    task_eventName := eventName state;
                    task_args := args;
                    task_event := event;
                    task_checkpoint :=
                      SyncStore.numberCheckpoint (SyncStore.eventCheckpoint event);
                    task_eventsProcessed := None |})
      (SyncStore.events result) in
  let tasks := loadedTasks state ++ pushed in
  let loadedTo :=
    if SyncStore.hasNextPage result
    then default toCheckpoint (SyncStore.lastCheckpointInPage result)
    else toCheckpoint in
  let flagLast (tasks : list LogEventTask) : list LogEventTask :=
    match last tasks with
    | Some t =>
        take (length tasks - 1) tasks ++
        [{| task_networkName := task_networkName t;
            task_contractName := task_contractName t;
            task_eventName := task_eventName t;
            task_args := task_args t;
            task_event := task_event t;
            task_checkpoint := task_checkpoint t;
            task_eventsProcessed := Some (Z.of_nat (length (SyncStore.events result))) |}]
    | None => tasks
    end in
  let lastEvent :=
    match SyncStore.lastCheckpoint result, lastEventCheckpoint state with
    | None, None => Some toCheckpoint
    | Some lastCheckpoint, None => Some lastCheckpoint
    | Some lastCheckpoint, Some previous => Some (max2 lastCheckpoint previous)
    | None, Some previous => Some previous
    end in
  let state' :=
    {| contractName := contractName state;
       eventName := eventName state;
       parents := parents state;
       isSelfDependent := isSelfDependent state;
       tasksProcessedToCheckpoint := tasksProcessedToCheckpoint state;
       tasksLoadedFromCheckpoint :=
         match tasks with
         | [] => loadedTo
         | task0 :: _ =>
             if decide (previousLength = 0%nat) then task_checkpoint task0
             else tasksLoadedFromCheckpoint state
         end;
       tasksLoadedToCheckpoint := loadedTo;
       loadedTasks := flagLast tasks;
       firstEventCheckpoint :=
         match tasks, firstEventCheckpoint state with
         | task0 :: _, None => Some (task_checkpoint task0)
         | _, first => first
         end;
       lastEventCheckpoint := lastEvent;
       eventCount := eventCount state |} in
  let s' := withStates (setState key state' (indexingFunctionStates s)) s in
  match tasks with
  | [] => emitCheckpoint s'
  | _ => s'
  end.

(** [loadIndexingFunctionTasks]; [None] when [getEvents] throws. *)
Definition loadIndexingFunctionTasks (key : string) (s : Service) : option Service :=
  match lookupState key (indexingFunctionStates s) with
  | None => None
  | Some state =>
      let fromCheckpoint := tasksLoadedToCheckpoint state in
      let toCheckpoint := gatewayCheckpoint in
      if isCheckpointGreaterThanOrEqualTo fromCheckpoint toCheckpoint
         && bool_decide (lastEventCheckpoint state ≠ None)
      then Some s
      else
        let taskBatchSize := calculateTaskBatchSize key (indexingFunctionStates s) in
        result ← getEvents key fromCheckpoint toCheckpoint taskBatchSize;
        Some (applyLoadResult key state toCheckpoint result s)
  end.

(** What a successful run of the user's function is followed by, inside
    the [try]. *)
Definition completeTask (fullEventName : string) (task : LogEventTask)
    (state : IndexingFunctionState) (s : Service) : Service :=
  let state' :=
    {| contractName := contractName state;
       eventName := eventName state;
       parents := parents state;
       isSelfDependent := isSelfDependent state;
       tasksProcessedToCheckpoint :=
         checkpointMax (tasksProcessedToCheckpoint state) [task_checkpoint task];
       tasksLoadedFromCheckpoint :=
         match loadedTasks state with
         | task0 :: _ => task_checkpoint task0
         | [] => tasksLoadedToCheckpoint state
         end;
       tasksLoadedToCheckpoint := tasksLoadedToCheckpoint state;
       loadedTasks := loadedTasks state;
       firstEventCheckpoint := firstEventCheckpoint state;
       lastEventCheckpoint := lastEventCheckpoint state;
       eventCount := eventCount state + 1 |} in
  let s := withStates (setState fullEventName state' (indexingFunctionStates s)) s in
  let s :=
    match task_eventsProcessed task with
    | Some n => if decide (n = 0) then s else emitCheckpoint s
    | None => s
    end in
  perform [MetricCompletedEvents] s.

(** [fullEventName]: the key of the entry a task belongs to. *)
Definition taskKey (task : LogEventTask) : string :=
  String.append (task_contractName task) (String.append ":" (task_eventName task)).

(** The loop [for (let i = 0; i < 4; i++) { try ... catch ... }] from
    counter [i]; [fuel] bounds the iterations left.  The result says where
    the service is left and whether the loop ran to its end ([true]) or the
    [catch] block itself threw ([false]), which ends [executeLogEventTask].
    With no entry under the task's key the bookkeeping after the user's
    function throws a TypeError, an [Error] object. *)
Fixpoint attempts (fuel : nat) (i : nat) (task : LogEventTask) (s : Service)
    : Service * bool :=
  match fuel with
  | O => (s, true)
  | S fuel' =>
      if decide (i < 4)%nat then
        let fullEventName := taskKey task in
        let s := perform [CallIndexingFunction task] s in
        let caught (error : Thrown) (s : Service) : Service * bool :=
          let s := perform [MetricFunctionErrorTotal] s in
          let i := if instanceofNonRetryableError error then 3%nat else i in
          if decide (i = 3%nat)
          then
            let s := perform [QueuePause; QueueClear] (withPaused true s) in
            if takesMeta error
            then attempts fuel' (i + 1) task (perform [MetricHasError 1; EmitError] s)
            else (s, false)
          else
            if readsNameAndMessage error
            then attempts fuel' (i + 1) task
                   (perform [IndexingStoreRevert (task_checkpoint task)] s)
            else (s, false) in
        match indexingFunction task i with
        | Returned =>
            match lookupState fullEventName (indexingFunctionStates s) with
            | Some state => (completeTask fullEventName task state s, true)
            | None => caught (thrownError false) s
            end
        | Threw error => caught error s
        end
      else (s, true)
  end.

Fixpoint loadKeys (keys : list string) (s : Service) : option Service :=
  match keys with
  | [] => Some s
  | key :: keys' => s' ← loadIndexingFunctionTasks key s; loadKeys keys' s'
  end.

(** [executeLogEventTask]: the attempts, then a load of the keys that need
    one and a dispatch.  Four iterations are all the loop can make.  [None]
    where it throws. *)
Definition executeLogEventTask (task : LogEventTask) (s : Service) : option Service :=
  let '(s, finished) := attempts 4 0 task s in
  if finished then
    s ← loadKeys (getLoadKeys (indexingFunctionStates s)) s;
    enqueueLogEventTasks s
  else None.

End Tasks.

(** *** Facts about the entries *)

Lemma lookupState_setState_eq key st states :
  is_Some (lookupState key states) → lookupState key (setState key st states) = Some st.
Proof.
  induction states as [|[k st'] states IH]; simpl; [by intros [? ?]|].
  case_decide; simpl; [by rewrite decide_True|]. rewrite decide_False by done. done.
Qed.

Lemma lookupState_setState_ne key key' st states :
  key ≠ key' → lookupState key' (setState key st states) = lookupState key' states.
Proof.
  intros Hne. induction states as [|[k st'] states IH]; simpl; [done|].
  destruct (decide (k = key)) as [->|]; simpl.
  - by rewrite !decide_False by done.
  - case_decide; [done|]. done.
Qed.

Lemma setState_keys key st states : (setState key st states).*1 = states.*1.
Proof.
  induction states as [|[k st'] states IH]; [done|]. simpl.
  case_decide; [done|]. rewrite !fmap_cons. by rewrite IH.
Qed.

Lemma lookupState_fmap (f : IndexingFunctionState → IndexingFunctionState) key states :
  lookupState key (prod_map id f <$> states) = f <$> lookupState key states.
Proof.
  induction states as [|[k st] states IH]; simpl; [done|]. by case_decide.
Qed.

Lemma lookupState_Some_elem key st states :
  lookupState key states = Some st → (key, st) ∈ states.
Proof.
  induction states as [|[k st'] states IH]; simpl; [done|].
  case_decide; [intros [= ->]; subst; by left|]. intros Hl. right. by apply IH.
Qed.

Lemma lookupState_is_Some key states : is_Some (lookupState key states) ↔ key ∈ states.*1.
Proof.
  induction states as [|[k st'] states IH]; simpl.
  - split; [by intros [? ?]|by intros ?%elem_of_nil].
  - case_decide; subst.
    + split; [intros _; by left|by eexists].
    + rewrite IH, elem_of_cons. simpl. split; [by right|].
      intros [?|?]; [congruence|done].
Qed.

(** *** The order of the three checkpoints *)

(** [tasksProcessedToCheckpoint ≤ tasksLoadedFromCheckpoint ≤
    tasksLoadedToCheckpoint]. *)
Definition ordered (state : IndexingFunctionState) : Prop :=
  le (tasksProcessedToCheckpoint state) (tasksLoadedFromCheckpoint state) ∧
  le (tasksLoadedFromCheckpoint state) (tasksLoadedToCheckpoint state).

#[global] Instance ordered_dec state : Decision (ordered state).
Proof. unfold ordered. apply _. Defined.

(** The buffer is in checkpoint order and lies between the loaded-from and
    the loaded-to checkpoint. *)
Definition buffered (state : IndexingFunctionState) : Prop :=
  StronglySorted le (task_checkpoint <$> loadedTasks state) ∧
  Forall (λ t, le (tasksLoadedFromCheckpoint state) (task_checkpoint t) ∧
               le (task_checkpoint t) (tasksLoadedToCheckpoint state))
    (loadedTasks state).

Definition consistent (state : IndexingFunctionState) : Prop :=
  ordered state ∧ buffered state.

(** A task that has left the buffer of [state] for the queue: nothing still
    buffered lies before it, and it was loaded. *)
Definition dispatchedFrom (state : IndexingFunctionState) (task : LogEventTask) : Prop :=
  le (task_checkpoint task) (tasksLoadedToCheckpoint state) ∧
  Forall (λ t, le (task_checkpoint task) (task_checkpoint t)) (loadedTasks state).

#[global] Instance buffered_dec state : Decision (buffered state).
Proof. unfold buffered. apply _. Defined.
#[global] Instance consistent_dec state : Decision (consistent state).
Proof. unfold consistent. apply _. Defined.
#[global] Instance dispatchedFrom_dec state task : Decision (dispatchedFrom state task).
Proof. unfold dispatchedFrom. apply _. Defined.

Lemma buildIndexingFunctionState_consistent contractName eventName parents isSelfDependent cp :
  consistent (buildIndexingFunctionState contractName eventName parents isSelfDependent cp).
Proof.
  split; [split; apply le_refl|]. split; simpl; constructor.
Qed.

Lemma clamp_le safe a b :
  le a b →
  le (if isCheckpointGreaterThan a safe then safe else a)
     (if isCheckpointGreaterThan b safe then safe else b).
Proof.
  intros Hab.
  destruct (isCheckpointGreaterThan a safe) eqn:Ha, (isCheckpointGreaterThan b safe) eqn:Hb.
  - apply le_refl.
  - exfalso. apply (lt_irrefl safe). eapply lt_le_trans; [exact Ha|]. by eapply le_trans.
  - exact Ha.
  - exact Hab.
Qed.

Lemma clampState_ordered safe state : ordered state → ordered (clampState safe state).
Proof. intros [H1 H2]. split; simpl; by apply clamp_le. Qed.

(** *** [handleReorg] *)

Lemma handleReorg_noop safe s :
  Forall (λ kst : string * IndexingFunctionState,
            isCheckpointGreaterThan (tasksProcessedToCheckpoint kst.2) safe = false)
    (indexingFunctionStates s) →
  handleReorg safe s = s.
Proof.
  intros Hall. unfold handleReorg.
  replace (existsb _ _) with false; [done|]. symmetry.
  apply not_true_iff_false. intros (kst & Hin & Hgt)%existsb_exists.
  apply list_elem_of_In in Hin. apply (proj1 (Forall_forall _ _) Hall) in Hin. congruence.
Qed.

Lemma handleReorg_revert safe s :
  Exists (λ kst : string * IndexingFunctionState,
            isCheckpointGreaterThan (tasksProcessedToCheckpoint kst.2) safe = true)
    (indexingFunctionStates s) →
  handleReorg safe s =
  withStates (prod_map id (clampState safe) <$> indexingFunctionStates s)
    (perform [IndexingStoreRevert safe; MetricCompletedTimestamp (blockTimestamp safe)] s).
Proof.
  intros (kst & Hin & Hgt)%Exists_exists. unfold handleReorg.
  replace (existsb _ _) with true; [done|]. symmetry.
  apply existsb_exists. exists kst. split; [by apply list_elem_of_In|done].
Qed.

(** *** Loads, completions and dispatches keep the entries consistent *)

Lemma consistent_ordered state : consistent state → ordered state.
Proof. by intros [? _]. Qed.

Lemma emitCheckpoint_states s :
  indexingFunctionStates (emitCheckpoint s) = indexingFunctionStates s.
Proof. unfold emitCheckpoint. by destruct (checkpointMinOf _). Qed.

Section TaskFacts.
Variable gatewayCheckpoint : Checkpoint.
Variable decodeEventLog : string → SyncStore.Event → option Args.

(** The tasks a load pushes carry the checkpoints of the events they come
    from, in the order of the page. *)
Lemma pushed_checkpoints (f : SyncStore.Event → option LogEventTask) (P : Checkpoint → Prop)
    (evs : list SyncStore.Event) :
  (∀ e t, f e = Some t → task_checkpoint t = SyncStore.numberCheckpoint (SyncStore.eventCheckpoint e)) →
  StronglySorted le (SyncStore.numberCheckpoint ∘ SyncStore.eventCheckpoint <$> evs) →
  Forall (λ e, P (SyncStore.numberCheckpoint (SyncStore.eventCheckpoint e))) evs →
  StronglySorted le (task_checkpoint <$> omap f evs) ∧
  Forall (λ t, P (task_checkpoint t)) (omap f evs).
Proof.
  intros Hf. induction evs as [|e evs IH]; intros Hs HP; simpl; [by split; constructor|].
  apply StronglySorted_inv in Hs as [Hs He]. apply Forall_cons in HP as [HPe HP].
  destruct (IH Hs HP) as [IH1 IH2]. destruct (f e) as [t|] eqn:Hfe; simpl; [|done].
  split; [|constructor; [by rewrite (Hf _ _ Hfe)|done]].
  change (StronglySorted le (task_checkpoint t :: (task_checkpoint <$> omap f evs))).
  rewrite (Hf _ _ Hfe). constructor; [done|].
  apply Forall_forall. intros c (t' & -> & Ht')%list_elem_of_fmap.
  apply list_elem_of_omap in Ht' as (e' & He' & Hfe').
  rewrite (Hf _ _ Hfe'). apply (proj1 (Forall_forall _ _) He).
  apply list_elem_of_fmap. eauto.
Qed.

Lemma flagLast_checkpoints (n : Z) (tasks : list LogEventTask) :
  task_checkpoint <$>
    match last tasks with
    | Some t =>
        take (length tasks - 1) tasks ++
        [{| task_networkName := task_networkName t;
            task_contractName := task_contractName t;
            task_eventName := task_eventName t;
            task_args := task_args t;
            task_event := task_event t;
            task_checkpoint := task_checkpoint t;
            task_eventsProcessed := Some n |}]
    | None => tasks
    end
  = task_checkpoint <$> tasks.
Proof.
  destruct (last tasks) as [t|] eqn:Hlast; [|done].
  apply last_Some in Hlast as [l' ->].
  rewrite length_app. simpl. replace (length l' + 1 - 1)%nat with (length l') by lia.
  rewrite take_app_length, !fmap_app. done.
Qed.

Lemma Forall_checkpoints (P : Checkpoint → Prop) (l l' : list LogEventTask) :
  task_checkpoint <$> l = task_checkpoint <$> l' →
  Forall (λ t, P (task_checkpoint t)) l' → Forall (λ t, P (task_checkpoint t)) l.
Proof.
  intros Heq H. apply (Forall_fmap task_checkpoint P) in H. rewrite <- Heq in H.
  by apply (Forall_fmap task_checkpoint P).
Qed.

(** A load keeps the entry consistent when the gateway checkpoint it loads
    up to is not before the checkpoint it loads from. *)
Lemma applyLoadResult_consistent key state toCheckpoint result s :
  lookupState key (indexingFunctionStates s) = Some state →
  consistent state →
  le (tasksLoadedToCheckpoint state) toCheckpoint →
  SyncStore.pageWithin (tasksLoadedToCheckpoint state) toCheckpoint result →
  ∃ state',
    lookupState key
      (indexingFunctionStates (applyLoadResult decodeEventLog key state toCheckpoint result s))
    = Some state' ∧
    consistent state' ∧
    (∀ task, dispatchedFrom state task → dispatchedFrom state' task).
Proof.
  intros Hlookup [[Hpf Hft] [Hsorted Hbuf]] Hfromto (Hpsorted & Hpbounds & Hnext).
  unfold applyLoadResult.
  set (pushed := omap _ (SyncStore.events result)).
  set (loadedTo := if SyncStore.hasNextPage result then _ else toCheckpoint).
  set (from := tasksLoadedToCheckpoint state) in *.
  assert (le from loadedTo ∧
          Forall (λ e, le (SyncStore.numberCheckpoint (SyncStore.eventCheckpoint e)) loadedTo) (SyncStore.events result))
    as [Hfl Hevl].
  { unfold loadedTo. destruct (SyncStore.hasNextPage result).
    - destruct Hnext as (c & -> & ? & ? & ?); [done|]. simpl. split; [by apply lt_le|done].
    - split; [done|]. eapply Forall_impl; [exact Hpbounds|]. by intros e [_ ?]. }
  assert (StronglySorted le (task_checkpoint <$> pushed) ∧
          Forall (λ t, lt from (task_checkpoint t) ∧ le (task_checkpoint t) loadedTo) pushed)
    as [Hpushed_sorted Hpushed].
  { apply (pushed_checkpoints _ (λ c, lt from c ∧ le c loadedTo)); [|done|].
    - intros e t. destruct (decodeEventLog key e); simpl; [|done]. by intros [= <-].
    - apply Forall_forall. intros e He.
      split; [by apply (proj1 (Forall_forall _ _) Hpbounds)|
              by apply (proj1 (Forall_forall _ _) Hevl)]. }
  set (tasks := loadedTasks state ++ pushed).
  assert (StronglySorted le (task_checkpoint <$> tasks)) as Htasks_sorted.
  { unfold tasks. rewrite fmap_app. apply StronglySorted_app. split_and!; [|done..].
    intros c1 c2 (t1 & -> & Ht1)%list_elem_of_fmap (t2 & -> & Ht2)%list_elem_of_fmap.
    apply (proj1 (Forall_forall _ _) Hbuf) in Ht1 as [_ Ht1].
    apply (proj1 (Forall_forall _ _) Hpushed) in Ht2 as [Ht2 _].
    apply lt_le. by eapply le_lt_trans. }
  match goal with |- context [setState key ?st _] => set (state' := st) end.
  exists state'. split.
  { destruct tasks; rewrite ?emitCheckpoint_states; simpl;
      apply lookupState_setState_eq; by eexists. }
  subst state'. split; [split; [split|split]|]; simpl.
  - (* processed ≤ loadedFrom *)
    destruct tasks as [|task0 tasks'] eqn:Htasks.
    + by do 2 (eapply le_trans; [eassumption|]).
    + case_decide as Hprev; [|done].
      apply length_zero_iff_nil in Hprev. unfold tasks in Htasks. rewrite Hprev in Htasks.
      simpl in Htasks. assert (task0 ∈ pushed) as H0 by (rewrite Htasks; by left).
      apply (proj1 (Forall_forall _ _) Hpushed) in H0 as [H0 _].
      apply lt_le. eapply le_lt_trans; [|exact H0]. by eapply le_trans.
  - (* loadedFrom ≤ loadedTo *)
    destruct tasks as [|task0 tasks'] eqn:Htasks; [apply le_refl|].
    case_decide as Hprev; [|by eapply le_trans].
    apply length_zero_iff_nil in Hprev. unfold tasks in Htasks. rewrite Hprev in Htasks.
    simpl in Htasks. assert (task0 ∈ pushed) as H0 by (rewrite Htasks; by left).
    by apply (proj1 (Forall_forall _ _) Hpushed) in H0 as [_ H0].
  - by rewrite flagLast_checkpoints.
  - eapply (Forall_checkpoints (λ c, le _ c ∧ le c loadedTo));
      [apply flagLast_checkpoints|].
    destruct tasks as [|task0 tasks'] eqn:Htasks; [constructor|].
    rewrite <- Htasks. unfold tasks. apply Forall_app. split.
    + case_decide as Hprev.
      { apply length_zero_iff_nil in Hprev. rewrite Hprev. constructor. }
      eapply Forall_impl; [exact Hbuf|]. intros t [? ?]. split; [done|by eapply le_trans].
    + case_decide as Hprev.
      * apply length_zero_iff_nil in Hprev. unfold tasks in Htasks. rewrite Hprev in Htasks.
        simpl in Htasks. rewrite Htasks in *. simpl in Hpushed_sorted.
        apply StronglySorted_inv in Hpushed_sorted as [_ Hhd].
        apply Forall_cons in Hpushed as [[_ ?] Hpushed]. constructor; [split; [apply le_refl|done]|].
        apply Forall_forall. intros t Ht. split.
        -- apply (proj1 (Forall_forall _ _) Hhd). apply list_elem_of_fmap. eauto.
        -- by apply (proj1 (Forall_forall _ _) Hpushed) in Ht as [_ ?].
      * eapply Forall_impl; [exact Hpushed|]. intros t [? ?]. split; [|done].
        apply lt_le. eapply le_lt_trans; [exact Hft|done].
  - intros task [Hto Hall]. split; simpl; [by eapply le_trans|].
    eapply (Forall_checkpoints (λ c, le (task_checkpoint task) c));
      [apply flagLast_checkpoints|].
    fold tasks. unfold tasks. apply Forall_app. split; [done|].
    eapply Forall_impl; [exact Hpushed|]. intros t [? _]. simpl.
    apply lt_le. by eapply le_lt_trans.
Qed.

End TaskFacts.

(** Completing a task that was dispatched from the entry keeps it
    consistent. *)
Lemma completeTask_consistent key task state s :
  lookupState key (indexingFunctionStates s) = Some state →
  consistent state → dispatchedFrom state task →
  ∃ state',
    lookupState key (indexingFunctionStates (completeTask key task state s)) = Some state' ∧
    consistent state' ∧
    tasksProcessedToCheckpoint state' =
      max2 (tasksProcessedToCheckpoint state) (task_checkpoint task).
Proof.
  intros Hlookup [[Hpf Hft] [Hsorted Hbuf]] [Hto Hall].
  unfold completeTask.
  match goal with |- context [setState key ?st _] => set (state' := st) end.
  exists state'. split.
  { simpl. destruct (task_eventsProcessed task) as [n|]; [case_decide|];
      rewrite ?emitCheckpoint_states; simpl; apply lookupState_setState_eq; by eexists. }
  subst state'. split; [|done]. split; [split|split]; simpl.
  - apply max2_lub.
    + destruct (loadedTasks state) as [|task0 ?]; [by eapply le_trans|].
      apply Forall_cons in Hbuf as [[? _] _]. by eapply le_trans.
    + destruct (loadedTasks state) as [|task0 ?]; [done|]. by apply Forall_cons in Hall as [? _].
  - destruct (loadedTasks state) as [|task0 ?]; [apply le_refl|].
    by apply Forall_cons in Hbuf as [[_ ?] _].
  - done.
  - destruct (loadedTasks state) as [|task0 tasks] eqn:Htasks; [constructor|].
    simpl in Hsorted. apply StronglySorted_inv in Hsorted as [_ Hhd].
    apply Forall_cons in Hbuf as [[_ ?] Hbuf]. constructor; [split; [apply le_refl|done]|].
    apply Forall_forall. intros t Ht. split.
    + apply (proj1 (Forall_forall _ _) Hhd). apply list_elem_of_fmap. eauto.
    + by apply (proj1 (Forall_forall _ _) Hbuf) in Ht as [_ ?].
Qed.

(** Whatever the case, the loop body splits the buffer in two. *)
Lemma dispatch_split states state tasksToEnqueue buffered' :
  dispatch states state = Some (tasksToEnqueue, buffered') →
  tasksToEnqueue ++ buffered' = loadedTasks state.
Proof.
  unfold dispatch. destruct (loadedTasks state) as [|task0 rest]; [by intros [= <- <-]|].
  remember (task0 :: rest) as tasks eqn:Htasks.
  destruct (_ && _ && _); [intros [= <- <-]; by subst|].
  destruct (_ && _); [intros [= <- <-]; by rewrite app_nil_r|].
  destruct (bool_decide _); [|by intros [= <- <-]].
  destruct (mapM _ _) as [parentLoadedFromCheckpoints|]; simpl; [|done].
  destruct (_ && _); [by intros [= <- <-]|].
  destruct (negb _); [|by intros [= <- <-]].
  destruct (checkpointMinOf _) as [minParentCheckpoint|]; simpl; [|done].
  destruct (list_find _ _) as [[maxCheckpointIndex ?]|]; intros [= <- <-].
  - by rewrite take_drop.
  - by rewrite app_nil_r.
Qed.

Lemma dispatch_consistent states state tasksToEnqueue buffered' :
  consistent state →
  dispatch states state = Some (tasksToEnqueue, buffered') →
  consistent (withLoadedTasks buffered' state) ∧
  Forall (dispatchedFrom (withLoadedTasks buffered' state)) tasksToEnqueue.
Proof.
  intros [Hord [Hsorted Hbuf]] Hsplit%dispatch_split.
  rewrite <- Hsplit in Hsorted, Hbuf. rewrite fmap_app in Hsorted.
  apply Forall_app in Hbuf as [Hbuf1 Hbuf2].
  split; [split; [done|split; simpl; [by eapply StronglySorted_app_1_r|done]]|].
  apply Forall_forall. intros t Ht. split; simpl.
  - by apply (proj1 (Forall_forall _ _) Hbuf1) in Ht as [_ ?].
  - apply Forall_forall. intros t' Ht'.
    eapply (StronglySorted_app_1_elem_of le); [exact Hsorted|..]; apply list_elem_of_fmap; eauto.
Qed.

(** *** Case 4 of the dispatch *)

(** The longest prefix on which [p] holds, and what follows it. *)
Fixpoint takeWhile {A : Type} (p : A → bool) (l : list A) : list A :=
  match l with
  | [] => []
  | x :: l' => if p x then x :: takeWhile p l' else []
  end.

Fixpoint dropWhile {A : Type} (p : A → bool) (l : list A) : list A :=
  match l with
  | [] => []
  | x :: l' => if p x then dropWhile p l' else l
  end.

(** The task's checkpoint is [≤ limit]. *)
Definition notAfter (limit : Checkpoint) (task : LogEventTask) : bool :=
  negb (isCheckpointGreaterThan (task_checkpoint task) limit).

(** [min(parents.tasksLoadedFromCheckpoint)]; [None] when a parent has no
    entry or there is no parent. *)
Definition minParentLoadedFrom (states : States) (state : IndexingFunctionState)
    : option Checkpoint :=
  parentLoadedFromCheckpoints ←
    mapM (λ p, tasksLoadedFromCheckpoint <$> lookupState p states) (parents state);
  checkpointMinOf parentLoadedFromCheckpoints.

Lemma list_find_split {A : Type} (Q : A → Prop) `{∀ x, Decision (Q x)} (l : list A) :
  match list_find Q l with
  | Some (i, _) => (take i l, drop i l)
  | None => (l, [])
  end = (takeWhile (λ x, negb (bool_decide (Q x))) l,
         dropWhile (λ x, negb (bool_decide (Q x))) l).
Proof.
  induction l as [|x l IH]; [done|]. cbn [list_find takeWhile dropWhile].
  destruct (decide (Q x)) as [HQ|HQ].
  - by rewrite bool_decide_eq_true_2.
  - rewrite bool_decide_eq_false_2 by done. simpl.
    destruct (list_find Q l) as [[i y]|]; simpl in *; injection IH as <- <-; done.
Qed.

Lemma takeWhile_ext {A : Type} (p q : A → bool) (l : list A) :
  (∀ x, p x = q x) → takeWhile p l = takeWhile q l.
Proof. intros Hpq. induction l as [|x l IH]; [done|]. simpl. by rewrite Hpq, IH. Qed.

Lemma dropWhile_ext {A : Type} (p q : A → bool) (l : list A) :
  (∀ x, p x = q x) → dropWhile p l = dropWhile q l.
Proof. intros Hpq. induction l as [|x l IH]; [done|]. simpl. by rewrite Hpq, IH. Qed.

Lemma dispatch_case4 states state minParentCheckpoint :
  parents state ≠ [] → isSelfDependent state = false →
  minParentLoadedFrom states state = Some minParentCheckpoint →
  dispatch states state =
  Some (takeWhile (notAfter minParentCheckpoint) (loadedTasks state),
        dropWhile (notAfter minParentCheckpoint) (loadedTasks state)).
Proof.
  intros Hparents Hself Hmin. unfold dispatch, minParentLoadedFrom in *.
  destruct (loadedTasks state) as [|task0 rest] eqn:Htasks; [done|].
  rewrite <- Htasks. rewrite Hself, bool_decide_eq_false_2 by done.
  rewrite bool_decide_eq_true_2 by done. cbn [andb negb].
  destruct (mapM _ _) as [parentLoadedFromCheckpoints|]; [|done]. cbn [mbind option_bind] in *.
  rewrite Hmin. cbn [mbind option_bind].
  pose proof (list_find_split
    (λ task, isCheckpointGreaterThan (task_checkpoint task) minParentCheckpoint = true)
    (loadedTasks state)) as Hsplit.
  assert (∀ x, negb (bool_decide (isCheckpointGreaterThan (task_checkpoint x)
                                     minParentCheckpoint = true))
               = notAfter minParentCheckpoint x) as Hext.
  { intros x. unfold notAfter. case_bool_decide as Hb; [by rewrite Hb|].
    apply not_true_is_false in Hb. by rewrite Hb. }
  rewrite (takeWhile_ext _ (notAfter minParentCheckpoint)),
    (dropWhile_ext _ (notAfter minParentCheckpoint)) in Hsplit by exact Hext.
  rewrite <- Hsplit. by destruct (list_find _ _) as [[i y]|].
Qed.

(** *** The whole loop *)

(** What the loop hands to the queue for a key, and what it leaves
    buffered, read off the entries the loop starts from. *)
Definition dispatchedOf (states : States) (key : string) : list LogEventTask :=
  match lookupState key states with
  | Some state => default [] (fst <$> dispatch states state)
  | None => []
  end.

Lemma mapM_ext_option {A B : Type} (f g : A → option B) (l : list A) :
  (∀ x, f x = g x) → mapM f l = mapM g l.
Proof. intros Hfg. induction l as [|x l IH]; [done|]. simpl. by rewrite Hfg, IH. Qed.

Lemma loadedFrom_setState_tasks key state tasks states p :
  lookupState key states = Some state →
  tasksLoadedFromCheckpoint <$> lookupState p (setState key (withLoadedTasks tasks state) states)
  = tasksLoadedFromCheckpoint <$> lookupState p states.
Proof.
  intros Hl. destruct (decide (key = p)) as [<-|Hne].
  - rewrite lookupState_setState_eq by (by eexists). by rewrite Hl.
  - by rewrite lookupState_setState_ne.
Qed.

Lemma dispatch_setState_tasks key state tasks states x :
  lookupState key states = Some state →
  dispatch (setState key (withLoadedTasks tasks state) states) x = dispatch states x.
Proof.
  intros Hl. unfold dispatch.
  rewrite (mapM_ext_option _ (λ p, tasksLoadedFromCheckpoint <$> lookupState p states)); [done|].
  intros p. by apply loadedFrom_setState_tasks.
Qed.

Lemma bind_ext_in {A B : Type} (f g : A → list B) (l : list A) :
  (∀ x, x ∈ l → f x = g x) → l ≫= f = l ≫= g.
Proof.
  induction l as [|x l IH]; intros Hfg; [done|]. rewrite !bind_cons.
  rewrite Hfg by (by left). rewrite IH; [done|]. intros y Hy. apply Hfg. by right.
Qed.

Lemma enqueueKeys_spec keys s s' :
  NoDup keys → enqueueKeys keys s = Some s' →
  effects s' = effects s ++
    (QueueAddTask <$> (key ← keys; dispatchedOf (indexingFunctionStates s) key)) ∧
  isPaused s' = isPaused s ∧
  ∀ key state,
    lookupState key (indexingFunctionStates s) = Some state →
    ∃ state', lookupState key (indexingFunctionStates s') = Some state' ∧
      if decide (key ∈ keys)
      then ∃ d, dispatch (indexingFunctionStates s) state = Some (d, loadedTasks state') ∧
                state' = withLoadedTasks (loadedTasks state') state
      else state' = state.
Proof.
  revert s. induction keys as [|k keys IH]; intros s Hnd Hrun.
  - injection Hrun as <-. split_and!; [by rewrite app_nil_r|done|].
    intros key state Hl. exists state. split; [done|].
    by destruct (decide (key ∈ [])) as [?%elem_of_nil|].
  - apply NoDup_cons in Hnd as [Hk Hnd]. simpl in Hrun.
    destruct (enqueueKey k s) as [s1|] eqn:Hs1; simpl in Hrun; [|done].
    destruct (IH s1 Hnd Hrun) as (Heff & Hp & Hst). clear IH.
    unfold enqueueKey in Hs1.
    destruct (lookupState k (indexingFunctionStates s)) as [st|] eqn:Hlk.
    + destruct (dispatch (indexingFunctionStates s) st) as [[d r]|] eqn:Hd; simpl in Hs1; [|done].
      injection Hs1 as <-.
      cbn [effects indexingFunctionStates isPaused withStates perform] in *.
      assert (∀ key, key ≠ k →
        dispatchedOf (setState k (withLoadedTasks r st) (indexingFunctionStates s)) key
        = dispatchedOf (indexingFunctionStates s) key) as Hsame.
      { intros key Hne. unfold dispatchedOf. rewrite lookupState_setState_ne by done.
        destruct (lookupState key _); [|done]. by rewrite dispatch_setState_tasks. }
      split_and!.
      * rewrite Heff, <- (assoc_L (++)), <- fmap_app. do 2 f_equal.
        rewrite bind_cons. unfold dispatchedOf at 2. rewrite Hlk, Hd. simpl. f_equal.
        apply bind_ext_in. intros key Hkey. apply Hsame. by intros ->.
      * done.
      * intros key state Hl. destruct (decide (key = k)) as [->|Hne].
        -- rewrite Hlk in Hl. injection Hl as <-.
           destruct (Hst k (withLoadedTasks r st)) as (state' & Hl' & Hcase).
           { apply lookupState_setState_eq. by eexists. }
           rewrite decide_False in Hcase by done. subst state'.
           exists (withLoadedTasks r st). split; [done|].
           rewrite decide_True by (by left). exists d. done.
        -- destruct (Hst key state) as (state' & Hl' & Hcase).
           { by rewrite lookupState_setState_ne. }
           exists state'. split; [done|].
           destruct (decide (key ∈ keys)) as [Hin|Hnin].
           ++ rewrite decide_True by (by right).
              destruct Hcase as (d' & Hd' & Hst'). exists d'. split; [|done].
              by rewrite dispatch_setState_tasks in Hd'.
           ++ rewrite decide_False; [done|]. by intros [?|?]%elem_of_cons.
    + injection Hs1 as <-.
      split_and!.
      * rewrite Heff. do 2 f_equal. rewrite bind_cons. unfold dispatchedOf at 2.
        by rewrite Hlk.
      * done.
      * intros key state Hl. destruct (Hst key state Hl) as (state' & Hl' & Hcase).
        exists state'. split; [done|].
        destruct (decide (key ∈ keys)) as [Hin|Hnin].
        -- rewrite decide_True by (by right). done.
        -- rewrite decide_False; [done|]. intros [->|?]%elem_of_cons; [congruence|done].
Qed.

(** *** The attempts of [executeLogEventTask] *)

Section Attempts.
Variable indexingFunction : LogEventTask → nat → Outcome.


(** What a failed attempt that is retried leaves in the trace, and what the
    last failed attempt leaves when the [catch] block runs to its end. *)
Definition retried (task : LogEventTask) : list Effect :=
  [CallIndexingFunction task; MetricFunctionErrorTotal;
   IndexingStoreRevert (task_checkpoint task)].

Definition gaveUp (task : LogEventTask) : list Effect :=
  [CallIndexingFunction task; MetricFunctionErrorTotal;
   QueuePause; QueueClear; MetricHasError 1; EmitError].








End Attempts.

(** *** [enqueueLogEventTasks] does not throw when every parent has an entry *)

(** Every parent named by an entry is a key of the object, as
    [buildIndexingFunctionStates] makes them. *)
Definition parentsKnown (states : States) : Prop :=
  Forall (λ kst : string * IndexingFunctionState,
            Forall (λ p, is_Some (lookupState p states)) (parents kst.2)) states.

#[global] Instance parentsKnown_dec states : Decision (parentsKnown states).
Proof. unfold parentsKnown. apply _. Defined.

Lemma parentsKnown_lookup states key state :
  parentsKnown states → lookupState key states = Some state →
  Forall (λ p, is_Some (lookupState p states)) (parents state).
Proof.
  intros Hknown Hl. apply lookupState_Some_elem in Hl.
  exact (proj1 (Forall_forall _ _) Hknown _ Hl).
Qed.

Lemma dispatch_is_Some states state :
  Forall (λ p, is_Some (lookupState p states)) (parents state) →
  is_Some (dispatch states state).
Proof.
  intros Hparents. unfold dispatch.
  destruct (loadedTasks state) as [|task0 rest]; [done|].
  remember (task0 :: rest) as tasks eqn:Htasks.
  destruct (_ && _ && _); [done|]. destruct (_ && _); [done|].
  case_bool_decide; [|done].
  assert (is_Some (mapM (λ p, tasksLoadedFromCheckpoint <$> lookupState p states)
                     (parents state))) as [cs Hcs].
  { apply mapM_is_Some. eapply Forall_impl; [exact Hparents|].
    intros p [st Hst]. unfold compose. by rewrite Hst. }
  rewrite Hcs. apply mapM_Some_1, Forall2_length in Hcs.
  destruct cs as [|c cs]; [by destruct (parents state)|].
  cbn [mbind option_bind]. destruct (_ && _); [done|].
  destruct (negb _); [|done]. cbn [checkpointMinOf mbind option_bind].
  by destruct (list_find _ _) as [[? ?]|].
Qed.

Lemma enqueueKeys_is_Some keys s :
  (∀ key state, lookupState key (indexingFunctionStates s) = Some state →
     Forall (λ p, is_Some (lookupState p (indexingFunctionStates s))) (parents state)) →
  is_Some (enqueueKeys keys s).
Proof.
  revert s. induction keys as [|key keys IH]; intros s Hknown; [done|].
  cbn [enqueueKeys]. unfold enqueueKey.
  destruct (lookupState key (indexingFunctionStates s)) as [state|] eqn:Hstate;
    [|by apply IH].
  destruct (dispatch_is_Some (indexingFunctionStates s) state (Hknown _ _ Hstate))
    as [[tasksToEnqueue buffered'] ->].
  cbn [mbind option_bind]. apply IH. cbn [indexingFunctionStates withStates].
  intros key' state' Hl.
  assert (Forall (λ p, is_Some (lookupState p (indexingFunctionStates s))) (parents state'))
    as Hparents.
  { destruct (decide (key = key')) as [<-|Hne].
    - rewrite lookupState_setState_eq in Hl by done. injection Hl as <-.
      exact (Hknown key state Hstate).
    - rewrite lookupState_setState_ne in Hl by done. by apply (Hknown key'). }
  eapply Forall_impl; [exact Hparents|]. intros p Hp. cbn beta in *.
  apply lookupState_is_Some. rewrite setState_keys. by apply lookupState_is_Some.
Qed.

Lemma enqueueLogEventTasks_is_Some s :
  parentsKnown (indexingFunctionStates s) → is_Some (enqueueLogEventTasks s).
Proof.
  intros Hknown. unfold enqueueLogEventTasks. destruct (isPaused s); [done|].
  apply enqueueKeys_is_Some. intros key state. by apply parentsKnown_lookup.
Qed.

(** The limit of Case 4 is the least loaded-from checkpoint among the
    parents, and there is one when every parent has an entry. *)
Lemma minParentLoadedFrom_spec states state m :
  minParentLoadedFrom states state = Some m →
  (∀ p st, p ∈ parents state → lookupState p states = Some st →
     le m (tasksLoadedFromCheckpoint st)) ∧
  (∃ p st, p ∈ parents state ∧ lookupState p states = Some st ∧
     tasksLoadedFromCheckpoint st = m).
Proof.
  unfold minParentLoadedFrom.
  destruct (mapM _ _) as [cs|] eqn:Hcs; [|done]. cbn [mbind option_bind].
  apply mapM_Some_1 in Hcs. destruct cs as [|c cs]; [done|]. intros [= <-]. split.
  - intros p st Hp Hst. apply list_elem_of_lookup in Hp as [i Hi].
    destruct (Forall2_lookup_l _ _ _ _ _ Hcs Hi) as (d & Hd & Hpd).
    rewrite Hst in Hpd. injection Hpd as <-.
    destruct i as [|i]; simpl in Hd.
    + injection Hd as <-. apply checkpointMin_le_head.
    + apply checkpointMin_le_elem. by eapply list_elem_of_lookup_2.
  - pose proof (checkpointMin_elem c cs) as Hin.
    apply list_elem_of_lookup in Hin as [i Hi].
    destruct (Forall2_lookup_r _ _ _ _ _ Hcs Hi) as (p & Hp & Hpd).
    destruct (lookupState p states) as [st|] eqn:Hst; [|done].
    injection Hpd as Hpd. exists p, st. split; [by eapply list_elem_of_lookup_2|done].
Qed.

Lemma minParentLoadedFrom_is_Some states state :
  parents state ≠ [] →
  Forall (λ p, is_Some (lookupState p states)) (parents state) →
  is_Some (minParentLoadedFrom states state).
Proof.
  intros Hne Hparents. unfold minParentLoadedFrom.
  assert (is_Some (mapM (λ p, tasksLoadedFromCheckpoint <$> lookupState p states)
                     (parents state))) as [cs Hcs].
  { apply mapM_is_Some. eapply Forall_impl; [exact Hparents|].
    intros p [st Hst]. unfold compose. by rewrite Hst. }
  rewrite Hcs. apply mapM_Some_1, Forall2_length in Hcs.
  destruct cs as [|c cs]; [by destruct (parents state)|]. done.
Qed.

(** [takeWhile] and [dropWhile] split a list into its longest prefix within
    the limit and the rest, which starts beyond the limit. *)
Lemma takeWhile_dropWhile {A : Type} (p : A → bool) l : takeWhile p l ++ dropWhile p l = l.
Proof. induction l as [|x l IH]; [done|]. simpl. destruct (p x); [|done]. simpl. by rewrite IH. Qed.

Lemma Forall_takeWhile {A : Type} (p : A → bool) l : Forall (λ x, p x = true) (takeWhile p l).
Proof.
  induction l as [|x l IH]; [constructor|]. simpl.
  destruct (p x) eqn:Hp; [by constructor|constructor].
Qed.

Lemma head_dropWhile {A : Type} (p : A → bool) l x :
  head (dropWhile p l) = Some x → p x = false.
Proof.
  induction l as [|y l IH]; [done|]. simpl. destruct (p y) eqn:Hp; [done|].
  simpl. by intros [= <-].
Qed.

(** *** A load keeps an entry consistent when it does not aim below it *)

Lemma loadIndexingFunctionTasks_consistent gatewayCheckpoint getEvents decodeEventLog
    key state s s' :
  (∀ fromCheckpoint toCheckpoint limit res,
     getEvents key fromCheckpoint toCheckpoint limit = Some res →
     SyncStore.pageWithin fromCheckpoint toCheckpoint res) →
  lookupState key (indexingFunctionStates s) = Some state →
  consistent state →
  le (tasksLoadedToCheckpoint state) gatewayCheckpoint →
  loadIndexingFunctionTasks gatewayCheckpoint getEvents decodeEventLog key s = Some s' →
  ∃ state', lookupState key (indexingFunctionStates s') = Some state' ∧ consistent state'.
Proof.
  intros Hpages Hstate Hcons Hle. unfold loadIndexingFunctionTasks. rewrite Hstate.
  destruct (_ && _).
  - intros [= <-]. by exists state.
  - destruct (getEvents _ _ _ _) as [result|] eqn:Hres; [|done].
    cbn [mbind option_bind]. intros [= <-].
    destruct (applyLoadResult_consistent decodeEventLog key state gatewayCheckpoint result s)
      as (state' & Hstate' & Hcons' & _); [done..|by apply (Hpages _ _ _ _ Hres)|].
    by exists state'.
Qed.

End Indexing.

(** * The claims of the specification *)

(** ** Event pages ([getLogEvents]) *)

Section LogEventsScenario.
Import Checkpoint SyncStore.

(** A store with two logs in block 5 and one in block 6 of chain 1. *)
Definition scenarioBlocks : list BlockRow :=
  [mkBlockRow "0xb5" 1 5 50; mkBlockRow "0xb6" 1 6 60].

Definition scenarioLog (id : string) (blockHash : Hex) (blockNumber logIndex : Z) : LogRow :=
  {| log_id := id; log_chainId := 1; log_blockHash := blockHash;
     log_blockNumber := blockNumber; log_logIndex := logIndex;
     log_transactionHash := "0xt1"; log_address := "0xfac";
     log_topic0 := Some "0xsel";
     log_topic1 := Some "0x000000000000000000000000aaaaaaaaaaaaaaaaaaaaaaaaaaaaaaaaaaaaaaaa";
     log_topic2 := None; log_topic3 := None; log_data := "0x" |}.

Definition scenarioLogs : list LogRow :=
  [scenarioLog "0xb6-0" "0xb6" 6 0; scenarioLog "0xb5-1" "0xb5" 5 1;
   scenarioLog "0xb5-0" "0xb5" 5 0].

(** The transaction of the logs, of type [0x2], which has no access list
    to parse; [noJSON] is a [JSON.parse] that is never asked. *)
Definition scenarioTransactions : list TransactionRow :=
  [mkTransactionRow "0xt1" 1 5 "0xf00" (Some "0xfac") "0x2" None].

Definition noJSON : string → option JSONValue := λ _, None.

(** Two blocks at the same height of chain 1 with the same timestamp and
    different hashes (a replaced block and its replacement), each holding a
    log with index 0.  Block hashes and log ids are unique, as the primary
    keys demand. *)
Definition forkBlocks : list BlockRow :=
  [mkBlockRow "0xa" 1 5 50; mkBlockRow "0xb" 1 5 50].

Definition forkLogs : list LogRow :=
  [scenarioLog "0xa-0" "0xa" 5 0; scenarioLog "0xb-0" "0xb" 5 0].

Definition wholeChain : Checkpoint :=
  {| blockTimestamp := 100; chainId := 1; blockNumber := 100; logIndex := None |}.

Definition anyLog : JoinedRow → tri := λ _, Some true.
End LogEventsScenario.

(** C1, as the specification states it, fails: with two stored blocks of one
    chain that share height and timestamp, the page holds two events with the
    same checkpoint (50, 1, 5, 0), so it is not strictly increasing.  The
    store keeps its primary keys: block hashes and log ids are distinct. *)
Lemma C1_page_not_strictly_increasing :
  NoDup (SyncStore.block_hash <$> forkBlocks) ∧
  NoDup (SyncStore.log_id <$> forkLogs) ∧
  ∃ res,
    SyncStore.getLogEvents noJSON anyLog forkLogs forkBlocks scenarioTransactions
      Checkpoint.zeroCheckpoint wholeChain 10 = Some res ∧
    SyncStore.eventCheckpoint <$> SyncStore.events res =
      [Checkpoint.mkCheckpoint 50 1 5 (Some 0); Checkpoint.mkCheckpoint 50 1 5 (Some 0)] ∧
    ¬ Sorted Checkpoint.lt (SyncStore.eventCheckpoint <$> SyncStore.events res).
Proof.
  split; [by apply (bool_decide_unpack _); vm_compute|].
  split; [by apply (bool_decide_unpack _); vm_compute|].
  eexists. split; [vm_compute; reflexivity|]. split; [reflexivity|].
  simpl. intros Hs. apply Sorted_inv in Hs as [_ Hhd]. apply HdRel_inv in Hhd.
  by apply Checkpoint.lt_irrefl in Hhd.
Qed.

(** C1 (amended).  Every event of a page returned by [getLogEvents] for
    [fromCheckpoint], [toCheckpoint] and [limit] has a checkpoint strictly
    after [fromCheckpoint] and at or before [toCheckpoint]; a checkpoint
    without log index stands for the end of its block, so as a lower bound
    it excludes and as an upper bound it includes every log of that block.
    The page is in non-decreasing checkpoint order (blockTimestamp, chainId,
    blockNumber, logIndex), and in strictly increasing order when no two
    matching rows of the store share a checkpoint. *)
Theorem C1_getLogEvents_page
    (JSON_parse : string → option SyncStore.JSONValue)
    (filterCmprs : SyncStore.JoinedRow → SyncStore.tri)
    (logs : list SyncStore.LogRow) (blocks : list SyncStore.BlockRow)
    (transactions : list SyncStore.TransactionRow)
    (fromCheckpoint toCheckpoint : Checkpoint.Checkpoint) (limit : nat)
    (res : SyncStore.LogEventsResult) :
  SyncStore.getLogEvents JSON_parse filterCmprs logs blocks transactions
    fromCheckpoint toCheckpoint limit = Some res →
  (∀ e, e ∈ SyncStore.events res →
     Checkpoint.isCheckpointGreaterThan (SyncStore.eventCheckpoint e) fromCheckpoint = true ∧
     Checkpoint.isCheckpointGreaterThan (SyncStore.eventCheckpoint e) toCheckpoint = false ∧
     (Checkpoint.logIndex fromCheckpoint = None →
      Checkpoint.blockLt fromCheckpoint (SyncStore.eventCheckpoint e)) ∧
     (Checkpoint.logIndex toCheckpoint = None →
      ¬ Checkpoint.blockLt toCheckpoint (SyncStore.eventCheckpoint e))) ∧
  Sorted Checkpoint.le (SyncStore.eventCheckpoint <$> SyncStore.events res) ∧
  (NoDup (SyncStore.rowCheckpoint <$>
            SyncStore.requestedRows filterCmprs logs blocks transactions
              fromCheckpoint toCheckpoint) →
   Sorted Checkpoint.lt (SyncStore.eventCheckpoint <$> SyncStore.events res)).
Proof.
  intros Hres. destruct (SyncStore.getLogEvents_events _ _ _ _ _ _ _ _ _ Hres) as [n Hev].
  assert (SyncStore.eventCheckpoint <$> SyncStore.events res =
          SyncStore.rowCheckpoint <$> take n (SyncStore.orderBy
            (SyncStore.requestedRows filterCmprs logs blocks transactions
               fromCheckpoint toCheckpoint))) as Hcps.
  { by apply SyncStore.mapM_rowToEvent in Hev as [_ ?]. }
  split_and!.
  - intros e He. destruct (SyncStore.mapM_elem_of_r _ _ _ _ Hev He) as (r & Hr & Hre).
    apply SyncStore.page_rows_matching, SyncStore.requestedRows_bounds in Hr as (_ & Hgt & Hle).
    rewrite (SyncStore.eventCheckpoint_rowToEvent _ _ _ Hre). split_and!; [done..| |].
    + intros Hnone. by apply (Checkpoint.lt_blockLt _ _ Hnone).
    + intros _. by apply Checkpoint.le_not_blockLt.
  - rewrite Hcps. apply SyncStore.page_Sorted_le.
  - intros Hnd. rewrite Hcps.
    apply (Sorted_weaken_NoDup Checkpoint.le).
    + intros x y Hxy Hne. apply Checkpoint.le_lt_or_eq in Hxy as [?|?]; done.
    + apply SyncStore.page_Sorted_le.
    + by apply SyncStore.page_NoDup.
Qed.

(** The amended C1 at work: a first page of one event out of three, strictly
    increasing, with the block-level bound in use. *)
Lemma C1_getLogEvents_page_witness :
  ∃ res,
    SyncStore.getLogEvents noJSON anyLog scenarioLogs scenarioBlocks scenarioTransactions
      (Checkpoint.mkCheckpoint 50 1 5 (Some 0)) wholeChain 1 = Some res ∧
    SyncStore.eventCheckpoint <$> SyncStore.events res = [Checkpoint.mkCheckpoint 50 1 5 (Some 1)] ∧
    SyncStore.hasNextPage res = true ∧
    Sorted Checkpoint.lt (SyncStore.eventCheckpoint <$> SyncStore.events res).
Proof.
  eexists. split; [vm_compute; reflexivity|]. split; [reflexivity|]. split; [reflexivity|].
  refine (proj2 (proj2 (C1_getLogEvents_page noJSON anyLog scenarioLogs scenarioBlocks
            scenarioTransactions (Checkpoint.mkCheckpoint 50 1 5 (Some 0)) wholeChain 1 _ _)) _).
  - vm_compute. reflexivity.
  - apply (bool_decide_unpack _). vm_compute. exact I.
Defined.

(** ** Reorg clean-up of the sync store ([deleteRealtimeData]) *)

(** The rows of a table that are not associated with chain [chainId], in
    storage order; [chainOf] is the chain a row belongs to, NULL for an
    interval row whose filter or factory is not stored. *)
Definition rowsOutsideChain {A : Type} (chainOf : A → option Z) (chainId : Z)
    (rows : list A) : list A :=
  filter (λ r, negb (bool_decide (chainOf r = Some chainId)) = true) rows.

(** C8.  After [deleteRealtimeData chainId n], no row of the blocks,
    transactions, logs or rpcRequestResults tables of that chain has a block
    number above [n], and every logFilterIntervals and
    factoryLogFilterIntervals row of that chain has startBlock ≤ n and
    endBlock ≤ n.  The logFilters and factories tables, which say what
    chain an interval row belongs to, are as they were, and the interval
    rows left are exactly the stored rows that were not of the chain or had
    startBlock ≤ n, with endBlock set to [n] where the row was of the chain
    and its endBlock above [n]: the rows of the chain with startBlock > n
    are deleted, and no other row is. *)
Theorem C8_deleteRealtimeData_bounds (chainId n : Z) (db : SyncStore.Store) :
  let db' := SyncStore.deleteRealtimeData chainId n db in
  let ofFilter r :=
    SyncStore.logFilterChainId (SyncStore.logFilters db) (SyncStore.lfi_logFilterId r)
      = Some chainId in
  let ofFactory r :=
    SyncStore.factoryChainId (SyncStore.factories db) (SyncStore.fli_factoryId r)
      = Some chainId in
  SyncStore.logFilters db' = SyncStore.logFilters db ∧
  SyncStore.factories db' = SyncStore.factories db ∧
  (∀ b, b ∈ SyncStore.blocks db' →
     SyncStore.block_chainId b = chainId → SyncStore.block_number b <= n) ∧
  (∀ t, t ∈ SyncStore.transactions db' →
     SyncStore.tx_chainId t = chainId → SyncStore.tx_blockNumber t <= n) ∧
  (∀ l, l ∈ SyncStore.logs db' →
     SyncStore.log_chainId l = chainId → SyncStore.log_blockNumber l <= n) ∧
  (∀ r, r ∈ SyncStore.rpcRequestResults db' →
     SyncStore.rpc_chainId r = chainId → SyncStore.rpc_blockNumber r <= n) ∧
  (∀ r, r ∈ SyncStore.logFilterIntervals db' → ofFilter r →
     SyncStore.lfi_startBlock r <= n ∧ SyncStore.lfi_endBlock r <= n) ∧
  (∀ r, r ∈ SyncStore.factoryLogFilterIntervals db' → ofFactory r →
     SyncStore.fli_startBlock r <= n ∧ SyncStore.fli_endBlock r <= n) ∧
  (∀ r', r' ∈ SyncStore.logFilterIntervals db' ↔
     ∃ r, r ∈ SyncStore.logFilterIntervals db ∧
       (ofFilter r → SyncStore.lfi_startBlock r <= n) ∧
       r' = if bool_decide (ofFilter r ∧ n < SyncStore.lfi_endBlock r)
            then SyncStore.mkLogFilterIntervalRow (SyncStore.lfi_logFilterId r)
                   (SyncStore.lfi_startBlock r) n
            else r) ∧
  (∀ r', r' ∈ SyncStore.factoryLogFilterIntervals db' ↔
     ∃ r, r ∈ SyncStore.factoryLogFilterIntervals db ∧
       (ofFactory r → SyncStore.fli_startBlock r <= n) ∧
       r' = if bool_decide (ofFactory r ∧ n < SyncStore.fli_endBlock r)
            then SyncStore.mkFactoryLogFilterIntervalRow (SyncStore.fli_factoryId r)
                   (SyncStore.fli_startBlock r) n
            else r).
Proof.
  assert (∀ (P : Prop) `{!Decision P} (x y : Z),
    bool_decide P && (x <? y) = false ↔ (P → y <= x)) as Hdel.
  { intros P ? x y. split.
    - intros H HP. rewrite bool_decide_eq_true_2 in H by done. by apply Z.ltb_ge.
    - intros H. case_bool_decide; [|done]. simpl. apply Z.ltb_ge. auto. }
  assert (∀ (P : Prop) `{!Decision P} (x y : Z),
    bool_decide P && (x <? y) = bool_decide (P ∧ x < y)) as Hupd.
  { intros P ? x y. destruct (Z.ltb_spec x y); repeat case_bool_decide; simpl;
      try done; exfalso; try tauto; lia. }
  simpl. split_and!.
  - done.
  - done.
  - intros b [Hb _]%SyncStore.elem_of_deleteFrom Hc. exact (proj1 (Hdel _ _ _ _) Hb Hc).
  - intros b [Hb _]%SyncStore.elem_of_deleteFrom Hc. exact (proj1 (Hdel _ _ _ _) Hb Hc).
  - intros b [Hb _]%SyncStore.elem_of_deleteFrom Hc. exact (proj1 (Hdel _ _ _ _) Hb Hc).
  - intros b [Hb _]%SyncStore.elem_of_deleteFrom Hc. exact (proj1 (Hdel _ _ _ _) Hb Hc).
  - intros r' (r & [Hr _]%SyncStore.elem_of_deleteFrom & ->)%SyncStore.elem_of_updateTable.
    rewrite Hdel in Hr. rewrite Hupd. case_bool_decide as Hu; simpl;
      [intros _; destruct Hu as [Hc _]; specialize (Hr Hc); lia|].
    intros Hc. specialize (Hr Hc).
    match type of Hu with ¬ (_ ∧ n < ?e) => destruct (Z.lt_ge_cases n e); [exfalso; auto|lia] end.
  - intros r' (r & [Hr _]%SyncStore.elem_of_deleteFrom & ->)%SyncStore.elem_of_updateTable.
    rewrite Hdel in Hr. rewrite Hupd. case_bool_decide as Hu; simpl;
      [intros _; destruct Hu as [Hc _]; specialize (Hr Hc); lia|].
    intros Hc. specialize (Hr Hc).
    match type of Hu with ¬ (_ ∧ n < ?e) => destruct (Z.lt_ge_cases n e); [exfalso; auto|lia] end.
  - intros r'. rewrite SyncStore.elem_of_updateTable. split.
    + intros (r & [Hr Hin]%SyncStore.elem_of_deleteFrom & ->). rewrite Hdel in Hr.
      exists r. by rewrite Hupd.
    + intros (r & Hin & Hr & ->). exists r. rewrite SyncStore.elem_of_deleteFrom, Hdel.
      by rewrite Hupd.
  - intros r'. rewrite SyncStore.elem_of_updateTable. split.
    + intros (r & [Hr Hin]%SyncStore.elem_of_deleteFrom & ->). rewrite Hdel in Hr.
      exists r. by rewrite Hupd.
    + intros (r & Hin & Hr & ->). exists r. rewrite SyncStore.elem_of_deleteFrom, Hdel.
      by rewrite Hupd.
Qed.

(** C10.  [deleteRealtimeData chainId fromBlock] leaves the rows of every
    other chain as they are, whatever their block numbers: in each of the
    blocks, transactions, logs, rpcRequestResults, logFilterIntervals and
    factoryLogFilterIntervals tables the rows not associated with [chainId]
    are the same before and after, in the same order; the logFilters and
    factories tables are not touched at all. *)
Theorem C10_deleteRealtimeData_frame (chainId fromBlock : Z) (db : SyncStore.Store) :
  let db' := SyncStore.deleteRealtimeData chainId fromBlock db in
  rowsOutsideChain (Some ∘ SyncStore.block_chainId) chainId (SyncStore.blocks db') =
    rowsOutsideChain (Some ∘ SyncStore.block_chainId) chainId (SyncStore.blocks db) ∧
  rowsOutsideChain (Some ∘ SyncStore.tx_chainId) chainId (SyncStore.transactions db') =
    rowsOutsideChain (Some ∘ SyncStore.tx_chainId) chainId (SyncStore.transactions db) ∧
  rowsOutsideChain (Some ∘ SyncStore.log_chainId) chainId (SyncStore.logs db') =
    rowsOutsideChain (Some ∘ SyncStore.log_chainId) chainId (SyncStore.logs db) ∧
  rowsOutsideChain (Some ∘ SyncStore.rpc_chainId) chainId (SyncStore.rpcRequestResults db') =
    rowsOutsideChain (Some ∘ SyncStore.rpc_chainId) chainId (SyncStore.rpcRequestResults db) ∧
  rowsOutsideChain
    (λ r, SyncStore.logFilterChainId (SyncStore.logFilters db) (SyncStore.lfi_logFilterId r))
    chainId (SyncStore.logFilterIntervals db') =
    rowsOutsideChain
      (λ r, SyncStore.logFilterChainId (SyncStore.logFilters db) (SyncStore.lfi_logFilterId r))
      chainId (SyncStore.logFilterIntervals db) ∧
  rowsOutsideChain
    (λ r, SyncStore.factoryChainId (SyncStore.factories db) (SyncStore.fli_factoryId r))
    chainId (SyncStore.factoryLogFilterIntervals db') =
    rowsOutsideChain
      (λ r, SyncStore.factoryChainId (SyncStore.factories db) (SyncStore.fli_factoryId r))
      chainId (SyncStore.factoryLogFilterIntervals db) ∧
  SyncStore.logFilters db' = SyncStore.logFilters db ∧
  SyncStore.factories db' = SyncStore.factories db.
Proof.
  assert (∀ (P Q : Prop) `{!Decision P, !Decision Q} (b : bool),
    (P → Q) → negb (bool_decide Q) = true → bool_decide P && b = false) as Hout.
  { intros P Q ? ? b HPQ. repeat case_bool_decide; simpl; (done || tauto). }
  unfold rowsOutsideChain. simpl. split_and!; try done.
  - apply (SyncStore.deleteFrom_frame _
      (λ r, negb (bool_decide ((Some ∘ SyncStore.block_chainId) r = Some chainId)))).
    intros r. apply Hout. simpl. congruence.
  - apply (SyncStore.deleteFrom_frame _
      (λ r, negb (bool_decide ((Some ∘ SyncStore.tx_chainId) r = Some chainId)))).
    intros r. apply Hout. simpl. congruence.
  - apply (SyncStore.deleteFrom_frame _
      (λ r, negb (bool_decide ((Some ∘ SyncStore.log_chainId) r = Some chainId)))).
    intros r. apply Hout. simpl. congruence.
  - apply (SyncStore.deleteFrom_frame _
      (λ r, negb (bool_decide ((Some ∘ SyncStore.rpc_chainId) r = Some chainId)))).
    intros r. apply Hout. simpl. congruence.
  - etrans.
    + apply (SyncStore.updateTable_frame _ _
        (λ r, negb (bool_decide (SyncStore.logFilterChainId (SyncStore.logFilters db)
                                   (SyncStore.lfi_logFilterId r) = Some chainId)))).
      * intros r. by apply Hout.
      * intros r Hp. simpl. apply andb_true_iff in Hp as [Hp _].
        apply bool_decide_eq_true in Hp. by rewrite bool_decide_eq_true_2.
    + apply (SyncStore.deleteFrom_frame _
        (λ r, negb (bool_decide (SyncStore.logFilterChainId (SyncStore.logFilters db)
                                   (SyncStore.lfi_logFilterId r) = Some chainId)))).
      intros r. by apply Hout.
  - etrans.
    + apply (SyncStore.updateTable_frame _ _
        (λ r, negb (bool_decide (SyncStore.factoryChainId (SyncStore.factories db)
                                   (SyncStore.fli_factoryId r) = Some chainId)))).
      * intros r. by apply Hout.
      * intros r Hp. simpl. apply andb_true_iff in Hp as [Hp _].
        apply bool_decide_eq_true in Hp. by rewrite bool_decide_eq_true_2.
    + apply (SyncStore.deleteFrom_frame _
        (λ r, negb (bool_decide (SyncStore.factoryChainId (SyncStore.factories db)
                                   (SyncStore.fli_factoryId r) = Some chainId)))).
      intros r. by apply Hout.
Qed.

(** ** Factory child addresses ([getFactoryChildAddresses]) *)

Section FactoryScenario.
Import SyncStore.

Definition childFactory : FactoryCriteria :=
  {| fc_address := "0xfac"; fc_eventSelector := "0xsel"; fc_childAddressLocation := LocTopic1 |}.

(** The log by which the factory announces the child whose address is forty
    times the hex digit [digit]. *)
Definition childLog (id : string) (blockNumber logIndex : Z) (digit : string) : LogRow :=
  let address := String.concat "" (replicate 40 digit) in
  {| log_id := id; log_chainId := 1; log_blockHash := "0xb5";
     log_blockNumber := blockNumber; log_logIndex := logIndex;
     log_transactionHash := "0xt1"; log_address := "0xfac";
     log_topic0 := Some "0xsel";
     log_topic1 := Some (String.append "0x000000000000000000000000" address);
     log_topic2 := None; log_topic3 := None; log_data := "0x" |}.

Definition childAddress (digit : string) : option Hex :=
  Some (String.append "0x" (String.concat "" (replicate 40 digit))).

(** Three children created in block 5 of chain 1. *)
Definition threeChildrenInOneBlock : list LogRow :=
  [childLog "0xb5-0" 5 0 "a"; childLog "0xb5-1" 5 1 "b"; childLog "0xb5-2" 5 2 "c"].
End FactoryScenario.

(** C9 at a failing input.  With three children announced in block 5 and
    [pageSize] 2, the first query returns two rows and moves the cursor to
    block 5; the second query asks for [blockNumber > 5], returns no row and
    ends the iteration.  The generator has yielded one batch with the first
    two addresses; the third matching address is never yielded. *)
Theorem C9_getFactoryChildAddresses_same_block (fuel : nat) :
  SyncStore.matchingChildAddresses threeChildrenInOneBlock 1 10 childFactory =
    [childAddress "a"; childAddress "b"; childAddress "c"] ∧
  SyncStore.pageQuery threeChildrenInOneBlock 1 10 childFactory 2 (Some 5) = [] ∧
  SyncStore.getFactoryChildAddresses threeChildrenInOneBlock 1 10 childFactory 2 (S (S fuel)) =
    Some [[childAddress "a"; childAddress "b"]] ∧
  childAddress "c" ∉ [childAddress "a"; childAddress "b"].
Proof.
  split_and!; [reflexivity..|].
  apply (bool_decide_unpack _). vm_compute. exact I.
Qed.

(** ** Synced intervals of a log filter ([getLogFilterIntervals]) *)

Section IntervalScenario.
Import SyncStore.

Definition storeOf (filters : list LogFilterRow) (intervals : list LogFilterIntervalRow)
    : Store :=
  {| blocks := []; transactions := []; logs := []; rpcRequestResults := [];
     logFilters := filters; logFilterIntervals := intervals;
     factories := []; factoryLogFilterIntervals := [] |}.



End IntervalScenario.




(** ** The global checkpoint of the sync gateway *)

Section GatewayScenario.
Import Checkpoint SyncGateway.

(** One chain reports a historical checkpoint at timestamp 10, is reset, and
    reports a historical checkpoint at timestamp 5. *)
Definition resetInputs : list Input :=
  [InHistoricalCheckpoint (createCheckpoint mainnet 10);
   InResetCheckpoints mainnet;
   InHistoricalCheckpoint (createCheckpoint mainnet 5)].

(** The inputs of the test "does not emit new checkpoint if not best". *)
Definition notBestInputs : list Input :=
  [InHistoricalCheckpoint (createCheckpoint mainnet 10);
   InHistoricalCheckpoint (createCheckpoint optimism 5);
   InHistoricalCheckpoint (createCheckpoint mainnet 15)].
End GatewayScenario.

(** C2, as the specification states it, fails on a sequence of inputs with a
    [resetCheckpoints]: the gateway emits the checkpoint at timestamp 10,
    the reset puts the global checkpoint back to [zeroCheckpoint], and the
    next historical checkpoint, at timestamp 5, is emitted although it is
    below the value emitted before. *)
Lemma C2_reset_lowers_emitted_checkpoint :
  Forall (SyncGateway.knownChain [SyncGateway.mainnet]) resetInputs ∧
  SyncGateway.newCheckpoints
    (SyncGateway.emitted (SyncGateway.run (SyncGateway.create [SyncGateway.mainnet]) resetInputs))
    = [SyncGateway.createCheckpoint SyncGateway.mainnet 10;
       SyncGateway.createCheckpoint SyncGateway.mainnet 5] ∧
  ¬ Checkpoint.lt (SyncGateway.createCheckpoint SyncGateway.mainnet 10)
      (SyncGateway.createCheckpoint SyncGateway.mainnet 5).
Proof.
  split; [by apply (bool_decide_unpack _); vm_compute|].
  split; [vm_compute; reflexivity|].
  unfold Checkpoint.lt. vm_compute. discriminate.
Qed.

(** C2 (amended).  For a gateway created with at least one chain and every
    sequence of inputs that name its chains, the global checkpoint equals the
    minimum over all chains of perChainBest, where perChainBest of a chain is
    max(historical, realtime) if its historical sync is complete and the
    historical checkpoint otherwise.  On every further input other than
    [resetCheckpoints] a [newCheckpoint] event is emitted exactly when the
    recomputed value is strictly greater than the global checkpoint held
    before, and it carries the recomputed value.  So the [newCheckpoint]
    values emitted between two resets rise strictly, starting above the
    global checkpoint held at the first of them, which [resetCheckpoints]
    puts back to [zeroCheckpoint]. *)
Theorem C2_gateway_checkpoint (nets : list Z) (inputs : list SyncGateway.Input) :
  nets ≠ [] →
  Forall (SyncGateway.knownChain nets) inputs →
  let g := SyncGateway.run (SyncGateway.create nets) inputs in
  SyncGateway.minOver
    ((λ id, SyncGateway.perChainBest (SyncGateway.chainOf g id)) <$> SyncGateway.networks g)
    = Some (SyncGateway.checkpoint g) ∧
  (∀ i, ¬ SyncGateway.isReset i →
     let g' := SyncGateway.step g i in
     SyncGateway.minOver
       ((λ id, SyncGateway.perChainBest (SyncGateway.chainOf g' id)) <$> SyncGateway.networks g')
       = Some (SyncGateway.checkpoint g') ∧
     ∃ es, SyncGateway.emitted g' = SyncGateway.emitted g ++ es ∧
           SyncGateway.newCheckpoints es =
             if Checkpoint.isCheckpointGreaterThan
                  (SyncGateway.checkpoint g') (SyncGateway.checkpoint g)
             then [SyncGateway.checkpoint g'] else []) ∧
  (∀ more, Forall (λ i, ¬ SyncGateway.isReset i) more →
     ∃ es, SyncGateway.emitted (SyncGateway.run g more) = SyncGateway.emitted g ++ es ∧
           Sorted Checkpoint.lt (SyncGateway.checkpoint g :: SyncGateway.newCheckpoints es)) ∧
  (∀ id, id ∈ nets →
     SyncGateway.checkpoint (SyncGateway.resetCheckpoints id g) = Checkpoint.zeroCheckpoint ∧
     SyncGateway.minOver
       ((λ id', SyncGateway.perChainBest
                  (SyncGateway.chainOf (SyncGateway.resetCheckpoints id g) id'))
          <$> SyncGateway.networks g)
       = Some Checkpoint.zeroCheckpoint).
Proof.
  intros Hne Hknown g.
  assert (SyncGateway.reduced g) as Hred.
  { apply SyncGateway.run_reduced; [by apply SyncGateway.create_reduced|done]. }
  split_and!.
  - apply Hred.
  - intros i Hi g'. destruct (SyncGateway.step_reduced g i Hred Hi) as (Hred' & _ & _ & Hes).
    split; [apply Hred'|done].
  - intros more Hmore.
    destruct (SyncGateway.run_no_reset g more Hred Hmore) as (es & Hes & Hsorted & _).
    by exists es.
  - intros id Hid. split; [done|].
    assert (id ∈ SyncGateway.networks g) as Hid'.
    { unfold g. by rewrite SyncGateway.run_networks. }
    apply (SyncGateway.resetCheckpoints_reduced g id Hred Hid').
Qed.

(** The amended C2 on the test "does not emit new checkpoint if not best":
    the global checkpoint is the minimum, optimism's checkpoint at
    timestamp 5. *)
Lemma C2_gateway_checkpoint_witness :
  SyncGateway.minOver
    ((λ id, SyncGateway.perChainBest
              (SyncGateway.chainOf
                 (SyncGateway.run
                    (SyncGateway.create [SyncGateway.mainnet; SyncGateway.optimism])
                    notBestInputs) id))
       <$> [SyncGateway.mainnet; SyncGateway.optimism])
  = Some (SyncGateway.createCheckpoint SyncGateway.optimism 5).
Proof.
  refine (proj1 (C2_gateway_checkpoint [SyncGateway.mainnet; SyncGateway.optimism]
                   notBestInputs _ _)).
  - discriminate.
  - apply (bool_decide_unpack _). vm_compute. exact I.
Defined.

(** ** Reorgs in the indexing service ([handleReorg]) *)

Section ReorgScenario.
Import Checkpoint Indexing.

Definition processedState (contract event : string) (c : Checkpoint) : IndexingFunctionState :=
  buildIndexingFunctionState contract event [] false
    (Some {| fm_fromCheckpoint := None; fm_toCheckpoint := c; fm_eventCount := 7 |}).

(** Two functions that have processed to checkpoint (100, 1, 1000, 5). *)
Definition reorgService : Service :=
  {| isPaused := false;
     indexingFunctionStates :=
       [("Token:Transfer", processedState "Token" "Transfer" (mkCheckpoint 100 1 1000 (Some 5)));
        ("Token:Approval", processedState "Token" "Approval" (mkCheckpoint 100 1 1000 (Some 5)))];
     effects := [] |}.

Definition reorgSafeCheckpoint : Checkpoint := mkCheckpoint 90 1 900 (Some 0).
End ReorgScenario.

(** C5.  [handleReorg safeCheckpoint] changes nothing and calls nothing when
    no function state has tasksProcessedToCheckpoint strictly greater than
    [safeCheckpoint].  Otherwise it calls the indexing store's revert with
    [safeCheckpoint] exactly once (and sets the completed-timestamp gauge),
    then replaces tasksProcessedToCheckpoint, tasksLoadedFromCheckpoint and
    tasksLoadedToCheckpoint of every function state by their minimum with
    [safeCheckpoint]: a value above [safeCheckpoint] becomes [safeCheckpoint],
    a value at or below it stays, and no other field changes. *)
Theorem C5_handleReorg (safeCheckpoint : Checkpoint.Checkpoint) (s : Indexing.Service) :
  let invalid (kst : string * Indexing.IndexingFunctionState) :=
    Checkpoint.lt safeCheckpoint (Indexing.tasksProcessedToCheckpoint kst.2) in
  let s' := Indexing.handleReorg safeCheckpoint s in
  (¬ Exists invalid (Indexing.indexingFunctionStates s) → s' = s) ∧
  (Exists invalid (Indexing.indexingFunctionStates s) →
     Indexing.isPaused s' = Indexing.isPaused s ∧
     Indexing.effects s' =
       Indexing.effects s ++
       [Indexing.IndexingStoreRevert safeCheckpoint;
        Indexing.MetricCompletedTimestamp (Checkpoint.blockTimestamp safeCheckpoint)] ∧
     (Indexing.indexingFunctionStates s').*1 = (Indexing.indexingFunctionStates s).*1 ∧
     ∀ key, Indexing.lookupState key (Indexing.indexingFunctionStates s') =
            Indexing.clampState safeCheckpoint
              <$> Indexing.lookupState key (Indexing.indexingFunctionStates s)) ∧
  (∀ state,
     let state' := Indexing.clampState safeCheckpoint state in
     Indexing.tasksProcessedToCheckpoint state' =
       Checkpoint.min2 (Indexing.tasksProcessedToCheckpoint state) safeCheckpoint ∧
     Indexing.tasksLoadedFromCheckpoint state' =
       Checkpoint.min2 (Indexing.tasksLoadedFromCheckpoint state) safeCheckpoint ∧
     Indexing.tasksLoadedToCheckpoint state' =
       Checkpoint.min2 (Indexing.tasksLoadedToCheckpoint state) safeCheckpoint ∧
     Indexing.contractName state' = Indexing.contractName state ∧
     Indexing.eventName state' = Indexing.eventName state ∧
     Indexing.parents state' = Indexing.parents state ∧
     Indexing.isSelfDependent state' = Indexing.isSelfDependent state ∧
     Indexing.loadedTasks state' = Indexing.loadedTasks state ∧
     Indexing.firstEventCheckpoint state' = Indexing.firstEventCheckpoint state ∧
     Indexing.lastEventCheckpoint state' = Indexing.lastEventCheckpoint state ∧
     Indexing.eventCount state' = Indexing.eventCount state) ∧
  (∀ c, Checkpoint.le c safeCheckpoint → Checkpoint.min2 c safeCheckpoint = c) ∧
  (∀ c, Checkpoint.lt safeCheckpoint c → Checkpoint.min2 c safeCheckpoint = safeCheckpoint).
Proof.
  intros invalid s'. split_and!.
  - intros Hno. apply Indexing.handleReorg_noop.
    apply Forall_forall. intros kst Hin. apply not_true_iff_false. intros Hgt.
    apply Hno, Exists_exists. by exists kst.
  - intros Hex. unfold s'. rewrite (Indexing.handleReorg_revert _ _ Hex). simpl.
    split_and!; [done..| |].
    + rewrite <- list_fmap_compose. apply list_fmap_ext. by intros ? [??].
    + intros key. apply Indexing.lookupState_fmap.
  - intros state state'. done.
  - intros c Hc. unfold Checkpoint.min2. by rewrite Hc.
  - intros c Hc. unfold Checkpoint.min2. by rewrite Hc.
Qed.

(** C5 on two functions processed to (100, 1, 1000, 5) and a reorg with safe
    checkpoint (90, 1, 900, 0): one revert to the safe checkpoint, and the
    three checkpoints of both functions end at the safe checkpoint. *)
Lemma C5_handleReorg_witness :
  Indexing.effects (Indexing.handleReorg reorgSafeCheckpoint reorgService) =
    [Indexing.IndexingStoreRevert reorgSafeCheckpoint; Indexing.MetricCompletedTimestamp 90] ∧
  Forall (λ kst : string * Indexing.IndexingFunctionState,
            Indexing.tasksProcessedToCheckpoint kst.2 = reorgSafeCheckpoint ∧
            Indexing.tasksLoadedFromCheckpoint kst.2 = reorgSafeCheckpoint ∧
            Indexing.tasksLoadedToCheckpoint kst.2 = reorgSafeCheckpoint)
    (Indexing.indexingFunctionStates (Indexing.handleReorg reorgSafeCheckpoint reorgService)).
Proof.
  split.
  - refine (proj1 (proj2 (proj1 (proj2 (C5_handleReorg reorgSafeCheckpoint reorgService)) _))).
    apply (bool_decide_unpack _). vm_compute. exact I.
  - apply (bool_decide_unpack _). vm_compute. exact I.
Defined.

(** ** The attempts on a task ([executeLogEventTask]) *)

Section AttemptsScenario.
Import Checkpoint Indexing.

Definition transferEvent : SyncStore.Event :=
  {| SyncStore.ev_chainId := 1;
     SyncStore.ev_log := scenarioLog "0xb5-0" "0xb5" 5 0;
     SyncStore.ev_logIndex := 0;
     SyncStore.ev_block_timestamp := 50;
     SyncStore.ev_block_number := 5;
     SyncStore.ev_transaction :=
       {| SyncStore.transaction_hash := "0xt1";
          SyncStore.transaction_from := "0xf00";
          SyncStore.transaction_to := Some "0xfac";
          SyncStore.transaction_type := SyncStore.Eip1559 |} |}.

Definition transferTask : LogEventTask :=
  {| task_networkName := "mainnet"; task_contractName := "Token";
     task_eventName := "Transfer"; task_args := "{}"; task_event := transferEvent;
     task_checkpoint := mkCheckpoint 50 1 5 (Some 0); task_eventsProcessed := None |}.

Definition transferService : Service :=
  {| isPaused := false;
     indexingFunctionStates :=
       [("Token:Transfer", buildIndexingFunctionState "Token" "Transfer" [] false None)];
     effects := [] |}.

(** User functions that always fail with an [Error], fail with a
    [NonRetryableError], fail twice before they succeed, always throw
    [undefined], and always throw a string. *)
Definition alwaysThrows : LogEventTask → nat → Outcome := λ _ _, Threw (thrownError false).
Definition throwsNonRetryable : LogEventTask → nat → Outcome :=
  λ _ _, Threw (thrownError true).
Definition throwsTwice : LogEventTask → nat → Outcome :=
  λ _ i, if (i <? 2)%nat then Threw (thrownError false) else Returned.
End AttemptsScenario.

Example attempts_alwaysThrows :
  ∃ s, Indexing.attempts alwaysThrows 4 0 transferTask transferService = (s, true) ∧
    Indexing.isPaused s = true ∧
    Indexing.effects s =
      Indexing.retried transferTask ++ Indexing.retried transferTask
      ++ Indexing.retried transferTask ++ Indexing.gaveUp transferTask.
Proof. eexists. split; [vm_compute; reflexivity|]. split; reflexivity. Qed.

Example attempts_throwsNonRetryable :
  ∃ s, Indexing.attempts throwsNonRetryable 4 0 transferTask transferService = (s, true) ∧
    Indexing.isPaused s = true ∧ Indexing.effects s = Indexing.gaveUp transferTask.
Proof. eexists. split; [vm_compute; reflexivity|]. split; reflexivity. Qed.

Example attempts_throwsTwice :
  ∃ s, Indexing.attempts throwsTwice 4 0 transferTask transferService = (s, true) ∧
    Indexing.isPaused s = false ∧
    Indexing.effects s =
      Indexing.retried transferTask ++ Indexing.retried transferTask
      ++ [Indexing.CallIndexingFunction transferTask; Indexing.MetricCompletedEvents] ∧
    (Indexing.tasksProcessedToCheckpoint
       <$> Indexing.lookupState "Token:Transfer" (Indexing.indexingFunctionStates s))
      = Some (Checkpoint.mkCheckpoint 50 1 5 (Some 0)).
Proof. eexists. split; [vm_compute; reflexivity|]. split_and!; reflexivity. Qed.



(** ** Dispatch behind parents ([enqueueLogEventTasks], Case 4) *)

Section DependencyScenario.
Import Checkpoint Indexing.

Definition taskAt (contract : string) (timestamp : Z) : LogEventTask :=
  {| task_networkName := "mainnet"; task_contractName := contract;
     task_eventName := "Ev"; task_args := "{}"; task_event := transferEvent;
     task_checkpoint := mkCheckpoint timestamp 1 timestamp (Some 0);
     task_eventsProcessed := None |}.

Definition stateAt (contract : string) (parents : list string) (loadedFrom loadedTo : Z)
    (tasks : list LogEventTask) : IndexingFunctionState :=
  {| contractName := contract; eventName := "Ev"; parents := parents;
     isSelfDependent := false;
     tasksProcessedToCheckpoint := zeroCheckpoint;
     tasksLoadedFromCheckpoint := mkCheckpoint loadedFrom 1 loadedFrom (Some 0);
     tasksLoadedToCheckpoint := mkCheckpoint loadedTo 1 loadedTo (Some 0);
     loadedTasks := tasks;
     firstEventCheckpoint := None; lastEventCheckpoint := None; eventCount := 0 |}.

(** [B] reads a table that [A] writes.  [A] is loaded from checkpoint
    (50, …) and has nothing buffered; [B] has buffered the checkpoints
    (30, …), (45, …) and (60, …). *)
Definition parentState : IndexingFunctionState := stateAt "A" [] 50 100 [].
Definition childState : IndexingFunctionState :=
  stateAt "B" ["A:Ev"] 30 100 [taskAt "B" 30; taskAt "B" 45; taskAt "B" 60].

Definition dependencyService (paused : bool) : Service :=
  {| isPaused := paused;
     indexingFunctionStates := [("A:Ev", parentState); ("B:Ev", childState)];
     effects := [] |}.
End DependencyScenario.

Example enqueueLogEventTasks_dependency :
  ∃ s', Indexing.enqueueLogEventTasks (dependencyService false) = Some s' ∧
    Indexing.effects s' =
      [Indexing.QueueAddTask (taskAt "B" 30); Indexing.QueueAddTask (taskAt "B" 45)] ∧
    Indexing.loadedTasks <$> Indexing.lookupState "B:Ev" (Indexing.indexingFunctionStates s')
      = Some [taskAt "B" 60].
Proof. eexists. split; [vm_compute; reflexivity|]. split; reflexivity. Qed.

(** C4, as the specification states it, fails when the service is paused
    (after a task has failed for good): the entry [B] has a parent, is not
    self-dependent and has buffered (30, …) and (45, …) below its parent's
    loaded-from checkpoint (50, …), yet [enqueueLogEventTasks] returns at
    its first line, hands nothing to the queue and leaves the buffer as it
    is. *)
Lemma C4_paused_dispatches_nothing :
  Indexing.lookupState "B:Ev" (Indexing.indexingFunctionStates (dependencyService true))
    = Some childState ∧
  Indexing.parents childState ≠ [] ∧
  Indexing.isSelfDependent childState = false ∧
  Indexing.minParentLoadedFrom (Indexing.indexingFunctionStates (dependencyService true))
    childState = Some (Checkpoint.mkCheckpoint 50 1 50 (Some 0)) ∧
  Indexing.takeWhile (Indexing.notAfter (Checkpoint.mkCheckpoint 50 1 50 (Some 0)))
    (Indexing.loadedTasks childState) = [taskAt "B" 30; taskAt "B" 45] ∧
  Indexing.enqueueLogEventTasks (dependencyService true) = Some (dependencyService true) ∧
  Indexing.effects (dependencyService true) = [].
Proof. split_and!; done. Qed.

(** C4 (amended).  When the service is not paused and every parent named
    has an entry, [enqueueLogEventTasks] returns, and for every entry that
    has parents and is not self-dependent it dispatches exactly the longest
    prefix of loadedTasks whose checkpoints are ≤ the minimum [m] of the
    parents' tasksLoadedFromCheckpoint, in order, and leaves the later tasks
    buffered: the buffer was [dispatched ++ held], every dispatched
    checkpoint is ≤ [m], and the first held checkpoint, if any, is > [m].
    The queue receives the tasks dispatched for all entries, key by key. *)
Theorem C4_enqueueLogEventTasks_parents
    (s : Indexing.Service) (key : string) (state : Indexing.IndexingFunctionState) :
  Indexing.isPaused s = false →
  NoDup (Indexing.indexingFunctionStates s).*1 →
  Indexing.parentsKnown (Indexing.indexingFunctionStates s) →
  Indexing.lookupState key (Indexing.indexingFunctionStates s) = Some state →
  Indexing.parents state ≠ [] →
  Indexing.isSelfDependent state = false →
  ∃ s' m dispatched held,
    Indexing.enqueueLogEventTasks s = Some s' ∧
    (* [m] is the minimum of the parents' loaded-from checkpoints *)
    (∀ p st, p ∈ Indexing.parents state →
       Indexing.lookupState p (Indexing.indexingFunctionStates s) = Some st →
       Checkpoint.le m (Indexing.tasksLoadedFromCheckpoint st)) ∧
    (∃ p st, p ∈ Indexing.parents state ∧
       Indexing.lookupState p (Indexing.indexingFunctionStates s) = Some st ∧
       Indexing.tasksLoadedFromCheckpoint st = m) ∧
    (* the buffer splits into the prefix within [m] and the rest *)
    Indexing.loadedTasks state = dispatched ++ held ∧
    Forall (λ t, Checkpoint.le (Indexing.task_checkpoint t) m) dispatched ∧
    (∀ t, head held = Some t → Checkpoint.lt m (Indexing.task_checkpoint t)) ∧
    (* the prefix is dispatched, the rest stays buffered *)
    Indexing.dispatchedOf (Indexing.indexingFunctionStates s) key = dispatched ∧
    Indexing.effects s' =
      Indexing.effects s ++
      (Indexing.QueueAddTask
         <$> ((Indexing.indexingFunctionStates s).*1
                ≫= Indexing.dispatchedOf (Indexing.indexingFunctionStates s))) ∧
    Indexing.lookupState key (Indexing.indexingFunctionStates s') =
      Some (Indexing.withLoadedTasks held state).
Proof.
  intros Hpaused Hnodup Hknown Hstate Hparents Hself.
  destruct (Indexing.enqueueLogEventTasks_is_Some s Hknown) as [s' Hs'].
  pose proof (Indexing.parentsKnown_lookup _ _ _ Hknown Hstate) as Hps.
  destruct (Indexing.minParentLoadedFrom_is_Some _ _ Hparents Hps) as [m Hm].
  pose proof (Indexing.dispatch_case4 _ _ _ Hparents Hself Hm) as Hdispatch.
  exists s', m, (Indexing.takeWhile (Indexing.notAfter m) (Indexing.loadedTasks state)),
    (Indexing.dropWhile (Indexing.notAfter m) (Indexing.loadedTasks state)).
  destruct (Indexing.minParentLoadedFrom_spec _ _ _ Hm) as [Hmin Hattained].
  pose proof Hs' as Hrun. unfold Indexing.enqueueLogEventTasks in Hrun.
  rewrite Hpaused in Hrun.
  destruct (Indexing.enqueueKeys_spec _ _ _ Hnodup Hrun) as (Heffects & _ & Hstates).
  split_and!; try done.
  - by rewrite Indexing.takeWhile_dropWhile.
  - eapply Forall_impl; [apply Indexing.Forall_takeWhile|].
    intros t Ht. unfold Indexing.notAfter in Ht. by apply negb_true_iff in Ht.
  - intros t Ht%Indexing.head_dropWhile. unfold Indexing.notAfter in Ht.
    by apply negb_false_iff in Ht.
  - unfold Indexing.dispatchedOf. by rewrite Hstate, Hdispatch.
  - destruct (Hstates key state Hstate) as (state' & Hstate' & Hkey).
    rewrite decide_True in Hkey.
    + destruct Hkey as (d & Hd & Heq). rewrite Hdispatch in Hd.
      injection Hd as _ Hheld. by rewrite Hstate', Heq, <- Hheld.
    + apply Indexing.lookupState_is_Some. by exists state.
Qed.

(** The amended C4 on the dependency scenario: with the parent at loaded-from
    checkpoint (50, …) and buffered checkpoints (30, …), (45, …), (60, …),
    the tasks at (30, …) and (45, …) are dispatched and (60, …) is held. *)
Lemma C4_enqueueLogEventTasks_parents_witness :
  ∃ s', Indexing.enqueueLogEventTasks (dependencyService false) = Some s' ∧
    Indexing.dispatchedOf (Indexing.indexingFunctionStates (dependencyService false)) "B:Ev"
      = [taskAt "B" 30; taskAt "B" 45] ∧
    Indexing.loadedTasks <$> Indexing.lookupState "B:Ev" (Indexing.indexingFunctionStates s')
      = Some [taskAt "B" 60].
Proof.
  destruct (C4_enqueueLogEventTasks_parents (dependencyService false) "B:Ev" childState)
    as (s' & m & dispatched & held & Hs' & _ & _ & _ & _ & _ & Hd & _ & Hl).
  - reflexivity.
  - apply (bool_decide_unpack _). vm_compute. exact I.
  - apply (bool_decide_unpack _). vm_compute. exact I.
  - reflexivity.
  - discriminate.
  - reflexivity.
  - exists s'. split; [exact Hs'|]. split; [vm_compute; reflexivity|].
    vm_compute in Hs'. injection Hs' as <-. vm_compute. reflexivity.
Defined.

(** ** The three checkpoints of an indexing function state *)

Section LoadScenario.
Import Checkpoint Indexing.

(** The sync store behind [getEvents], and a decoder that accepts every
    log. *)
Definition storeEvents : string → Checkpoint → Checkpoint → Z → option SyncStore.LogEventsResult :=
  λ _ fromCheckpoint toCheckpoint limit,
    SyncStore.getLogEvents noJSON anyLog scenarioLogs scenarioBlocks scenarioTransactions
      fromCheckpoint toCheckpoint (Z.to_nat limit).

Definition decodeAny : string → SyncStore.Event → option Args := λ _ _, Some "{}".

(** A service restarted with persisted progress up to (100, 1, 1000, 5),
    while the gateway has only reached (50, 1, 500, 0). *)
Definition restartedService : Service :=
  {| isPaused := false;
     indexingFunctionStates :=
       [("Token:Transfer", processedState "Token" "Transfer" (mkCheckpoint 100 1 1000 (Some 5)))];
     effects := [] |}.

Definition laggingGatewayCheckpoint : Checkpoint := mkCheckpoint 50 1 500 (Some 0).

(** A Transfer task at checkpoint (t, 1, t, 0). *)
Definition transferAt (t : Z) : LogEventTask :=
  {| task_networkName := "mainnet"; task_contractName := "Token";
     task_eventName := "Transfer"; task_args := "{}"; task_event := transferEvent;
     task_checkpoint := mkCheckpoint t 1 t (Some 0); task_eventsProcessed := None |}.

(** A function without parents that is not self-dependent.  It has
    processed its events up to (93, 1, 93, 0), and a load up to
    (100, 1, 100, 0) has just buffered the tasks at (95, …) and (98, …). *)
Definition bufferingState : IndexingFunctionState :=
  {| contractName := "Token"; eventName := "Transfer"; parents := [];
     isSelfDependent := false;
     tasksProcessedToCheckpoint := mkCheckpoint 93 1 93 (Some 0);
     tasksLoadedFromCheckpoint := mkCheckpoint 95 1 95 (Some 0);
     tasksLoadedToCheckpoint := mkCheckpoint 100 1 100 (Some 0);
     loadedTasks := [transferAt 95; transferAt 98];
     firstEventCheckpoint := Some (mkCheckpoint 93 1 93 (Some 0));
     lastEventCheckpoint := Some (mkCheckpoint 98 1 98 (Some 0));
     eventCount := 1 |}.

Definition bufferingService : Service :=
  {| isPaused := false;
     indexingFunctionStates := [("Token:Transfer", bufferingState)];
     effects := [] |}.

(** A reorg back to (90, 1, 90, 0), and a user function that returns. *)
Definition reorgedTo : Checkpoint := mkCheckpoint 90 1 90 (Some 0).
Definition returns : LogEventTask → nat → Outcome := λ _ _, Returned.
End LoadScenario.

(** The order of the three checkpoints also breaks on the first load of an
    entry (lastEventCheckpoint undefined): it is not skipped when the
    gateway checkpoint is below the entry's tasksLoadedToCheckpoint, and
    with an empty page it sets tasksLoadedToCheckpoint and
    tasksLoadedFromCheckpoint to the gateway checkpoint (50, 1, 500, 0),
    below tasksProcessedToCheckpoint (100, 1, 1000, 5). *)
Example first_load_below_processed :
  Indexing.ordered (processedState "Token" "Transfer" (Checkpoint.mkCheckpoint 100 1 1000 (Some 5))) ∧
  ∃ s' state',
    Indexing.loadIndexingFunctionTasks laggingGatewayCheckpoint storeEvents decodeAny
      "Token:Transfer" restartedService = Some s' ∧
    Indexing.lookupState "Token:Transfer" (Indexing.indexingFunctionStates s') = Some state' ∧
    Indexing.tasksProcessedToCheckpoint state' = Checkpoint.mkCheckpoint 100 1 1000 (Some 5) ∧
    Indexing.tasksLoadedFromCheckpoint state' = Checkpoint.mkCheckpoint 50 1 500 (Some 0) ∧
    Indexing.tasksLoadedToCheckpoint state' = Checkpoint.mkCheckpoint 50 1 500 (Some 0) ∧
    ¬ Checkpoint.le (Indexing.tasksProcessedToCheckpoint state')
        (Indexing.tasksLoadedFromCheckpoint state').
Proof.
  split; [by apply (bool_decide_unpack _); vm_compute|].
  eexists _, _. split; [vm_compute; reflexivity|]. split; [vm_compute; reflexivity|].
  split_and!; [reflexivity..|]. unfold Checkpoint.le. vm_compute. discriminate.
Qed.

(** C3 at a failing input: a task completion after a reorg clamp breaks the
    order.  The entry [bufferingState] has its three checkpoints in order
    and its buffer between the last two.  [handleReorg] to (90, 1, 90, 0)
    reverts the indexing store and sets the three checkpoints to
    (90, 1, 90, 0), but leaves the tasks at (95, …) and (98, …), loaded
    before the reorg, in the buffer.  [enqueueLogEventTasks] hands both to
    the queue, and when the user's function has returned on the first,
    tasksProcessedToCheckpoint is (95, 1, 95, 0) while
    tasksLoadedFromCheckpoint and tasksLoadedToCheckpoint are
    (90, 1, 90, 0): an event after the safe checkpoint has been processed,
    and tasksProcessedToCheckpoint ≤ tasksLoadedFromCheckpoint no longer
    holds. *)
Theorem C3_completion_after_reorg :
  Indexing.consistent bufferingState ∧
  ∃ s1 s2 state1 state2,
    (* the reorg clamp *)
    Indexing.lookupState "Token:Transfer"
      (Indexing.indexingFunctionStates (Indexing.handleReorg reorgedTo bufferingService))
      = Some state1 ∧
    Indexing.tasksProcessedToCheckpoint state1 = reorgedTo ∧
    Indexing.tasksLoadedFromCheckpoint state1 = reorgedTo ∧
    Indexing.tasksLoadedToCheckpoint state1 = reorgedTo ∧
    Indexing.loadedTasks state1 = [transferAt 95; transferAt 98] ∧
    Indexing.ordered state1 ∧
    (* the dispatch *)
    Indexing.enqueueLogEventTasks (Indexing.handleReorg reorgedTo bufferingService)
      = Some s1 ∧
    Indexing.effects s1 =
      [Indexing.IndexingStoreRevert reorgedTo; Indexing.MetricCompletedTimestamp 90;
       Indexing.QueueAddTask (transferAt 95); Indexing.QueueAddTask (transferAt 98)] ∧
    (* the completion of the first task *)
    Checkpoint.lt reorgedTo (Indexing.task_checkpoint (transferAt 95)) ∧
    Indexing.attempts returns 4 0 (transferAt 95) s1 = (s2, true) ∧
    Indexing.effects s2 =
      Indexing.effects s1
      ++ [Indexing.CallIndexingFunction (transferAt 95); Indexing.MetricCompletedEvents] ∧
    Indexing.lookupState "Token:Transfer" (Indexing.indexingFunctionStates s2) = Some state2 ∧
    Indexing.tasksProcessedToCheckpoint state2 = Checkpoint.mkCheckpoint 95 1 95 (Some 0) ∧
    Indexing.tasksLoadedFromCheckpoint state2 = reorgedTo ∧
    Indexing.tasksLoadedToCheckpoint state2 = reorgedTo ∧
    ¬ Indexing.ordered state2.
Proof.
  split; [by apply (bool_decide_unpack _); vm_compute|].
  eexists _, _, _, _.
  split; [vm_compute; reflexivity|]. do 4 (split; [reflexivity|]).
  split; [by apply (bool_decide_unpack _); vm_compute|].
  split; [vm_compute; reflexivity|]. split; [reflexivity|].
  split; [reflexivity|].
  split; [vm_compute; reflexivity|]. split; [reflexivity|].
  split; [vm_compute; reflexivity|].
  do 3 (split; [reflexivity|]).
  intros [Hle _]. revert Hle. unfold Checkpoint.le. vm_compute. discriminate.
Qed.

(** * Further properties of the code *)

(** ** Sync store: the write paths, and writes and reads together *)

Module SyncStoreWrites.
Import Checkpoint Interval SyncStore.

(** *** Coverage of intersections *)







(** *** What [getLogFilterIntervals] counts as synced *)


(** *** Insert-or-ignore writes *)

(** [INSERT INTO t VALUES rows ON CONFLICT (key) DO NOTHING]: the rows are
    taken one after the other, and one whose key the table already holds is
    skipped. *)
Definition insertOrIgnore {A K : Type} `{EqDecision K} (key : A → K)
    (rows : list A) (new : list A) : list A :=
  foldl (λ rows r, if decide (key r ∈ key <$> rows) then rows else rows ++ [r]) rows new.

(** [{ ...rpcToPostgresBlock(rpcBlock), chainId }] and its twins: the encoded
    row with the [chainId] column set. *)
Definition blockOfChain (chainId : Z) (b : BlockRow) : BlockRow :=
  {| block_hash := block_hash b; block_chainId := chainId;
     block_number := block_number b; block_timestamp := block_timestamp b |}.
Definition transactionOfChain (chainId : Z) (t : TransactionRow) : TransactionRow :=
  {| tx_hash := tx_hash t; tx_chainId := chainId; tx_blockNumber := tx_blockNumber t;
     tx_from := tx_from t; tx_to := tx_to t; tx_type := tx_type t;
     tx_accessList := tx_accessList t |}.
Definition logOfChain (chainId : Z) (l : LogRow) : LogRow :=
  {| log_id := log_id l; log_chainId := chainId; log_blockHash := log_blockHash l;
     log_blockNumber := log_blockNumber l; log_logIndex := log_logIndex l;
     log_transactionHash := log_transactionHash l; log_address := log_address l;
     log_topic0 := log_topic0 l; log_topic1 := log_topic1 l; log_topic2 := log_topic2 l;
     log_topic3 := log_topic3 l; log_data := log_data l |}.

(** [insertRealtimeBlock], on encoded rows. *)
Definition insertRealtimeBlock (chainId : Z) (block : BlockRow)
    (transactions : list TransactionRow) (logs : list LogRow) (db : Store) : Store :=
  {| blocks := insertOrIgnore block_hash (SyncStore.blocks db) [blockOfChain chainId block];
     transactions :=
       insertOrIgnore tx_hash (SyncStore.transactions db)
         (transactionOfChain chainId <$> transactions);
     logs := insertOrIgnore log_id (SyncStore.logs db) (logOfChain chainId <$> logs);
     rpcRequestResults := rpcRequestResults db;
     logFilters := logFilters db;
     logFilterIntervals := logFilterIntervals db;
     factories := factories db;
     factoryLogFilterIntervals := factoryLogFilterIntervals db |}.

(** [insertFactoryChildAddressLogs]. *)
Definition insertFactoryChildAddressLogs (chainId : Z) (logs : list LogRow) (db : Store)
    : Store :=
  {| blocks := blocks db;
     transactions := transactions db;
     logs := insertOrIgnore log_id (SyncStore.logs db) (logOfChain chainId <$> logs);
     rpcRequestResults := rpcRequestResults db;
     logFilters := logFilters db;
     logFilterIntervals := logFilterIntervals db;
     factories := factories db;
     factoryLogFilterIntervals := factoryLogFilterIntervals db |}.




(** **** Facts about insert-or-ignore *)

Section InsertOrIgnore.
Context {A K : Type} `{EqDecision K} (key : A → K).

Lemma insertOrIgnore_cons rows new r :
  insertOrIgnore key rows (r :: new) =
  insertOrIgnore key (if decide (key r ∈ key <$> rows) then rows else rows ++ [r]) new.
Proof. done. Qed.

Lemma insertOrIgnore_snoc rows new r :
  insertOrIgnore key rows (new ++ [r]) =
  let rows' := insertOrIgnore key rows new in
  if decide (key r ∈ key <$> rows') then rows' else rows' ++ [r].
Proof. unfold insertOrIgnore. by rewrite foldl_app. Qed.

Lemma insertOrIgnore_prefix rows new : rows `prefix_of` insertOrIgnore key rows new.
Proof.
  revert rows. induction new as [|r new IH]; intros rows; [done|].
  rewrite insertOrIgnore_cons. case_decide; [apply IH|].
  etrans; [|apply IH]. by apply prefix_app_r.
Qed.

Lemma insertOrIgnore_elem_of rows new r :
  r ∈ insertOrIgnore key rows new → r ∈ rows ∨ r ∈ new.
Proof.
  revert rows. induction new as [|x new IH]; intros rows; [by left|].
  rewrite insertOrIgnore_cons. case_decide.
  - intros [?|?]%IH; [by left|right; by right].
  - intros [[?| ->%list_elem_of_singleton]%elem_of_app|?]%IH;
      [by left|right; by left|right; by right].
Qed.

Lemma insertOrIgnore_keys rows new k :
  k ∈ key <$> insertOrIgnore key rows new ↔ k ∈ key <$> rows ∨ k ∈ key <$> new.
Proof.
  revert rows. induction new as [|x new IH]; intros rows.
  - simpl. split; [by left|]. intros [?|?%elem_of_nil]; done.
  - rewrite insertOrIgnore_cons. rewrite fmap_cons, elem_of_cons. case_decide as Hx.
    + rewrite IH. split; [tauto|]. intros [?|[->|?]]; auto.
    + rewrite IH, fmap_app, elem_of_app. simpl. rewrite list_elem_of_singleton. tauto.
Qed.

Lemma insertOrIgnore_NoDup rows new :
  NoDup (key <$> rows) → NoDup (key <$> insertOrIgnore key rows new).
Proof.
  revert rows. induction new as [|x new IH]; intros rows Hnd; [done|].
  rewrite insertOrIgnore_cons. case_decide as Hx; [by apply IH|].
  apply IH. rewrite fmap_app. apply NoDup_app. split; [done|]. split.
  - intros k Hk ->%list_elem_of_singleton. done.
  - apply NoDup_singleton.
Qed.

(** Rows whose keys are all stored change nothing. *)
Lemma insertOrIgnore_present rows new :
  Forall (λ r, key r ∈ key <$> rows) new → insertOrIgnore key rows new = rows.
Proof.
  induction 1 as [|x new Hx _ IH]; [done|].
  rewrite insertOrIgnore_cons. by rewrite decide_True.
Qed.

Lemma insertOrIgnore_idemp rows new :
  insertOrIgnore key (insertOrIgnore key rows new) new = insertOrIgnore key rows new.
Proof.
  apply insertOrIgnore_present, Forall_forall. intros r Hr.
  apply insertOrIgnore_keys. right. by apply list_elem_of_fmap_2.
Qed.

(** The first write wins: a stored row keeps its key for itself. *)
Lemma insertOrIgnore_first_wins rows new r r' :
  NoDup (key <$> rows) → r ∈ rows → r' ∈ insertOrIgnore key rows new →
  key r' = key r → r' = r.
Proof.
  intros Hnd Hr Hr' Hk.
  pose proof (insertOrIgnore_NoDup rows new Hnd) as Hnd'.
  destruct (insertOrIgnore_prefix rows new) as [more Hmore].
  assert (r ∈ insertOrIgnore key rows new) as Hr2.
  { rewrite Hmore. apply elem_of_app. by left. }
  apply list_elem_of_lookup in Hr' as [i Hi], Hr2 as [j Hj].
  assert (i = j) as ->; [|congruence].
  apply (NoDup_lookup _ _ _ (key r) Hnd'); rewrite list_lookup_fmap.
  - by rewrite Hi, <- Hk.
  - by rewrite Hj.
Qed.
End InsertOrIgnore.

(** **** Facts about interval inserts *)


Section InsertIntervalRow.
Variable f : LogFilterRow.
Variable interval : Interval.
Variable db : Store.
Hypothesis f_fingerprint : ∀ g, g ∈ logFilters db → lf_id f = lf_id g → f = g.
Hypothesis db_references : referencesLogFilters db.




End InsertIntervalRow.



Lemma insertRealtimeBlock_covering chainId' block transactions logs db chainId g :
  coveringIntervals chainId g (insertRealtimeBlock chainId' block transactions logs db) =
  coveringIntervals chainId g db.
Proof. done. Qed.

(** **** [deleteRealtimeData] and the synced intervals *)


Section DeleteRealtimeData.
Variables (chainId fromBlock : Z) (db : Store).
Hypothesis logFilters_key : NoDup (lf_id <$> logFilters db).

Let ofChain (i : LogFilterIntervalRow) : Prop :=
  logFilterChainId (logFilters db) (lfi_logFilterId i) = Some chainId.




End DeleteRealtimeData.

(** **** A second clean-up finds nothing to do *)

Lemma deleteFrom_none {A : Type} (p : A → bool) rows :
  Forall (λ r, p r = false) rows → deleteFrom p rows = rows.
Proof.
  intros Hall. unfold deleteFrom. induction Hall as [|r rows Hr _ IH]; [done|].
  by rewrite filter_cons, decide_True, IH.
Qed.

Lemma updateTable_none {A : Type} (set : A → A) (p : A → bool) rows :
  Forall (λ r, p r = false) rows → updateTable set p rows = rows.
Proof.
  intros Hall. unfold updateTable. induction Hall as [|r rows Hr _ IH]; [done|].
  by rewrite fmap_cons, Hr, IH.
Qed.

Lemma deleteFrom_Forall {A : Type} (p : A → bool) rows :
  Forall (λ r, p r = false) (deleteFrom p rows).
Proof. apply Forall_forall. by intros r [? _]%elem_of_deleteFrom. Qed.

Lemma deleteFrom_weaker {A : Type} (p q : A → bool) rows :
  (∀ r, p r = false → q r = false) → deleteFrom q (deleteFrom p rows) = deleteFrom p rows.
Proof.
  intros Hpq. apply deleteFrom_none. eapply Forall_impl; [apply deleteFrom_Forall|]. done.
Qed.

Lemma clampTable_stable {A : Type} (ofChain : A → bool) (startBlock endBlock : A → Z)
    (set : A → A) (n : Z) (rows : list A) :
  (∀ r, ofChain (set r) = ofChain r) →
  (∀ r, startBlock (set r) = startBlock r) →
  (∀ r, endBlock (set r) = n) →
  let clamp rows :=
    updateTable set (λ r, ofChain r && (n <? endBlock r))
      (deleteFrom (λ r, ofChain r && (n <? startBlock r)) rows) in
  clamp (clamp rows) = clamp rows.
Proof.
  intros Hchain Hstart Hend clamp. unfold clamp at 1.
  assert (Forall (λ r, ofChain r && (n <? startBlock r) = false
                       ∧ ofChain r && (n <? endBlock r) = false) (clamp rows)) as Hall.
  { apply Forall_forall. intros r' (r & [Hr _]%elem_of_deleteFrom & ->)%elem_of_updateTable.
    destruct (ofChain r && (n <? endBlock r)) eqn:Hclamp.
    - rewrite Hchain, Hstart, Hend, Z.ltb_irrefl, andb_false_r. done.
    - done. }
  rewrite deleteFrom_none by (eapply Forall_impl; [exact Hall|]; by intros ? [? _]).
  apply updateTable_none. eapply Forall_impl; [exact Hall|]. by intros ? [_ ?].
Qed.

(** *** The RPC cache *)

(** Modelled from the spec: the columns of the constraint
    [rpcRequestResultPrimaryKey], which the migrations declare and which are
    not among the sources ("[rpcRequestResults(chainId, blockNumber, request)
    → result] with composite primary key"). *)
Definition rpcRequestResultPrimaryKey (r : RpcRequestResultRow) : Z * Z * string :=
  (rpc_chainId r, rpc_blockNumber r, rpc_request r).

(** [insertRpcRequestResult]: insert, or on a conflict set [result]. *)
Definition insertRpcRequestResult (request : string) (blockNumber chainId : Z)
    (result : string) (db : Store) : Store :=
  let row := {| rpc_request := request; rpc_blockNumber := blockNumber;
                rpc_chainId := chainId; rpc_result := result |} in
  let rows := rpcRequestResults db in
  {| blocks := blocks db;
     transactions := transactions db;
     logs := logs db;
     rpcRequestResults :=
       if decide (rpcRequestResultPrimaryKey row ∈ rpcRequestResultPrimaryKey <$> rows)
       then (λ r, if decide (rpcRequestResultPrimaryKey r = rpcRequestResultPrimaryKey row)
                  then {| rpc_request := rpc_request r; rpc_blockNumber := rpc_blockNumber r;
                          rpc_chainId := rpc_chainId r; rpc_result := result |}
                  else r) <$> rows
       else rows ++ [row];
     logFilters := logFilters db;
     logFilterIntervals := logFilterIntervals db;
     factories := factories db;
     factoryLogFilterIntervals := factoryLogFilterIntervals db |}.

(** [getRpcRequestResult]: the first row of the point lookup, or [null]. *)
Definition getRpcRequestResult (request : string) (blockNumber chainId : Z) (db : Store)
    : option RpcRequestResultRow :=
  head (filter (λ r, rpc_request r = request ∧ rpc_blockNumber r = blockNumber
                     ∧ rpc_chainId r = chainId)
          (rpcRequestResults db)).

Lemma filter_none {A : Type} (P : A → Prop) `{∀ x, Decision (P x)} (l : list A) :
  Forall (λ x, ¬ P x) l → filter P l = [].
Proof.
  induction 1 as [|x l Hx _ IH]; [done|]. by rewrite filter_cons, decide_False.
Qed.

Lemma head_filter_fmap_other {A : Type} (P : A → Prop) `{∀ x, Decision (P x)}
    (f : A → A) (rows : list A) :
  (∀ r, P (f r) ↔ P r) → (∀ r, P r → f r = r) →
  head (filter P (f <$> rows)) = head (filter P rows).
Proof.
  intros HP Hf. induction rows as [|r rows IH]; [done|].
  rewrite fmap_cons, !filter_cons. destruct (decide (P r)) as [Hr|Hr].
  - rewrite decide_True by (by apply HP). simpl. by rewrite Hf.
  - rewrite decide_False by (by rewrite HP). done.
Qed.

End SyncStoreWrites.

(** X1.  The RPC cache is a map from (chainId, blockNumber, request) to the
    result written last: a lookup after [insertRpcRequestResult] with the
    same key returns the row just written, whatever was stored before;
    lookups with any other key return what they returned before; and the
    primary key stays unique. *)
Theorem X1_rpcRequestResult_round_trip
    (request : string) (blockNumber chainId : Z) (result : string) (db : SyncStore.Store) :
  let db' := SyncStoreWrites.insertRpcRequestResult request blockNumber chainId result db in
  SyncStoreWrites.getRpcRequestResult request blockNumber chainId db' =
    Some (SyncStore.mkRpcRequestResultRow request blockNumber chainId result) ∧
  (∀ request' blockNumber' chainId',
     (request', blockNumber', chainId') ≠ (request, blockNumber, chainId) →
     SyncStoreWrites.getRpcRequestResult request' blockNumber' chainId' db' =
     SyncStoreWrites.getRpcRequestResult request' blockNumber' chainId' db) ∧
  (NoDup (SyncStoreWrites.rpcRequestResultPrimaryKey <$> SyncStore.rpcRequestResults db) →
   NoDup (SyncStoreWrites.rpcRequestResultPrimaryKey <$> SyncStore.rpcRequestResults db')).
Proof.
  intros db'. unfold db', SyncStoreWrites.getRpcRequestResult,
    SyncStoreWrites.insertRpcRequestResult. cbn [SyncStore.rpcRequestResults].
  set (row := SyncStore.mkRpcRequestResultRow request blockNumber chainId result).
  set (rows := SyncStore.rpcRequestResults db).
  set (pk := SyncStoreWrites.rpcRequestResultPrimaryKey).
  set (upd := λ r : SyncStore.RpcRequestResultRow,
         if decide (pk r = pk row)
         then SyncStore.mkRpcRequestResultRow (SyncStore.rpc_request r)
                (SyncStore.rpc_blockNumber r) (SyncStore.rpc_chainId r) result
         else r).
  assert (∀ r q b c,
    (SyncStore.rpc_request r = q ∧ SyncStore.rpc_blockNumber r = b ∧ SyncStore.rpc_chainId r = c)
    ↔ pk r = (c, b, q)) as Hpk.
  { intros r q b c. unfold pk, SyncStoreWrites.rpcRequestResultPrimaryKey.
    split; [by intros (-> & -> & ->)|by intros [= -> -> ->]]. }
  assert (∀ r, pk (upd r) = pk r) as Hupd_pk.
  { intros r. unfold upd. by case_decide. }
  split_and!.
  - case_decide as Hin.
    + clear db'. induction rows as [|r rows' IH]; [by apply elem_of_nil in Hin|].
      rewrite fmap_cons, filter_cons.
      destruct (decide (pk r = pk row)) as [Hr|Hr].
      * rewrite decide_True by (apply Hpk; by rewrite Hupd_pk). simpl. unfold upd.
        rewrite decide_True by done. apply (proj2 (Hpk r request blockNumber chainId)) in Hr
          as (<- & <- & <-). done.
      * rewrite decide_False by (rewrite Hpk, Hupd_pk; exact Hr).
        apply IH. rewrite fmap_cons in Hin. apply elem_of_cons in Hin as [Hin|Hin]; [|done].
        by symmetry in Hin.
    + rewrite filter_app. rewrite (SyncStoreWrites.filter_none _ rows).
      * rewrite filter_cons, decide_True by done. done.
      * apply Forall_forall. intros r Hr Hcontra. apply Hin, list_elem_of_fmap.
        exists r. split; [|done]. symmetry. by apply Hpk.
  - intros request' blockNumber' chainId' Hne. case_decide as Hin.
    + apply (SyncStoreWrites.head_filter_fmap_other _ upd).
      * intros r. by rewrite !Hpk, Hupd_pk.
      * intros r Hr%Hpk. unfold upd. rewrite decide_False; [done|].
        rewrite Hr. unfold pk, SyncStoreWrites.rpcRequestResultPrimaryKey. simpl.
        intros [= -> -> ->]. done.
    + rewrite filter_app, filter_cons, decide_False, filter_nil, app_nil_r; [done|].
      simpl. intros (-> & -> & ->). done.
  - intros Hnd. case_decide as Hin.
    + rewrite <- list_fmap_compose.
      replace (pk ∘ upd <$> rows) with (pk <$> rows); [done|].
      apply list_fmap_ext. intros i r _. symmetry. apply Hupd_pk.
    + rewrite fmap_app. apply NoDup_app. split; [done|]. split.
      * intros k Hk ->%list_elem_of_singleton. done.
      * apply NoDup_singleton.
Qed.

(** X2.  [insertRealtimeBlock] is an insert-or-ignore on the primary keys:
    running it a second time with the same arguments changes nothing; the
    rows stored before stay as they are, in place; the keys of the given
    block, transactions and logs are stored afterwards; and unique keys stay
    unique. *)
Theorem X2_insertRealtimeBlock_idempotent
    (chainId : Z) (block : SyncStore.BlockRow) (transactions : list SyncStore.TransactionRow)
    (logs : list SyncStore.LogRow) (db : SyncStore.Store) :
  let db' := SyncStoreWrites.insertRealtimeBlock chainId block transactions logs db in
  SyncStoreWrites.insertRealtimeBlock chainId block transactions logs db' = db' ∧
  (SyncStore.blocks db `prefix_of` SyncStore.blocks db' ∧
   SyncStore.transactions db `prefix_of` SyncStore.transactions db' ∧
   SyncStore.logs db `prefix_of` SyncStore.logs db') ∧
  (SyncStore.block_hash block ∈ SyncStore.block_hash <$> SyncStore.blocks db' ∧
   Forall (λ t, SyncStore.tx_hash t ∈ SyncStore.tx_hash <$> SyncStore.transactions db')
     transactions ∧
   Forall (λ l, SyncStore.log_id l ∈ SyncStore.log_id <$> SyncStore.logs db') logs) ∧
  (NoDup (SyncStore.block_hash <$> SyncStore.blocks db) →
   NoDup (SyncStore.block_hash <$> SyncStore.blocks db')) ∧
  (NoDup (SyncStore.tx_hash <$> SyncStore.transactions db) →
   NoDup (SyncStore.tx_hash <$> SyncStore.transactions db')) ∧
  (NoDup (SyncStore.log_id <$> SyncStore.logs db) →
   NoDup (SyncStore.log_id <$> SyncStore.logs db')).
Proof.
  intros db'. split_and!.
  - unfold db', SyncStoreWrites.insertRealtimeBlock.
    cbn [SyncStore.blocks SyncStore.transactions SyncStore.logs SyncStore.rpcRequestResults
         SyncStore.logFilters SyncStore.logFilterIntervals SyncStore.factories
         SyncStore.factoryLogFilterIntervals].
    by rewrite !SyncStoreWrites.insertOrIgnore_idemp.
  - apply SyncStoreWrites.insertOrIgnore_prefix.
  - apply SyncStoreWrites.insertOrIgnore_prefix.
  - apply SyncStoreWrites.insertOrIgnore_prefix.
  - apply SyncStoreWrites.insertOrIgnore_keys. right. by left.
  - apply Forall_forall. intros t Ht. apply SyncStoreWrites.insertOrIgnore_keys. right.
    rewrite <- list_fmap_compose. apply list_elem_of_fmap. by exists t.
  - apply Forall_forall. intros l Hl. apply SyncStoreWrites.insertOrIgnore_keys. right.
    rewrite <- list_fmap_compose. apply list_elem_of_fmap. by exists l.
  - apply SyncStoreWrites.insertOrIgnore_NoDup.
  - apply SyncStoreWrites.insertOrIgnore_NoDup.
  - apply SyncStoreWrites.insertOrIgnore_NoDup.
Qed.





(** X5.  [deleteRealtimeData] is idempotent: a second clean-up of the same
    chain from the same block finds nothing to delete or to clamp. *)
Theorem X5_deleteRealtimeData_idempotent (chainId fromBlock : Z) (db : SyncStore.Store) :
  SyncStore.deleteRealtimeData chainId fromBlock
    (SyncStore.deleteRealtimeData chainId fromBlock db) =
  SyncStore.deleteRealtimeData chainId fromBlock db.
Proof.
  unfold SyncStore.deleteRealtimeData.
  cbn [SyncStore.blocks SyncStore.transactions SyncStore.logs SyncStore.rpcRequestResults
       SyncStore.logFilters SyncStore.logFilterIntervals SyncStore.factories
       SyncStore.factoryLogFilterIntervals].
  f_equal.
  - by apply SyncStoreWrites.deleteFrom_weaker.
  - by apply SyncStoreWrites.deleteFrom_weaker.
  - by apply SyncStoreWrites.deleteFrom_weaker.
  - by apply SyncStoreWrites.deleteFrom_weaker.
  - apply (SyncStoreWrites.clampTable_stable
             (λ r, bool_decide (SyncStore.logFilterChainId (SyncStore.logFilters db)
                                  (SyncStore.lfi_logFilterId r) = Some chainId))
             SyncStore.lfi_startBlock SyncStore.lfi_endBlock); done.
  - apply (SyncStoreWrites.clampTable_stable
             (λ r, bool_decide (SyncStore.factoryChainId (SyncStore.factories db)
                                  (SyncStore.fli_factoryId r) = Some chainId))
             SyncStore.fli_startBlock SyncStore.fli_endBlock); done.
Qed.

(** ** Sync store: the pages of [getLogEvents] *)

Module EventPages.
Import Checkpoint SyncStore.

(** Rows compared by their checkpoints. *)
Definition byCheckpoint (r1 r2 : JoinedRow) : Prop :=
  le (rowCheckpoint r1) (rowCheckpoint r2).

Lemma StronglySorted_byCheckpoint (rows : list JoinedRow) :
  StronglySorted le (rowCheckpoint <$> rows) → StronglySorted byCheckpoint rows.
Proof.
  induction rows as [|r rows IH]; [constructor|].
  rewrite fmap_cons. intros [Hrows Hr]%StronglySorted_inv. constructor; [by apply IH|].
  apply Forall_forall. intros x Hx. apply (proj1 (Forall_forall _ _) Hr).
  by apply list_elem_of_fmap_2.
Qed.

Lemma StronglySorted_sublist {A : Type} (R : relation A) (k l : list A) :
  k `sublist_of` l → StronglySorted R l → StronglySorted R k.
Proof.
  intros Hsub Hl. revert k Hsub. induction Hl as [|x l Hl IH Hx]; intros k Hsub.
  - apply sublist_nil_r in Hsub as ->. constructor.
  - apply sublist_cons_r in Hsub as [Hsub|(k' & -> & Hsub)]; [by apply IH|].
    constructor; [by apply IH|].
    apply Forall_forall. intros y Hy. apply (proj1 (Forall_forall _ _) Hx).
    by eapply elem_of_sublist.
Qed.

Lemma NoDup_fmap_inj_on {A B : Type} (f : A → B) (l : list A) x y :
  NoDup (f <$> l) → x ∈ l → y ∈ l → f x = f y → x = y.
Proof.
  intros Hnd [i Hi]%list_elem_of_lookup [j Hj]%list_elem_of_lookup Hf.
  assert (i = j) as ->; [|congruence].
  apply (NoDup_lookup _ _ _ (f x) Hnd); rewrite list_lookup_fmap.
  - by rewrite Hi.
  - by rewrite Hj, Hf.
Qed.

(** A list sorted by checkpoint with no checkpoint twice: a prefix lies at or
    below the checkpoint of its last row, the rest strictly above. *)
Lemma sorted_split (rows : list JoinedRow) (n : nat) (r : JoinedRow) :
  StronglySorted byCheckpoint rows → NoDup (rowCheckpoint <$> rows) →
  last (take n rows) = Some r →
  Forall (λ x, le (rowCheckpoint x) (rowCheckpoint r)) (take n rows) ∧
  Forall (λ x, lt (rowCheckpoint r) (rowCheckpoint x)) (drop n rows).
Proof.
  intros Hsorted Hnd Hlast.
  rewrite <- (take_drop n rows) in Hsorted, Hnd.
  apply StronglySorted_app in Hsorted as (Hcross & Htake & _).
  rewrite fmap_app in Hnd. apply NoDup_app in Hnd as (_ & Hdisj & _).
  pose proof (last_Some_elem_of _ _ Hlast) as Hr. split.
  - assert (Forall (λ c, le c (rowCheckpoint r)) (rowCheckpoint <$> take n rows)) as Hall.
    { apply StronglySorted_le_last.
      - by apply (StronglySorted_fmap _ byCheckpoint le).
      - by rewrite fmap_last, Hlast. }
    apply Forall_forall. intros x Hx. apply (proj1 (Forall_forall _ _) Hall).
    by apply list_elem_of_fmap_2.
  - apply Forall_forall. intros x Hx.
    destruct (proj1 (le_lt_or_eq _ _) (Hcross r x Hr Hx)) as [?|Heq]; [done|].
    exfalso. apply (Hdisj (rowCheckpoint r)); [by apply list_elem_of_fmap_2|].
    rewrite Heq. by apply list_elem_of_fmap_2.
Qed.

Section Pages.
Variable JSON_parse : string → option JSONValue.
Variable filterCmprs : JoinedRow → tri.
Variables (logs : list LogRow) (blocks : list BlockRow)
  (transactions : list TransactionRow).

Local Abbreviation requested := (requestedRows filterCmprs logs blocks transactions).
Local Abbreviation page := (getLogEvents JSON_parse filterCmprs logs blocks transactions).
Local Abbreviation event := (rowToEvent JSON_parse).

Lemma orderBy_requested_sorted fromCheckpoint toCheckpoint :
  StronglySorted byCheckpoint (orderBy (requested fromCheckpoint toCheckpoint)).
Proof.
  apply StronglySorted_byCheckpoint, Sorted_StronglySorted; [apply _|].
  pose proof (page_Sorted_le filterCmprs logs blocks transactions fromCheckpoint toCheckpoint
                (length (orderBy (requested fromCheckpoint toCheckpoint)))) as Hs.
  by rewrite take_ge in Hs.
Qed.

Lemma length_orderBy rows : length (orderBy rows) = length rows.
Proof. unfold orderBy. by rewrite merge_sort_Permutation. Qed.

Lemma mapM_length_eq {A B : Type} (f : A → option B) (l : list A) (k : list B) :
  mapM f l = Some k → length k = length l.
Proof. intros H%mapM_Some_1. symmetry. by eapply Forall2_length. Qed.

Lemma head_take_reverse (rows : list JoinedRow) : head (take 1 (reverse rows)) = last rows.
Proof.
  rewrite <- head_reverse. destruct (reverse rows) as [|x l]; [done|]. done.
Qed.

(** The page when the limit allows every matching row. *)
Lemma getLogEvents_all fromCheckpoint toCheckpoint limit :
  (length (requested fromCheckpoint toCheckpoint) <= limit)%nat →
  page fromCheckpoint toCheckpoint limit =
  evs ← mapM event (orderBy (requested fromCheckpoint toCheckpoint));
  Some {| events := evs;
          hasNextPage := false;
          lastCheckpointInPage := None;
          lastCheckpoint :=
            numberCheckpoint ∘ rowCheckpoint
              <$> last (orderBy (requested fromCheckpoint toCheckpoint)) |}.
Proof.
  intros Hlen. unfold getLogEvents.
  set (S := orderBy (requested fromCheckpoint toCheckpoint)).
  assert (length S = length (requested fromCheckpoint toCheckpoint)) as HS
    by apply length_orderBy.
  rewrite (take_ge S) by lia. destruct (mapM event S) as [evs|] eqn:Hevs; [|done].
  apply mapM_length_eq in Hevs. cbn [mbind option_bind].
  rewrite decide_False by lia. by rewrite head_take_reverse.
Qed.

(** The page when more rows match than the limit allows. *)
Lemma getLogEvents_next fromCheckpoint toCheckpoint limit :
  (0 < limit)%nat → (limit < length (requested fromCheckpoint toCheckpoint))%nat →
  ∃ r, last (take limit (orderBy (requested fromCheckpoint toCheckpoint))) = Some r ∧
    page fromCheckpoint toCheckpoint limit =
    evs ← mapM event (take (limit + 1) (orderBy (requested fromCheckpoint toCheckpoint)));
    Some {| events := take limit evs;
            hasNextPage := true;
            lastCheckpointInPage := Some (numberCheckpoint (rowCheckpoint r));
            lastCheckpoint :=
              numberCheckpoint ∘ rowCheckpoint
                <$> last (orderBy (requested fromCheckpoint toCheckpoint)) |}.
Proof.
  intros Hlimit Hlen.
  set (S := orderBy (requested fromCheckpoint toCheckpoint)).
  assert (length S = length (requested fromCheckpoint toCheckpoint)) as HS
    by apply length_orderBy.
  destruct (last (take limit S)) as [r|] eqn:Hlast.
  2: { apply last_None in Hlast. apply (f_equal length) in Hlast.
       rewrite length_take in Hlast. simpl in Hlast. lia. }
  exists r. split; [done|]. unfold getLogEvents. fold S.
  destruct (mapM event (take (limit + 1) S)) as [evs|] eqn:Hevs; [|done].
  pose proof (mapM_length_eq _ _ _ Hevs) as Hlenevs. rewrite length_take in Hlenevs.
  cbn [mbind option_bind]. rewrite decide_True by lia.
  replace (length evs - 1)%nat with limit by lia.
  apply (mapM_take_Some _ _ _ limit) in Hevs. rewrite take_take in Hevs.
  replace (limit `min` (limit + 1))%nat with limit in Hevs by lia.
  apply mapM_Some_1, Forall2_last in Hevs. rewrite Hlast in Hevs.
  destruct (last (take limit evs)) as [e|]; [|by inversion Hevs].
  inversion Hevs as [? ? Hre|]; subst. cbn [mbind option_bind].
  by rewrite (eventCheckpoint_rowToEvent _ _ _ Hre), head_take_reverse.
Qed.

(** With limit 0 and a matching row there is no page: the source reads the
    last event of an empty list. *)
Lemma getLogEvents_limit_0 fromCheckpoint toCheckpoint :
  requested fromCheckpoint toCheckpoint ≠ [] →
  page fromCheckpoint toCheckpoint 0 = None.
Proof.
  intros Hne. unfold getLogEvents.
  set (S := orderBy (requested fromCheckpoint toCheckpoint)).
  assert (length S = length (requested fromCheckpoint toCheckpoint)) as HS
    by apply length_orderBy.
  assert (0 < length S)%nat as Hpos.
  { rewrite HS. destruct (requested fromCheckpoint toCheckpoint); [done|simpl; lia]. }
  destruct (mapM event (take (0 + 1) S)) as [evs|] eqn:Hevs; [|done].
  apply mapM_length_eq in Hevs. rewrite length_take in Hevs.
  cbn [mbind option_bind]. rewrite decide_True by lia.
  replace (length evs - 1)%nat with 0%nat by lia. done.
Qed.

(** Every page has one of the two shapes. *)
Lemma getLogEvents_Some fromCheckpoint toCheckpoint limit res :
  page fromCheckpoint toCheckpoint limit = Some res →
  ((length (requested fromCheckpoint toCheckpoint) <= limit)%nat ∧
   ∃ evs, mapM event (orderBy (requested fromCheckpoint toCheckpoint)) = Some evs ∧
     res = {| events := evs;
              hasNextPage := false;
              lastCheckpointInPage := None;
              lastCheckpoint :=
                numberCheckpoint ∘ rowCheckpoint
                  <$> last (orderBy (requested fromCheckpoint toCheckpoint)) |}) ∨
  ((0 < limit < length (requested fromCheckpoint toCheckpoint))%nat ∧
   ∃ r evs, last (take limit (orderBy (requested fromCheckpoint toCheckpoint))) = Some r ∧
     mapM event (take (limit + 1) (orderBy (requested fromCheckpoint toCheckpoint)))
       = Some evs ∧
     res = {| events := take limit evs;
              hasNextPage := true;
              lastCheckpointInPage := Some (numberCheckpoint (rowCheckpoint r));
              lastCheckpoint :=
                numberCheckpoint ∘ rowCheckpoint
                  <$> last (orderBy (requested fromCheckpoint toCheckpoint)) |}).
Proof.
  intros Hres.
  destruct (decide (length (requested fromCheckpoint toCheckpoint) <= limit)%nat) as [Hle|Hgt].
  - left. split; [done|]. rewrite getLogEvents_all in Hres by done.
    destruct (mapM event _) as [evs|]; [|done]. exists evs. split; [done|].
    by injection Hres.
  - right. destruct (decide (limit = 0%nat)) as [->|Hpos].
    { rewrite getLogEvents_limit_0 in Hres; [done|].
      destruct (requested fromCheckpoint toCheckpoint); [simpl in Hgt; lia|done]. }
    split; [lia|].
    destruct (getLogEvents_next fromCheckpoint toCheckpoint limit) as (r & Hr & Hpage);
      [lia..|].
    rewrite Hpage in Hres. destruct (mapM event _) as [evs|]; [|done].
    exists r, evs. split; [done|]. split; [done|]. by injection Hres.
Qed.

(** A page is returned exactly when every row fetched makes an event, and
    the limit is not 0 unless nothing matches. *)
Lemma getLogEvents_is_Some fromCheckpoint toCheckpoint limit :
  is_Some (page fromCheckpoint toCheckpoint limit) ↔
  is_Some (mapM event (take (limit + 1) (orderBy (requested fromCheckpoint toCheckpoint)))) ∧
  (limit = 0%nat → requested fromCheckpoint toCheckpoint = []).
Proof.
  destruct (decide (length (requested fromCheckpoint toCheckpoint) <= limit)%nat) as [Hle|Hgt].
  - rewrite getLogEvents_all by done. rewrite take_ge by (rewrite length_orderBy; lia).
    destruct (mapM event _) as [evs|]; simpl.
    + split; [intros _|by eexists]. split; [by eexists|].
      intros ->. by destruct (requested fromCheckpoint toCheckpoint); [|simpl in Hle; lia].
    + split; [by intros [? ?]|by intros [[? ?] _]].
  - destruct (decide (limit = 0%nat)) as [->|Hpos].
    + rewrite getLogEvents_limit_0
        by (destruct (requested fromCheckpoint toCheckpoint); [simpl in Hgt; lia|done]).
      split; [by intros [? ?]|]. intros [_ Hnil]. rewrite Hnil in Hgt by done.
      simpl in Hgt. lia.
    + destruct (getLogEvents_next fromCheckpoint toCheckpoint limit) as (r & Hr & ->);
        [lia..|].
      destruct (mapM event _) as [evs|]; simpl.
      * split; [intros _|by eexists]. split; [by eexists|done].
      * split; [by intros [? ?]|by intros [[? ?] _]].
Qed.

(** The block of a joined row is a stored block. *)
Lemma joinLogs_block r b :
  r ∈ joinLogs logs blocks transactions → jr_block r = Some b → b ∈ blocks.
Proof.
  unfold joinLogs. intros ([lb t] & Hr & Hlbt)%list_elem_of_bind Hb.
  apply list_elem_of_singleton in Hr as ->. simpl in Hb.
  assert (lb ∈ leftJoin (λ (l : LogRow) (b : BlockRow),
                           bool_decide (block_hash b = log_blockHash l)) logs blocks) as Hlb.
  { unfold leftJoin in Hlbt at 1. apply list_elem_of_bind in Hlbt as (lb' & Hin & Hlb').
    destruct (filter _ transactions) as [|m ms].
    - apply list_elem_of_singleton in Hin. by injection Hin as -> _.
    - apply list_elem_of_fmap in Hin as (y & [= -> _] & _). done. }
  destruct lb as [l ob]. simpl in Hb. subst ob.
  by apply elem_of_leftJoin_Some in Hlb as (_ & ? & _).
Qed.

Lemma requested_joinLogs fromCheckpoint toCheckpoint r :
  r ∈ requested fromCheckpoint toCheckpoint → r ∈ joinLogs logs blocks transactions.
Proof. unfold requestedRows. rewrite !list_elem_of_filter. tauto. Qed.

(** On a row whose block has a number and a timestamp of at most [2 ^ 53],
    the checkpoint built with [Number] is the checkpoint of the row. *)
Lemma numberCheckpoint_rowCheckpoint fromCheckpoint toCheckpoint r :
  Forall (λ b, Z.abs (block_timestamp b) <= 2 ^ 53 ∧ Z.abs (block_number b) <= 2 ^ 53)
    blocks →
  r ∈ requested fromCheckpoint toCheckpoint →
  numberCheckpoint (rowCheckpoint r) = rowCheckpoint r.
Proof.
  intros Hsafe Hr.
  destruct (requestedRows_bounds _ _ _ _ _ _ _ Hr) as ([b Hb] & _).
  apply requested_joinLogs in Hr.
  pose proof (proj1 (Forall_forall _ _) Hsafe b (joinLogs_block r b Hr Hb)) as [Ht Hn].
  apply numberCheckpoint_exact; unfold rowCheckpoint, col_timestamp, col_number;
    rewrite Hb; simpl; done.
Qed.

(** The window that starts at a checkpoint inside the window. *)
Lemma requested_from fromCheckpoint toCheckpoint c :
  le fromCheckpoint c →
  requested c toCheckpoint =
  filter (λ r, lt c (rowCheckpoint r)) (requested fromCheckpoint toCheckpoint).
Proof.
  intros Hc. unfold requestedRows. rewrite !list_filter_filter.
  apply list_filter_iff. intros r.
  rewrite !buildCheckpointCmprs_le, !buildCheckpointCmprs_gt. split.
  - intros (((Hb & Hle) & _ & Hgt) & HF). split_and!; try done.
    exact (le_lt_trans _ _ _ Hc Hgt).
  - intros (((Hgt & Hb & Hle) & _) & HF). done.
Qed.

Lemma filter_all {A : Type} (P : A → Prop) `{∀ x, Decision (P x)} (l : list A) :
  Forall P l → filter P l = l.
Proof. induction 1 as [|x l Hx _ IH]; [done|]. by rewrite filter_cons, decide_True, IH. Qed.

Lemma filter_nothing {A : Type} (P : A → Prop) `{∀ x, Decision (P x)} (l : list A) :
  Forall (λ x, ¬ P x) l → filter P l = [].
Proof. induction 1 as [|x l Hx _ IH]; [done|]. by rewrite filter_cons, decide_False. Qed.

Lemma last_drop {A : Type} (l : list A) (n : nat) :
  (n < length l)%nat → last (drop n l) = last l.
Proof.
  intros Hn. rewrite !last_lookup, lookup_drop, length_drop. f_equal. lia.
Qed.

(** The rows of the next window, in order, are the rows this page left
    out. *)
Lemma orderBy_requested_next fromCheckpoint toCheckpoint limit r :
  NoDup (rowCheckpoint <$> requested fromCheckpoint toCheckpoint) →
  last (take limit (orderBy (requested fromCheckpoint toCheckpoint))) = Some r →
  orderBy (requested (rowCheckpoint r) toCheckpoint) =
  drop limit (orderBy (requested fromCheckpoint toCheckpoint)).
Proof.
  intros Hnd Hlast.
  set (M := requested fromCheckpoint toCheckpoint) in *.
  set (S := orderBy M) in *.
  assert (S ≡ₚ M) as HS by apply merge_sort_Permutation.
  assert (NoDup (rowCheckpoint <$> S)) as HndS by (by rewrite HS).
  pose proof (orderBy_requested_sorted fromCheckpoint toCheckpoint) as Hsorted. fold M S in Hsorted.
  destruct (sorted_split S limit r Hsorted HndS Hlast) as [Hlow Hhigh].
  assert (r ∈ M) as Hr.
  { rewrite <- HS. eapply elem_of_sublist; [|apply sublist_take]. by eapply last_Some_elem_of. }
  assert (le fromCheckpoint (rowCheckpoint r)) as Hfrom.
  { apply lt_le. by apply requestedRows_bounds in Hr as (_ & ? & _). }
  apply (StronglySorted_unique_strong byCheckpoint).
  - intros x1 x2 H1 H2 H12 H21.
    apply (NoDup_fmap_inj_on rowCheckpoint S); [done| | |by apply le_antisym].
    + apply (proj1 (orderBy_elem_of _ _)) in H1.
      rewrite (requested_from fromCheckpoint) in H1 by done.
      apply list_elem_of_filter in H1 as [_ H1]. by rewrite HS.
    + eapply elem_of_sublist; [done|apply sublist_drop].
  - apply orderBy_requested_sorted.
  - eapply StronglySorted_sublist; [apply sublist_drop|done].
  - unfold orderBy at 1. rewrite merge_sort_Permutation.
    rewrite (requested_from fromCheckpoint) by done. fold M. rewrite <- HS.
    rewrite <- (take_drop limit S) at 1. rewrite filter_app.
    rewrite filter_nothing.
    2: { eapply Forall_impl; [exact Hlow|]. intros x Hx Hcontra.
         exact (lt_irrefl _ (le_lt_trans _ _ _ Hx Hcontra)). }
    by rewrite filter_all.
Qed.

End Pages.
End EventPages.

(** X6.  The shape of a page.  [getLogEvents] returns a page exactly when
    every row it fetches, the row beyond the limit among them, has its
    transaction stored, with an access list that [JSON.parse] accepts when
    the transaction is of type [0x1], and the limit is not 0 unless nothing
    matches; otherwise it throws.  On a page, [hasNextPage] says exactly
    that more rows match than the limit allows; the page then holds exactly
    [limit] events and [lastCheckpointInPage] is the checkpoint of its last
    event with block number and timestamp passed through [Number], which
    is that checkpoint itself when both are at most [2 ^ 53].  Otherwise
    the page holds every matching row exactly once and
    [lastCheckpointInPage] is undefined.  [lastCheckpoint] is, again
    through [Number], the greatest checkpoint among all matching rows,
    undefined when none matches. *)
Theorem X6_getLogEvents_page_shape
    (JSON_parse : string → option SyncStore.JSONValue)
    (filterCmprs : SyncStore.JoinedRow → SyncStore.tri)
    (logs : list SyncStore.LogRow) (blocks : list SyncStore.BlockRow)
    (transactions : list SyncStore.TransactionRow)
    (fromCheckpoint toCheckpoint : Checkpoint.Checkpoint) (limit : nat) :
  let matching :=
    SyncStore.requestedRows filterCmprs logs blocks transactions fromCheckpoint toCheckpoint in
  let fetched := take (limit + 1) (SyncStore.orderBy matching) in
  (is_Some (SyncStore.getLogEvents JSON_parse filterCmprs logs blocks transactions
              fromCheckpoint toCheckpoint limit) ↔
   Forall (λ r, ∃ t, SyncStore.jr_tx r = Some t ∧
                  (SyncStore.tx_type t = "0x1" →
                   is_Some (JSON_parse (default "null" (SyncStore.tx_accessList t)))))
     fetched ∧
   (limit = 0%nat → matching = [])) ∧
  ∀ res,
    SyncStore.getLogEvents JSON_parse filterCmprs logs blocks transactions
      fromCheckpoint toCheckpoint limit = Some res →
    (length (SyncStore.events res) <= limit)%nat ∧
    (SyncStore.hasNextPage res = true ↔ (limit < length matching)%nat) ∧
    (SyncStore.hasNextPage res = true →
       length (SyncStore.events res) = limit ∧
       SyncStore.lastCheckpointInPage res =
         SyncStore.numberCheckpoint ∘ SyncStore.eventCheckpoint
           <$> last (SyncStore.events res) ∧
       ∀ e, last (SyncStore.events res) = Some e →
         Z.abs (SyncStore.ev_block_timestamp e) <= 2 ^ 53 →
         Z.abs (SyncStore.ev_block_number e) <= 2 ^ 53 →
         SyncStore.lastCheckpointInPage res = Some (SyncStore.eventCheckpoint e)) ∧
    (SyncStore.hasNextPage res = false →
       Some <$> SyncStore.events res ≡ₚ SyncStore.rowToEvent JSON_parse <$> matching ∧
       SyncStore.lastCheckpointInPage res = None) ∧
    (matching = [] → SyncStore.lastCheckpoint res = None) ∧
    (∀ r, r ∈ matching →
       ∃ m, m ∈ matching ∧
         SyncStore.lastCheckpoint res
           = Some (SyncStore.numberCheckpoint (SyncStore.rowCheckpoint m)) ∧
         Checkpoint.le (SyncStore.rowCheckpoint r) (SyncStore.rowCheckpoint m)).
Proof.
  intros matching fetched.
  set (S := SyncStore.orderBy matching).
  assert (S ≡ₚ matching) as HS by apply merge_sort_Permutation.
  assert (length S = length matching) as Hlen by (by rewrite HS).
  split.
  { rewrite EventPages.getLogEvents_is_Some. fold matching S fetched.
    rewrite mapM_is_Some, !Forall_forall.
    split; intros [Hall Hzero]; (split; [|done]); intros r Hr; specialize (Hall r Hr);
      unfold compose in *; rewrite SyncStore.rowToEvent_is_Some in *; [by destruct Hall|].
    split; [|done].
    assert (r ∈ matching) as Hm.
    { rewrite <- HS. eapply elem_of_sublist; [exact Hr|apply sublist_take]. }
    by apply SyncStore.requestedRows_bounds in Hm as [? _]. }
  intros res Hres.
  assert (matching = [] → SyncStore.numberCheckpoint ∘ SyncStore.rowCheckpoint <$> last S = None)
    as Hnone.
  { intros Hm. rewrite Hm in Hlen. by destruct S. }
  assert (∀ r, r ∈ matching →
            ∃ m, m ∈ matching ∧
              SyncStore.numberCheckpoint ∘ SyncStore.rowCheckpoint <$> last S
                = Some (SyncStore.numberCheckpoint (SyncStore.rowCheckpoint m)) ∧
              Checkpoint.le (SyncStore.rowCheckpoint r) (SyncStore.rowCheckpoint m)) as Hmax.
  { intros r Hr. rewrite <- HS in Hr.
    destruct (last S) as [m|] eqn:Hlast; [|apply last_None in Hlast; rewrite Hlast in Hr;
                                             by apply elem_of_nil in Hr].
    exists m. split; [rewrite <- HS; by eapply last_Some_elem_of|]. split; [done|].
    pose proof (EventPages.orderBy_requested_sorted filterCmprs logs blocks transactions
                  fromCheckpoint toCheckpoint) as Hsorted.
    apply (StronglySorted_fmap SyncStore.rowCheckpoint EventPages.byCheckpoint Checkpoint.le)
      in Hsorted; [|done].
    apply (proj1 (Forall_forall _ _)
             (SyncStore.StronglySorted_le_last _ (SyncStore.rowCheckpoint m) Hsorted
                ltac:(by rewrite fmap_last; fold matching S; rewrite Hlast))).
    by apply list_elem_of_fmap_2. }
  apply EventPages.getLogEvents_Some in Hres
    as [[Hle (evs & Hevs & ->)]|[Hlimit (r & evs & Hr & Hevs & ->)]];
    fold matching S in Hevs |- *; cbn [SyncStore.events SyncStore.hasNextPage
      SyncStore.lastCheckpointInPage SyncStore.lastCheckpoint].
  - pose proof (EventPages.mapM_length_eq _ _ _ Hevs) as Hlenevs. fold matching in Hle.
    split_and!; try done.
    + lia.
    + split; [done|lia].
    + intros _. split; [|done]. apply mapM_Some_1 in Hevs.
      rewrite <- HS. clear -Hevs.
      induction Hevs as [|x y l k Hxy _ IH]; [done|]. rewrite !fmap_cons, Hxy. by f_equiv.
  - fold matching S in Hr. fold matching in Hlimit.
    pose proof (EventPages.mapM_length_eq _ _ _ Hevs) as Hlenevs.
    rewrite length_take in Hlenevs.
    assert (length (take limit evs) = limit) as Hn by (rewrite length_take; lia).
    assert (SyncStore.eventCheckpoint <$> last (take limit evs)
            = Some (SyncStore.rowCheckpoint r)) as Hlast.
    { apply (SyncStore.mapM_take_Some _ _ _ limit) in Hevs. rewrite take_take in Hevs.
      replace (limit `min` (limit + 1))%nat with limit in Hevs by lia.
      apply SyncStore.mapM_rowToEvent in Hevs as [_ Hcps].
      by rewrite <- fmap_last, Hcps, fmap_last, Hr. }
    split_and!; try done.
    + lia.
    + split; [lia|done].
    + intros _. split; [done|].
      destruct (last (take limit evs)) as [e|]; [|done].
      change (Some (SyncStore.eventCheckpoint e) = Some (SyncStore.rowCheckpoint r)) in Hlast.
      apply (inj Some) in Hlast.
      split; [cbn [fmap option_fmap option_map compose]; by rewrite Hlast|].
      intros e' [= <-] Ht Hn'. rewrite <- Hlast. f_equal.
      by apply SyncStore.numberCheckpoint_exact.
Qed.

(** X6 on the three logs of the scenario with limit 1: a page of one event
    that announces a next page. *)
Lemma X6_getLogEvents_page_shape_witness :
  ∃ res,
    SyncStore.getLogEvents noJSON anyLog scenarioLogs scenarioBlocks scenarioTransactions
      Checkpoint.zeroCheckpoint wholeChain 1 = Some res ∧
    length (SyncStore.events res) = 1%nat ∧
    SyncStore.hasNextPage res = true.
Proof.
  destruct (X6_getLogEvents_page_shape noJSON anyLog scenarioLogs scenarioBlocks
              scenarioTransactions Checkpoint.zeroCheckpoint wholeChain 1)
    as [Hpage Hshape].
  destruct (proj2 Hpage) as [res Hres].
  { split; [|lia]. vm_compute. repeat constructor; eexists; (split; [reflexivity|discriminate]). }
  exists res. split; [exact Hres|].
  destruct (Hshape res Hres) as (_ & Hnext & Hlast & _).
  assert (SyncStore.hasNextPage res = true) as Hn.
  { apply Hnext. vm_compute. lia. }
  split; [by apply Hlast|exact Hn].
Defined.

(** X7.  Paging loses nothing while block numbers and timestamps are at
    most [2 ^ 53].  When no two matching rows share a checkpoint, a page
    with a next page, followed by a page requested from its
    [lastCheckpointInPage], is the page of the two limits together: the
    events of the second come right after those of the first, none left out
    and none twice. *)
Theorem X7_getLogEvents_next_page
    (JSON_parse : string → option SyncStore.JSONValue)
    (filterCmprs : SyncStore.JoinedRow → SyncStore.tri)
    (logs : list SyncStore.LogRow) (blocks : list SyncStore.BlockRow)
    (transactions : list SyncStore.TransactionRow)
    (fromCheckpoint toCheckpoint : Checkpoint.Checkpoint) (limit limit' : nat)
    (res res' : SyncStore.LogEventsResult) (c : Checkpoint.Checkpoint) :
  NoDup (SyncStore.rowCheckpoint <$>
           SyncStore.requestedRows filterCmprs logs blocks transactions
             fromCheckpoint toCheckpoint) →
  Forall (λ b, Z.abs (SyncStore.block_timestamp b) <= 2 ^ 53 ∧
               Z.abs (SyncStore.block_number b) <= 2 ^ 53) blocks →
  SyncStore.getLogEvents JSON_parse filterCmprs logs blocks transactions
    fromCheckpoint toCheckpoint limit = Some res →
  SyncStore.lastCheckpointInPage res = Some c →
  SyncStore.getLogEvents JSON_parse filterCmprs logs blocks transactions
    c toCheckpoint limit' = Some res' →
  SyncStore.getLogEvents JSON_parse filterCmprs logs blocks transactions
    fromCheckpoint toCheckpoint (limit + limit') =
  Some {| SyncStore.events := SyncStore.events res ++ SyncStore.events res';
          SyncStore.hasNextPage := SyncStore.hasNextPage res';
          SyncStore.lastCheckpointInPage := SyncStore.lastCheckpointInPage res';
          SyncStore.lastCheckpoint := SyncStore.lastCheckpoint res' |}.
Proof.
  intros Hnd Hsafe Hres Hc Hres'.
  set (M := SyncStore.requestedRows filterCmprs logs blocks transactions
              fromCheckpoint toCheckpoint) in *.
  set (S := SyncStore.orderBy M).
  assert (length S = length M) as HlenS by apply EventPages.length_orderBy.
  apply EventPages.getLogEvents_Some in Hres
    as [[_ (evs & _ & ->)]|[Hlimit (r & evs & Hr & Hevs & ->)]]; [done|].
  simpl in Hc. injection Hc as <-. fold M S in Hr, Hevs.
  assert (r ∈ M) as HrM.
  { apply SyncStore.orderBy_elem_of. fold S.
    eapply elem_of_sublist; [by eapply last_Some_elem_of|apply sublist_take]. }
  rewrite (EventPages.numberCheckpoint_rowCheckpoint filterCmprs logs blocks transactions
             fromCheckpoint toCheckpoint r Hsafe HrM) in Hres'.
  pose proof (EventPages.orderBy_requested_next filterCmprs logs blocks transactions
                fromCheckpoint toCheckpoint limit r Hnd Hr) as Hnext.
  fold M S in Hnext, Hlimit.
  assert (length (SyncStore.requestedRows filterCmprs logs blocks transactions
                    (SyncStore.rowCheckpoint r) toCheckpoint) = (length M - limit)%nat)
    as HlenM'.
  { by rewrite <- EventPages.length_orderBy, Hnext, length_drop, HlenS. }
  assert (last (drop limit S) = last S) as Hlast by (apply EventPages.last_drop; lia).
  assert (mapM (SyncStore.rowToEvent JSON_parse) (take limit S) = Some (take limit evs))
    as Hfirst.
  { apply (SyncStore.mapM_take_Some _ _ _ limit) in Hevs. rewrite take_take in Hevs.
    by replace (limit `min` (limit + 1))%nat with limit in Hevs by lia. }
  cbn [SyncStore.events].
  apply EventPages.getLogEvents_Some in Hres'
    as [[Hall (evs' & Hevs' & ->)]|[Hlimit' (r' & evs' & Hr' & Hevs' & ->)]];
    cbn [SyncStore.events SyncStore.hasNextPage SyncStore.lastCheckpointInPage
         SyncStore.lastCheckpoint]; rewrite Hnext in *.
  - rewrite EventPages.getLogEvents_all by (fold M; lia). fold M S.
    assert (mapM (SyncStore.rowToEvent JSON_parse) S = Some (take limit evs ++ evs')) as ->.
    { rewrite <- (take_drop limit S). apply mapM_Some_2, Forall2_app; by apply mapM_Some_1. }
    cbn [mbind option_bind]. by rewrite Hlast.
  - destruct (EventPages.getLogEvents_next JSON_parse filterCmprs logs blocks transactions
                fromCheckpoint toCheckpoint (limit + limit')) as (r'' & Hr'' & ->);
      [fold M; lia..|].
    fold M S in Hr'' |- *.
    rewrite <- take_take_drop, last_app, Hr' in Hr''. injection Hr'' as <-.
    assert (mapM (SyncStore.rowToEvent JSON_parse) (take (limit + limit' + 1) S)
            = Some (take limit evs ++ evs')) as ->.
    { replace (limit + limit' + 1)%nat with (limit + (limit' + 1))%nat by lia.
      rewrite <- take_take_drop. apply mapM_Some_2, Forall2_app; by apply mapM_Some_1. }
    cbn [mbind option_bind]. rewrite Hlast. do 2 f_equal.
    pose proof (EventPages.mapM_length_eq _ _ _ Hfirst) as Hl1.
    rewrite !length_take in Hl1.
    rewrite take_app_add' by (rewrite length_take; lia). done.
Qed.

(** X7 on the three logs of the scenario: a page of one event and the next
    page of one event are the page of two events. *)
Lemma X7_getLogEvents_next_page_witness :
  ∃ res,
    SyncStore.getLogEvents noJSON anyLog scenarioLogs scenarioBlocks scenarioTransactions
      Checkpoint.zeroCheckpoint wholeChain 2 = Some res ∧
    SyncStore.eventCheckpoint <$> SyncStore.events res =
      [Checkpoint.mkCheckpoint 50 1 5 (Some 0); Checkpoint.mkCheckpoint 50 1 5 (Some 1)] ∧
    SyncStore.hasNextPage res = true.
Proof.
  eexists. split.
  - eapply (X7_getLogEvents_next_page noJSON anyLog scenarioLogs scenarioBlocks
              scenarioTransactions Checkpoint.zeroCheckpoint wholeChain 1 1).
    + apply (bool_decide_unpack _). vm_compute. exact I.
    + apply (bool_decide_unpack _). vm_compute. exact I.
    + vm_compute. reflexivity.
    + reflexivity.
    + vm_compute. reflexivity.
  - split; reflexivity.
Defined.

Section BeyondSafeIntegers.
Import Checkpoint SyncStore.

(** Two logs in a block whose number is [2 ^ 53 + 1], which [Number] rounds
    to [2 ^ 53]. *)
Definition farBlocks : list BlockRow := [mkBlockRow "0xb5" 1 (2 ^ 53 + 1) 50].

Definition farLogs : list LogRow :=
  [scenarioLog "0xb5-0" "0xb5" (2 ^ 53 + 1) 0; scenarioLog "0xb5-1" "0xb5" (2 ^ 53 + 1) 1].

Definition farChain : Checkpoint :=
  {| blockTimestamp := 100; chainId := 1; blockNumber := 2 ^ 54; logIndex := None |}.
End BeyondSafeIntegers.

(** Beyond [2 ^ 53] the cursor falls behind the page: the page of the first
    log names (50, 1, 2 ^ 53, 0) as its last checkpoint, and the page
    requested from there holds the first log again. *)
Example getLogEvents_cursor_beyond_2_53 :
  ∃ res res' c,
    SyncStore.getLogEvents noJSON anyLog farLogs farBlocks scenarioTransactions
      Checkpoint.zeroCheckpoint farChain 1 = Some res ∧
    SyncStore.eventCheckpoint <$> SyncStore.events res
      = [Checkpoint.mkCheckpoint 50 1 (2 ^ 53 + 1) (Some 0)] ∧
    SyncStore.lastCheckpointInPage res = Some c ∧
    c = Checkpoint.mkCheckpoint 50 1 (2 ^ 53) (Some 0) ∧
    SyncStore.getLogEvents noJSON anyLog farLogs farBlocks scenarioTransactions
      c farChain 1 = Some res' ∧
    SyncStore.events res' = SyncStore.events res.
Proof.
  eexists _, _, _. split; [vm_compute; reflexivity|]. split; [reflexivity|].
  split; [reflexivity|]. split; [reflexivity|]. split; [vm_compute; reflexivity|]. reflexivity.
Qed.

(** ** Sync store: the filters of [getLogEvents] *)

Module EventFilters.
Import Checkpoint SyncStore.

(** [Hex | Hex[]], as addresses and topics are given in
    [LogFilterCriteria]. *)
Inductive OneOrMany : Type :=
  | One (value : Hex)
  | Many (values : list Hex).

(** [LogFilterCriteria]: [address?] and [topics?], a topic slot being a
    value, an array of values or [null]. *)
Record LogFilterCriteria : Type := mkLogFilterCriteria {
  lfc_address : option OneOrMany;
  lfc_topics : option (list (option OneOrMany));
}.

(** An element of the [logFilters] argument of [getLogEvents]. *)
Record LogFilterRequest : Type := mkLogFilterRequest {
  lfr_id : string;
  lfr_chainId : Z;
  lfr_criteria : LogFilterCriteria;
  lfr_fromBlock : option Z;
  lfr_toBlock : option Z;
  lfr_eventSelector : Hex;
}.

(** An element of the [factories] argument of [getLogEvents]. *)
Record FactoryRequest : Type := mkFactoryRequest {
  fr_id : string;
  fr_chainId : Z;
  fr_criteria : FactoryCriteria;
  fr_fromBlock : option Z;
  fr_toBlock : option Z;
  fr_eventSelector : Hex;
}.

(** [eb(column, "=", value)] on a text column: NULL when the column is. *)
Definition sqlEqText (col : option Hex) (value : Hex) : tri :=
  match col with
  | Some x => Some (bool_decide (x = value))
  | None => None
  end.

(** [eb(column, "=", value)] on a numeric column. *)
Definition sqlEqNum (col : option Z) (value : Z) : tri :=
  match col with
  | Some x => Some (bool_decide (x = value))
  | None => None
  end.

(** [eb(column, "in", subquery)]: true when a row of the subquery equals the
    column, else NULL when the subquery holds a NULL, else false. *)
Definition sqlIn (col : option Hex) (subquery : list (option Hex)) : tri :=
  match col with
  | None => None
  | Some x =>
      if bool_decide (Some x ∈ subquery) then Some true
      else if bool_decide (None ∈ subquery) then None
      else Some false
  end.

(** [if (value)] on a string, a number and an optional block number:
    the empty string, [0] and [undefined] are falsy; an array is truthy. *)
Definition truthyOneOrMany (v : OneOrMany) : bool :=
  match v with
  | One x => negb (bool_decide (x = ""))
  | Many _ => true
  end.

Definition truthyBlock (b : option Z) : bool :=
  match b with
  | Some n => negb (n =? 0)
  | None => false
  end.

(** "If it's an array of length 1, collapse it", then compare. *)
Definition matchOneOrMany (col : option Hex) (v : OneOrMany) : tri :=
  let collapsed := match v with Many [x] => One x | _ => v end in
  match collapsed with
  | Many xs => sqlOr ((λ a, sqlEqText col a) <$> xs)
  | One x => sqlEqText col x
  end.

Definition col_topic (idx : nat) (r : JoinedRow) : option Hex :=
  match idx with
  | 0%nat => log_topic0 (jr_log r)
  | 1%nat => log_topic1 (jr_log r)
  | 2%nat => log_topic2 (jr_log r)
  | _ => log_topic3 (jr_log r)
  end.

(** [buildLogFilterCmprs]: the list of comparisons for one log filter. *)
Definition buildLogFilterCmprs (logFilter : LogFilterRequest) (r : JoinedRow) : list tri :=
  [sqlEqNum (col_chainId r) (lfr_chainId logFilter)]
  ++ match lfc_address (lfr_criteria logFilter) with
     | Some address =>
         if truthyOneOrMany address
         then [matchOneOrMany (Some (log_address (jr_log r))) address]
         else []
     | None => []
     end
  ++ match lfc_topics (lfr_criteria logFilter) with
     | Some topics =>
         idx ← seq 0 4;
         match topics !! idx with
         | Some (Some raw) => [matchOneOrMany (col_topic idx r) raw]
         | _ => []
         end
     | None => []
     end
  ++ (if truthyBlock (lfr_fromBlock logFilter)
      then [sqlCmp (col_number r) OpGe (default 0 (lfr_fromBlock logFilter))] else [])
  ++ (if truthyBlock (lfr_toBlock logFilter)
      then [sqlCmp (col_number r) OpLe (default 0 (lfr_toBlock logFilter))] else []).

(** The subquery of [buildFactoryCmprs]: the child addresses the factory has
    announced on the chain. *)
Definition childAddressSubquery (logsTable : list LogRow) (factory : FactoryRequest)
    : list (option Hex) :=
  buildFactoryChildAddressSelectExpression (fc_childAddressLocation (fr_criteria factory))
    <$> filter (λ l, log_chainId l = fr_chainId factory
                     ∧ log_address l = fc_address (fr_criteria factory)
                     ∧ log_topic0 l = Some (fc_eventSelector (fr_criteria factory)))
          logsTable.

(** [buildFactoryCmprs]. *)
Definition buildFactoryCmprs (logsTable : list LogRow) (factory : FactoryRequest)
    (r : JoinedRow) : list tri :=
  [sqlEqNum (col_chainId r) (fr_chainId factory);
   sqlIn (Some (log_address (jr_log r))) (childAddressSubquery logsTable factory)]
  ++ (if truthyBlock (fr_fromBlock factory)
      then [sqlCmp (col_number r) OpGe (default 0 (fr_fromBlock factory))] else [])
  ++ (if truthyBlock (fr_toBlock factory)
      then [sqlCmp (col_number r) OpLe (default 0 (fr_toBlock factory))] else []).

(** The filter clause of both queries of [getLogEvents]. *)
Definition logEventsFilter (logsTable : list LogRow)
    (logFilters : option (list LogFilterRequest)) (factories : option (list FactoryRequest))
    (r : JoinedRow) : tri :=
  let logFilterCmprs :=
    match logFilters with
    | Some logFilters =>
        (λ logFilter,
           sqlAnd (buildLogFilterCmprs logFilter r
                   ++ [sqlEqText (log_topic0 (jr_log r)) (lfr_eventSelector logFilter)]))
          <$> logFilters
    | None => []
    end in
  let factoryCmprs :=
    match factories with
    | Some factories =>
        (λ factory,
           sqlAnd (buildFactoryCmprs logsTable factory r
                   ++ [sqlEqText (log_topic0 (jr_log r)) (fr_eventSelector factory)]))
          <$> factories
    | None => []
    end in
  sqlOr (logFilterCmprs ++ factoryCmprs).

(** *** Three-valued logic, read as truth *)

Lemma and_iff_both (A B C D : Prop) : (A ↔ B) → (C ↔ D) → (A ∧ C ↔ B ∧ D).
Proof. tauto. Qed.

Lemma or_iff_both (A B C D : Prop) : (A ↔ B) → (C ↔ D) → (A ∨ C ↔ B ∨ D).
Proof. tauto. Qed.

Lemma sqlHolds_sqlAnd es : sqlHolds (sqlAnd es) = true ↔ Forall (λ e, sqlHolds e = true) es.
Proof.
  induction es as [|e es IH]; simpl.
  - split; [constructor|done].
  - rewrite Forall_cons, <- IH. unfold sqlAnd.
    destruct e as [[|]|], (foldr sqlAnd2 (Some true) es) as [[|]|]; simpl; naive_solver.
Qed.

Lemma sqlHolds_sqlOr es : sqlHolds (sqlOr es) = true ↔ Exists (λ e, sqlHolds e = true) es.
Proof.
  induction es as [|e es IH]; simpl.
  - split; [done|by intros ?%Exists_nil].
  - rewrite Exists_cons, <- IH. unfold sqlOr.
    destruct e as [[|]|], (foldr sqlOr2 (Some false) es) as [[|]|]; simpl; naive_solver.
Qed.

Lemma sqlHolds_sqlEqText col value : sqlHolds (sqlEqText col value) = true ↔ col = Some value.
Proof.
  destruct col as [x|]; simpl; [|done]. case_bool_decide; simpl; naive_solver.
Qed.

Lemma sqlHolds_sqlEqNum col value : sqlHolds (sqlEqNum col value) = true ↔ col = Some value.
Proof.
  destruct col as [x|]; simpl; [|done]. case_bool_decide; simpl; naive_solver.
Qed.

Lemma sqlHolds_sqlIn col subquery :
  sqlHolds (sqlIn col subquery) = true ↔ ∃ x, col = Some x ∧ Some x ∈ subquery.
Proof.
  destruct col as [x|]; simpl; [|naive_solver].
  repeat case_bool_decide; simpl; naive_solver.
Qed.

Lemma sqlHolds_sqlCmp_ge col n :
  sqlHolds (sqlCmp col OpGe n) = true ↔ ∃ x, col = Some x ∧ n <= x.
Proof.
  destruct col as [x|]; simpl; [|split; [done|by intros (? & ? & _)]].
  destruct (Z.leb_spec n x); split; try done.
  - eauto.
  - intros (? & [= <-] & ?). lia.
Qed.

Lemma sqlHolds_sqlCmp_le col n :
  sqlHolds (sqlCmp col OpLe n) = true ↔ ∃ x, col = Some x ∧ x <= n.
Proof.
  destruct col as [x|]; simpl; [|split; [done|by intros (? & ? & _)]].
  destruct (Z.leb_spec x n); split; try done.
  - eauto.
  - intros (? & [= <-] & ?). lia.
Qed.

(** The values a slot of the criteria accepts. *)
Definition accepted (v : OneOrMany) : list Hex :=
  match v with One x => [x] | Many xs => xs end.

Lemma sqlHolds_matchOneOrMany col v :
  sqlHolds (matchOneOrMany col v) = true ↔ ∃ x, col = Some x ∧ x ∈ accepted v.
Proof.
  assert (∀ xs, sqlHolds (sqlOr ((λ a, sqlEqText col a) <$> xs)) = true ↔
                ∃ x, col = Some x ∧ x ∈ xs) as Hmany.
  { intros xs. rewrite sqlHolds_sqlOr, Exists_fmap, Exists_exists.
    setoid_rewrite sqlHolds_sqlEqText. naive_solver. }
  assert (∀ x0, sqlHolds (sqlEqText col x0) = true ↔ ∃ x, col = Some x ∧ x ∈ [x0]) as Hone.
  { intros x0. rewrite sqlHolds_sqlEqText. setoid_rewrite list_elem_of_singleton. naive_solver. }
  unfold matchOneOrMany. destruct v as [x|[|x [|y xs]]]; simpl accepted.
  - apply Hone.
  - apply (Hmany []).
  - apply Hone.
  - apply (Hmany (x :: y :: xs)).
Qed.

Lemma truthyOneOrMany_true v : truthyOneOrMany v = true ↔ v ≠ One "".
Proof.
  destruct v as [x|xs]; simpl; [|done].
  case_bool_decide; simpl; naive_solver.
Qed.

Lemma truthyBlock_true b : truthyBlock b = true ↔ ∃ n, b = Some n ∧ n ≠ 0.
Proof.
  destruct b as [n|]; simpl; [|naive_solver].
  destruct (Z.eqb_spec n 0); simpl; naive_solver.
Qed.

(** The block range of a log filter or factory. *)
Lemma blockRange_holds (fromBlock toBlock : option Z) (r : JoinedRow) :
  Forall (λ e, sqlHolds e = true)
    ((if truthyBlock fromBlock
      then [sqlCmp (col_number r) OpGe (default 0 fromBlock)] else [])
     ++ (if truthyBlock toBlock
         then [sqlCmp (col_number r) OpLe (default 0 toBlock)] else [])) ↔
  (∀ n, fromBlock = Some n → n ≠ 0 → ∃ b, jr_block r = Some b ∧ n <= block_number b) ∧
  (∀ n, toBlock = Some n → n ≠ 0 → ∃ b, jr_block r = Some b ∧ block_number b <= n).
Proof.
  assert (∀ P : Z → Prop, (∃ x, col_number r = Some x ∧ P x) ↔
            ∃ b, jr_block r = Some b ∧ P (block_number b)) as Hcol.
  { intros P. unfold col_number. destruct (jr_block r); simpl; naive_solver. }
  rewrite Forall_app. apply and_iff_both.
  - destruct (truthyBlock fromBlock) eqn:Ht.
    + apply truthyBlock_true in Ht as (n & -> & Hn). simpl.
      rewrite Forall_singleton, sqlHolds_sqlCmp_ge, Hcol. naive_solver.
    + split; [|constructor]. intros _ n -> Hn.
      assert (truthyBlock (Some n) = true) by (apply truthyBlock_true; eauto). congruence.
  - destruct (truthyBlock toBlock) eqn:Ht.
    + apply truthyBlock_true in Ht as (n & -> & Hn). simpl.
      rewrite Forall_singleton, sqlHolds_sqlCmp_le, Hcol. naive_solver.
    + split; [|constructor]. intros _ n -> Hn.
      assert (truthyBlock (Some n) = true) by (apply truthyBlock_true; eauto). congruence.
Qed.

Lemma buildLogFilterCmprs_holds (logFilter : LogFilterRequest) (r : JoinedRow) :
  Forall (λ e, sqlHolds e = true) (buildLogFilterCmprs logFilter r) ↔
  log_chainId (jr_log r) = lfr_chainId logFilter ∧
  (∀ address, lfc_address (lfr_criteria logFilter) = Some address → address ≠ One "" →
     log_address (jr_log r) ∈ accepted address) ∧
  (∀ topics idx raw,
     lfc_topics (lfr_criteria logFilter) = Some topics → (idx < 4)%nat →
     topics !! idx = Some (Some raw) →
     ∃ t, col_topic idx r = Some t ∧ t ∈ accepted raw) ∧
  (∀ n, lfr_fromBlock logFilter = Some n → n ≠ 0 →
     ∃ b, jr_block r = Some b ∧ n <= block_number b) ∧
  (∀ n, lfr_toBlock logFilter = Some n → n ≠ 0 →
     ∃ b, jr_block r = Some b ∧ block_number b <= n).
Proof.
  unfold buildLogFilterCmprs.
  rewrite Forall_app, Forall_singleton, sqlHolds_sqlEqNum.
  rewrite Forall_app, Forall_app, blockRange_holds.
  apply and_iff_both; [unfold col_chainId; split; congruence|].
  apply and_iff_both; [|apply and_iff_both; [|done]].
  - destruct (lfc_address (lfr_criteria logFilter)) as [address|]; [|naive_solver].
    destruct (truthyOneOrMany address) eqn:Ht.
    + rewrite Forall_singleton, sqlHolds_matchOneOrMany.
      apply truthyOneOrMany_true in Ht. naive_solver.
    + split; [|constructor]. intros _ ? [= <-] Hne.
      apply truthyOneOrMany_true in Hne. congruence.
  - destruct (lfc_topics (lfr_criteria logFilter)) as [topics|]; [|naive_solver].
    rewrite Forall_bind, Forall_seq. split.
    + intros Hall ? idx raw [= <-] Hidx Hraw.
      specialize (Hall idx ltac:(lia)). unfold compose in Hall. rewrite Hraw in Hall.
      by apply Forall_singleton, sqlHolds_matchOneOrMany in Hall.
    + intros Hall idx Hidx. unfold compose.
      destruct (topics !! idx) as [[raw|]|] eqn:Hraw; try constructor; [|constructor].
      apply sqlHolds_matchOneOrMany. apply (Hall topics idx raw); [done|lia|done].
Qed.

Lemma buildFactoryCmprs_holds (logsTable : list LogRow) (factory : FactoryRequest)
    (r : JoinedRow) :
  Forall (λ e, sqlHolds e = true) (buildFactoryCmprs logsTable factory r) ↔
  log_chainId (jr_log r) = fr_chainId factory ∧
  (∃ l, l ∈ logsTable ∧
        log_chainId l = fr_chainId factory ∧
        log_address l = fc_address (fr_criteria factory) ∧
        log_topic0 l = Some (fc_eventSelector (fr_criteria factory)) ∧
        buildFactoryChildAddressSelectExpression
          (fc_childAddressLocation (fr_criteria factory)) l
        = Some (log_address (jr_log r))) ∧
  (∀ n, fr_fromBlock factory = Some n → n ≠ 0 →
     ∃ b, jr_block r = Some b ∧ n <= block_number b) ∧
  (∀ n, fr_toBlock factory = Some n → n ≠ 0 →
     ∃ b, jr_block r = Some b ∧ block_number b <= n).
Proof.
  unfold buildFactoryCmprs.
  change ([?a; ?b] ++ ?l) with ([a] ++ [b] ++ l).
  rewrite !Forall_app, !Forall_singleton, sqlHolds_sqlEqNum, sqlHolds_sqlIn.
  rewrite <- Forall_app, blockRange_holds.
  apply and_iff_both; [unfold col_chainId; split; congruence|].
  apply and_iff_both; [|done].
  unfold childAddressSubquery. split.
  - intros (x & [= <-] & Hin). apply list_elem_of_fmap in Hin as (l & Hl & Hin).
    apply list_elem_of_filter in Hin as [(? & ? & ?) ?]. eauto 10.
  - intros (l & Hin & ? & ? & ? & Hl). eexists. split; [done|]. rewrite <- Hl.
    apply list_elem_of_fmap_2, list_elem_of_filter. eauto.
Qed.

End EventFilters.

(** X8.  Which rows a request of [getLogEvents] selects.  A joined row
    passes the filter clause exactly when it passes one of the log filters or
    one of the factories.  It passes a log filter when the chain and the
    event selector (topic 0) are those of the filter; the address, when the
    criteria give one other than the empty string, is among the given
    addresses; every topic slot below 4 that the criteria fill holds one of
    the values given for it, a NULL topic never doing so; and the block of
    the log is stored and within [fromBlock] and [toBlock], where an absent
    bound or a bound of 0 is no bound.  It passes a factory when the chain
    and event selector are those of the factory, some stored log of the
    factory's address and creation event on that chain yields the address of
    the row as child address, whatever the blocks of the two logs, and the
    block is within the bounds in the same sense.  With neither log filters
    nor factories no row passes. *)
Theorem X8_logEventsFilter_selects
    (logsTable : list SyncStore.LogRow)
    (logFilters : option (list EventFilters.LogFilterRequest))
    (factories : option (list EventFilters.FactoryRequest))
    (r : SyncStore.JoinedRow) :
  SyncStore.sqlHolds (EventFilters.logEventsFilter logsTable logFilters factories r) = true ↔
  (∃ logFilter,
     logFilter ∈ default [] logFilters ∧
     SyncStore.log_chainId (SyncStore.jr_log r) = EventFilters.lfr_chainId logFilter ∧
     SyncStore.log_topic0 (SyncStore.jr_log r)
       = Some (EventFilters.lfr_eventSelector logFilter) ∧
     (∀ address,
        EventFilters.lfc_address (EventFilters.lfr_criteria logFilter) = Some address →
        address ≠ EventFilters.One "" →
        SyncStore.log_address (SyncStore.jr_log r) ∈ EventFilters.accepted address) ∧
     (∀ topics idx raw,
        EventFilters.lfc_topics (EventFilters.lfr_criteria logFilter) = Some topics →
        (idx < 4)%nat →
        topics !! idx = Some (Some raw) →
        ∃ t, EventFilters.col_topic idx r = Some t ∧ t ∈ EventFilters.accepted raw) ∧
     (∀ n, EventFilters.lfr_fromBlock logFilter = Some n → n ≠ 0 →
        ∃ b, SyncStore.jr_block r = Some b ∧ n <= SyncStore.block_number b) ∧
     (∀ n, EventFilters.lfr_toBlock logFilter = Some n → n ≠ 0 →
        ∃ b, SyncStore.jr_block r = Some b ∧ SyncStore.block_number b <= n)) ∨
  (∃ factory,
     factory ∈ default [] factories ∧
     SyncStore.log_chainId (SyncStore.jr_log r) = EventFilters.fr_chainId factory ∧
     SyncStore.log_topic0 (SyncStore.jr_log r)
       = Some (EventFilters.fr_eventSelector factory) ∧
     (∃ l, l ∈ logsTable ∧
           SyncStore.log_chainId l = EventFilters.fr_chainId factory ∧
           SyncStore.log_address l = SyncStore.fc_address (EventFilters.fr_criteria factory) ∧
           SyncStore.log_topic0 l
             = Some (SyncStore.fc_eventSelector (EventFilters.fr_criteria factory)) ∧
           SyncStore.buildFactoryChildAddressSelectExpression
             (SyncStore.fc_childAddressLocation (EventFilters.fr_criteria factory)) l
           = Some (SyncStore.log_address (SyncStore.jr_log r))) ∧
     (∀ n, EventFilters.fr_fromBlock factory = Some n → n ≠ 0 →
        ∃ b, SyncStore.jr_block r = Some b ∧ n <= SyncStore.block_number b) ∧
     (∀ n, EventFilters.fr_toBlock factory = Some n → n ≠ 0 →
        ∃ b, SyncStore.jr_block r = Some b ∧ SyncStore.block_number b <= n)).
Proof.
  unfold EventFilters.logEventsFilter.
  rewrite EventFilters.sqlHolds_sqlOr, Exists_app. apply EventFilters.or_iff_both.
  - destruct logFilters as [logFilters|]; cbv beta iota zeta; cbn [default];
      [|split; [by intros ?%Exists_nil|by intros (? & ?%elem_of_nil & _)]].
    rewrite Exists_fmap, Exists_exists. unfold compose.
    apply exist_proper; intros logFilter.
    rewrite EventFilters.sqlHolds_sqlAnd, Forall_app, Forall_singleton,
      EventFilters.sqlHolds_sqlEqText, EventFilters.buildLogFilterCmprs_holds.
    tauto.
  - destruct factories as [factories|]; cbv beta iota zeta; cbn [default];
      [|split; [by intros ?%Exists_nil|by intros (? & ?%elem_of_nil & _)]].
    rewrite Exists_fmap, Exists_exists. unfold compose.
    apply exist_proper; intros factory.
    rewrite EventFilters.sqlHolds_sqlAnd, Forall_app, Forall_singleton,
      EventFilters.sqlHolds_sqlEqText, EventFilters.buildFactoryCmprs_holds.
    tauto.
Qed.

(** ** Sync store: the retry wrapper of every store method *)

Module StoreWrap.

(** What one call of [fn] does: the promise resolves, or rejects with an
    error. *)
Inductive Outcome (T Error : Type) : Type :=
  | Resolves (result : T)
  | Rejects (error : Error).
Arguments Resolves {T Error} result.
Arguments Rejects {T Error} error.

(** What [wrap] does besides calling [fn]: the duration metric, the warning
    (with the error whose message it prints), the sleep and the error
    counter. *)
Inductive WrapEffect (Error : Type) : Type :=
  | CallFn
  | ObserveDuration
  | Warn (duration : Z) (error : Error)
  | Sleep (duration : Z)
  | IncErrorTotal.
Arguments CallFn {Error}.
Arguments ObserveDuration {Error}.
Arguments Warn {Error} duration error.
Arguments Sleep {Error} duration.
Arguments IncErrorTotal {Error}.

(** How [wrap] ends; the variable [error] is [undefined] until the first
    failure. *)
Inductive Completion (T Error : Type) : Type :=
  | Returned (result : T)
  | Thrown (error : option Error).
Arguments Returned {T Error} result.
Arguments Thrown {T Error} error.

Definition RETRY_COUNT : nat := 3.
Definition BASE_DURATION : Z := 100.

Section Wrap.
Context {T Error : Type}.
(** [_error instanceof NonRetryableError]. *)
Variable isNonRetryableError : Error → bool.
(** [fn i] is the outcome of the call of [fn] in iteration [i]. *)
Variable fn : nat → Outcome T Error.

(** The loop [for (let i = 0; i < RETRY_COUNT + 1; i++)] from iteration [i],
    with [remaining] iterations to go, and the statements after it. *)
Fixpoint wrapFrom (remaining i : nat) (error : option Error)
    : Completion T Error * list (WrapEffect Error) :=
  match remaining with
  | O => (Thrown error, [IncErrorTotal])
  | S remaining' =>
      match fn i with
      | Resolves result => (Returned result, [CallFn; ObserveDuration])
      | Rejects _error =>
          if isNonRetryableError _error then (Thrown (Some _error), [CallFn])
          else
            let error := match error with Some first => first | None => _error end in
            let retrying :=
              if decide (i < RETRY_COUNT)%nat then
                let duration := BASE_DURATION * 2 ^ Z.of_nat i in
                [Warn duration error; Sleep duration]
              else [] in
            let '(completion, effects) := wrapFrom remaining' (S i) (Some error) in
            (completion, CallFn :: retrying ++ effects)
      end
  end.

Definition wrap : Completion T Error * list (WrapEffect Error) :=
  wrapFrom (RETRY_COUNT + 1) 0 None.

(** The calls of [fn] and the sleeps in a run. *)
Definition calls (effects : list (WrapEffect Error)) : nat :=
  length (omap (λ e, match e with CallFn => Some () | _ => None end) effects).

Definition sleeps (effects : list (WrapEffect Error)) : list Z :=
  omap (λ e, match e with Sleep duration => Some duration | _ => None end) effects.

Definition errorTotal (effects : list (WrapEffect Error)) : nat :=
  length (omap (λ e, match e with IncErrorTotal => Some () | _ => None end) effects).

Definition observations (effects : list (WrapEffect Error)) : nat :=
  length (omap (λ e, match e with ObserveDuration => Some () | _ => None end) effects).

End Wrap.
End StoreWrap.

(** X9.  The retry policy of the store methods.  [wrap] calls [fn] at least
    once and at most four times, and only after retryable failures of all
    earlier calls; before the call number i+1 it sleeps 100 * 2^i
    milliseconds, so 100, 200 and 400 at most.  It returns the result of the
    first call that resolves and records the duration once.  It throws
    either a non-retryable error, at once and without counting it, or, after
    four retryable failures, the error of the FIRST call, counting one
    error. *)
Theorem X9_wrap_retry_policy {T Error : Type} (isNonRetryableError : Error → bool)
    (fn : nat → StoreWrap.Outcome T Error) :
  ∃ completion effects,
    StoreWrap.wrap isNonRetryableError fn = (completion, effects) ∧
    let n := StoreWrap.calls effects in
    (1 <= n <= 4)%nat ∧
    (∀ i, (i < n - 1)%nat →
       ∃ e, fn i = StoreWrap.Rejects e ∧ isNonRetryableError e = false) ∧
    StoreWrap.sleeps effects = (λ i, 100 * 2 ^ Z.of_nat i) <$> seq 0 (n - 1) ∧
    match completion with
    | StoreWrap.Returned result =>
        fn (n - 1)%nat = StoreWrap.Resolves result ∧
        StoreWrap.observations effects = 1%nat ∧
        StoreWrap.errorTotal effects = 0%nat
    | StoreWrap.Thrown error =>
        StoreWrap.observations effects = 0%nat ∧
        ∃ e, error = Some e ∧
          ((isNonRetryableError e = true ∧ fn (n - 1)%nat = StoreWrap.Rejects e ∧
            StoreWrap.errorTotal effects = 0%nat) ∨
           (isNonRetryableError e = false ∧ n = 4%nat ∧ fn 0%nat = StoreWrap.Rejects e ∧
            (∃ e', fn 3%nat = StoreWrap.Rejects e' ∧ isNonRetryableError e' = false) ∧
            StoreWrap.errorTotal effects = 1%nat))
    end.
Proof.
  unfold StoreWrap.wrap. cbn [StoreWrap.wrapFrom StoreWrap.RETRY_COUNT Nat.add].
  assert (∀ (n : nat) (P : nat → Prop), Forall P (seq 0 n) → ∀ i, (i < n)%nat → P i)
    as Hall.
  { intros n P H i ?. apply (proj1 (Forall_seq P 0 n) H). lia. }
  destruct (fn 0%nat) as [r0|e0] eqn:H0;
    [|destruct (isNonRetryableError e0) eqn:N0;
      [|destruct (fn 1%nat) as [r1|e1] eqn:H1;
        [|destruct (isNonRetryableError e1) eqn:N1;
          [|destruct (fn 2%nat) as [r2|e2] eqn:H2;
            [|destruct (isNonRetryableError e2) eqn:N2;
              [|destruct (fn 3%nat) as [r3|e3] eqn:H3;
                [|destruct (isNonRetryableError e3) eqn:N3]]]]]]].
  all: eexists _, _; split; [lazy; reflexivity|]; cbv zeta.
  all: repeat match goal with
         | |- context [StoreWrap.calls ?l] =>
             let v := eval vm_compute in (StoreWrap.calls l) in
             change (StoreWrap.calls l) with v
         | |- context [StoreWrap.observations ?l] =>
             let v := eval vm_compute in (StoreWrap.observations l) in
             change (StoreWrap.observations l) with v
         | |- context [StoreWrap.errorTotal ?l] =>
             let v := eval vm_compute in (StoreWrap.errorTotal l) in
             change (StoreWrap.errorTotal l) with v
         end.
  all: split; [lia|].
  all: split; [apply Hall; cbn [seq]; repeat constructor; eauto|].
  all: split; [vm_compute; reflexivity|].
  all: cbn [Nat.sub].
  all: first [by repeat split
             |split; [done|]; eexists; split; [done|];
              first [left; by repeat split|right; repeat split; eauto]].
Qed.

(** ** Sync store: the pages of [getFactoryChildAddresses] *)

Module FactoryChildren.
Import SyncStore.

(** Logs in strictly increasing block order. *)
Definition blockBefore (a b : LogRow) : Prop := log_blockNumber a < log_blockNumber b.

#[global] Instance blockBefore_dec : RelDecision blockBefore.
Proof. intros a b. unfold blockBefore. apply _. Defined.

Lemma filter_and {A : Type} (p q : A → bool) (l : list A) :
  filter (λ x, (p x && q x) = true) l = filter (λ x, q x = true) (filter (λ x, p x = true) l).
Proof.
  rewrite list_filter_filter. apply list_filter_iff. intros x.
  rewrite andb_true_iff. tauto.
Qed.

Lemma StronglySorted_drop {A : Type} (R : relation A) (l : list A) (n : nat) :
  StronglySorted R l → StronglySorted R (drop n l).
Proof. apply EventPages.StronglySorted_sublist, sublist_drop. Qed.

(** In a list in strictly increasing block order, the rows above the block of
    the last row of a prefix are the rest of the list. *)
Lemma filter_above_last (rows : list LogRow) (n : nat) (x : LogRow) :
  StronglySorted blockBefore rows → last (take n rows) = Some x →
  filter (λ l, (log_blockNumber x <? log_blockNumber l) = true) rows = drop n rows.
Proof.
  intros Hsorted Hlast.
  rewrite <- (take_drop n rows) in Hsorted.
  apply StronglySorted_app in Hsorted as (Hcross & Htake & _).
  pose proof (last_Some_elem_of _ _ Hlast) as Hx.
  rewrite <- (take_drop n rows) at 1. rewrite filter_app.
  rewrite EventPages.filter_nothing, EventPages.filter_all; [done| |].
  - apply Forall_forall. intros l Hl. apply Z.ltb_lt. by apply Hcross.
  - apply Forall_forall. intros l Hl. rewrite Z.ltb_lt.
    apply last_Some in Hlast as [front Hfront]. rewrite Hfront in Htake, Hl.
    apply StronglySorted_app in Htake as (Hbefore & _ & _).
    apply elem_of_app in Hl as [Hl|Hl%list_elem_of_singleton].
    + specialize (Hbefore l x Hl ltac:(by apply list_elem_of_singleton)).
      unfold blockBefore in Hbefore. lia.
    + subst l. lia.
Qed.

Section Pages.
Variable logsTable : list LogRow.
Variables (chainId : Z) (upToBlockNumber : Z) (factory : FactoryCriteria) (pageSize : nat).

Local Abbreviation matching :=
  (filter (λ l, baseQueryMatches chainId upToBlockNumber factory l = true) logsTable).
Local Abbreviation above cursor :=
  (λ l : LogRow, if cursorTruthy cursor then default 0 cursor <? log_blockNumber l else true).
Local Abbreviation childAddress :=
  (buildFactoryChildAddressSelectExpression (fc_childAddressLocation factory)).

Lemma pageQuery_matching cursor :
  pageQuery logsTable chainId upToBlockNumber factory pageSize cursor =
  take pageSize (filter (λ l, above cursor l = true) matching).
Proof. unfold pageQuery. by rewrite filter_and. Qed.

(** The loop from a cursor: the rows still to come are yielded in order, in
    batches that are not empty and not longer than a page. *)
Lemma getFactoryChildAddressesFrom_all (fuel : nat) (cursor : option Z) :
  (1 <= pageSize)%nat →
  StronglySorted blockBefore matching →
  Forall (λ l, 0 < log_blockNumber l) matching →
  (length (filter (λ l, above cursor l = true) matching) < fuel)%nat →
  ∃ batches,
    getFactoryChildAddressesFrom logsTable chainId upToBlockNumber factory pageSize fuel cursor
      = Some batches ∧
    concat batches = childAddress <$> filter (λ l, above cursor l = true) matching ∧
    Forall (λ batch, (0 < length batch <= pageSize)%nat) batches.
Proof.
  intros Hsize Hsorted Hpos. revert cursor.
  induction fuel as [|fuel IH]; intros cursor Hfuel; [lia|].
  set (rest := filter (λ l, above cursor l = true) matching) in *.
  assert (StronglySorted blockBefore rest) as Hrest.
  { eapply EventPages.StronglySorted_sublist; [apply sublist_filter|done]. }
  cbn [getFactoryChildAddressesFrom]. rewrite pageQuery_matching. fold rest.
  destruct (decide (length (take pageSize rest) < pageSize)%nat) as [Hshort|Hfull].
  - rewrite length_take in Hshort. rewrite take_ge by lia.
    eexists. split; [done|]. destruct rest as [|l rest'] eqn:Hr.
    + by rewrite decide_False by (simpl; lia).
    + rewrite decide_True by (simpl; lia). cbn [concat]. rewrite app_nil_r.
      split; [done|]. constructor; [|done]. rewrite length_fmap. simpl in *. lia.
  - rewrite length_take in Hfull.
    assert (length (take pageSize rest) = pageSize) as Hlen by (rewrite length_take; lia).
    destruct (last (take pageSize rest)) as [x|] eqn:Hlast;
      [|apply last_None in Hlast; rewrite Hlast in Hlen; simpl in Hlen; lia].
    assert (x ∈ rest) as Hx.
    { eapply elem_of_sublist; [by eapply last_Some_elem_of|apply sublist_take]. }
    assert (0 < log_blockNumber x) as Hxpos.
    { apply (proj1 (Forall_forall _ _) Hpos).
      by apply list_elem_of_filter in Hx as [_ ?]. }
    assert (above cursor x = true) as Hxc by (by apply list_elem_of_filter in Hx as [? _]).
    assert (filter (λ l, above (Some (log_blockNumber x)) l = true) matching
            = drop pageSize rest) as Hnext.
    { cbn [cursorTruthy default]. rewrite (proj2 (Z.eqb_neq _ _)) by lia. cbn [negb].
      rewrite <- (filter_above_last rest pageSize x Hrest Hlast).
      unfold rest. clear -Hxc. generalize matching. intros M.
      rewrite list_filter_filter. apply list_filter_iff. intros l.
      split; [|tauto]. intros Hl. split; [done|].
      revert Hxc Hl. destruct (cursorTruthy cursor); [|done].
      rewrite !Z.ltb_lt. unfold id. lia. }
    destruct (IH (Some (log_blockNumber x))) as (batches & -> & Hconcat & Hall).
    { rewrite Hnext, length_drop. lia. }
    rewrite decide_True by lia. eexists. split; [done|].
    split.
    + rewrite concat_app, Hconcat, Hnext. simpl. rewrite app_nil_r, <- fmap_app.
      by rewrite take_drop.
    + apply Forall_app. split; [|done]. constructor; [|done].
      rewrite length_fmap. lia.
Qed.

(** With a page size of zero every batch is empty and never shorter than a
    page: the loop does not end. *)
Lemma getFactoryChildAddressesFrom_pageSize_0 (fuel : nat) (cursor : option Z) :
  pageSize = 0%nat →
  getFactoryChildAddressesFrom logsTable chainId upToBlockNumber factory pageSize fuel cursor
    = None.
Proof.
  intros ->. revert cursor. induction fuel as [|fuel IH]; intros cursor; [done|].
  cbn [getFactoryChildAddressesFrom]. unfold pageQuery. rewrite take_0. simpl.
  by rewrite IH.
Qed.

(** A full first page that ends in block 0 leaves a falsy cursor: the next
    query is the first query again. *)
Lemma getFactoryChildAddressesFrom_block_0 (fuel : nat) (x : LogRow) :
  (pageSize <= length matching)%nat →
  last (take pageSize matching) = Some x →
  log_blockNumber x = 0 →
  ∀ cursor, cursorTruthy cursor = false →
  getFactoryChildAddressesFrom logsTable chainId upToBlockNumber factory pageSize fuel cursor
    = None.
Proof.
  intros Hlen Hlast Hx. induction fuel as [|fuel IH]; intros cursor Hcursor; [done|].
  cbn [getFactoryChildAddressesFrom]. rewrite pageQuery_matching, Hcursor.
  rewrite EventPages.filter_all by (by apply Forall_forall).
  rewrite Hlast, decide_False by (rewrite length_take; lia).
  rewrite IH; [done|]. simpl. by rewrite Hx.
Qed.

End Pages.
End FactoryChildren.

(** X10.  [getFactoryChildAddresses] yields every child address once when
    the factory announces at most one child per block.  If the logs of the
    factory's creation event up to [upToBlockNumber] are stored in strictly
    increasing block order, all above block 0, and the page size is at least
    1, the loop ends within as many queries as there are such logs plus one,
    and the batches it yields, put together, are the child addresses of all
    these logs in storage order; no batch is empty or longer than a page. *)
Theorem X10_getFactoryChildAddresses_complete
    (logsTable : list SyncStore.LogRow) (chainId upToBlockNumber : Z)
    (factory : SyncStore.FactoryCriteria) (pageSize fuel : nat) :
  let matching :=
    filter (λ l, SyncStore.baseQueryMatches chainId upToBlockNumber factory l = true)
      logsTable in
  (1 <= pageSize)%nat →
  StronglySorted FactoryChildren.blockBefore matching →
  Forall (λ l, 0 < SyncStore.log_blockNumber l) matching →
  (length matching < fuel)%nat →
  ∃ batches,
    SyncStore.getFactoryChildAddresses logsTable chainId upToBlockNumber factory pageSize fuel
      = Some batches ∧
    concat batches =
      SyncStore.matchingChildAddresses logsTable chainId upToBlockNumber factory ∧
    Forall (λ batch, (0 < length batch <= pageSize)%nat) batches.
Proof.
  intros matching Hsize Hsorted Hpos Hfuel.
  destruct (FactoryChildren.getFactoryChildAddressesFrom_all logsTable chainId upToBlockNumber
              factory pageSize fuel None Hsize Hsorted Hpos) as (batches & Hrun & Hconcat & Hall).
  - simpl. rewrite EventPages.filter_all by (by apply Forall_forall). exact Hfuel.
  - exists batches. split; [exact Hrun|]. split; [|exact Hall].
    rewrite Hconcat. simpl. by rewrite EventPages.filter_all by (by apply Forall_forall).
Qed.

(** X10 on three children announced in blocks 5, 6 and 7, read in pages of
    two: all three addresses are yielded. *)
Lemma X10_getFactoryChildAddresses_complete_witness :
  ∃ batches,
    SyncStore.getFactoryChildAddresses
      [childLog "0xb5-0" 5 0 "a"; childLog "0xb6-0" 6 0 "b"; childLog "0xb7-0" 7 0 "c"]
      1 10 childFactory 2 4 = Some batches ∧
    concat batches = [childAddress "a"; childAddress "b"; childAddress "c"].
Proof.
  destruct (X10_getFactoryChildAddresses_complete
              [childLog "0xb5-0" 5 0 "a"; childLog "0xb6-0" 6 0 "b"; childLog "0xb7-0" 7 0 "c"]
              1 10 childFactory 2 4) as (batches & Hrun & Hconcat & _).
  - lia.
  - apply (bool_decide_unpack _). vm_compute. exact I.
  - apply (bool_decide_unpack _). vm_compute. exact I.
  - vm_compute. lia.
  - exists batches. split; [exact Hrun|]. rewrite Hconcat. vm_compute. reflexivity.
Defined.

(** X11.  Two inputs on which [getFactoryChildAddresses] never finishes,
    however many queries it may run: a page size of 0, where every batch is
    empty and none is shorter than a page; and a first page that is full and
    whose last log is in block 0, where the cursor [0n] is falsy and the
    first query is run again and again. *)
Theorem X11_getFactoryChildAddresses_never_ends
    (logsTable : list SyncStore.LogRow) (chainId upToBlockNumber : Z)
    (factory : SyncStore.FactoryCriteria) :
  (∀ fuel,
     SyncStore.getFactoryChildAddresses logsTable chainId upToBlockNumber factory 0 fuel
       = None) ∧
  (∀ pageSize x,
     let matching :=
       filter (λ l, SyncStore.baseQueryMatches chainId upToBlockNumber factory l = true)
         logsTable in
     (pageSize <= length matching)%nat →
     last (take pageSize matching) = Some x →
     SyncStore.log_blockNumber x = 0 →
     ∀ fuel,
       SyncStore.getFactoryChildAddresses logsTable chainId upToBlockNumber factory
         pageSize fuel = None).
Proof.
  split.
  - intros fuel. by apply FactoryChildren.getFactoryChildAddressesFrom_pageSize_0.
  - intros pageSize x matching Hlen Hlast Hx fuel.
    by apply (FactoryChildren.getFactoryChildAddressesFrom_block_0 logsTable chainId
                upToBlockNumber factory pageSize fuel x).
Qed.

(** ** Indexing service: dispatch, reorgs and restarts *)

Module Scheduling.
Import Checkpoint Indexing.

(** *** What [enqueueLogEventTasks] hands over *)

Lemma checkpointMinOf_glb (cs : list Checkpoint) (m x : Checkpoint) :
  checkpointMinOf cs = Some m → le x m ↔ Forall (le x) cs.
Proof.
  destruct cs as [|c cs]; [done|]. intros [= <-]. split.
  - intros Hx. apply Forall_cons. split.
    + eapply le_trans; [exact Hx|apply checkpointMin_le_head].
    + apply Forall_forall. intros d Hd.
      eapply le_trans; [exact Hx|by apply checkpointMin_le_elem].
  - intros [Hc Hcs]%Forall_cons. apply checkpointMin_glb; [done|].
    by apply Forall_forall.
Qed.

(** The loaded-from checkpoints of the parents, when every parent has an
    entry. *)
Lemma parentLoadedFrom_Forall states (ps : list string) cs (P : Checkpoint → Prop) :
  mapM (λ p, tasksLoadedFromCheckpoint <$> lookupState p states) ps = Some cs →
  Forall P cs ↔
  ∀ p st, p ∈ ps → lookupState p states = Some st → P (tasksLoadedFromCheckpoint st).
Proof.
  intros Hcs%mapM_Some_1. induction Hcs as [|p c ps cs Hpc _ IH].
  - split; [by intros _ ? ? ?%elem_of_nil|constructor].
  - destruct (lookupState p states) as [st0|] eqn:Hst0; [|done]. injection Hpc as <-.
    rewrite Forall_cons, IH. split.
    + intros [H0 Hrest] q st [->|Hq]%elem_of_cons Hst; [congruence|by eapply Hrest].
    + intros H. split; [apply (H p); [by left|done]|].
      intros q st Hq. apply H. by right.
Qed.

(** A self-dependent entry may hand over its first task when that task lies
    at or before the loaded-from checkpoint of the entry and of every
    parent. *)
Definition ready (states : States) (state : IndexingFunctionState) (task0 : LogEventTask)
    : Prop :=
  le (task_checkpoint task0) (tasksLoadedFromCheckpoint state) ∧
  ∀ p st, p ∈ parents state → lookupState p states = Some st →
    le (task_checkpoint task0) (tasksLoadedFromCheckpoint st).

Lemma dispatch_selfDependent states state task0 rest :
  Forall (λ p, is_Some (lookupState p states)) (parents state) →
  isSelfDependent state = true →
  loadedTasks state = task0 :: rest →
  (ready states state task0 → dispatch states state = Some ([task0], rest)) ∧
  (¬ ready states state task0 → dispatch states state = Some ([], task0 :: rest)).
Proof.
  intros Hparents Hself Htasks. unfold dispatch, ready. rewrite Htasks, Hself.
  rewrite andb_true_r, andb_false_r. cbn [negb].
  destruct (decide (parents state = [])) as [Hnil|Hne].
  - rewrite (bool_decide_eq_true_2 _ Hnil), (bool_decide_eq_false_2 (parents state ≠ []))
      by (by intros ?). rewrite Hnil. cbn [andb].
    destruct (isCheckpointGreaterThanOrEqualTo _ _) eqn:Hge.
    + split; [done|]. intros Hnot. exfalso. apply Hnot.
      split; [by apply isCheckpointGreaterThanOrEqualTo_le|by intros ? ? ?%elem_of_nil].
    + split; [|done]. intros [Hle _].
      apply isCheckpointGreaterThanOrEqualTo_le in Hle. congruence.
  - rewrite (bool_decide_eq_false_2 _ Hne), (bool_decide_eq_true_2 (parents state ≠ []) Hne).
    cbn [andb].
    assert (is_Some (mapM (λ p, tasksLoadedFromCheckpoint <$> lookupState p states)
                       (parents state))) as [cs Hcs].
    { apply mapM_is_Some. eapply Forall_impl; [exact Hparents|].
      intros p [st Hst]. unfold compose. by rewrite Hst. }
    rewrite Hcs. cbn [mbind option_bind].
    destruct (checkpointMinOf (cs ++ [tasksLoadedFromCheckpoint state])) as [m|] eqn:Hm;
      [|by destruct cs].
    pose proof (checkpointMinOf_glb _ m (task_checkpoint task0) Hm) as Hglb.
    rewrite Forall_app, Forall_singleton, (parentLoadedFrom_Forall _ _ _ _ Hcs) in Hglb.
    destruct (isCheckpointGreaterThanOrEqualTo m (task_checkpoint task0)) eqn:Hge.
    + split; [done|]. intros Hnot. exfalso. apply Hnot.
      apply isCheckpointGreaterThanOrEqualTo_le, Hglb in Hge. tauto.
    + split; [|done]. intros [Hown Hps].
      assert (isCheckpointGreaterThanOrEqualTo m (task_checkpoint task0) = true);
        [|congruence].
      apply isCheckpointGreaterThanOrEqualTo_le, Hglb. tauto.
Qed.

Lemma dispatch_independent states state :
  parents state = [] → isSelfDependent state = false →
  dispatch states state = Some (loadedTasks state, []).
Proof.
  intros Hnil Hself. unfold dispatch. rewrite Hself, Hnil.
  by destruct (loadedTasks state).
Qed.

Lemma enqueueKeys_keys keys s s' :
  enqueueKeys keys s = Some s' →
  (indexingFunctionStates s').*1 = (indexingFunctionStates s).*1.
Proof.
  revert s. induction keys as [|key keys IH]; intros s; [by intros [= <-]|].
  cbn [enqueueKeys]. unfold enqueueKey.
  destruct (lookupState key (indexingFunctionStates s)) as [state|]; [|apply IH].
  destruct (dispatch _ _) as [[d b]|]; [|done]. cbn [mbind option_bind].
  intros Hrun%IH. rewrite Hrun. cbn [indexingFunctionStates withStates].
  apply setState_keys.
Qed.

(** *** Reorgs *)

Lemma handleReorg_processed safe s :
  Forall (λ kst : string * IndexingFunctionState, le (tasksProcessedToCheckpoint kst.2) safe)
    (indexingFunctionStates (handleReorg safe s)).
Proof.
  unfold handleReorg.
  destruct (existsb _ _) eqn:Hex; cbn [negb].
  - cbn [indexingFunctionStates withStates]. apply Forall_fmap, Forall_forall.
    intros [key state] _. unfold compose. cbn [prod_map snd clampState tasksProcessedToCheckpoint].
    destruct (isCheckpointGreaterThan (tasksProcessedToCheckpoint state) safe) eqn:Hgt;
      [apply le_refl|exact Hgt].
  - apply Forall_forall. intros kst Hin. unfold le.
    destruct (isCheckpointGreaterThan _ _) eqn:Hgt; [|done].
    assert (existsb (λ kst : string * IndexingFunctionState,
                       isCheckpointGreaterThan (tasksProcessedToCheckpoint kst.2) safe)
              (indexingFunctionStates s) = true); [|congruence].
    apply existsb_exists. exists kst. split; [by apply list_elem_of_In|done].
Qed.

(** *** [flush] and the next start *)

(** [FunctionMetadata] as [flush] writes it and [database.functionMetadata]
    returns it. *)
Record FunctionMetadataRow : Type := mkFunctionMetadataRow {
  fmr_functionId : string;
  fmr_functionName : string;
  fmr_fromCheckpoint : option Checkpoint;
  fmr_toCheckpoint : Checkpoint;
  fmr_eventCount : Z;
}.

(** An entry of [setupFunctionStates]. *)
Record SetupFunctionState : Type := mkSetupFunctionState {
  setup_contractName : string;
  setup_isComplete : bool;
}.

Section Flush.
(** [this.functionIds] and [syncGatewayService.finalityCheckpoint]. *)
Variable functionIds : string → string.
Variable finalityCheckpoint : Checkpoint.

(** The rows [flush] hands to [database.flush]. *)
Definition flush (indexingFunctionStates : States)
    (setupFunctionStates : list (string * SetupFunctionState)) : list FunctionMetadataRow :=
  let indexingFunctionMetadata :=
    filter (λ m, isCheckpointEqual (fmr_toCheckpoint m) zeroCheckpoint = false)
      ((λ '(indexingFunctionKey, state),
          let stateCheckpoint := getStateCheckpoint state in
          let toCheckpoint := checkpointMin stateCheckpoint [finalityCheckpoint] in
          {| fmr_functionId := functionIds indexingFunctionKey;
             fmr_functionName := indexingFunctionKey;
             fmr_fromCheckpoint := firstEventCheckpoint state;
             fmr_toCheckpoint := toCheckpoint;
             fmr_eventCount := eventCount state |})
         <$> indexingFunctionStates) in
  let setupFunctionMetadata :=
    omap (λ '(setupFunctionKey, state),
            if setup_isComplete state
            then Some {| fmr_functionId := functionIds setupFunctionKey;
                         fmr_functionName := setupFunctionKey;
                         fmr_fromCheckpoint := None;
                         fmr_toCheckpoint := zeroCheckpoint;
                         fmr_eventCount := 0 |}
            else None)
      setupFunctionStates in
  indexingFunctionMetadata ++ setupFunctionMetadata.

(** The object [checkpoints] of [buildIndexingFunctionStates]: the rows by
    function id, a later row replacing an earlier one. *)
Definition checkpointsOf (metadata : list FunctionMetadataRow) : gmap string FunctionMetadata :=
  foldl (λ checkpoints m,
           <[fmr_functionId m :=
               {| fm_fromCheckpoint := fmr_fromCheckpoint m;
                  fm_toCheckpoint := fmr_toCheckpoint m;
                  fm_eventCount := fmr_eventCount m |}]> checkpoints)
    ∅ metadata.

(** The entry [buildIndexingFunctionStates] makes for a key from the
    metadata, the parents and self-dependence coming from the table
    access. *)
Definition rebuiltState (metadata : list FunctionMetadataRow) (key : string)
    (contractName eventName : string) (parents : list string) (isSelfDependent : bool)
    : IndexingFunctionState :=
  buildIndexingFunctionState contractName eventName parents isSelfDependent
    (checkpointsOf metadata !! functionIds key).

(** [isComplete: checkpoint ? true : false] for a setup function. *)
Definition rebuiltSetupComplete (metadata : list FunctionMetadataRow) (key : string) : bool :=
  bool_decide (is_Some (checkpointsOf metadata !! functionIds key)).

Definition rowMetadata (m : FunctionMetadataRow) : FunctionMetadata :=
  {| fm_fromCheckpoint := fmr_fromCheckpoint m;
     fm_toCheckpoint := fmr_toCheckpoint m;
     fm_eventCount := fmr_eventCount m |}.

Lemma checkpointsOf_snoc metadata m :
  checkpointsOf (metadata ++ [m]) = <[fmr_functionId m := rowMetadata m]> (checkpointsOf metadata).
Proof. unfold checkpointsOf. by rewrite foldl_app. Qed.

Lemma checkpointsOf_None metadata id :
  id ∉ fmr_functionId <$> metadata → checkpointsOf metadata !! id = None.
Proof.
  induction metadata as [|m metadata IH] using rev_ind; [done|].
  rewrite fmap_app, not_elem_of_app, checkpointsOf_snoc. intros [Hrest Hm].
  rewrite lookup_insert_ne; [by apply IH|].
  intros Heq. apply Hm. rewrite <- Heq. by left.
Qed.

Lemma checkpointsOf_unique metadata m :
  NoDup (fmr_functionId <$> metadata) → m ∈ metadata →
  checkpointsOf metadata !! fmr_functionId m = Some (rowMetadata m).
Proof.
  induction metadata as [|m' metadata IH] using rev_ind; [by intros _ ?%elem_of_nil|].
  rewrite fmap_app, checkpointsOf_snoc. intros (Hnd & Hdisj & _)%NoDup_app.
  intros [Hm|Hm]%elem_of_app; [|apply list_elem_of_singleton in Hm as ->].
  - rewrite lookup_insert_ne; [by apply IH|].
    intros Heq. apply (Hdisj (fmr_functionId m)); [by apply list_elem_of_fmap_2|].
    rewrite <- Heq. by left.
  - by rewrite lookup_insert_eq.
Qed.

End Flush.
End Scheduling.

(** X12.  What [enqueueLogEventTasks] hands to the queue.  When the service
    is not paused, keys are unique and every parent has an entry, the call
    returns; the queue receives, key by key, a prefix of each entry's
    buffer, the rest stays buffered in order, and nothing else of an entry
    changes: no task is lost, doubled or reordered.  An entry without
    parents that is not self-dependent hands over its whole buffer.  A
    self-dependent entry hands over at most its first task, and does so
    exactly when that task lies at or before the loaded-from checkpoint of
    the entry itself and of each of its parents. *)
Theorem X12_enqueueLogEventTasks_hands_over (s : Indexing.Service) :
  Indexing.isPaused s = false →
  NoDup (Indexing.indexingFunctionStates s).*1 →
  Indexing.parentsKnown (Indexing.indexingFunctionStates s) →
  let states := Indexing.indexingFunctionStates s in
  ∃ s',
    Indexing.enqueueLogEventTasks s = Some s' ∧
    (Indexing.indexingFunctionStates s').*1 = states.*1 ∧
    Indexing.effects s' =
      Indexing.effects s ++
      (Indexing.QueueAddTask <$> (states.*1 ≫= Indexing.dispatchedOf states)) ∧
    ∀ key state,
      Indexing.lookupState key states = Some state →
      ∃ held,
        Indexing.lookupState key (Indexing.indexingFunctionStates s')
          = Some (Indexing.withLoadedTasks held state) ∧
        Indexing.dispatchedOf states key ++ held = Indexing.loadedTasks state ∧
        (Indexing.parents state = [] → Indexing.isSelfDependent state = false →
           held = []) ∧
        (Indexing.isSelfDependent state = true →
           ∀ task0 rest,
             Indexing.loadedTasks state = task0 :: rest →
             (Scheduling.ready states state task0 →
                Indexing.dispatchedOf states key = [task0]) ∧
             (¬ Scheduling.ready states state task0 →
                Indexing.dispatchedOf states key = [])).
Proof.
  intros Hpaused Hnd Hknown states.
  destruct (Indexing.enqueueLogEventTasks_is_Some s Hknown) as [s' Hrun].
  exists s'. split; [exact Hrun|].
  unfold Indexing.enqueueLogEventTasks in Hrun. rewrite Hpaused in Hrun.
  fold states in Hrun.
  destruct (Indexing.enqueueKeys_spec _ _ _ Hnd Hrun) as (Heff & _ & Hst).
  split; [by eapply Scheduling.enqueueKeys_keys|]. split; [exact Heff|].
  intros key state Hstate.
  destruct (Hst key state Hstate) as (state' & Hstate' & Hkey).
  rewrite decide_True in Hkey
    by (apply Indexing.lookupState_is_Some; by eexists).
  destruct Hkey as (d & Hd & Heq).
  assert (Indexing.dispatchedOf states key = d) as Hof.
  { unfold Indexing.dispatchedOf. fold states in Hd. by rewrite Hstate, Hd. }
  exists (Indexing.loadedTasks state'). rewrite Hof.
  split; [by rewrite <- Heq|]. split; [by apply Indexing.dispatch_split in Hd|].
  fold states in Hd. split.
  - intros Hnil Hself. rewrite Scheduling.dispatch_independent in Hd by done.
    by injection Hd as _ <-.
  - intros Hself task0 rest Htasks.
    destruct (Scheduling.dispatch_selfDependent states state task0 rest) as [Hyes Hno];
      [by eapply Indexing.parentsKnown_lookup|done..|].
    split; intros Hready.
    + rewrite Hyes in Hd by done. by injection Hd as <- _.
    + rewrite Hno in Hd by done. by injection Hd as <- _.
Qed.

(** X12 on the entries [A] and [B] of the dependency scenario. *)
Lemma X12_enqueueLogEventTasks_hands_over_witness :
  ∃ s',
    Indexing.enqueueLogEventTasks (dependencyService false) = Some s' ∧
    (Indexing.indexingFunctionStates s').*1 = ["A:Ev"; "B:Ev"] ∧
    Indexing.effects s' =
      [Indexing.QueueAddTask (taskAt "B" 30); Indexing.QueueAddTask (taskAt "B" 45)].
Proof.
  destruct (X12_enqueueLogEventTasks_hands_over (dependencyService false))
    as (s' & Hrun & Hkeys & Heff & _).
  - reflexivity.
  - apply (bool_decide_unpack _). vm_compute. exact I.
  - apply (bool_decide_unpack _). vm_compute. exact I.
  - exists s'. split; [exact Hrun|]. split; [exact Hkeys|]. rewrite Heff.
    vm_compute. reflexivity.
Defined.

(** X13.  A reorg handled once is handled: after [handleReorg] with a safe
    checkpoint, a further [handleReorg] with the same or a later safe
    checkpoint changes nothing and does not revert the indexing store
    again. *)
Theorem X13_handleReorg_absorbs (safeCheckpoint later : Checkpoint.Checkpoint)
    (s : Indexing.Service) :
  Checkpoint.le safeCheckpoint later →
  Indexing.handleReorg later (Indexing.handleReorg safeCheckpoint s) =
  Indexing.handleReorg safeCheckpoint s.
Proof.
  intros Hle. apply Indexing.handleReorg_noop.
  eapply Forall_impl; [apply Scheduling.handleReorg_processed|].
  intros kst Hkst. cbv beta in *. by eapply Checkpoint.le_trans.
Qed.

(** X13 on the two functions that processed to (100, 1, 1000, 5): after the
    reorg to (90, 1, 900, 0), a second reorg to the same checkpoint adds no
    effect. *)
Lemma X13_handleReorg_absorbs_witness :
  Indexing.effects
    (Indexing.handleReorg reorgSafeCheckpoint
       (Indexing.handleReorg reorgSafeCheckpoint reorgService)) =
  [Indexing.IndexingStoreRevert reorgSafeCheckpoint; Indexing.MetricCompletedTimestamp 90].
Proof.
  rewrite (X13_handleReorg_absorbs reorgSafeCheckpoint reorgSafeCheckpoint reorgService).
  - reflexivity.
  - apply Checkpoint.le_refl.
Defined.

(** X14.  What a restart resumes from.  When the function ids of the
    indexing and setup functions are distinct and the database returns the
    rows that [flush] wrote, the entry that [buildIndexingFunctionStates]
    makes for a key starts with an empty buffer and with all three
    checkpoints at the minimum of the entry's state checkpoint at the flush
    and the finality checkpoint, so never beyond finality.  The event count
    and the first-event checkpoint survive exactly when that minimum is not
    the zero checkpoint; otherwise the row is not written and they start
    from 0 and undefined.  A setup function is complete after the restart
    exactly when it was complete at the flush. *)
Theorem X14_flush_restart
    (functionIds : string → string) (finalityCheckpoint : Checkpoint.Checkpoint)
    (indexingFunctionStates : Indexing.States)
    (setupFunctionStates : list (string * Scheduling.SetupFunctionState)) :
  NoDup (functionIds <$> (indexingFunctionStates.*1 ++ setupFunctionStates.*1)) →
  let metadata :=
    Scheduling.flush functionIds finalityCheckpoint indexingFunctionStates
      setupFunctionStates in
  (∀ key state,
     Indexing.lookupState key indexingFunctionStates = Some state →
     let state' :=
       Scheduling.rebuiltState functionIds metadata key (Indexing.contractName state)
         (Indexing.eventName state) (Indexing.parents state)
         (Indexing.isSelfDependent state) in
     let resume := Checkpoint.min2 (Indexing.getStateCheckpoint state) finalityCheckpoint in
     Indexing.tasksProcessedToCheckpoint state' = resume ∧
     Indexing.tasksLoadedFromCheckpoint state' = resume ∧
     Indexing.tasksLoadedToCheckpoint state' = resume ∧
     Indexing.loadedTasks state' = [] ∧
     Checkpoint.le resume finalityCheckpoint ∧
     Checkpoint.le resume (Indexing.getStateCheckpoint state) ∧
     (resume ≠ Checkpoint.zeroCheckpoint →
        Indexing.eventCount state' = Indexing.eventCount state ∧
        Indexing.firstEventCheckpoint state' = Indexing.firstEventCheckpoint state) ∧
     (resume = Checkpoint.zeroCheckpoint →
        Indexing.eventCount state' = 0 ∧
        Indexing.firstEventCheckpoint state' = None)) ∧
  (∀ key state,
     (key, state) ∈ setupFunctionStates →
     Scheduling.rebuiltSetupComplete functionIds metadata key
       = Scheduling.setup_isComplete state).
Proof.
  intros Hids metadata.
  pose proof (NoDup_fmap_1 _ _ Hids) as Hkeys.
  apply NoDup_app in Hkeys as (Hnd1 & Hdisj & Hnd2).
  (* the ids of the rows written are among the ids of the functions, in order *)
  assert (fmr_ids : Scheduling.fmr_functionId <$> metadata
                    `sublist_of` functionIds <$> (indexingFunctionStates.*1
                                                  ++ setupFunctionStates.*1)).
  { unfold metadata, Scheduling.flush. rewrite !fmap_app. apply sublist_app.
    - etrans; [apply fmap_sublist, sublist_filter|].
      rewrite <- !list_fmap_compose.
      match goal with |- ?X `sublist_of` ?Y => assert (X = Y) as ->; [|done] end.
      apply list_fmap_ext. by intros i [k st] _.
    - clear. induction setupFunctionStates as [|[k st] l IH]; [done|].
      cbn [omap list_omap fmap list_fmap]. destruct (Scheduling.setup_isComplete st); simpl.
      + by apply sublist_skip.
      + by apply sublist_cons. }
  pose proof (sublist_NoDup _ _ Hids fmr_ids) as Hrows.
  (* a row with the id of a key comes from that key *)
  assert (∀ key m, key ∈ indexingFunctionStates.*1 ++ setupFunctionStates.*1 →
            m ∈ metadata → Scheduling.fmr_functionId m = functionIds key →
            Scheduling.fmr_functionName m = key) as Hname.
  { intros key m Hkey Hm Hid.
    assert (Scheduling.fmr_functionId m = functionIds (Scheduling.fmr_functionName m) ∧
            Scheduling.fmr_functionName m
              ∈ indexingFunctionStates.*1 ++ setupFunctionStates.*1) as [Hown Hin].
    { unfold metadata, Scheduling.flush in Hm.
      apply elem_of_app in Hm as [Hm|Hm].
      - apply list_elem_of_filter in Hm as [_ Hm].
        apply list_elem_of_fmap in Hm as ([k st] & -> & Hin). simpl.
        split; [done|]. apply elem_of_app. left. by apply (list_elem_of_fmap_2 fst _ (k, st)).
      - apply list_elem_of_omap in Hm as ([k st] & Hin & Hrow).
        destruct (Scheduling.setup_isComplete st); [|done]. injection Hrow as <-. simpl.
        split; [done|]. apply elem_of_app. right. by apply (list_elem_of_fmap_2 fst _ (k, st)). }
    apply (EventPages.NoDup_fmap_inj_on functionIds
             (indexingFunctionStates.*1 ++ setupFunctionStates.*1)); [done..|congruence]. }
  split.
  - intros key state Hstate state' resume.
    pose proof (Indexing.lookupState_Some_elem _ _ _ Hstate) as Hin.
    set (row := {| Scheduling.fmr_functionId := functionIds key;
                   Scheduling.fmr_functionName := key;
                   Scheduling.fmr_fromCheckpoint := Indexing.firstEventCheckpoint state;
                   Scheduling.fmr_toCheckpoint := resume;
                   Scheduling.fmr_eventCount := Indexing.eventCount state |}).
    assert (Checkpoint.le resume finalityCheckpoint ∧
            Checkpoint.le resume (Indexing.getStateCheckpoint state)) as [Hfin Hst].
    { split; [apply Checkpoint.min2_le_r|apply Checkpoint.min2_le_l]. }
    destruct (decide (resume = Checkpoint.zeroCheckpoint)) as [Hzero|Hzero].
    + (* the row is filtered out *)
      assert (Scheduling.checkpointsOf metadata !! functionIds key = None) as Hnone.
      { apply Scheduling.checkpointsOf_None. intros Hid.
        apply list_elem_of_fmap in Hid as (m & Hid & Hm).
        assert (Scheduling.fmr_functionName m = key) as Hn.
        { apply Hname; [|done..]. apply elem_of_app. left.
          by apply (list_elem_of_fmap_2 fst _ (key, state)). }
        unfold metadata, Scheduling.flush in Hm. apply elem_of_app in Hm as [Hm|Hm].
        - apply list_elem_of_filter in Hm as [Hnz Hm].
          apply list_elem_of_fmap in Hm as ([k st] & -> & Hin').
          simpl in Hn. subst k.
          assert ((key, st) = (key, state)) as [= ->].
          { by apply (EventPages.NoDup_fmap_inj_on fst indexingFunctionStates). }
          cbn [Scheduling.fmr_toCheckpoint Checkpoint.checkpointMin foldl] in Hnz.
          fold resume in Hnz. rewrite Hzero in Hnz. by vm_compute in Hnz.
        - apply list_elem_of_omap in Hm as ([k st] & Hin' & Hrow).
          destruct (Scheduling.setup_isComplete st); [|done]. injection Hrow as <-.
          simpl in Hn. subst k.
          apply (Hdisj key); [by apply (list_elem_of_fmap_2 fst _ (key, state))
                             |by apply (list_elem_of_fmap_2 fst _ (key, st))]. }
      unfold state', Scheduling.rebuiltState. rewrite Hnone. cbn.
      rewrite Hzero in Hfin, Hst |- *. split_and!; done.
    + assert (row ∈ metadata) as Hrow.
      { unfold metadata, Scheduling.flush. apply elem_of_app. left.
        apply list_elem_of_filter. split.
        - cbn [Scheduling.fmr_toCheckpoint row].
          apply not_true_iff_false. by intros ?%Checkpoint.isCheckpointEqual_eq.
        - apply list_elem_of_fmap. by exists (key, state). }
      pose proof (Scheduling.checkpointsOf_unique metadata row Hrows Hrow) as Hsome.
      unfold state', Scheduling.rebuiltState. cbn [Scheduling.fmr_functionId row] in Hsome.
      rewrite Hsome. cbn. split_and!; done.
  - intros key state Hin. unfold Scheduling.rebuiltSetupComplete.
    destruct (Scheduling.setup_isComplete state) eqn:Hcomplete.
    + set (row := {| Scheduling.fmr_functionId := functionIds key;
                     Scheduling.fmr_functionName := key;
                     Scheduling.fmr_fromCheckpoint := None;
                     Scheduling.fmr_toCheckpoint := Checkpoint.zeroCheckpoint;
                     Scheduling.fmr_eventCount := 0 |}).
      assert (row ∈ metadata) as Hrow.
      { unfold metadata, Scheduling.flush. apply elem_of_app. right.
        apply list_elem_of_omap. exists (key, state). split; [done|].
        by rewrite Hcomplete. }
      pose proof (Scheduling.checkpointsOf_unique metadata row Hrows Hrow) as Hsome.
      cbn [Scheduling.fmr_functionId row] in Hsome. rewrite Hsome.
      by apply bool_decide_eq_true_2.
    + rewrite Scheduling.checkpointsOf_None; [by apply bool_decide_eq_false_2; intros [? ?]|].
      intros Hid. apply list_elem_of_fmap in Hid as (m & Hid & Hm).
      assert (Scheduling.fmr_functionName m = key) as Hn.
      { apply Hname; [|done..]. apply elem_of_app. right.
        by apply (list_elem_of_fmap_2 fst _ (key, state)). }
      unfold metadata, Scheduling.flush in Hm. apply elem_of_app in Hm as [Hm|Hm].
      * apply list_elem_of_filter in Hm as [_ Hm].
        apply list_elem_of_fmap in Hm as ([k st] & -> & Hin').
        simpl in Hn. subst k.
        apply (Hdisj key); [by apply (list_elem_of_fmap_2 fst _ (key, st))
                           |by apply (list_elem_of_fmap_2 fst _ (key, state))].
      * apply list_elem_of_omap in Hm as ([k st] & Hin' & Hrow).
        destruct (Scheduling.setup_isComplete st) eqn:Hst; [|done]. injection Hrow as <-.
        simpl in Hn. subst k.
        assert ((key, st) = (key, state)) as [= ->].
        { by apply (EventPages.NoDup_fmap_inj_on fst setupFunctionStates). }
        congruence.
Qed.

(** X14 on the two functions that processed to (100, 1, 1000, 5), flushed
    while finality is at (90, 1, 900, 0): the restart resumes from the
    finality checkpoint, with the event count kept. *)
Lemma X14_flush_restart_witness :
  let metadata :=
    Scheduling.flush (String.append "id-") reorgSafeCheckpoint
      (Indexing.indexingFunctionStates reorgService)
      [("Token:setup", Scheduling.mkSetupFunctionState "Token" true)] in
  let state' :=
    Scheduling.rebuiltState (String.append "id-") metadata "Token:Transfer"
      "Token" "Transfer" [] false in
  Indexing.tasksProcessedToCheckpoint state' = reorgSafeCheckpoint ∧
  Indexing.eventCount state' = 7 ∧
  Scheduling.rebuiltSetupComplete (String.append "id-") metadata "Token:setup" = true.
Proof.
  destruct (X14_flush_restart (String.append "id-") reorgSafeCheckpoint
              (Indexing.indexingFunctionStates reorgService)
              [("Token:setup", Scheduling.mkSetupFunctionState "Token" true)])
    as [Hstates Hsetups].
  - apply (bool_decide_unpack _). vm_compute. exact I.
  - destruct (Hstates "Token:Transfer"
                (processedState "Token" "Transfer" (Checkpoint.mkCheckpoint 100 1 1000 (Some 5)))
                eq_refl) as (Hp & _ & _ & _ & _ & _ & Hcount & _).
    split; [exact Hp|]. split.
    + apply Hcount. by vm_compute.
    + apply (Hsetups "Token:setup" (Scheduling.mkSetupFunctionState "Token" true)).
      by left.
Defined.

(** ** Configuration: [buildConfig] *)

Module BuildConfig.
Import SyncStore EventFilters.

(** A JavaScript number given for a block: [NaN] or a value. *)
Inductive Num : Type :=
  | NaN
  | Finite (n : Z).

(** [config.database] and the two environment variables. *)
Inductive DatabaseKind : Type := KindPostgres | KindSqlite.

Record DatabaseOptions : Type := mkDatabaseOptions {
  db_kind : option DatabaseKind;
  db_connectionString : option string;
}.

Record Env : Type := mkEnv {
  DATABASE_PRIVATE_URL : option string;
  DATABASE_URL : option string;
}.

Inductive ConnectionSource : Type :=
  | FromConfig
  | FromPrivateUrl
  | FromUrl.

Inductive DatabaseConfig : Type :=
  | Postgres (connectionString : string)
  | Sqlite.

(** The entries of [logs], by the message they carry. *)
Inductive LogEntry : Type :=
  | InfoUsingPostgres (connectionString : string) (source : ConnectionSource)
  | InfoUsingSqlite (fromConfig : bool)
  | WarnPublicRpcUrl (networkName rpcUrl : string)
  | WarnNoContracts (networkName : string).

(** [if (s)] on an optional string: [undefined] and the empty string are
    falsy. *)
Definition truthyString (s : option string) : bool :=
  match s with
  | Some s => negb (bool_decide (s = ""))
  | None => false
  end.

(** The first part of [buildConfig]: the database; [None] where it throws. *)
Definition buildDatabase (database : option DatabaseOptions) (env : Env)
    : option (DatabaseConfig * list LogEntry) :=
  match database ≫= db_kind with
  | Some KindPostgres =>
      connection ←
        (if truthyString (database ≫= db_connectionString)
         then Some (default "" (database ≫= db_connectionString), FromConfig)
         else if truthyString (DATABASE_PRIVATE_URL env)
         then Some (default "" (DATABASE_PRIVATE_URL env), FromPrivateUrl)
         else if truthyString (DATABASE_URL env)
         then Some (default "" (DATABASE_URL env), FromUrl)
         else None);
      Some (Postgres connection.1, [InfoUsingPostgres connection.1 connection.2])
  | Some KindSqlite => Some (Sqlite, [InfoUsingSqlite true])
  | None =>
      let connection :=
        if truthyString (DATABASE_PRIVATE_URL env)
        then Some (default "" (DATABASE_PRIVATE_URL env), FromPrivateUrl)
        else if truthyString (DATABASE_URL env)
        then Some (default "" (DATABASE_URL env), FromUrl)
        else None in
      match connection with
      | Some (connectionString, source) =>
          Some (Postgres connectionString, [InfoUsingPostgres connectionString source])
      | None => Some (Sqlite, [InfoUsingSqlite false])
      end
  end.

Section BuildConfig.
(** The ABI, the transport, the factory option and the filter arguments are
    passed on as they are; the functions [buildConfig] imports read them.
    Each import that can throw returns [None] when it does. *)
Context {Abi AbiEvents Transport FactoryOption FilterArgs Topics : Type}.

Record FilterOptions : Type := mkFilterOptions {
  filter_event : OneOrMany;
  filter_args : option FilterArgs;
}.

Variable getRpcUrlsForClient : string → Z → Transport → option (list string).
Variable isRpcUrlPublic : string → bool.
Variable getDefaultMaxBlockRange : Z → list string → Z.
Variable getFinalityBlockCount : Z → Z.
Variable buildAbiEvents : Abi → option AbiEvents.
(** [abiEvents.bySafeName[name]] is defined. *)
Variable bySafeName : AbiEvents → string → bool.
Variable buildTopics : Abi → FilterOptions → option Topics.
Variable buildFactoryCriteria : FactoryOption → option FactoryCriteria.
Variable toLowerCase : string → string.

(** An entry of [config.networks]. *)
Record NetworkOptions : Type := mkNetworkOptions {
  n_chainId : Z;
  n_transport : Transport;
  n_maxRequestsPerSecond : option Z;
  n_pollingInterval : option Z;
  n_maxHistoricalTaskConcurrency : option Z;
}.

(** [Network], without the chain and the transport made from it. *)
Record Network : Type := mkNetwork {
  net_name : string;
  net_chainId : Z;
  net_maxRequestsPerSecond : Z;
  net_pollingInterval : Z;
  net_defaultMaxBlockRange : Z;
  net_finalityBlockCount : Z;
  net_maxHistoricalTaskConcurrency : Z;
}.

(** The overrides of a contract for one network, and an entry of
    [config.contracts]. *)
Record NetworkOverride : Type := mkNetworkOverride {
  o_address : option OneOrMany;
  o_factory : option FactoryOption;
  o_filter : option FilterOptions;
  o_startBlock : option Num;
  o_endBlock : option Num;
  o_maxBlockRange : option Z;
}.

Inductive ContractNetwork : Type :=
  | NetworkNull
  | NetworkName (networkName : string)
  | NetworkOverrides (overrides : list (string * option NetworkOverride)).

Record ContractOptions : Type := mkContractOptions {
  c_network : ContractNetwork;
  c_abi : Abi;
  c_address : option OneOrMany;
  c_factory : option FactoryOption;
  c_filter : option FilterOptions;
  c_startBlock : option Num;
  c_endBlock : option Num;
  c_maxBlockRange : option Z;
}.

Record Config : Type := mkConfig {
  database : option DatabaseOptions;
  networks : list (string * NetworkOptions);
  contracts : list (string * ContractOptions);
}.

(** A contract on one network, overrides applied. *)
Record RawContract : Type := mkRawContract {
  raw_id : string;
  raw_contractName : string;
  raw_networkName : string;
  raw_abi : Abi;
  raw_address : option OneOrMany;
  raw_factory : option FactoryOption;
  raw_filter : option FilterOptions;
  raw_startBlock : Z;
  raw_endBlock : option Z;
  raw_maxBlockRange : option Z;
}.

(** [Source]: a factory or a log filter. *)
Record BaseContract : Type := mkBaseContract {
  id : string;
  contractName : string;
  networkName : string;
  chainId : Z;
  abi : Abi;
  abiEvents : AbiEvents;
  startBlock : Z;
  endBlock : option Z;
  maxBlockRange : option Z;
}.

Inductive Source : Type :=
  | Factory (base : BaseContract) (criteria : FactoryCriteria) (topics : option Topics)
  | LogFilter (base : BaseContract) (address : option OneOrMany) (topics : option Topics).

Definition sourceBase (source : Source) : BaseContract :=
  match source with
  | Factory base _ _ => base
  | LogFilter base _ _ => base
  end.

(** [Number.isNaN(x) ? 0 : x] after [?? 0], and
    [Number.isNaN(x) ? undefined : x]. *)
Definition startBlockOf (startBlockMaybeNan : option Num) : Z :=
  match startBlockMaybeNan with
  | Some (Finite n) => n
  | Some NaN => 0
  | None => 0
  end.

Definition endBlockOf (endBlockMaybeNan : option Num) : option Z :=
  match endBlockMaybeNan with
  | Some (Finite n) => Some n
  | Some NaN => None
  | None => None
  end.

(** [a ?? b]. *)
Definition orElse {A : Type} (a b : option A) : option A :=
  match a with
  | Some _ => a
  | None => b
  end.

Definition sourceId (contractName networkName : string) : string :=
  String.append contractName (String.append "_" networkName).

(** "First, apply any network-specific overrides and flatten the result." *)
Definition rawContracts (contractName : string) (contract : ContractOptions)
    : option (list RawContract) :=
  match c_network contract with
  | NetworkNull => None
  | NetworkName networkName =>
      Some [{| raw_id := sourceId contractName networkName;
               raw_contractName := contractName;
               raw_networkName := networkName;
               raw_abi := c_abi contract;
               raw_address := c_address contract;
               raw_factory := c_factory contract;
               raw_filter := c_filter contract;
               raw_startBlock := startBlockOf (c_startBlock contract);
               raw_endBlock := endBlockOf (c_endBlock contract);
               raw_maxBlockRange := c_maxBlockRange contract |}]
  | NetworkOverrides overrides =>
      Some (omap (λ '(networkName, overrides),
                    overrides ← overrides;
                    Some {| raw_id := sourceId contractName networkName;
                            raw_contractName := contractName;
                            raw_networkName := networkName;
                            raw_abi := c_abi contract;
                            raw_address := orElse (o_address overrides) (c_address contract);
                            raw_factory := orElse (o_factory overrides) (c_factory contract);
                            raw_filter := orElse (o_filter overrides) (c_filter contract);
                            raw_startBlock :=
                              startBlockOf (orElse (o_startBlock overrides)
                                              (c_startBlock contract));
                            raw_endBlock :=
                              endBlockOf (orElse (o_endBlock overrides) (c_endBlock contract));
                            raw_maxBlockRange :=
                              orElse (o_maxBlockRange overrides) (c_maxBlockRange contract) |})
              overrides)
  end.

(** The address check of a log filter: lower case, prefix and length. *)
Definition validAddress (address : string) : bool :=
  String.prefix "0x" address && bool_decide (String.length address = 42%nat).

Definition validateAddress (resolvedAddress : option OneOrMany) : option (option OneOrMany) :=
  let validatedAddress :=
    match resolvedAddress with
    | Some (Many addresses) => Some (Many (toLowerCase <$> addresses))
    | Some (One address) =>
        if truthyString (Some address) then Some (One (toLowerCase address)) else None
    | None => None
    end in
  match validatedAddress with
  | Some v => if forallb validAddress (accepted v) then Some validatedAddress else None
  | None => Some None
  end.

(** "Second, build and validate the factory or log filter." *)
Definition buildSource (networks : list Network) (rawContract : RawContract)
    : option Source :=
  network ← snd <$> list_find (λ n, net_name n = raw_networkName rawContract) networks;
  abiEvents ← buildAbiEvents (raw_abi rawContract);
  topics ←
    match raw_filter rawContract with
    | Some filter =>
        if match filter_event filter, filter_args filter with
           | Many _, Some _ => true
           | _, _ => false
           end
        then None
        else if forallb (bySafeName abiEvents) (accepted (filter_event filter))
        then Some <$> buildTopics (raw_abi rawContract) filter
        else None
    | None => Some None
    end;
  let baseContract :=
    {| id := raw_id rawContract;
       contractName := raw_contractName rawContract;
       networkName := raw_networkName rawContract;
       chainId := net_chainId network;
       abi := raw_abi rawContract;
       abiEvents := abiEvents;
       startBlock := raw_startBlock rawContract;
       endBlock := raw_endBlock rawContract;
       maxBlockRange := raw_maxBlockRange rawContract |} in
  match raw_factory rawContract, raw_address rawContract with
  | Some _, Some _ => None
  | Some resolvedFactory, None =>
      factoryCriteria ← buildFactoryCriteria resolvedFactory;
      Some (Factory baseContract factoryCriteria topics)
  | None, resolvedAddress =>
      validatedAddress ← validateAddress resolvedAddress;
      Some (LogFilter baseContract validatedAddress topics)
  end.

Definition buildNetwork (networkName : string) (network : NetworkOptions)
    : option (Network * list LogEntry) :=
  rpcUrls ← getRpcUrlsForClient networkName (n_chainId network) (n_transport network);
  Some ({| net_name := networkName;
           net_chainId := n_chainId network;
           net_maxRequestsPerSecond := default 50 (n_maxRequestsPerSecond network);
           net_pollingInterval := default 1000 (n_pollingInterval network);
           net_defaultMaxBlockRange := getDefaultMaxBlockRange (n_chainId network) rpcUrls;
           net_finalityBlockCount := getFinalityBlockCount (n_chainId network);
           net_maxHistoricalTaskConcurrency :=
             default 20 (n_maxHistoricalTaskConcurrency network) |},
        WarnPublicRpcUrl networkName <$> filter (λ rpcUrl, isRpcUrlPublic rpcUrl = true) rpcUrls).

Record BuiltConfig : Type := mkBuiltConfig {
  built_databaseConfig : DatabaseConfig;
  built_networks : list Network;
  built_sources : list Source;
  built_logs : list LogEntry;
}.

(** [buildConfig]; [None] where it throws.  The warnings about public RPC
    URLs are listed network by network. *)
Definition buildConfig (config : Config) (env : Env) : option BuiltConfig :=
  '(databaseConfig, databaseLogs) ← buildDatabase (database config) env;
  builtNetworks ← mapM (λ '(networkName, network), buildNetwork networkName network)
                     (networks config);
  let networks := builtNetworks.*1 in
  raws ← mapM (λ '(contractName, contract), rawContracts contractName contract)
            (contracts config);
  sources ← mapM (buildSource networks) (concat raws);
  let hasSources (network : Network) : bool :=
    existsb (λ source, bool_decide (networkName (sourceBase source) = net_name network))
      sources in
  Some {| built_databaseConfig := databaseConfig;
          built_networks := filter (λ network, hasSources network = true) networks;
          built_sources := sources;
          built_logs :=
            databaseLogs ++ concat builtNetworks.*2
            ++ (WarnNoContracts ∘ net_name
                  <$> filter (λ network, hasSources network = false) networks) |}.

(** [safeBuildConfig]: the result, or the failure. *)
Definition safeBuildConfig (config : Config) (env : Env) : bool * option BuiltConfig :=
  match buildConfig config env with
  | Some result => (true, Some result)
  | None => (false, None)
  end.

(** *** What a successful build returns *)

Lemma elem_of_concat {A : Type} (x : A) (ls : list (list A)) :
  x ∈ concat ls ↔ ∃ l, x ∈ l ∧ l ∈ ls.
Proof.
  induction ls as [|l ls IH]; simpl.
  - split; [by intros ?%elem_of_nil|by intros (? & _ & ?%elem_of_nil)].
  - rewrite elem_of_app, IH. split.
    + intros [?|(l' & ? & ?)]; [exists l; split; [done|by left]|].
      exists l'. split; [done|by right].
    + intros (l' & Hx & [->|?]%elem_of_cons); [by left|right; eauto].
Qed.

Lemma mapM_Some_elem {A B : Type} (f : A → option B) (l : list A) (k : list B) (y : B) :
  mapM f l = Some k → y ∈ k → ∃ x, x ∈ l ∧ f x = Some y.
Proof.
  intros Hk%mapM_Some_1 [i Hi]%list_elem_of_lookup.
  destruct (Forall2_lookup_r _ _ _ _ _ Hk Hi) as (x & Hx & Hxy).
  exists x. split; [by eapply list_elem_of_lookup_2|done].
Qed.

Lemma mapM_Some_elem_l {A B : Type} (f : A → option B) (l : list A) (k : list B) (x : A) :
  mapM f l = Some k → x ∈ l → ∃ y, y ∈ k ∧ f x = Some y.
Proof.
  intros Hk%mapM_Some_1 [i Hi]%list_elem_of_lookup.
  destruct (Forall2_lookup_l _ _ _ _ _ Hk Hi) as (y & Hy & Hxy).
  exists y. split; [by eapply list_elem_of_lookup_2|done].
Qed.

Lemma rawContracts_Some contractName contract raws raw :
  rawContracts contractName contract = Some raws → raw ∈ raws →
  c_network contract ≠ NetworkNull ∧
  raw_contractName raw = contractName ∧
  raw_id raw = sourceId contractName (raw_networkName raw).
Proof.
  unfold rawContracts. destruct (c_network contract) as [|networkName|overrides]; [done|..].
  - intros [= <-] ->%list_elem_of_singleton. done.
  - intros [= <-] ([networkName [o|]] & _ & Hraw)%list_elem_of_omap; [|done].
    injection Hraw as <-. done.
Qed.

Lemma validateAddress_Some resolvedAddress validatedAddress :
  validateAddress resolvedAddress = Some validatedAddress →
  ∀ v a, validatedAddress = Some v → a ∈ accepted v →
    String.prefix "0x" a = true ∧ String.length a = 42%nat ∧
    ∃ v0 a0, resolvedAddress = Some v0 ∧ a0 ∈ accepted v0 ∧ a = toLowerCase a0.
Proof.
  unfold validateAddress. intros Hvalid v a -> Ha.
  destruct resolvedAddress as [[address|addresses]|]; [| |done].
  - destruct (truthyString (Some address)); [|done].
    destruct (forallb _ _) eqn:Hall; [|done]. injection Hvalid as <-.
    apply list_elem_of_singleton in Ha as ->. simpl in Hall.
    rewrite andb_true_r in Hall. apply andb_true_iff in Hall as [? ?%bool_decide_eq_true].
    split_and!; [done..|]. exists (One address), address. split_and!; [done|by left|done].
  - destruct (forallb _ _) eqn:Hall; [|done]. injection Hvalid as <-. simpl in Ha, Hall.
    rewrite forallb_forall in Hall. specialize (Hall a (proj1 (list_elem_of_In _ _) Ha)).
    apply andb_true_iff in Hall as [? ?%bool_decide_eq_true].
    split_and!; [done..|]. apply list_elem_of_fmap in Ha as (a0 & -> & Ha0).
    by exists (Many addresses), a0.
Qed.

Lemma buildSource_Some networks rawContract source :
  buildSource networks rawContract = Some source →
  (∃ network, network ∈ networks ∧
     net_name network = raw_networkName rawContract ∧
     chainId (sourceBase source) = net_chainId network) ∧
  id (sourceBase source) = raw_id rawContract ∧
  contractName (sourceBase source) = raw_contractName rawContract ∧
  networkName (sourceBase source) = raw_networkName rawContract ∧
  match source with
  | Factory _ _ _ => raw_address rawContract = None ∧ is_Some (raw_factory rawContract)
  | LogFilter _ address _ =>
      raw_factory rawContract = None ∧
      ∀ v a, address = Some v → a ∈ accepted v →
        String.prefix "0x" a = true ∧ String.length a = 42%nat ∧
        ∃ v0 a0, raw_address rawContract = Some v0 ∧ a0 ∈ accepted v0 ∧ a = toLowerCase a0
  end.
Proof.
  unfold buildSource.
  destruct (list_find _ networks) as [[i network]|] eqn:Hfind; [|done].
  apply list_find_Some in Hfind as (Hi & Hname & _). cbn [fmap option_fmap option_map snd].
  cbn [mbind option_bind].
  destruct (buildAbiEvents (raw_abi rawContract)) as [events|]; [|done].
  cbn [mbind option_bind].
  match goal with |- context [mbind _ ?t] => destruct t as [topics|] end; [|done].
  cbn [mbind option_bind].
  assert (∃ network0, network0 ∈ networks ∧ net_name network0 = raw_networkName rawContract ∧
            net_chainId network = net_chainId network0) as Hnetwork.
  { exists network. split; [by eapply list_elem_of_lookup_2|done]. }
  destruct (raw_factory rawContract) as [resolvedFactory|],
    (raw_address rawContract) as [resolvedAddress|] eqn:Haddress; [done|..].
  - destruct (buildFactoryCriteria resolvedFactory); [|done]. intros [= <-]. simpl.
    split_and!; try done; by eexists.
  - destruct (validateAddress (Some resolvedAddress)) as [validatedAddress|] eqn:Hvalid;
      [|done]. intros [= <-]. simpl.
    split_and!; try done. by apply validateAddress_Some.
  - destruct (validateAddress None) as [validatedAddress|] eqn:Hvalid; [|done].
    intros [= <-]. simpl. split_and!; try done. by apply validateAddress_Some.
Qed.

Lemma buildNetwork_Some name options network logs :
  buildNetwork name options = Some (network, logs) →
  net_name network = name ∧ net_chainId network = n_chainId options.
Proof.
  unfold buildNetwork. destruct (getRpcUrlsForClient _ _ _); [|done]. by intros [= <- _].
Qed.

Lemma buildDatabase_Some database env databaseConfig logs :
  buildDatabase database env = Some (databaseConfig, logs) →
  match databaseConfig with
  | Postgres connectionString =>
      connectionString ≠ "" ∧
      database ≫= db_kind ≠ Some KindSqlite ∧
      (Some connectionString = database ≫= db_connectionString ∨
       Some connectionString = DATABASE_PRIVATE_URL env ∨
       Some connectionString = DATABASE_URL env)
  | Sqlite =>
      database ≫= db_kind = Some KindSqlite ∨
      (database ≫= db_kind = None ∧
       truthyString (DATABASE_PRIVATE_URL env) = false ∧
       truthyString (DATABASE_URL env) = false)
  end.
Proof.
  assert (∀ s, truthyString s = true → default "" s ≠ "" ∧ Some (default "" s) = s) as Htruthy.
  { intros [s|]; simpl; [|done]. case_bool_decide; simpl; [done|]. by intros _. }
  unfold buildDatabase.
  destruct (database ≫= db_kind) as [[|]|].
  - destruct (truthyString (database ≫= db_connectionString)) eqn:H1;
      [|destruct (truthyString (DATABASE_PRIVATE_URL env)) eqn:H2;
        [|destruct (truthyString (DATABASE_URL env)) eqn:H3; [|done]]];
      intros [= <- _]; simpl;
      match goal with H : truthyString ?s = true |- _ => destruct (Htruthy s H) end;
      split_and!; auto.
  - intros [= <- _]. by left.
  - destruct (truthyString (DATABASE_PRIVATE_URL env)) eqn:H2;
      [|destruct (truthyString (DATABASE_URL env)) eqn:H3];
      intros [= <- _]; simpl; [| |by right];
      match goal with H : truthyString ?s = true |- _ => destruct (Htruthy s H) end;
      split_and!; auto.
Qed.

End BuildConfig.
End BuildConfig.

(** X15.  What [buildConfig] returns when it does not throw.  Every source
    names a network that is returned, with that network's chain id, and
    every network returned has a source; networks without one are dropped
    with a warning each.  The id of a source is its contract name, "_" and
    its network name, the contract being one of the configuration with a
    network given.  No source is built from both a factory and an address.
    Every address of a log filter is the lower-cased form of a configured
    one, starts with "0x" and has 42 characters.  The database is Postgres
    only with a connection string that is not empty, taken from the
    configuration or one of the two environment variables and never when
    the configuration asks for SQLite; it is SQLite when the configuration
    asks for it, or names no kind while neither variable is set. *)
Theorem X15_buildConfig_result
    {Abi AbiEvents Transport FactoryOption FilterArgs Topics : Type}
    (getRpcUrlsForClient : string → Z → Transport → option (list string))
    (isRpcUrlPublic : string → bool)
    (getDefaultMaxBlockRange : Z → list string → Z)
    (getFinalityBlockCount : Z → Z)
    (buildAbiEvents : Abi → option AbiEvents)
    (bySafeName : AbiEvents → string → bool)
    (buildTopics : Abi → BuildConfig.FilterOptions → option Topics)
    (buildFactoryCriteria : FactoryOption → option SyncStore.FactoryCriteria)
    (toLowerCase : string → string)
    (config : BuildConfig.Config) (env : BuildConfig.Env)
    (result : BuildConfig.BuiltConfig) :
  BuildConfig.buildConfig (FilterArgs := FilterArgs) getRpcUrlsForClient isRpcUrlPublic
    getDefaultMaxBlockRange getFinalityBlockCount buildAbiEvents bySafeName buildTopics
    buildFactoryCriteria toLowerCase config env = Some result →
  let sources := BuildConfig.built_sources result in
  let networks := BuildConfig.built_networks result in
  (∀ source, source ∈ sources →
     (∃ network, network ∈ networks ∧
        BuildConfig.net_name network = BuildConfig.networkName (BuildConfig.sourceBase source) ∧
        BuildConfig.net_chainId network = BuildConfig.chainId (BuildConfig.sourceBase source)) ∧
     BuildConfig.id (BuildConfig.sourceBase source) =
       BuildConfig.sourceId (BuildConfig.contractName (BuildConfig.sourceBase source))
         (BuildConfig.networkName (BuildConfig.sourceBase source)) ∧
     (∃ contract,
        (BuildConfig.contractName (BuildConfig.sourceBase source), contract)
          ∈ BuildConfig.contracts config ∧
        BuildConfig.c_network contract ≠ BuildConfig.NetworkNull)) ∧
  (∀ network, network ∈ networks →
     (∃ source, source ∈ sources ∧
        BuildConfig.networkName (BuildConfig.sourceBase source) = BuildConfig.net_name network) ∧
     (∃ options, (BuildConfig.net_name network, options) ∈ BuildConfig.networks config ∧
        BuildConfig.net_chainId network = BuildConfig.n_chainId options)) ∧
  (∀ name,
     BuildConfig.WarnNoContracts name ∈ BuildConfig.built_logs result ↔
     name ∈ (BuildConfig.networks config).*1 ∧
     ∀ source, source ∈ sources →
       BuildConfig.networkName (BuildConfig.sourceBase source) ≠ name) ∧
  (∀ base address topics a,
     BuildConfig.LogFilter base (Some address) topics ∈ sources →
     a ∈ EventFilters.accepted address →
     String.prefix "0x" a = true ∧ String.length a = 42%nat ∧
     ∃ a0, a = toLowerCase a0) ∧
  match BuildConfig.built_databaseConfig result with
  | BuildConfig.Postgres connectionString =>
      connectionString ≠ "" ∧
      BuildConfig.database config ≫= BuildConfig.db_kind ≠ Some BuildConfig.KindSqlite ∧
      (Some connectionString
         = BuildConfig.database config ≫= BuildConfig.db_connectionString ∨
       Some connectionString = BuildConfig.DATABASE_PRIVATE_URL env ∨
       Some connectionString = BuildConfig.DATABASE_URL env)
  | BuildConfig.Sqlite =>
      BuildConfig.database config ≫= BuildConfig.db_kind = Some BuildConfig.KindSqlite ∨
      (BuildConfig.database config ≫= BuildConfig.db_kind = None ∧
       BuildConfig.truthyString (BuildConfig.DATABASE_PRIVATE_URL env) = false ∧
       BuildConfig.truthyString (BuildConfig.DATABASE_URL env) = false)
  end.
Proof.
  unfold BuildConfig.buildConfig. intros Hbuild.
  destruct (BuildConfig.buildDatabase _ _) as [[databaseConfig databaseLogs]|] eqn:Hdb;
    [|done]. cbn [mbind option_bind] in Hbuild.
  destruct (mapM _ (BuildConfig.networks config)) as [builtNetworks|] eqn:Hnets; [|done].
  cbn [mbind option_bind] in Hbuild.
  destruct (mapM _ (BuildConfig.contracts config)) as [raws|] eqn:Hraws; [|done].
  cbn [mbind option_bind] in Hbuild.
  destruct (mapM _ (concat raws)) as [sources0|] eqn:Hsources; [|done].
  cbn [mbind option_bind] in Hbuild. injection Hbuild as <-.
  cbn [BuildConfig.built_sources BuildConfig.built_networks BuildConfig.built_logs
       BuildConfig.built_databaseConfig].
  (* the networks built, and whether one has a source *)
  assert (∀ network, network ∈ builtNetworks.*1 →
            ∃ options, (BuildConfig.net_name network, options) ∈ BuildConfig.networks config ∧
                       BuildConfig.net_chainId network = BuildConfig.n_chainId options)
    as Hbuilt.
  { intros network ([network' logs] & -> & Hin)%list_elem_of_fmap.
    destruct (BuildConfig.mapM_Some_elem _ _ _ _ Hnets Hin) as ([name options] & Hcfg & Hnet).
    apply BuildConfig.buildNetwork_Some in Hnet as [Hname Hchain]. simpl in *.
    exists options. by rewrite Hname. }
  assert (∀ name, name ∈ (BuildConfig.networks config).*1 ↔
                  name ∈ BuildConfig.net_name <$> builtNetworks.*1) as Hnames.
  { intros name. split.
    - intros ([name' options] & -> & Hin)%list_elem_of_fmap.
      destruct (BuildConfig.mapM_Some_elem_l _ _ _ _ Hnets Hin) as ([network logs] & Hb & Hnet).
      apply BuildConfig.buildNetwork_Some in Hnet as [Hname _]. simpl in *. rewrite <- Hname.
      apply list_elem_of_fmap_2. by apply (list_elem_of_fmap_2 fst _ (network, logs)).
    - intros (network & -> & Hin)%list_elem_of_fmap.
      destruct (Hbuilt network Hin) as (options & Hcfg & _).
      by apply (list_elem_of_fmap_2 fst _ (_, options)). }
  set (hasSources := λ network : BuildConfig.Network,
         existsb (λ source, bool_decide (BuildConfig.networkName (BuildConfig.sourceBase source)
                                         = BuildConfig.net_name network)) sources0) in *.
  assert (∀ network, hasSources network = true ↔
            ∃ source, source ∈ sources0 ∧
              BuildConfig.networkName (BuildConfig.sourceBase source)
                = BuildConfig.net_name network) as Hhas.
  { intros network. unfold hasSources. rewrite existsb_exists.
    split; intros (source & Hin & Hname); exists source.
    - split; [by apply list_elem_of_In|by apply bool_decide_eq_true in Hname].
    - split; [by apply list_elem_of_In|by apply bool_decide_eq_true]. }
  (* a source comes from a contract of the configuration *)
  assert (∀ source, source ∈ sources0 →
            ∃ rawContract name contract contractRaws,
              BuildConfig.buildSource buildAbiEvents bySafeName buildTopics buildFactoryCriteria
                toLowerCase builtNetworks.*1 rawContract = Some source ∧
              (name, contract) ∈ BuildConfig.contracts config ∧
              BuildConfig.rawContracts name contract = Some contractRaws ∧
              rawContract ∈ contractRaws) as Hfrom.
  { intros source Hin.
    destruct (BuildConfig.mapM_Some_elem _ _ _ _ Hsources Hin) as (rawContract & Hraw & Hsrc).
    apply BuildConfig.elem_of_concat in Hraw as (contractRaws & Hraw & Hcr).
    destruct (BuildConfig.mapM_Some_elem _ _ _ _ Hraws Hcr) as ([name contract] & Hcfg & Hrc).
    by exists rawContract, name, contract, contractRaws. }
  split_and!.
  - intros source Hin.
    destruct (Hfrom source Hin) as (rawContract & name & contract & contractRaws
                                    & Hsrc & Hcfg & Hrc & Hraw).
    apply BuildConfig.buildSource_Some in Hsrc
      as ((network & Hnet & Hname & Hchain) & Hid & Hcontract & Hnetwork & _).
    destruct (BuildConfig.rawContracts_Some _ _ _ _ Hrc Hraw) as (Hnull & Hcn & Hrid).
    split_and!.
    + exists network. split_and!; [|congruence..].
      apply list_elem_of_filter. split; [|done]. apply Hhas. exists source.
      split; [done|congruence].
    + congruence.
    + exists contract. split; [congruence|done].
  - intros network [Hsome Hin]%list_elem_of_filter. split; [by apply Hhas|by apply Hbuilt].
  - intros name. rewrite !elem_of_app.
    assert (BuildConfig.WarnNoContracts name ∉ databaseLogs) as Hnodb.
    { unfold BuildConfig.buildDatabase in Hdb.
      repeat match type of Hdb with
             | context [match ?x with _ => _ end] => destruct x
             end; simplify_eq; cbn; set_solver. }
    assert (BuildConfig.WarnNoContracts name ∉ concat builtNetworks.*2) as Hnonet.
    { intros (logs & Hlog & Hin)%BuildConfig.elem_of_concat.
      apply list_elem_of_fmap in Hin as ([network logs'] & -> & Hin).
      destruct (BuildConfig.mapM_Some_elem _ _ _ _ Hnets Hin) as ([n options] & _ & Hnet).
      unfold BuildConfig.buildNetwork in Hnet.
      destruct (getRpcUrlsForClient _ _ _); [|done]. injection Hnet as _ <-.
      simpl in Hlog. by apply list_elem_of_fmap in Hlog as (? & ? & _). }
    rewrite Hnames. split.
    + intros [?|[?|Hwarn]]; [done..|].
      apply list_elem_of_fmap in Hwarn as (network & [= ->] & Hin).
      apply list_elem_of_filter in Hin as [Hnone Hin].
      split; [by apply list_elem_of_fmap_2|].
      intros source Hsource Hname.
      assert (hasSources network = true) as Hyes by (apply Hhas; eauto).
      unfold hasSources in Hyes. congruence.
    + intros [(network & -> & Hin)%list_elem_of_fmap Hnone]. right. right.
      apply (list_elem_of_fmap_2 (BuildConfig.WarnNoContracts ∘ BuildConfig.net_name)).
      apply list_elem_of_filter. split; [|done].
      apply not_true_iff_false. intros (source & Hsource & Hname)%Hhas.
      by apply (Hnone source).
  - intros base address topics a Hin Ha.
    destruct (Hfrom _ Hin) as (rawContract & _ & _ & _ & Hsrc & _).
    apply BuildConfig.buildSource_Some in Hsrc as (_ & _ & _ & _ & _ & Haddr).
    destruct (Haddr address a eq_refl Ha) as (? & ? & _ & a0 & _ & _ & ->). eauto.
  - by apply (BuildConfig.buildDatabase_Some _ _ _ _ Hdb).
Qed.

(** A configuration with the networks mainnet and optimism and one contract,
    a token on mainnet, with nothing set for the database. *)
Definition exampleConfig : BuildConfig.Config (Abi := unit) (Transport := unit)
    (FactoryOption := unit) (FilterArgs := unit) :=
  {| BuildConfig.database := None;
     BuildConfig.networks :=
       [("mainnet", BuildConfig.mkNetworkOptions 1 () None None None);
        ("optimism", BuildConfig.mkNetworkOptions 10 () None None None)];
     BuildConfig.contracts :=
       [("Token",
         {| BuildConfig.c_network := BuildConfig.NetworkName "mainnet";
            BuildConfig.c_abi := ();
            BuildConfig.c_address :=
              Some (EventFilters.One
                      (String.append "0x" (String.concat "" (replicate 40 "a"))));
            BuildConfig.c_factory := None;
            BuildConfig.c_filter := None;
            BuildConfig.c_startBlock := Some BuildConfig.NaN;
            BuildConfig.c_endBlock := None;
            BuildConfig.c_maxBlockRange := None |})] |}.

Definition exampleBuild : option BuildConfig.BuiltConfig :=
  BuildConfig.buildConfig (AbiEvents := unit) (Topics := unit)
    (λ _ _ _, Some ["https://rpc.example"]) (λ _, false) (λ _ _, 2000) (λ _, 32)
    (λ _, Some ()) (λ _ _, true) (λ _ _, Some ()) (λ _, None) (λ address, address)
    exampleConfig (BuildConfig.mkEnv None None).

(** X15 on the example: the token's source is on mainnet, optimism is
    dropped with a warning and the database is SQLite. *)
Lemma X15_buildConfig_result_witness :
  ∃ result,
    exampleBuild = Some result ∧
    BuildConfig.net_name <$> BuildConfig.built_networks result = ["mainnet"] ∧
    BuildConfig.WarnNoContracts "optimism" ∈ BuildConfig.built_logs result ∧
    BuildConfig.built_databaseConfig result = BuildConfig.Sqlite.
Proof.
  destruct exampleBuild as [result|] eqn:Hbuild; [|by vm_compute in Hbuild].
  exists result. split; [done|].
  destruct (X15_buildConfig_result _ _ _ _ _ _ _ _ _ _ _ _ Hbuild)
    as (_ & _ & Hwarn & _ & _).
  assert (result = default result exampleBuild) as Hresult by (by rewrite Hbuild).
  split; [by rewrite Hresult; vm_compute|].
  split; [|by rewrite Hresult; vm_compute].
  apply Hwarn. rewrite Hresult. split.
  - apply (bool_decide_unpack _). by vm_compute.
  - intros source Hsource. vm_compute in Hsource.
    apply list_elem_of_singleton in Hsource as ->. by vm_compute.
Defined.

(** ** The text encoding of big integers for SQLite *)

From Stdlib Require Ascii DecimalString DecimalN DecimalPos DecimalFacts.

Module Encoding.
Import Stdlib.Strings.Ascii.

(** [value.toString(10)] of a bigint. *)
Definition toString10 (value : Z) : string :=
  match value with
  | Zneg p => String "-"%char (DecimalString.NilZero.string_of_uint (Pos.to_uint p))
  | _ => DecimalString.NilZero.string_of_uint (N.to_uint (Z.to_N value))
  end.

(** [BigInt(s)] for a string of decimal digits, the empty string being 0.
    The other strings [BigInt] reads (signs, blanks, prefixes such as 0x) do
    not reach it from [decodeToBigInt] on an encoded text; they are given no
    value here. *)
Definition parseBigInt (s : string) : option Z :=
  (λ d, Z.of_N (N.of_uint d)) <$> DecimalString.NilEmpty.uint_of_string s.

(** [s.padStart(targetLength, "0")]. *)
Definition padStart0 (targetLength : nat) (s : string) : string :=
  Nat.iter (targetLength - String.length s) (String "0"%char) s.

(** [s.replace(/^0+/, "")]. *)
Fixpoint stripLeadingZeros (s : string) : string :=
  match s with
  | String "0"%char rest => stripLeadingZeros rest
  | _ => s
  end.

Section Encoding.
(** The two bounds the functions import. *)
Variables EVM_MAX_UINT EVM_MIN_INT : Z.

(** [encodeAsText] on a bigint; [None] where it throws. *)
Definition encodeAsText (value : Z) : option string :=
  if decide (EVM_MAX_UINT < value) then None
  else if decide (value < EVM_MIN_INT) then None
  else
    let signChar := if decide (0 <= value) then "0"%char else "-"%char in
    let value := if decide (value < 0) then value - EVM_MIN_INT else value in
    let chars := toString10 value in
    Some (String signChar (padStart0 78 chars)).

(** [decodeToBigInt] on a string; [None] where [BigInt] throws. *)
Definition decodeToBigInt (text : string) : option Z :=
  let signChar := match text with String c _ => Some c | EmptyString => None end in
  let valueChars :=
    stripLeadingZeros (match text with String _ rest => rest | EmptyString => "" end) in
  let valueChars := if decide (String.length valueChars = 0%nat) then "0" else valueChars in
  value ← parseBigInt valueChars;
  Some (if decide (signChar = Some "-"%char) then value + EVM_MIN_INT else value).

End Encoding.

(** *** Digits *)

Lemma stripLeadingZeros_iter (m : nat) (s : string) :
  stripLeadingZeros (Nat.iter m (String "0"%char) s) = stripLeadingZeros s.
Proof. induction m as [|m IH]; [done|]. by rewrite Nat.iter_succ. Qed.

(** Stripping the zeros of the text of a number leaves the text of the
    number without its leading zeros. *)
Lemma stripLeadingZeros_string_of_uint (d : Decimal.uint) :
  stripLeadingZeros (DecimalString.NilEmpty.string_of_uint d) =
  DecimalString.NilEmpty.string_of_uint (Decimal.nzhead d).
Proof. induction d; try done. Qed.

Lemma to_uint_unorm (n : N) : Decimal.unorm (N.to_uint n) = N.to_uint n.
Proof. by rewrite <- DecimalN.Unsigned.to_of, DecimalN.Unsigned.of_to. Qed.

Lemma to_uint_nonnil (n : N) : N.to_uint n ≠ Decimal.Nil.
Proof.
  destruct n as [|p]; [done|]. apply DecimalPos.Unsigned.to_uint_nonnil.
Qed.

Lemma NilZero_to_uint (n : N) :
  DecimalString.NilZero.string_of_uint (N.to_uint n) =
  DecimalString.NilEmpty.string_of_uint (N.to_uint n).
Proof. pose proof (to_uint_nonnil n). by destruct (N.to_uint n). Qed.

Lemma string_of_uint_length_0 (d : Decimal.uint) :
  String.length (DecimalString.NilEmpty.string_of_uint d) = 0%nat ↔ d = Decimal.Nil.
Proof. by destruct d. Qed.

(** Reading back the padded text of a natural number. *)
Lemma parse_padded (n : N) (rest : string) :
  rest = padStart0 78 (toString10 (Z.of_N n)) →
  let valueChars := stripLeadingZeros rest in
  parseBigInt (if decide (String.length valueChars = 0%nat) then "0" else valueChars)
  = Some (Z.of_N n).
Proof.
  intros -> valueChars.
  assert (toString10 (Z.of_N n) = DecimalString.NilEmpty.string_of_uint (N.to_uint n)) as Hs.
  { unfold toString10. destruct n as [|p]; simpl; [done|].
    apply (NilZero_to_uint (N.pos p)). }
  unfold valueChars, padStart0.
  rewrite stripLeadingZeros_iter, Hs, stripLeadingZeros_string_of_uint.
  pose proof (to_uint_unorm n) as Hnorm. unfold Decimal.unorm in Hnorm.
  destruct (decide _) as [Hzero|Hnonzero].
  - apply string_of_uint_length_0 in Hzero. rewrite Hzero in Hnorm.
    unfold parseBigInt. simpl. f_equal. f_equal.
    rewrite <- (DecimalN.Unsigned.of_to n), <- Hnorm. done.
  - unfold parseBigInt. rewrite DecimalString.NilEmpty.usu. simpl. f_equal. f_equal.
    rewrite <- (DecimalN.Unsigned.of_to n) at 2.
    rewrite <- (DecimalN.Unsigned.of_uint_norm (N.to_uint n)). unfold Decimal.unorm.
    destruct (Decimal.nzhead (N.to_uint n)); try done.
Qed.

(** *** The order of the encoded texts *)

(** The leading digit of a numeral and the digits after it. *)
Definition leading (d : Decimal.uint) : option (N * Decimal.uint) :=
  match d with
  | Decimal.Nil => None
  | Decimal.D0 l => Some (0%N, l)
  | Decimal.D1 l => Some (1%N, l)
  | Decimal.D2 l => Some (2%N, l)
  | Decimal.D3 l => Some (3%N, l)
  | Decimal.D4 l => Some (4%N, l)
  | Decimal.D5 l => Some (5%N, l)
  | Decimal.D6 l => Some (6%N, l)
  | Decimal.D7 l => Some (7%N, l)
  | Decimal.D8 l => Some (8%N, l)
  | Decimal.D9 l => Some (9%N, l)
  end.

Lemma usize_nb_digits (d : Decimal.uint) :
  DecimalPos.Unsigned.usize d = N.of_nat (Decimal.nb_digits d).
Proof.
  induction d; cbn [DecimalPos.Unsigned.usize Decimal.nb_digits]; [done|..];
    rewrite IHd; lia.
Qed.

Lemma leading_None d : leading d = None → d = Decimal.Nil.
Proof. by destruct d. Qed.

Lemma leading_Some d x l :
  leading d = Some (x, l) →
  (x < 10)%N ∧
  N.of_uint d = (x * 10 ^ N.of_nat (Decimal.nb_digits l) + N.of_uint l)%N ∧
  DecimalString.NilEmpty.string_of_uint d =
    String (ascii_of_N (48 + x)) (DecimalString.NilEmpty.string_of_uint l) ∧
  Decimal.nb_digits d = S (Decimal.nb_digits l).
Proof.
  intros Hd.
  assert (N.of_uint d = (x * 10 ^ N.of_nat (Decimal.nb_digits l) + N.of_uint l)%N) as Hvalue.
  { unfold N.of_uint. rewrite !DecimalPos.Unsigned.of_uint_alt, <- usize_nb_digits.
    destruct d; [done|..]; injection Hd as <- <-; unfold Decimal.rev; cbn [Decimal.revapp];
      rewrite DecimalPos.Unsigned.of_lu_revapp; cbn [DecimalPos.Unsigned.of_lu];
      unfold Decimal.rev; lia. }
  split_and!; [|done|..]; (destruct d; [done|..]); injection Hd as <- <-; done.
Qed.

Lemma of_uint_bound (d : Decimal.uint) :
  (N.of_uint d < 10 ^ N.of_nat (Decimal.nb_digits d))%N.
Proof.
  remember (Decimal.nb_digits d) as n eqn:Hn. revert d Hn.
  induction n as [|n IH]; intros d Hn.
  - destruct d; try done; simpl; lia.
  - destruct (leading d) as [[x l]|] eqn:Hd; [|by apply leading_None in Hd as ->].
    apply leading_Some in Hd as (Hx & -> & _ & Hlen).
    assert (Decimal.nb_digits l = n) as Hl by lia. rewrite Hl.
    specialize (IH l (eq_sym Hl)).
    replace (N.of_nat (S n)) with (N.succ (N.of_nat n)) by lia.
    rewrite N.pow_succ_r'. nia.
Qed.

Lemma N_compare_add_l (p n m : N) : (p + n ?= p + m)%N = (n ?= m)%N.
Proof. rewrite <- !N2Z.inj_compare, !N2Z.inj_add. apply Z.add_compare_mono_l. Qed.

Lemma compare_digit (x y : N) :
  (x < 10)%N → (y < 10)%N →
  Ascii.compare (ascii_of_N (48 + x)) (ascii_of_N (48 + y)) = (x ?= y)%N.
Proof.
  intros Hx Hy. unfold Ascii.compare.
  rewrite !N_ascii_embedding by lia. apply N_compare_add_l.
Qed.

(** Numerals with the same number of digits compare as texts the way they
    compare as numbers. *)
Lemma compare_string_of_uint (d d' : Decimal.uint) :
  Decimal.nb_digits d = Decimal.nb_digits d' →
  String.compare (DecimalString.NilEmpty.string_of_uint d)
    (DecimalString.NilEmpty.string_of_uint d') = (N.of_uint d ?= N.of_uint d')%N.
Proof.
  remember (Decimal.nb_digits d) as n eqn:Hn. revert d d' Hn.
  induction n as [|n IH]; intros d d' Hn Hn'.
  - by destruct d, d'.
  - destruct (leading d) as [[x l]|] eqn:Hd; [|by apply leading_None in Hd as ->].
    destruct (leading d') as [[y l']|] eqn:Hd'; [|by apply leading_None in Hd' as ->].
    apply leading_Some in Hd as (Hx & -> & -> & Hlen).
    apply leading_Some in Hd' as (Hy & -> & -> & Hlen').
    assert (Decimal.nb_digits l = n) as Hl by lia.
    assert (Decimal.nb_digits l' = n) as Hl' by lia.
    cbn [String.compare]. rewrite compare_digit by done.
    pose proof (of_uint_bound l) as Hb. pose proof (of_uint_bound l') as Hb'.
    rewrite Hl in *. rewrite Hl' in *.
    destruct (N.compare_spec x y) as [->|Hlt|Hgt].
    + rewrite (IH l l') by done. symmetry. apply N_compare_add_l.
    + symmetry. apply N.compare_lt_iff. nia.
    + symmetry. apply N.compare_gt_iff. nia.
Qed.

Lemma string_of_uint_iter_D0 (m : nat) (d : Decimal.uint) :
  DecimalString.NilEmpty.string_of_uint (Nat.iter m Decimal.D0 d) =
  Nat.iter m (String "0"%char) (DecimalString.NilEmpty.string_of_uint d).
Proof. induction m as [|m IH]; [done|]. rewrite !Nat.iter_succ. simpl. by rewrite IH. Qed.

Lemma of_uint_iter_D0 (m : nat) (d : Decimal.uint) :
  N.of_uint (Nat.iter m Decimal.D0 d) = N.of_uint d.
Proof. induction m as [|m IH]; [done|]. by rewrite Nat.iter_succ. Qed.

Lemma nb_digits_iter_D0 (m : nat) (d : Decimal.uint) :
  Decimal.nb_digits (Nat.iter m Decimal.D0 d) = (m + Decimal.nb_digits d)%nat.
Proof. induction m as [|m IH]; [done|]. rewrite Nat.iter_succ. simpl. by rewrite IH. Qed.

Lemma string_of_uint_length (d : Decimal.uint) :
  String.length (DecimalString.NilEmpty.string_of_uint d) = Decimal.nb_digits d.
Proof. induction d; simpl; congruence. Qed.

(** A number below [10 ^ k] is written with at most [k] digits. *)
Lemma nb_digits_to_uint (n : N) (k : nat) :
  (0 < k)%nat → (n < 10 ^ N.of_nat k)%N → (Decimal.nb_digits (N.to_uint n) <= k)%nat.
Proof.
  intros Hk Hn.
  pose proof (to_uint_unorm n) as Hnorm. pose proof (DecimalN.Unsigned.of_to n) as Hvalue.
  destruct (leading (N.to_uint n)) as [[x l]|] eqn:Hd;
    [|apply leading_None in Hd; rewrite Hd; simpl; lia].
  pose proof (leading_Some _ _ _ Hd) as (Hx & Hof & _ & Hlen).
  destruct (decide (x = 0%N)) as [->|Hx0].
  - (* a numeral in normal form that starts with 0 is 0 *)
    assert (N.to_uint n = Decimal.D0 l) as Hzero
      by (revert Hd; destruct (N.to_uint n); simpl; intros Hd; by simplify_eq).
    rewrite Hzero in Hnorm. unfold Decimal.unorm in Hnorm. simpl in Hnorm.
    destruct (Decimal.nzhead l) eqn:Hl; try done.
    + injection Hnorm as <-. rewrite Hlen. simpl. lia.
    + exfalso. by apply (DecimalFacts.nzhead_nonzero l u).
  - rewrite Hlen. rewrite Hvalue in Hof.
    assert (10 ^ N.of_nat (Decimal.nb_digits l) < 10 ^ N.of_nat k)%N as Hpow by nia.
    apply N.pow_lt_mono_r_iff in Hpow; lia.
Qed.

(** The padded texts of two numbers below [10 ^ 78] have 78 characters and
    compare the way the numbers do. *)
Lemma padded_compare (n m : N) :
  (n < 10 ^ 78)%N → (m < 10 ^ 78)%N →
  String.length (padStart0 78 (toString10 (Z.of_N n))) = 78%nat ∧
  String.compare (padStart0 78 (toString10 (Z.of_N n))) (padStart0 78 (toString10 (Z.of_N m)))
    = (n ?= m)%N.
Proof.
  assert (∀ n, toString10 (Z.of_N n) = DecimalString.NilEmpty.string_of_uint (N.to_uint n))
    as Hs.
  { intros [|p]; simpl; [done|]. apply (NilZero_to_uint (N.pos p)). }
  assert (∀ n, (n < 10 ^ 78)%N →
            ∃ d, padStart0 78 (toString10 (Z.of_N n))
                   = DecimalString.NilEmpty.string_of_uint d ∧
                 Decimal.nb_digits d = 78%nat ∧ N.of_uint d = n) as Hpad.
  { intros k Hk. rewrite Hs. unfold padStart0. rewrite string_of_uint_length.
    pose proof (nb_digits_to_uint k 78 ltac:(lia) Hk) as Hlen.
    exists (Nat.iter (78 - Decimal.nb_digits (N.to_uint k)) Decimal.D0 (N.to_uint k)).
    split; [by rewrite string_of_uint_iter_D0|].
    split; [rewrite nb_digits_iter_D0; lia|].
    by rewrite of_uint_iter_D0, DecimalN.Unsigned.of_to. }
  intros Hn Hm.
  destruct (Hpad n Hn) as (d & -> & Hd & <-). destruct (Hpad m Hm) as (d' & -> & Hd' & <-).
  split; [by rewrite string_of_uint_length|].
  apply compare_string_of_uint. congruence.
Qed.

End Encoding.

(** X16.  The text encoding of big integers decodes to what was encoded.
    For a value between [EVM_MIN_INT] and [EVM_MAX_UINT], [encodeAsText]
    returns a text, and [decodeToBigInt] of that text is the value, whatever
    the two bounds are.  Outside the bounds [encodeAsText] throws. *)
Theorem X16_encodeAsText_round_trip (EVM_MAX_UINT EVM_MIN_INT value : Z) :
  (EVM_MIN_INT <= value <= EVM_MAX_UINT →
   ∃ text,
     Encoding.encodeAsText EVM_MAX_UINT EVM_MIN_INT value = Some text ∧
     Encoding.decodeToBigInt EVM_MIN_INT text = Some value) ∧
  (value < EVM_MIN_INT ∨ EVM_MAX_UINT < value →
   Encoding.encodeAsText EVM_MAX_UINT EVM_MIN_INT value = None).
Proof.
  split.
  - intros [Hmin Hmax]. unfold Encoding.encodeAsText.
    rewrite decide_False, decide_False by lia.
    eexists. split; [done|]. unfold Encoding.decodeToBigInt.
    destruct (decide (0 <= value)) as [Hpos|Hneg].
    + rewrite (decide_False (P := value < 0)) by lia.
      assert (∃ n, value = Z.of_N n) as [n ->] by (exists (Z.to_N value); lia).
      by rewrite (Encoding.parse_padded n _ eq_refl).
    + rewrite (decide_True (P := value < 0)) by lia.
      assert (∃ n, value - EVM_MIN_INT = Z.of_N n) as [n Hn]
        by (exists (Z.to_N (value - EVM_MIN_INT)); lia).
      rewrite Hn, (Encoding.parse_padded n _ eq_refl). simpl. f_equal. lia.
  - intros [Hlow|Hhigh]; unfold Encoding.encodeAsText.
    + destruct (decide (EVM_MAX_UINT < value)); [done|]. by rewrite decide_True.
    + by rewrite decide_True.
Qed.

(** X17.  The encoded texts sort as the numbers do.  When the bounds lie
    within 78 decimal digits ([EVM_MAX_UINT] below 10^78 and [EVM_MIN_INT]
    not below -10^78, as for 256-bit integers), every encoded text has 79
    characters, and two encoded texts compare byte by byte, as in SQLite's
    default collation, exactly as the two numbers compare. *)
Theorem X17_encodeAsText_order (EVM_MAX_UINT EVM_MIN_INT a b : Z) (ta tb : string) :
  EVM_MAX_UINT < 10 ^ 78 →
  - 10 ^ 78 <= EVM_MIN_INT →
  Encoding.encodeAsText EVM_MAX_UINT EVM_MIN_INT a = Some ta →
  Encoding.encodeAsText EVM_MAX_UINT EVM_MIN_INT b = Some tb →
  String.length ta = 79%nat ∧
  String.compare ta tb = (a ?= b).
Proof.
  intros Hmax Hmin. unfold Encoding.encodeAsText.
  destruct (decide (EVM_MAX_UINT < a)); [done|].
  destruct (decide (a < EVM_MIN_INT)); [done|].
  destruct (decide (EVM_MAX_UINT < b)); [done|].
  destruct (decide (b < EVM_MIN_INT)); [done|].
  intros [= <-] [= <-].
  set (ma := if decide (a < 0) then a - EVM_MIN_INT else a).
  set (mb := if decide (b < 0) then b - EVM_MIN_INT else b).
  assert (0 <= ma < 10 ^ 78) as Ha by (unfold ma; destruct (decide (a < 0)); lia).
  assert (0 <= mb < 10 ^ 78) as Hb by (unfold mb; destruct (decide (b < 0)); lia).
  assert (∃ na, ma = Z.of_N na ∧ (na < 10 ^ 78)%N) as (na & Hn & Hn78).
  { exists (Z.to_N ma). split; [lia|]. apply N2Z.inj_lt. rewrite Z2N.id by lia.
    rewrite N2Z.inj_pow. change (Z.of_N 10) with 10. change (Z.of_N 78) with 78. lia. }
  assert (∃ nb, mb = Z.of_N nb ∧ (nb < 10 ^ 78)%N) as (nb & Hm & Hm78).
  { exists (Z.to_N mb). split; [lia|]. apply N2Z.inj_lt. rewrite Z2N.id by lia.
    rewrite N2Z.inj_pow. change (Z.of_N 10) with 10. change (Z.of_N 78) with 78. lia. }
  rewrite Hn, Hm.
  destruct (Encoding.padded_compare na nb Hn78 Hm78) as [Hlen Hcmp].
  split; [cbn [String.length]; by rewrite Hlen|].
  cbn [String.compare]. rewrite Hcmp.
  unfold ma in Hn. unfold mb in Hm.
  destruct (decide (0 <= a)), (decide (0 <= b)), (decide (a < 0)), (decide (b < 0));
    try lia; cbn.
  - rewrite <- N2Z.inj_compare, <- Hn, <- Hm. done.
  - symmetry. apply Z.compare_gt_iff. lia.
  - symmetry. apply Z.compare_lt_iff. lia.
  - rewrite <- N2Z.inj_compare, <- Hn, <- Hm. rewrite !(Z.add_comm _ (- EVM_MIN_INT)) || idtac.
    unfold Z.sub. rewrite !(Z.add_comm _ (- EVM_MIN_INT)). apply Z.add_compare_mono_l.
Qed.

(** X17 on 256-bit integers: the texts of -1 and 1 have 79 characters and
    the text of -1 sorts first. *)
Lemma X17_encodeAsText_order_witness :
  ∃ ta tb,
    Encoding.encodeAsText (2 ^ 256 - 1) (- 2 ^ 255) (-1) = Some ta ∧
    Encoding.encodeAsText (2 ^ 256 - 1) (- 2 ^ 255) 1 = Some tb ∧
    String.length ta = 79%nat ∧
    String.compare ta tb = Lt.
Proof.
  eexists _, _. split; [vm_compute; reflexivity|]. split; [vm_compute; reflexivity|].
  apply (X17_encodeAsText_order (2 ^ 256 - 1) (- 2 ^ 255) (-1) 1).
  - by vm_compute.
  - by vm_compute.
  - vm_compute. reflexivity.
  - vm_compute. reflexivity.
Defined.

(** ** The database schema of a GraphQL schema: [createDbSchema] *)

Module DbSchema.

(** [TypeNode] of the GraphQL AST: a named type, a list type or a non-null
    type around another. *)
Inductive TypeNode : Type :=
  | NamedType (name : string)
  | ListType (type : TypeNode)
  | NonNullType (type : TypeNode).

(** [FieldDefinitionNode] and [GraphQLObjectType], as far as they are
    read. *)
Record FieldDefinitionNode : Type := mkFieldDefinitionNode {
  field_name : string;
  field_type : TypeNode;
}.

Record GraphQLObjectType : Type := mkGraphQLObjectType {
  entity_name : string;
  (** [entity.astNode?.fields] *)
  entity_fields : option (list FieldDefinitionNode);
}.

Record DbColumn : Type := mkDbColumn {
  column_name : string;
  column_type : string;
  column_notNull : bool;
}.

Record DbTable : Type := mkDbTable {
  table_name : string;
  table_columns : list DbColumn;
}.

(** [getColumnForField]; [None] where it throws: on a list type, and on a
    non-null type inside a non-null type, which has no [name] to read. *)
Definition getColumnForField (field : FieldDefinitionNode) : option DbColumn :=
  let '(notNull, type) :=
    match field_type field with
    | NonNullType type => (true, type)
    | type => (false, type)
    end in
  match type with
  | ListType _ => None
  | NamedType name =>
      Some {| column_name := field_name field; column_type := name; column_notNull := notNull |}
  | NonNullType _ => None
  end.

Definition getTableForEntity (entity : GraphQLObjectType) : option DbTable :=
  let fields := default [] (entity_fields entity) in
  columns ← mapM getColumnForField fields;
  Some {| table_name := entity_name entity; table_columns := columns |}.

(** [createDbSchema], given the entities [getEntities] finds. *)
Definition createDbSchema (entities : list GraphQLObjectType) : option (list DbTable) :=
  mapM getTableForEntity entities.

(** The fields [createDbSchema] can turn into columns. *)
Definition plain (field : FieldDefinitionNode) : Prop :=
  ∃ name, field_type field = NamedType name ∨ field_type field = NonNullType (NamedType name).

Lemma getColumnForField_is_Some field : is_Some (getColumnForField field) ↔ plain field.
Proof.
  unfold getColumnForField, plain. destruct (field_type field) as [name|t|[name|t|t]]; simpl.
  - split; [eauto|by eexists].
  - split; [by intros [? ?]|by intros (? & [?|?])].
  - split; [eauto|by eexists].
  - split; [by intros [? ?]|by intros (? & [?|?])].
  - split; [by intros [? ?]|by intros (? & [?|?])].
Qed.

Lemma getColumnForField_Some field column :
  getColumnForField field = Some column →
  column_name column = field_name field ∧
  (column_notNull column = true ∧ field_type field = NonNullType (NamedType (column_type column))
   ∨ column_notNull column = false ∧ field_type field = NamedType (column_type column)).
Proof.
  unfold getColumnForField. destruct (field_type field) as [name|t|[name|t|t]]; simpl;
    intros [= <-]; simpl; auto.
Qed.

Lemma getTableForEntity_is_Some entity :
  is_Some (getTableForEntity entity) ↔ Forall plain (default [] (entity_fields entity)).
Proof.
  unfold getTableForEntity.
  assert (is_Some (mapM getColumnForField (default [] (entity_fields entity))) ↔
          Forall plain (default [] (entity_fields entity))) as <-.
  { rewrite mapM_is_Some. apply Forall_iff. intros field. apply getColumnForField_is_Some. }
  destruct (mapM _ _); simpl; split; eauto; by intros [? ?].
Qed.

End DbSchema.

(** X18.  [createDbSchema] returns a schema exactly when every field of
    every entity has a named type, bare or directly inside a non-null type;
    a list type makes it throw.  The schema then has one table per entity,
    in order and under the entity's name, with one column per field, in
    order and under the field's name; the column's type is the name of the
    field's type, and it is not-null exactly when the field's type is
    wrapped in a non-null type. *)
Theorem X18_createDbSchema (entities : list DbSchema.GraphQLObjectType) :
  (is_Some (DbSchema.createDbSchema entities) ↔
   Forall (λ entity, Forall DbSchema.plain (default [] (DbSchema.entity_fields entity)))
     entities) ∧
  (∀ tables,
     DbSchema.createDbSchema entities = Some tables →
     Forall2 (λ entity table,
                DbSchema.table_name table = DbSchema.entity_name entity ∧
                Forall2 (λ field column,
                           DbSchema.column_name column = DbSchema.field_name field ∧
                           DbSchema.field_type field =
                             (if DbSchema.column_notNull column
                              then DbSchema.NonNullType
                                     (DbSchema.NamedType (DbSchema.column_type column))
                              else DbSchema.NamedType (DbSchema.column_type column)))
                  (default [] (DbSchema.entity_fields entity))
                  (DbSchema.table_columns table))
       entities tables).
Proof.
  split.
  - unfold DbSchema.createDbSchema. rewrite mapM_is_Some.
    apply Forall_iff. intros entity. apply DbSchema.getTableForEntity_is_Some.
  - intros tables Htables%mapM_Some_1.
    eapply Forall2_impl; [exact Htables|]. intros entity table. cbv beta.
    unfold DbSchema.getTableForEntity.
    destruct (mapM _ _) as [columns|] eqn:Hcolumns; [|done]. simpl. intros [= <-]. simpl.
    split; [done|]. apply mapM_Some_1 in Hcolumns.
    eapply Forall2_impl; [exact Hcolumns|]. intros field column Hcolumn.
    apply DbSchema.getColumnForField_Some in Hcolumn as [Hname [[-> ->]|[-> ->]]]; done.
Qed.

(** ** The application: one sync service per network *)

Module App.
Import BuildConfig.

Section SyncServices.
Context {Abi AbiEvents Transport FactoryOption FilterArgs Topics : Type}.

(** [this.syncServices] as [start_] builds it: each network with
    [sourcesForNetwork], the sources that name it. *)
Definition syncServices (networks : list Network) (sources : list (Source (Abi := Abi)
    (AbiEvents := AbiEvents) (Topics := Topics))) : list (Network * list Source) :=
  (λ network,
     (network,
      filter (λ source, networkName (sourceBase source) = net_name network) sources))
    <$> networks.

(** Filtering by each of a list of distinct keys splits a list whose keys
    are all among them. *)
Lemma filter_by_keys {A : Type} (key : A → string) (keys : list string) (l : list A) :
  NoDup keys → Forall (λ x, key x ∈ keys) l →
  concat ((λ k, filter (λ x, key x = k) l) <$> keys) ≡ₚ l.
Proof.
  revert l. induction keys as [|k keys IH]; intros l Hnd Hall.
  - destruct l as [|x l]; [done|]. apply Forall_cons in Hall as [?%elem_of_nil _]. done.
  - apply NoDup_cons in Hnd as [Hk Hnd]. cbn [fmap list_fmap concat].
    etrans; [|apply (filter_app_complement (λ x, key x = k) l)].
    apply Permutation_app_head.
    rewrite <- (IH (filter (λ x, ¬ key x = k) l) Hnd).
    + assert (∀ k', k' ∈ keys →
                filter (λ x, key x = k') (filter (λ x, ¬ key x = k) l)
                = filter (λ x, key x = k') l) as Heq.
      { intros k' Hk'. rewrite list_filter_filter. apply list_filter_iff.
        intros x. split; [tauto|]. intros Hx. split; [done|].
        intros Hxk. apply Hk. by rewrite <- Hxk, Hx. }
      clear -Heq. induction keys as [|k' keys IH]; [done|]. cbn [fmap list_fmap concat].
      rewrite Heq by (by left). rewrite IH; [done|]. intros k'' ?. apply Heq. by right.
    + apply Forall_forall. intros x [Hx Hin]%list_elem_of_filter.
      apply (proj1 (Forall_forall _ _) Hall) in Hin.
      by apply elem_of_cons in Hin as [?|?].
Qed.

(** The parts of a successful [buildConfig]. *)
Lemma buildConfig_Some_inv
    (getRpcUrlsForClient : string → Z → Transport → option (list string))
    (isRpcUrlPublic : string → bool)
    (getDefaultMaxBlockRange : Z → list string → Z)
    (getFinalityBlockCount : Z → Z)
    (buildAbiEvents : Abi → option AbiEvents)
    (bySafeName : AbiEvents → string → bool)
    (buildTopics : Abi → FilterOptions → option Topics)
    (buildFactoryCriteria : FactoryOption → option SyncStore.FactoryCriteria)
    (toLowerCase : string → string)
    (config : Config) (env : Env) (result : BuiltConfig) :
  buildConfig (FilterArgs := FilterArgs) getRpcUrlsForClient isRpcUrlPublic
    getDefaultMaxBlockRange getFinalityBlockCount buildAbiEvents bySafeName buildTopics
    buildFactoryCriteria toLowerCase config env = Some result →
  ∃ allNetworks,
    net_name <$> allNetworks = (networks config).*1 ∧
    built_networks result =
      filter (λ network,
                existsb (λ source, bool_decide (networkName (sourceBase source)
                                                = net_name network))
                  (built_sources result) = true) allNetworks ∧
    Forall (λ source, networkName (sourceBase source) ∈ net_name <$> allNetworks)
      (built_sources result).
Proof.
  unfold buildConfig. intros Hbuild.
  destruct (buildDatabase _ _) as [[databaseConfig databaseLogs]|]; [|done].
  cbn [mbind option_bind] in Hbuild.
  destruct (mapM _ (networks config)) as [builtNetworks|] eqn:Hnets; [|done].
  cbn [mbind option_bind] in Hbuild.
  destruct (mapM _ (contracts config)) as [raws|]; [|done].
  cbn [mbind option_bind] in Hbuild.
  destruct (mapM _ (concat raws)) as [sources|] eqn:Hsources; [|done].
  cbn [mbind option_bind] in Hbuild. injection Hbuild as <-.
  exists builtNetworks.*1. cbn [built_networks built_sources]. split_and!; [|done|].
  - apply mapM_Some_1 in Hnets. clear -Hnets.
    induction Hnets as [|[name options] [network logs] l k Hnet _ IH]; [done|].
    apply buildNetwork_Some in Hnet as [Hname _]. cbn. by rewrite Hname, IH.
  - apply Forall_forall. intros source Hin.
    destruct (mapM_Some_elem _ _ _ _ Hsources Hin) as (rawContract & _ & Hsrc).
    apply buildSource_Some in Hsrc as ((network & Hnet & Hname & _) & _ & _ & Hnetwork & _).
    rewrite Hnetwork, <- Hname. by apply list_elem_of_fmap_2.
Qed.

End SyncServices.
End App.

(** X19.  Every source is synced by exactly one sync service.  For a
    configuration with distinct network names that [buildConfig] accepts,
    [start_] makes one sync service per returned network; none of them is
    without sources, and their source lists together hold every source of
    the configuration exactly once. *)
Theorem X19_syncServices_cover_sources
    {Abi AbiEvents Transport FactoryOption FilterArgs Topics : Type}
    (getRpcUrlsForClient : string → Z → Transport → option (list string))
    (isRpcUrlPublic : string → bool)
    (getDefaultMaxBlockRange : Z → list string → Z)
    (getFinalityBlockCount : Z → Z)
    (buildAbiEvents : Abi → option AbiEvents)
    (bySafeName : AbiEvents → string → bool)
    (buildTopics : Abi → BuildConfig.FilterOptions → option Topics)
    (buildFactoryCriteria : FactoryOption → option SyncStore.FactoryCriteria)
    (toLowerCase : string → string)
    (config : BuildConfig.Config) (env : BuildConfig.Env)
    (result : BuildConfig.BuiltConfig) :
  BuildConfig.buildConfig (FilterArgs := FilterArgs) getRpcUrlsForClient isRpcUrlPublic
    getDefaultMaxBlockRange getFinalityBlockCount buildAbiEvents bySafeName buildTopics
    buildFactoryCriteria toLowerCase config env = Some result →
  NoDup (BuildConfig.networks config).*1 →
  let services :=
    App.syncServices (BuildConfig.built_networks result) (BuildConfig.built_sources result) in
  services.*1 = BuildConfig.built_networks result ∧
  Forall (λ service, service.2 ≠ []) services ∧
  concat services.*2 ≡ₚ BuildConfig.built_sources result.
Proof.
  intros Hbuild Hnd services.
  destruct (App.buildConfig_Some_inv _ _ _ _ _ _ _ _ _ _ _ _ Hbuild)
    as (allNetworks & Hnames & Hnetworks & Hsources).
  set (sources := BuildConfig.built_sources result) in *.
  set (nameOf := λ source : BuildConfig.Source (Abi := Abi) (AbiEvents := AbiEvents)
                                (Topics := Topics),
         BuildConfig.networkName (BuildConfig.sourceBase source)).
  assert (∀ network, network ∈ BuildConfig.built_networks result ↔
            network ∈ allNetworks ∧
            ∃ source, source ∈ sources ∧ nameOf source = BuildConfig.net_name network)
    as Hkept.
  { intros network. rewrite Hnetworks, list_elem_of_filter, existsb_exists.
    split.
    - intros [(source & Hs & Hname) Hin]. split; [done|]. exists source.
      split; [by apply list_elem_of_In|by apply bool_decide_eq_true in Hname].
    - intros [Hin (source & Hs & Hname)]. split; [|done]. exists source.
      split; [by apply list_elem_of_In|by apply bool_decide_eq_true]. }
  split_and!.
  - unfold services, App.syncServices. rewrite <- list_fmap_compose.
    by rewrite list_fmap_id.
  - apply Forall_fmap, Forall_forall. intros network Hin. cbn.
    apply Hkept in Hin as (_ & source & Hs & Hname). intros Hnil.
    assert (source ∈ filter (λ source, nameOf source = BuildConfig.net_name network) sources)
      as Hin by (by apply list_elem_of_filter).
    unfold nameOf in Hin. rewrite Hnil in Hin. by apply elem_of_nil in Hin.
  - unfold services, App.syncServices. rewrite <- list_fmap_compose.
    assert (NoDup (BuildConfig.net_name <$> BuildConfig.built_networks result)) as Hnd'.
    { rewrite Hnetworks. eapply sublist_NoDup; [|apply fmap_sublist, sublist_filter].
      by rewrite Hnames. }
    rewrite <- (App.filter_by_keys nameOf
                  (BuildConfig.net_name <$> BuildConfig.built_networks result) sources Hnd').
    + by rewrite <- list_fmap_compose.
    + apply Forall_forall. intros source Hin.
      pose proof (proj1 (Forall_forall _ _) Hsources source Hin) as Hname.
      apply list_elem_of_fmap in Hname as (network & Hname & Hnet).
      apply list_elem_of_fmap. exists network. split; [done|]. apply Hkept. eauto.
Qed.

(** X19 on the example configuration: one sync service, for mainnet, with
    the token's source. *)
Lemma X19_syncServices_cover_sources_witness :
  ∃ result,
    exampleBuild = Some result ∧
    length (App.syncServices (BuildConfig.built_networks result)
              (BuildConfig.built_sources result)) = 1%nat ∧
    concat (App.syncServices (BuildConfig.built_networks result)
              (BuildConfig.built_sources result)).*2
      ≡ₚ BuildConfig.built_sources result.
Proof.
  destruct exampleBuild as [result|] eqn:Hbuild; [|by vm_compute in Hbuild].
  exists result. split; [done|].
  destruct (X19_syncServices_cover_sources _ _ _ _ _ _ _ _ _ _ _ _ Hbuild)
    as (Hnetworks & _ & Hall).
  - apply (bool_decide_unpack _). by vm_compute.
  - split; [|exact Hall].
    assert (result = default result exampleBuild) as Hresult by (by rewrite Hbuild).
    rewrite Hresult. by vm_compute.
Defined.

(** ** Sync store: which stored logs become events *)

Module EventSelection.
Import Checkpoint SyncStore SyncStoreWrites EventFilters.

(** The row of [logs LEFT JOIN blocks LEFT JOIN transactions] for a log when
    hashes are unique: the log with its block and its transaction. *)
Definition joinedRow (blocks : list BlockRow) (transactions : list TransactionRow)
    (l : LogRow) : JoinedRow :=
  {| jr_log := l;
     jr_block := head (filter (λ b, block_hash b = log_blockHash l) blocks);
     jr_tx := head (filter (λ t, tx_hash t = log_transactionHash l) transactions) |}.

Lemma filter_unique {A K : Type} `{EqDecision K} (key : A → K) (k : K) (l : list A) :
  NoDup (key <$> l) → (length (filter (λ x, key x = k) l) <= 1)%nat.
Proof.
  induction l as [|x l IH]; [simpl; lia|].
  rewrite fmap_cons. intros [Hx Hnd]%NoDup_cons. rewrite filter_cons.
  destruct (decide (key x = k)) as [<-|]; [|by apply IH].
  rewrite EventPages.filter_nothing; [simpl; lia|].
  apply Forall_forall. intros y Hy Heq. apply Hx. rewrite <- Heq.
  by apply list_elem_of_fmap_2.
Qed.

Lemma leftJoin_unique {A B K : Type} `{EqDecision K} (keyA : A → K) (keyB : B → K)
    (xs : list A) (ys : list B) :
  NoDup (keyB <$> ys) →
  leftJoin (λ x y, bool_decide (keyB y = keyA x)) xs ys =
  (λ x, (x, head (filter (λ y, keyB y = keyA x) ys))) <$> xs.
Proof.
  intros Hnd. unfold leftJoin. induction xs as [|x xs IH]; [done|].
  cbn [mbind list_bind fmap list_fmap]. rewrite <- IH. clear IH.
  replace (filter (λ y, bool_decide (keyB y = keyA x) = true) ys)
    with (filter (λ y, keyB y = keyA x) ys)
    by (apply list_filter_iff; intros y; by rewrite bool_decide_eq_true).
  pose proof (filter_unique keyB (keyA x) ys Hnd) as Hlen.
  destruct (filter (λ y, keyB y = keyA x) ys) as [|y [|y' ms]]; simpl in *; [done..|lia].
Qed.

Lemma joinLogs_unique logs blocks transactions :
  NoDup (block_hash <$> blocks) → NoDup (tx_hash <$> transactions) →
  joinLogs logs blocks transactions = joinedRow blocks transactions <$> logs.
Proof.
  intros Hblocks Htxs. unfold joinLogs.
  rewrite (leftJoin_unique log_blockHash block_hash logs blocks Hblocks).
  rewrite (leftJoin_unique (λ lb : LogRow * option BlockRow, log_transactionHash lb.1)
             tx_hash _ transactions Htxs).
  induction logs as [|l logs IH]; [done|]. cbn. by rewrite <- IH.
Qed.

Lemma filter_fmap_log {A B : Type} (f : A → B) (P : B → Prop) `{∀ y, Decision (P y)}
    (l : list A) :
  filter P (f <$> l) = f <$> filter (P ∘ f) l.
Proof.
  induction l as [|x l IH]; [done|]. rewrite fmap_cons, !filter_cons. unfold compose at 1.
  destruct (decide (P (f x))); by rewrite IH.
Qed.

(** New logs with fresh, distinct ids are all stored, after the old ones. *)
Lemma insertOrIgnore_fresh {A K : Type} `{EqDecision K} (key : A → K) (rows new : list A) :
  NoDup (key <$> (rows ++ new)) → insertOrIgnore key rows new = rows ++ new.
Proof.
  revert rows. induction new as [|r new IH]; intros rows Hnd; [by rewrite app_nil_r|].
  rewrite insertOrIgnore_cons.
  replace (rows ++ r :: new) with ((rows ++ [r]) ++ new) in * by (by rewrite <- app_assoc).
  rewrite decide_False; [by apply IH|].
  rewrite !fmap_app in Hnd. apply NoDup_app in Hnd as (Hnd & _ & _).
  apply NoDup_app in Hnd as (_ & Hdisj & _). intros Hin.
  apply (Hdisj _ Hin). by left.
Qed.

End EventSelection.

(** X20.  The children that newly stored creation logs announce.  When the
    ids of the given logs are distinct and not yet stored,
    [insertFactoryChildAddressLogs] appends them, with the chain id set, to
    the stored logs; the child addresses that [getLogEvents] accepts for a
    factory of that chain are then those it accepted before together with
    the child addresses of the given logs that have the factory's address
    and creation event, and for a factory of another chain they are as
    before. *)
Theorem X20_insertFactoryChildAddressLogs_children
    (chainId : Z) (logs : list SyncStore.LogRow) (db : SyncStore.Store)
    (factory : EventFilters.FactoryRequest) :
  NoDup (SyncStore.log_id <$> (SyncStore.logs db ++ logs)) →
  let db' := SyncStoreWrites.insertFactoryChildAddressLogs chainId logs db in
  SyncStore.logs db' = SyncStore.logs db ++ (SyncStoreWrites.logOfChain chainId <$> logs) ∧
  EventFilters.childAddressSubquery (SyncStore.logs db') factory =
    EventFilters.childAddressSubquery (SyncStore.logs db) factory ++
    (if decide (EventFilters.fr_chainId factory = chainId)
     then SyncStore.buildFactoryChildAddressSelectExpression
            (SyncStore.fc_childAddressLocation (EventFilters.fr_criteria factory))
            <$> filter (λ l, SyncStore.log_address l
                               = SyncStore.fc_address (EventFilters.fr_criteria factory) ∧
                             SyncStore.log_topic0 l
                               = Some (SyncStore.fc_eventSelector
                                         (EventFilters.fr_criteria factory)))
                  logs
     else []).
Proof.
  intros Hnd db'.
  assert (SyncStore.logs db'
          = SyncStore.logs db ++ (SyncStoreWrites.logOfChain chainId <$> logs)) as Hlogs.
  { unfold db', SyncStoreWrites.insertFactoryChildAddressLogs. cbn [SyncStore.logs].
    apply EventSelection.insertOrIgnore_fresh.
    rewrite fmap_app, <- list_fmap_compose.
    by rewrite fmap_app in Hnd. }
  split; [exact Hlogs|].
  unfold EventFilters.childAddressSubquery. rewrite Hlogs, filter_app, fmap_app.
  f_equal. rewrite EventSelection.filter_fmap_log, <- list_fmap_compose.
  destruct (decide (EventFilters.fr_chainId factory = chainId)) as [Hchain|Hchain].
  - assert (filter
              ((λ l, SyncStore.log_chainId l = EventFilters.fr_chainId factory
                     ∧ SyncStore.log_address l
                         = SyncStore.fc_address (EventFilters.fr_criteria factory)
                     ∧ SyncStore.log_topic0 l
                         = Some (SyncStore.fc_eventSelector (EventFilters.fr_criteria factory)))
               ∘ SyncStoreWrites.logOfChain chainId) logs
            = filter (λ l, SyncStore.log_address l
                             = SyncStore.fc_address (EventFilters.fr_criteria factory) ∧
                           SyncStore.log_topic0 l
                             = Some (SyncStore.fc_eventSelector
                                       (EventFilters.fr_criteria factory))) logs) as ->.
    { apply list_filter_iff. intros l. unfold compose. simpl. split; [tauto|].
      intros [? ?]. by split_and!. }
    apply list_fmap_ext. intros i l _. unfold compose.
    by destruct (SyncStore.fc_childAddressLocation (EventFilters.fr_criteria factory)).
  - rewrite EventPages.filter_nothing; [done|].
    apply Forall_forall. intros l _. unfold compose. simpl. intros [? _]. congruence.
Qed.

(** X20 on the three creation logs of the factory scenario, stored into an
    empty store: the factory's child addresses are those of the three
    logs. *)
Lemma X20_insertFactoryChildAddressLogs_children_witness :
  EventFilters.childAddressSubquery
    (SyncStore.logs
       (SyncStoreWrites.insertFactoryChildAddressLogs 1 threeChildrenInOneBlock
          (storeOf [] [])))
    (EventFilters.mkFactoryRequest "factory" 1 childFactory None None "0xsel") =
  [childAddress "a"; childAddress "b"; childAddress "c"].
Proof.
  destruct (X20_insertFactoryChildAddressLogs_children 1 threeChildrenInOneBlock
              (storeOf [] [])
              (EventFilters.mkFactoryRequest "factory" 1 childFactory None None "0xsel"))
    as [_ ->].
  - apply (bool_decide_unpack _). by vm_compute.
  - by vm_compute.
Defined.

(** X21.  [getLogEvents] returns each selected log exactly once.  When block
    hashes and transaction hashes are unique in the store and a page has no
    next page, the logs of its events are, each exactly once, the stored
    logs whose block is stored, that pass the filter clause of the request,
    and whose checkpoint is after [fromCheckpoint] and not after
    [toCheckpoint]; a log whose block is not stored is never returned. *)
Theorem X21_getLogEvents_each_log_once
    (JSON_parse : string → option SyncStore.JSONValue)
    (filterCmprs : SyncStore.JoinedRow → SyncStore.tri)
    (logs : list SyncStore.LogRow) (blocks : list SyncStore.BlockRow)
    (transactions : list SyncStore.TransactionRow)
    (fromCheckpoint toCheckpoint : Checkpoint.Checkpoint) (limit : nat)
    (res : SyncStore.LogEventsResult) :
  NoDup (SyncStore.block_hash <$> blocks) →
  NoDup (SyncStore.tx_hash <$> transactions) →
  SyncStore.getLogEvents JSON_parse filterCmprs logs blocks transactions
    fromCheckpoint toCheckpoint limit = Some res →
  SyncStore.hasNextPage res = false →
  SyncStore.ev_log <$> SyncStore.events res ≡ₚ
  filter (λ l,
            let r := EventSelection.joinedRow blocks transactions l in
            is_Some (SyncStore.jr_block r) ∧
            SyncStore.sqlHolds (filterCmprs r) = true ∧
            Checkpoint.lt fromCheckpoint (SyncStore.rowCheckpoint r) ∧
            Checkpoint.le (SyncStore.rowCheckpoint r) toCheckpoint)
    logs.
Proof.
  intros Hblocks Htxs Hpage Hnext.
  apply EventPages.getLogEvents_Some in Hpage
    as [[_ (evs & Hevs & ->)]|[_ (r & evs & _ & _ & ->)]]; [|done].
  cbn [SyncStore.events]. apply SyncStore.mapM_rowToEvent in Hevs as [-> _].
  unfold SyncStore.orderBy. rewrite merge_sort_Permutation.
  unfold SyncStore.requestedRows.
  rewrite (EventSelection.joinLogs_unique logs blocks transactions Hblocks Htxs).
  rewrite !list_filter_filter, EventSelection.filter_fmap_log, <- list_fmap_compose.
  assert (∀ l : list SyncStore.LogRow,
            SyncStore.jr_log ∘ EventSelection.joinedRow blocks transactions <$> l = l) as Hid.
  { intros l. induction l as [|x l IH]; [done|]. cbn. by rewrite IH. }
  rewrite Hid.
  match goal with |- ?X ≡ₚ ?Y => assert (X = Y) as ->; [|done] end.
  apply list_filter_iff. intros l. unfold compose. cbv zeta.
  rewrite SyncStore.buildCheckpointCmprs_gt, SyncStore.buildCheckpointCmprs_le.
  unfold Checkpoint.lt, Checkpoint.le. tauto.
Qed.

(** X21 on the three logs of the scenario, two in block 5 and one in
    block 6: all three are returned, each once. *)
Lemma X21_getLogEvents_each_log_once_witness :
  ∃ res,
    SyncStore.getLogEvents noJSON anyLog scenarioLogs scenarioBlocks scenarioTransactions
      Checkpoint.zeroCheckpoint wholeChain 10 = Some res ∧
    SyncStore.ev_log <$> SyncStore.events res ≡ₚ scenarioLogs.
Proof.
  eexists. split; [vm_compute; reflexivity|].
  etrans.
  - apply (X21_getLogEvents_each_log_once noJSON anyLog scenarioLogs scenarioBlocks
             scenarioTransactions Checkpoint.zeroCheckpoint wholeChain 10).
    + apply (bool_decide_unpack _). by vm_compute.
    + apply (bool_decide_unpack _). by vm_compute.
    + vm_compute. reflexivity.
    + reflexivity.
  - by vm_compute.
Defined.

(** ** Indexing service: which functions are loaded, and how much *)

Module Loading.
Import Checkpoint Indexing.

Section LoadKeys.
Variable gatewayCheckpoint : Checkpoint.

Local Abbreviation fullLoaded := (isIndexingFunctionFullLoaded gatewayCheckpoint).

Lemma neverLoaded_not_full state :
  lastEventCheckpoint state = None → fullLoaded state = false.
Proof. unfold isIndexingFunctionFullLoaded. by intros ->. Qed.

(** The fold of [calculateTaskBatchSize]: the budget never grows, and the
    count stays above the entries still to come that could lower it. *)
Lemma calculateTaskBatchSize_fold key (states : list (string * IndexingFunctionState))
    total unfinished :
  ∀ total' unfinished',
  foldl (λ '(totalBatchSize, unfinishedCount) '(indexingFunctionKey, state),
           if decide (key = indexingFunctionKey) then (totalBatchSize, unfinishedCount)
           else if fullLoaded state
                then (totalBatchSize - Z.of_nat (length (loadedTasks state)),
                      unfinishedCount - 1)
                else (totalBatchSize, unfinishedCount))
    (total, unfinished) states = (total', unfinished') →
  total' <= total ∧
  unfinished - Z.of_nat (length (filter (λ kst, kst.1 ≠ key) states)) <= unfinished'.
Proof.
  revert total unfinished. induction states as [|[k st] states IH];
    intros total unfinished total' unfinished'.
  - simpl. intros [= <- <-]. lia.
  - cbn [foldl]. rewrite filter_cons. cbn [fst].
    destruct (decide (key = k)) as [->|Hne].
    + rewrite decide_False by (by intros ?). apply IH.
    + rewrite decide_True by (by intros ->).
      destruct (fullLoaded st); intros Hfold; apply IH in Hfold; simpl; lia.
Qed.

Lemma others_length key (states : list (string * IndexingFunctionState)) :
  NoDup states.*1 → key ∈ states.*1 →
  (length (filter (λ kst : string * IndexingFunctionState, kst.1 ≠ key) states)
   < length states)%nat.
Proof.
  intros Hnd Hkey. induction states as [|[k st] states IH]; [by apply elem_of_nil in Hkey|].
  rewrite filter_cons. cbn [fst]. destruct (decide (k ≠ key)) as [Hne|Heq].
  - rewrite fmap_cons in Hnd, Hkey. apply NoDup_cons in Hnd as [_ Hnd].
    apply elem_of_cons in Hkey as [->|Hkey]; [done|]. simpl. specialize (IH Hnd Hkey). lia.
  - pose proof (length_filter (λ kst : string * IndexingFunctionState, kst.1 ≠ key) states).
    simpl. lia.
Qed.

End LoadKeys.
End Loading.

(** X22.  Which functions are loaded, and with what batch size.  A key that
    [getLoadKeys] returns has an entry that is not fully loaded, so a fully
    loaded function is never loaded again.  An entry that has never been
    loaded and has an empty buffer is always returned, so after a reset
    every function is loaded.  While every entry has buffered tasks or is
    fully loaded, nothing is returned.  With unique keys, the batch size
    computed for a key that has an entry is at most [MAX_BATCH_SIZE]. *)
Theorem X22_getLoadKeys (gatewayCheckpoint : Checkpoint.Checkpoint)
    (states : Indexing.States) :
  (∀ key, key ∈ Indexing.getLoadKeys gatewayCheckpoint states →
     ∃ state, (key, state) ∈ states ∧
       Indexing.isIndexingFunctionFullLoaded gatewayCheckpoint state = false) ∧
  (∀ key state, (key, state) ∈ states →
     Indexing.lastEventCheckpoint state = None → Indexing.loadedTasks state = [] →
     key ∈ Indexing.getLoadKeys gatewayCheckpoint states) ∧
  (Forall (λ kst : string * Indexing.IndexingFunctionState,
             Indexing.loadedTasks kst.2 ≠ [] ∨
             Indexing.isIndexingFunctionFullLoaded gatewayCheckpoint kst.2 = true) states →
   Indexing.getLoadKeys gatewayCheckpoint states = []) ∧
  (∀ key, NoDup states.*1 → key ∈ states.*1 →
     Indexing.calculateTaskBatchSize gatewayCheckpoint key states
       <= Indexing.MAX_BATCH_SIZE).
Proof.
  split_and!.
  - intros key. unfold Indexing.getLoadKeys.
    destruct (list_find _ states) as [[i [emptyKey emptyState]]|]; [|by intros ?%elem_of_nil].
    intros ([k state] & -> & Hin)%list_elem_of_fmap.
    apply list_elem_of_filter in Hin as [Hload Hin]. exists state. split; [done|].
    destruct Hload as [Hnever|[Hnot _]]; [by apply Loading.neverLoaded_not_full|done].
  - intros key state Hin Hnever Hempty. unfold Indexing.getLoadKeys.
    destruct (list_find _ states) as [[i [emptyKey emptyState]]|] eqn:Hfind.
    + apply (list_elem_of_fmap_2 fst _ (key, state)).
      apply list_elem_of_filter. split; [by left|done].
    + exfalso. apply list_find_None in Hfind.
      apply (proj1 (Forall_forall _ _) Hfind (key, state) Hin). split; [done|].
      by apply Loading.neverLoaded_not_full.
  - intros Hall. unfold Indexing.getLoadKeys.
    destruct (list_find _ states) as [[i [emptyKey emptyState]]|] eqn:Hfind; [|done].
    apply list_find_Some in Hfind as (Hi & [Hempty Hnot] & _).
    apply list_elem_of_lookup_2 in Hi.
    apply (proj1 (Forall_forall _ _) Hall) in Hi as [?|?]; simpl in *; congruence.
  - intros key Hnd Hkey. unfold Indexing.calculateTaskBatchSize.
    pose proof (Loading.others_length key states Hnd Hkey) as Hothers.
    destruct (foldl _ _ states) as [totalBatchSize unfinishedCount] eqn:Hfold.
    apply Loading.calculateTaskBatchSize_fold in Hfold as [Htotal Hcount].
    apply Z.div_le_upper_bound; [lia|]. unfold Indexing.MAX_BATCH_SIZE in *. nia.
Qed.
